(** * codex_cc_switch: failover core of the multi-upstream LLM proxy

    A shallow embedding of the pool selector, the error recorder, the error
    classifier, the retry loop, the adaptive timeout, the thinking-block
    stream translation, the request-dialect detector and the usage store of
    [app.py], [config_manager.py], [openai_adapter.py] and [token_stats.py],
    with the properties of the specification stated over it.

    Conventions.  A [datetime] is a number of seconds ([Z]); a [timedelta]
    of [n] seconds is [n].  Python dictionaries used as maps are [gmap]s,
    dictionaries with a fixed set of keys are records, [None] is [None].
    [print] calls and log strings are left out: they read the state and do
    not change it.  A Python exception is the [Raise] result. *)

From Stdlib Require Import ZArith Lia.
From stdpp Require Import gmap strings list fin_maps pretty.

Local Open Scope Z_scope.

(** ** Python results and list indexing *)

Inductive exn := IndexError | KeyError | ValueError | RuntimeError | HttpxError.

Inductive result (A : Type) :=
| Ok (a : A)
| Raise (e : exn).
Arguments Ok {A} a.
Arguments Raise {A} e.

#[global] Instance result_ret : MRet result := fun _ a => Ok a.

#[global] Instance result_bind : MBind result := fun _ _ k r =>
  match r with
  | Ok a => k a
  | Raise e => Raise e
  end.

(** [l[i]] for a Python list: negative indices count from the end. *)
Definition py_index {A} (l : list A) (i : Z) : result A :=
  let n := Z.of_nat (length l) in
  let j := if bool_decide (i < 0) then n + i else i in
  if bool_decide (0 <= j < n) then
    match l !! Z.to_nat j with
    | Some a => Ok a
    | None => Raise IndexError
    end
  else Raise IndexError.

(** ** Pool state  (app.py, lines 38-74 and 96-132) *)

Module Pool.

(** One configured backend, as the selector reads it.  The optional fields
    are the keys read with [cfg.get]. *)
Record api_config := {
  cfg_name : string;
  cfg_base_url : string;
  cfg_key : string;
  cfg_type : option string;
  cfg_enabled : option bool;
  cfg_time_enabled : option (list bool)
}.

#[global] Instance api_config_eq_dec : EqDecision api_config.
Proof. solve_decision. Defined.

Inductive status_kind := normal | warning.

(** A value of [api_status] / [codex_api_status]. *)
Record api_state := {
  status : status_kind;
  error_count : Z;
  cooldown_until : option Z
}.

Definition fresh_state : api_state :=
  {| status := normal; error_count := 0; cooldown_until := None |}.

(** The module-level globals of one pool.  The messages pool is
    [API_CONFIGS], [api_status], [current_config_index], [is_using_backup],
    [backup_start_time], [last_primary_check_time] and
    [last_primary_switch_time]; the responses pool is the same record for the
    [CODEX_CONFIGS] / [codex_*] globals, which have no switch time. *)
Record pool := {
  configs : list api_config;
  api_status : gmap Z api_state;
  current_config_index : Z;
  is_using_backup : bool;
  backup_start_time : option Z;
  last_primary_check_time : option Z;
  last_primary_switch_time : Z
}.

Definition set_status (d : gmap Z api_state) (p : pool) : pool :=
  {| configs := configs p; api_status := d;
     current_config_index := current_config_index p;
     is_using_backup := is_using_backup p;
     backup_start_time := backup_start_time p;
     last_primary_check_time := last_primary_check_time p;
     last_primary_switch_time := last_primary_switch_time p |}.

Definition set_index (i : Z) (p : pool) : pool :=
  {| configs := configs p; api_status := api_status p;
     current_config_index := i;
     is_using_backup := is_using_backup p;
     backup_start_time := backup_start_time p;
     last_primary_check_time := last_primary_check_time p;
     last_primary_switch_time := last_primary_switch_time p |}.

Definition set_backup (b : bool) (started checked : option Z) (p : pool) : pool :=
  {| configs := configs p; api_status := api_status p;
     current_config_index := current_config_index p;
     is_using_backup := b;
     backup_start_time := started;
     last_primary_check_time := checked;
     last_primary_switch_time := last_primary_switch_time p |}.

Definition set_switch_time (t : Z) (p : pool) : pool :=
  {| configs := configs p; api_status := api_status p;
     current_config_index := current_config_index p;
     is_using_backup := is_using_backup p;
     backup_start_time := backup_start_time p;
     last_primary_check_time := last_primary_check_time p;
     last_primary_switch_time := t |}.

(** The timeout settings the core reads ([TimeoutConfig], lines 1401-1465). *)
Record settings := {
  api_error_threshold : Z;
  codex_error_threshold : Z;
  api_cooldown_seconds : Z;
  primary_api_check_interval : Z;
  max_retries : Z
}.

Definition get_api_error_threshold (s : settings) : Z :=
  if bool_decide (0 < api_error_threshold s) then api_error_threshold s else 1.

Definition get_codex_error_threshold (s : settings) : Z :=
  if bool_decide (0 < codex_error_threshold s) then codex_error_threshold s else 1.

Definition get_max_retries (s : settings) : Z :=
  if bool_decide (0 < max_retries s) then max_retries s else 1.

(** [_init_status_dict]: one fresh record per index. *)
Definition _init_status_dict (cfgs : list api_config) : gmap Z api_state :=
  list_to_map (imap (fun i _ => (Z.of_nat i, fresh_state)) cfgs).

(** [_record_error_core] (lines 50-73).  The status dictionary is updated
    in place before the log message is formatted; formatting reads
    [configs[api_index]['name']] and raises [IndexError] when the index is
    outside the list, after the update has been made.  The result is the
    outcome of the formatting together with the updated dictionary.  The
    [error_code] argument is not read by the function. *)
Definition _record_error_core (api_index error_code : Z) (now : Z)
    (status_dict : gmap Z api_state) (cfgs : list api_config)
    (threshold cooldown_seconds : Z) : result unit * gmap Z api_state :=
  let status_dict :=
    match status_dict !! api_index with
    | Some _ => status_dict
    | None => <[api_index := fresh_state]> status_dict
    end in
  let st := default fresh_state (status_dict !! api_index) in
  let st := {| status := status st; error_count := error_count st + 1;
               cooldown_until := cooldown_until st |} in
  let st :=
    if bool_decide (threshold <= error_count st) then
      {| status := warning; error_count := error_count st;
         cooldown_until := Some (now + cooldown_seconds) |}
    else st in
  (_ ← py_index cfgs api_index; Ok tt, <[api_index := st]> status_dict).

Definition record_api_error (s : settings) (now : Z) (api_index error_code : Z)
    (p : pool) : result unit * pool :=
  let '(r, d) := _record_error_core api_index error_code now (api_status p) (configs p)
                   (get_api_error_threshold s) (api_cooldown_seconds s) in
  (r, set_status d p).

Definition record_codex_error (s : settings) (now : Z) (api_index error_code : Z)
    (p : pool) : result unit * pool :=
  let '(r, d) := _record_error_core api_index error_code now (api_status p) (configs p)
                   (get_codex_error_threshold s) (api_cooldown_seconds s) in
  (r, set_status d p).

(** What the recorder and the selector see for an index: an absent record
    counts as a fresh one (line 57, lines 700-701). *)
Definition state_of (d : gmap Z api_state) (i : Z) : api_state :=
  default fresh_state (d !! i).

(** The pool after a call of the recorder of either pool, and the threshold
    that recorder reads. *)
Definition recorded (s : settings) (codex : bool) (now api_index error_code : Z)
    (p : pool) : pool :=
  if codex then (record_codex_error s now api_index error_code p).2
  else (record_api_error s now api_index error_code p).2.

Definition threshold_of (s : settings) (codex : bool) : Z :=
  if codex then get_codex_error_threshold s else get_api_error_threshold s.

(** *** Availability  (lines 260-297 and 677-719) *)

(** [datetime.weekday()]: Monday is 0.  Day 0 of the time line is a
    Thursday, as for Unix time. *)
Definition weekday (now : Z) : nat := Z.to_nat ((now / 86400 + 3) mod 7).

(** The day gate: [time_enabled[weekday]] when the list is non-empty and
    long enough; a missing key is the all-ones list. *)
Definition day_allowed (now : Z) (c : api_config) : bool :=
  let time_enabled := default (replicate 7 true) (cfg_time_enabled c) in
  match time_enabled with
  | [] => true
  | _ =>
    match time_enabled !! weekday now with
    | Some b => b
    | None => true
    end
  end.

(** [is_api_available]: when the cooldown deadline has passed, the record
    of the entry is reset on the way.  The callers pass indices produced by
    [enumerate], hence a [nat]. *)
Definition is_api_available (now : Z) (api_index : nat) (p : pool) : bool * pool :=
  match configs p !! api_index with
  | None => (false, p)
  | Some api_config =>
    if negb (default true (cfg_enabled api_config)) then (false, p)
    else if negb (day_allowed now api_config) then (false, p)
    else
      match api_status p !! Z.of_nat api_index with
      | None => (true, p)
      | Some st =>
        match cooldown_until st with
        | None => (true, p)
        | Some t =>
          if bool_decide (now < t) then (false, p)
          else (true, set_status (<[Z.of_nat api_index := fresh_state]> (api_status p)) p)
        end
      end
  end.

(** [is_codex_api_available] is the same text over the responses pool. *)
Definition is_codex_api_available := is_api_available.

(** [[i for i, cfg in enumerate(configs) if P(cfg)]], counting from [i]. *)
Fixpoint indices_from (P : api_config -> bool) (i : nat) (cfgs : list api_config)
  : list nat :=
  match cfgs with
  | [] => []
  | cfg :: rest =>
    if P cfg then i :: indices_from P (S i) rest else indices_from P (S i) rest
  end.

Definition is_primary (cfg : api_config) : bool :=
  bool_decide (default "primary"%string (cfg_type cfg) = "primary"%string).

Definition is_backup (cfg : api_config) : bool :=
  bool_decide (cfg_type cfg = Some "backup"%string).

Definition _get_primary_indices (cfgs : list api_config) : list nat :=
  indices_from is_primary 0 cfgs.

Definition _get_backup_indices (cfgs : list api_config) : list nat :=
  indices_from is_backup 0 cfgs.

Definition get_primary_api_indices (p : pool) : list nat :=
  _get_primary_indices (configs p).

Definition get_backup_api_indices (p : pool) : list nat :=
  _get_backup_indices (configs p).

(** [get_codex_backup_api_indices] (lines 308-311): without a backup entry
    the last entry of a pool of two or more stands in. *)
Definition get_codex_backup_api_indices (p : pool) : list nat :=
  match _get_backup_indices (configs p) with
  | [] => if bool_decide (1 < length (configs p))%nat
          then [(length (configs p) - 1)%nat] else []
  | backup_indices => backup_indices
  end.

(** [for idx in idxs: if is_api_available(idx): return idx]. *)
Fixpoint first_available (now : Z) (idxs : list nat) (p : pool) : option nat * pool :=
  match idxs with
  | [] => (None, p)
  | idx :: rest =>
    let '(ok, p) := is_api_available now idx p in
    if ok then (Some idx, p) else first_available now rest p
  end.

(** [[idx for idx in idxs if is_api_available(idx)]]. *)
Fixpoint available_indices (now : Z) (idxs : list nat) (p : pool) : list nat * pool :=
  match idxs with
  | [] => ([], p)
  | idx :: rest =>
    let '(ok, p) := is_api_available now idx p in
    let '(l, p) := available_indices now rest p in
    (if ok then idx :: l else l, p)
  end.

Definition get_first_available_primary_api_index (now : Z) (p : pool)
  : option nat * pool :=
  first_available now (get_primary_api_indices p) p.

Definition get_first_available_primary_codex_index := get_first_available_primary_api_index.

(** [find_primary_api_for_time] (lines 156-163). *)
Definition find_primary_api_for_time (now : Z) (p : pool) : option nat * pool :=
  match get_primary_api_indices p with
  | [] => (None, p)
  | first :: _ =>
    let '(found, p) := get_first_available_primary_api_index now p in
    (Some (default first found), p)
  end.

(** [ensure_current_api_index] (lines 165-186). *)
Definition ensure_current_api_index (current_time : Z) (reset_backup_state : bool)
    (p : pool) : pool :=
  match configs p with
  | [] => set_backup false None None (set_index (-1) p)
  | _ :: _ =>
    let '(preferred, p) := find_primary_api_for_time current_time p in
    let preferred := default 0%nat preferred in
    if bool_decide (preferred < length (configs p))%nat then
      let p := set_index (Z.of_nat preferred) p in
      let p := if reset_backup_state || is_using_backup p
               then set_backup false None None p else p in
      set_switch_time current_time p
    else p
  end.

Definition index_out_of_range (p : pool) : bool :=
  bool_decide (current_config_index p < 0)
  || bool_decide (Z.of_nat (length (configs p)) <= current_config_index p).

(** The dictionary returned for an empty pool. *)
Definition placeholder : api_config :=
  {| cfg_name := "未配置"; cfg_base_url := ""; cfg_key := "";
     cfg_type := None; cfg_enabled := None; cfg_time_enabled := None |}.

Definition should_check (interval now : Z) (p : pool) : bool :=
  match last_primary_check_time p with
  | None => true
  | Some t => bool_decide (interval <= now - t)
  end.

Definition current_entry (p : pool) : result api_config :=
  py_index (configs p) (current_config_index p).

(** *** The selectors *)

(** [get_current_config] (lines 402-485), the selector of the messages
    pool.  The whole body runs under [key_switch_lock] with one [now]. *)
Definition get_current_config (s : settings) (now : Z) (p : pool)
  : result api_config * pool :=
  match configs p with
  | [] => (Ok placeholder, p)
  | _ :: _ =>
    let p :=
      if index_out_of_range p then
        let p := ensure_current_api_index now true p in
        if index_out_of_range p then set_index 0 p else p
      else p in
    let primary_indices := get_primary_api_indices p in
    let backup_indices := get_backup_api_indices p in
    let '(available_primary_indices, p) := available_indices now primary_indices p in
    if is_using_backup p then
      let check := should_check (primary_api_check_interval s) now p in
      let p := if check
               then set_backup (is_using_backup p) (backup_start_time p) (Some now) p
               else p in
      match (if check then head available_primary_indices else None) with
      | Some target_idx =>
        let p := set_backup false None None p in
        let p := set_switch_time now p in
        let p := set_index (Z.of_nat target_idx) p in
        (current_entry p, p)
      | None =>
        let '(found, p) := first_available now backup_indices p in
        match found with
        | Some backup_idx =>
          let p := if bool_decide (current_config_index p <> Z.of_nat backup_idx)
                   then set_backup (is_using_backup p) (Some now) None p else p in
          let p := set_index (Z.of_nat backup_idx) p in
          let p := set_backup true (backup_start_time p) (last_primary_check_time p) p in
          (current_entry p, p)
        | None => (current_entry p, p)
        end
      end
    else
      match available_primary_indices with
      | selected_index :: _ =>
        let p := if bool_decide (current_config_index p <> Z.of_nat selected_index)
                 then set_switch_time now p else p in
        let p := set_backup false None None p in
        let p := set_index (Z.of_nat selected_index) p in
        (current_entry p, p)
      | [] =>
        let '(found, p) := first_available now backup_indices p in
        match found with
        | Some backup_idx =>
          let p := if bool_decide (current_config_index p <> Z.of_nat backup_idx)
                      || negb (is_using_backup p)
                   then set_switch_time now p else p in
          let p := set_backup true (Some now) None p in
          let p := set_index (Z.of_nat backup_idx) p in
          (current_entry p, p)
        | None => (current_entry p, p)
        end
      end
  end.

(** [get_current_codex_config] (lines 313-400), the selector of the
    responses pool.  An empty pool and a pool of one entry return before the
    lock is taken and before any global is read or written. *)
Definition get_current_codex_config (s : settings) (now : Z) (p : pool)
  : result api_config * pool :=
  match configs p with
  | [] => (Ok placeholder, p)
  | [only] => (Ok only, p)
  | _ :: _ :: _ =>
    let primary_indices := get_primary_api_indices p in
    let backup_indices := get_codex_backup_api_indices p in
    let p :=
      if index_out_of_range p then
        let '(initial_primary, p) := get_first_available_primary_codex_index now p in
        match initial_primary, primary_indices with
        | Some i, _ => set_index (Z.of_nat i) p
        | None, first :: _ => set_index (Z.of_nat first) p
        | None, [] => set_index 0 p
        end
      else p in
    let '(available_primary_indices, p) := available_indices now primary_indices p in
    if is_using_backup p then
      let check := should_check (primary_api_check_interval s) now p in
      let p := if check
               then set_backup (is_using_backup p) (backup_start_time p) (Some now) p
               else p in
      match (if check then head available_primary_indices else None) with
      | Some target_idx =>
        let p := set_backup false None None p in
        let p := set_index (Z.of_nat target_idx) p in
        (current_entry p, p)
      | None =>
        let '(found, p) := first_available now backup_indices p in
        match found with
        | Some backup_idx =>
          let p := if bool_decide (current_config_index p <> Z.of_nat backup_idx)
                   then set_backup (is_using_backup p) (Some now) None p else p in
          let p := set_index (Z.of_nat backup_idx) p in
          let p := set_backup true (backup_start_time p) (last_primary_check_time p) p in
          (current_entry p, p)
        | None => (current_entry p, p)
        end
      end
    else
      match available_primary_indices with
      | selected_index :: _ =>
        let p := set_index (Z.of_nat selected_index) p in
        let p := set_backup false None None p in
        (current_entry p, p)
      | [] =>
        let '(found, p) := first_available now backup_indices p in
        match found with
        | Some backup_idx =>
          let p := set_backup true (Some now) None p in
          let p := set_index (Z.of_nat backup_idx) p in
          (current_entry p, p)
        | None => (current_entry p, p)
        end
      end
  end.

(** The selector of either pool. *)
Definition select (codex : bool) (s : settings) (now : Z) (p : pool)
  : result api_config * pool :=
  if codex then get_current_codex_config s now p else get_current_config s now p.

(** The pools on which the selector re-normalizes an index that is out of
    range: every messages pool that is not empty, and the responses pools of
    two or more entries. *)
Definition renormalizes (codex : bool) (p : pool) : Prop :=
  if codex then (2 <= length (configs p))%nat else configs p <> [].

#[global] Instance renormalizes_dec codex p : Decision (renormalizes codex p).
Proof. destruct codex; unfold renormalizes; apply _. Defined.

(** Availability as a predicate on a pool state, without the reset that
    [is_api_available] performs on the way: enabled, allowed today, and not
    cooling down at [now]. *)
Definition available (now : Z) (p : pool) (i : nat) : Prop :=
  (is_api_available now i p).1 = true.

Definition primary_at (p : pool) (i : nat) : Prop :=
  exists cfg, configs p !! i = Some cfg /\ is_primary cfg = true.

(** *** Switching after errors  (lines 745-811) *)

(** [smart_switch_api]: below the threshold nothing is switched; at or above
    it the pool moves to a recovered primary (only when already on backup),
    else to the first available backup, else it is forced onto the first
    backup (or the last entry).  The reads of [API_CONFIGS[...]['name']] for
    the log lines raise [IndexError] on an index outside the list. *)
Definition smart_switch_api (s : settings) (now : Z) (current_api_index : Z)
    (p : pool) : result (bool * Z) * pool :=
  match api_status p !! current_api_index with
  | None => (Raise KeyError, p)
  | Some st =>
    if bool_decide (error_count st < get_api_error_threshold s)
    then (Ok (false, current_api_index), p)
    else
      match py_index (configs p) current_api_index with
      | Raise e => (Raise e, p)
      | Ok _ =>
        let '(recovered, p) :=
          if is_using_backup p then
            let '(primary_index, p) := get_first_available_primary_api_index now p in
            match primary_index with
            | Some i =>
              let '(ok, p) := is_api_available now i p in
              (if ok then Some i else None, p)
            | None => (None, p)
            end
          else (None, p) in
        match recovered with
        | Some primary_index =>
          let p := set_backup false None (last_primary_check_time p) p in
          let p := set_index (Z.of_nat primary_index) p in
          (Ok (true, Z.of_nat primary_index), p)
        | None =>
          let backup_indices := get_backup_api_indices p in
          let '(found, p) := first_available now backup_indices p in
          match found with
          | Some backup_idx =>
            match current_entry p with
            | Raise e => (Raise e, p)
            | Ok _ =>
              let p := set_backup true (Some now) None p in
              let p := set_index (Z.of_nat backup_idx) p in
              (Ok (true, Z.of_nat backup_idx), p)
            end
          | None =>
            let p := set_backup true (Some now) None p in
            let backup_idx :=
              match backup_indices with
              | b :: _ => Z.of_nat b
              | [] => Z.of_nat (length (configs p)) - 1
              end in
            let p := set_index backup_idx p in
            match py_index (configs p) backup_idx with
            | Raise e => (Raise e, p)
            | Ok _ => (Ok (true, backup_idx), p)
            end
          end
        end
      end
  end.

(** *** Reset after a successful response  (lines 4059-4082) *)

Definition needs_reset (st : api_state) : bool :=
  bool_decide (0 < error_count st) || bool_decide (cooldown_until st <> None).

(** The branch [upstream_resp.status_code < 400].  For the messages pool
    the record is read with [api_status[current_api_index]] ([KeyError] when
    absent) and the log line reads the entry's name after the update; for the
    responses pool the update is guarded by
    [current_codex_index < len(CODEX_CONFIGS) and current_codex_index in
    codex_api_status]. *)
Definition reset_on_success (is_codex_request : bool) (p : pool)
  : result unit * pool :=
  let i := current_config_index p in
  if is_codex_request then
    if bool_decide (i < Z.of_nat (length (configs p))) then
      match api_status p !! i with
      | None => (Ok tt, p)
      | Some st =>
        if needs_reset st then
          (_ ← py_index (configs p) i; Ok tt,
           set_status (<[i := fresh_state]> (api_status p)) p)
        else (Ok tt, p)
      end
    else (Ok tt, p)
  else
    match api_status p !! i with
    | None => (Raise KeyError, p)
    | Some st =>
      if needs_reset st then
        (_ ← py_index (configs p) i; Ok tt,
         set_status (<[i := fresh_state]> (api_status p)) p)
      else (Ok tt, p)
    end.

(** Two pool states that differ at most in the status records. *)
Definition frame (p p' : pool) : Prop :=
  configs p' = configs p /\
  current_config_index p' = current_config_index p /\
  is_using_backup p' = is_using_backup p /\
  backup_start_time p' = backup_start_time p /\
  last_primary_check_time p' = last_primary_check_time p /\
  last_primary_switch_time p' = last_primary_switch_time p.

(** Two pool states with the same entries, in which the same entries are
    available at [now]. *)
Definition same_avail (now : Z) (p p' : pool) : Prop :=
  configs p' = configs p /\
  forall i, (is_api_available now i p').1 = (is_api_available now i p).1.

(** The invariant of the status records: an error count is not negative,
    and [status] is [warning] only while a cooldown deadline is set. *)
Definition status_inv (d : gmap Z api_state) : Prop :=
  forall i st, d !! i = Some st ->
    0 <= error_count st /\ (cooldown_until st = None -> status st = normal).

End Pool.

(** ** Error classifier  (app.py 647-675 and 1481-1493, config_manager.py 947-984) *)

Module Classifier.

Local Open Scope string_scope.

(** The [error_handling_strategies] section of the configuration file: each
    of its two tables may be missing. *)
Record stored_strategies := {
  stored_http_status_codes : option (gmap string string);
  stored_network_errors : option (gmap string string)
}.

Record strategies := {
  http_status_codes : gmap string string;
  network_errors : gmap string string
}.

Definition default_http_status_codes : gmap string string :=
  list_to_map
    [("400", "strategy_retry"); ("404", "strategy_retry"); ("408", "strategy_retry");
     ("429", "strategy_retry"); ("500", "strategy_retry"); ("502", "strategy_retry");
     ("503", "strategy_retry"); ("504", "strategy_retry"); ("520", "strategy_retry");
     ("521", "strategy_retry"); ("522", "strategy_retry"); ("524", "strategy_retry");
     ("401", "switch_api"); ("403", "switch_api");
     ("default", "strategy_retry")].

Definition default_network_errors : gmap string string :=
  list_to_map
    [("ReadError", "switch_api"); ("ConnectError", "switch_api");
     ("ReadTimeout", "strategy_retry"); ("default", "switch_api")].

(** [dict.update]: the stored entries win over the built-in ones. *)
Definition update (defaults : gmap string string) (stored : option (gmap string string))
  : gmap string string :=
  match stored with
  | Some t => t ∪ defaults
  | None => defaults
  end.

(** [ConfigManager.get_error_handling_strategies]. *)
Definition get_error_handling_strategies (stored : stored_strategies) : strategies :=
  {| http_status_codes := update default_http_status_codes (stored_http_status_codes stored);
     network_errors := update default_network_errors (stored_network_errors stored) |}.

(** An error code is an HTTP status (a number) or the name of a transport
    exception. *)
Inductive error_code := http_code (n : Z) | error_name (kind : string).

(** [str(error_code)]. *)
Definition str (c : error_code) : string :=
  match c with
  | http_code n => pretty n
  | error_name kind => kind
  end.

(** [dict.get(key)] with the key as the caller passes it: a number is never
    equal to a string key. *)
Definition get_raw (t : gmap string string) (c : error_code) : option string :=
  match c with
  | http_code _ => None
  | error_name kind => t !! kind
  end.

(** [get_error_strategy] over the table [config_mgr] returns. *)
Definition get_error_strategy (strategies : strategies) (c : error_code)
    (error_type : string) : option string :=
  if bool_decide (error_type = "http_status_code") then
    let http_codes := http_status_codes strategies in
    match http_codes !! str c with
    | Some strategy => Some strategy
    | None => http_codes !! "default"
    end
  else if bool_decide (error_type = "network_error") then
    let network_errors := network_errors strategies in
    match get_raw network_errors c with
    | Some strategy => Some strategy
    | None => network_errors !! "default"
    end
  else None.

(** [TimeoutConfig.get_network_error_strategy]. *)
Definition get_network_error_strategy (stored : stored_strategies)
    (error_type : string) : string :=
  default "switch_api" (network_errors (get_error_handling_strategies stored) !! error_type).

(** The outcome the classifier is asked about, and the classifier: the
    caller's choice of [error_type] follows the kind of outcome. *)
Inductive outcome := HttpStatus (n : Z) | TransportError (kind : string).

Definition classify (stored : stored_strategies) (o : outcome) : option string :=
  let strategies := get_error_handling_strategies stored in
  match o with
  | HttpStatus n => get_error_strategy strategies (http_code n) "http_status_code"
  | TransportError kind => get_error_strategy strategies (error_name kind) "network_error"
  end.

(** The table an outcome is looked up in, its key, and the built-in
    fallback of that table. *)
Definition matching_table (stored : stored_strategies) (o : outcome) : gmap string string :=
  match o with
  | HttpStatus _ => http_status_codes (get_error_handling_strategies stored)
  | TransportError _ => network_errors (get_error_handling_strategies stored)
  end.

Definition configured_table (stored : stored_strategies) (o : outcome)
  : option (gmap string string) :=
  match o with
  | HttpStatus _ => stored_http_status_codes stored
  | TransportError _ => stored_network_errors stored
  end.

Definition key_of (o : outcome) : string :=
  match o with
  | HttpStatus n => pretty n
  | TransportError kind => kind
  end.

Definition hard_coded_fallback (o : outcome) : string :=
  match o with
  | HttpStatus _ => "strategy_retry"
  | TransportError _ => "switch_api"
  end.

Definition transport_kinds : list string := ["ReadError"; "ConnectError"; "ReadTimeout"].

End Classifier.

(** ** Retry loop of the messages pool  (app.py, [reverse_proxy], lines 3287-4309)

    The model follows a request of a native Anthropic client to the
    messages pool ([is_codex_request = False], [base_url_override = None],
    a valid user key).  Every upstream send draws its outcome from [world],
    indexed by the number of sends made so far, and is appended to
    [attempts].  One [now] stands for the clock during the request.  Request
    bodies, header details other than the credential, sleeps and client
    objects (apart from whether [retry_client] is closed) are left out. *)

Module Orchestrator.
Import Pool.

(** What a send yields: a response with a status, or an [httpx.RequestError]. *)
Inductive outcome :=
| Status (code : Z)
| ReadError
| ConnectError
| ReadTimeout
| OtherRequestError.

Inductive strategy := switch_api | strategy_retry | normal_retry.

Inductive timeout_kind := standard_timeout | strategy_retry_timeout.

Inductive attempt_kind :=
| main_attempt (retry_attempt : nat)
| switch_attempt (retry_attempt : nat)
| ladder_attempt (retry_attempt : nat)
| extended_attempt
| final_switch_attempt.

Record attempt := {
  att_kind : attempt_kind;
  att_base_url : string;
  att_key : string;
  att_timeout : timeout_kind
}.

(** An entry of [READ_TIMEOUT_RETRY_CONFIGS]. *)
Record retry_config := {
  rc_name : string;
  rc_base_url : string;
  rc_key : string
}.

(** The pool together with the local variables of [reverse_proxy] that the
    loop reads and writes. *)
Record loop_state := {
  ls_pool : pool;
  upstream_url : string;
  authorization : string;
  last_error_status_code : option Z;
  last_error_strategy : option strategy;
  should_record_error_after_retry : bool;
  retry_client_closed : bool;
  attempts : list attempt
}.

Definition set_pool (p : pool) (st : loop_state) : loop_state :=
  {| ls_pool := p; upstream_url := upstream_url st;
     authorization := authorization st;
     last_error_status_code := last_error_status_code st;
     last_error_strategy := last_error_strategy st;
     should_record_error_after_retry := should_record_error_after_retry st;
     retry_client_closed := retry_client_closed st;
     attempts := attempts st |}.

Definition set_upstream_url (u : string) (st : loop_state) : loop_state :=
  {| ls_pool := ls_pool st; upstream_url := u;
     authorization := authorization st;
     last_error_status_code := last_error_status_code st;
     last_error_strategy := last_error_strategy st;
     should_record_error_after_retry := should_record_error_after_retry st;
     retry_client_closed := retry_client_closed st;
     attempts := attempts st |}.

Definition set_authorization (k : string) (st : loop_state) : loop_state :=
  {| ls_pool := ls_pool st; upstream_url := upstream_url st;
     authorization := k;
     last_error_status_code := last_error_status_code st;
     last_error_strategy := last_error_strategy st;
     should_record_error_after_retry := should_record_error_after_retry st;
     retry_client_closed := retry_client_closed st;
     attempts := attempts st |}.

Definition set_last_error (code : option Z) (strat : option strategy)
    (st : loop_state) : loop_state :=
  {| ls_pool := ls_pool st; upstream_url := upstream_url st;
     authorization := authorization st;
     last_error_status_code := code;
     last_error_strategy := strat;
     should_record_error_after_retry := true;
     retry_client_closed := retry_client_closed st;
     attempts := attempts st |}.

Definition set_client_closed (b : bool) (st : loop_state) : loop_state :=
  {| ls_pool := ls_pool st; upstream_url := upstream_url st;
     authorization := authorization st;
     last_error_status_code := last_error_status_code st;
     last_error_strategy := last_error_strategy st;
     should_record_error_after_retry := should_record_error_after_retry st;
     retry_client_closed := b;
     attempts := attempts st |}.

Definition add_attempt (a : attempt) (st : loop_state) : loop_state :=
  {| ls_pool := ls_pool st; upstream_url := upstream_url st;
     authorization := authorization st;
     last_error_status_code := last_error_status_code st;
     last_error_strategy := last_error_strategy st;
     should_record_error_after_retry := should_record_error_after_retry st;
     retry_client_closed := retry_client_closed st;
     attempts := attempts st ++ [a] |}.

(** The state-and-exception monad of the request handler. *)
Definition M (A : Type) : Type := loop_state -> result A * loop_state.

#[global] Instance M_ret : MRet M := fun _ a st => (Ok a, st).

#[global] Instance M_bind : MBind M := fun _ _ k m st =>
  match m st with
  | (Ok a, st') => k a st'
  | (Raise e, st') => (Raise e, st')
  end.

Definition get : M loop_state := fun st => (Ok st, st).

Definition modify (f : loop_state -> loop_state) : M unit := fun st => (Ok tt, f st).

Definition throw {A} (e : exn) : M A := fun st => (Raise e, st).

(** [try: m except Exception: h]. *)
Definition catch {A} (m h : M A) : M A := fun st =>
  match m st with
  | (Raise _, st') => h st'
  | r => r
  end.

Definition on_pool {A} (f : pool -> result A * pool) : M A := fun st =>
  let '(r, p) := f (ls_pool st) in (r, set_pool p st).

(** The three outcomes of one pass through the body of the [for] loop, and
    the two ways the loop is left. *)
Inductive flow := Continue | Break (status : Z) | Return502.

Inductive loop_exit := Responded (status : Z) | Returned502.

Inductive extended_result := ExtSuccess (status : Z) | ExtOther (status : Z) | ExtNone.

Definition is_ladder (a : attempt) : bool :=
  match att_kind a with
  | ladder_attempt _ => true
  | _ => false
  end.

Definition ladder_attempts (l : list attempt) : list attempt :=
  List.filter is_ladder l.

Section Request.

(** The configuration snapshot of the request: the timeout settings, the
    three status-code lists computed from the strategy table (lines 1472-1479
    and 3455-3460), the strategies of the three transport errors
    ([TimeoutConfig.get_network_error_strategy]), the retry ladder, and the
    clock; and the behaviour of the upstreams. *)
Variable s : settings.
Variable now : Z.
Variable strategy_retry_status_codes switch_api_codes no_retry_codes : list Z.
Variable read_error_strategy connect_error_strategy read_timeout_strategy : string.
Variable READ_TIMEOUT_RETRY_CONFIGS : list retry_config.
Variable world : nat -> outcome.

Definition send (k : attempt_kind) (base_url key : string) (tk : timeout_kind)
  : M outcome := fun st =>
  (Ok (world (length (attempts st))),
   add_attempt {| att_kind := k; att_base_url := base_url; att_key := key;
                  att_timeout := tk |} st).

(** [validate_and_replace_user_key] for the key of [USER_KEY_MAPPING]: the
    credential comes from [get_current_api_key], a selection. *)
Definition validate_and_replace_user_key : M unit :=
  cfg ← on_pool (get_current_config s now);
  modify (set_authorization (cfg_key cfg)).

(** [build_upstream_url] without a base-URL override: another selection. *)
Definition build_upstream_url : M string :=
  cfg ← on_pool (get_current_config s now);
  mret (cfg_base_url cfg).

(** [get_current_api_info], printed after a switch: a selection followed by
    [API_CONFIGS.index(config)]. *)
Definition get_current_api_info : M unit :=
  cfg ← on_pool (get_current_config s now);
  st ← get;
  if bool_decide (cfg ∈ configs (ls_pool st)) then mret tt else throw ValueError.

Definition record_current (error_code : Z) : M unit :=
  on_pool (fun p => record_api_error s now (current_config_index p) error_code p).

Definition smart_switch (error_code : Z) : M bool :=
  r ← on_pool (fun p => smart_switch_api s now (current_config_index p) p);
  mret r.1.

(** Truth value of [last_error_status_code]. *)
Definition truthy (code : option Z) : bool :=
  match code with
  | Some c => bool_decide (c <> 0)
  | None => false
  end.

(** The error recorded once for the request (lines 3893-3908 and
    4226-4241). *)
Definition record_after_retry : M unit :=
  st ← get;
  if should_record_error_after_retry st then
    match last_error_strategy st, last_error_status_code st with
    | Some switch_api, Some c =>
      if truthy (Some c) then record_current c else mret tt
    | Some strategy_retry, _ => record_current 503
    | Some normal_retry, Some c =>
      if truthy (Some c) then record_current c else mret tt
    | _, _ => mret tt
    end
  else mret tt.

(** The attempt on rung [retry_attempt] of the ladder (lines 3786-3872):
    its own URL and credential, the strategy-retry timeout.  [Some] is a
    response below 400. *)
Definition strategy_retry_attempt (retry_attempt : nat) : M (option Z) :=
  match READ_TIMEOUT_RETRY_CONFIGS !! retry_attempt with
  | Some retry_config =>
    o ← send (ladder_attempt retry_attempt) (rc_base_url retry_config)
          (rc_key retry_config) strategy_retry_timeout;
    match o with
    | Status code =>
      if bool_decide (code < 400)
      then _ ← modify (set_client_closed false); mret (Some code)
      else mret None
    | _ => mret None
    end
  | None => mret None
  end.

(** The handling of a [ReadError] or [ConnectError] whose strategy is
    [error_strategy] (lines 3592-3760). *)
Definition on_network_error (retry_attempt : nat) (error_strategy : string)
  : M (option Z) :=
  _ ← (if bool_decide (error_strategy = "normal_retry"%string)
       then modify (set_last_error (Some 503) (Some normal_retry))
       else mret tt);
  if bool_decide (error_strategy = "switch_api"%string) then
    switch_success ← smart_switch 503;
    if switch_success : bool then
      _ ← validate_and_replace_user_key;
      new_upstream_url ← build_upstream_url;
      st ← get;
      catch
        (o ← send (switch_attempt retry_attempt) new_upstream_url
               (authorization st) standard_timeout;
         match o with
         | Status code =>
           if bool_decide (code < 400)
           then _ ← modify (set_client_closed false); mret (Some code)
           else mret None
         | _ => throw HttpxError
         end)
        (mret None)
    else mret None
  else mret None.

(** The last-resort loop inside the [except] block (lines 3926-4049). *)
Fixpoint extended_retry (fuel : nat) : M (option Z) :=
  match fuel with
  | O => mret None
  | S fuel =>
    switch_success ← smart_switch 503;
    if switch_success : bool then
      r ← catch
            (_ ← validate_and_replace_user_key;
             url ← build_upstream_url;
             _ ← modify (set_upstream_url url);
             _ ← get_current_api_info;
             st ← get;
             o ← send extended_attempt (upstream_url st) (authorization st)
                   standard_timeout;
             match o with
             | Status code =>
               if bool_decide (code < 400)
               then _ ← modify (set_client_closed false); mret (Some code)
               else _ ← record_current code; mret None
             | _ => throw HttpxError
             end)
            (_ ← record_current 503; mret None);
      match r with
      | Some code => mret (Some code)
      | None => extended_retry fuel
      end
    else mret None
  end.

(** The end of the [except] block on the last pass (lines 3887-4049). *)
Definition final_failure : M flow :=
  _ ← record_after_retry;
  if bool_decide (switch_api_codes <> []) then
    st ← get;
    r ← extended_retry (3 * length (configs (ls_pool st)));
    match r with
    | Some code => mret (Break code)
    | None => mret Return502
    end
  else mret Return502.

Definition is_strategy_error (e : outcome) : bool :=
  match e with
  | Status _ => true
  | ReadTimeout => bool_decide (read_timeout_strategy = "strategy_retry"%string)
  | ReadError => bool_decide (read_error_strategy = "strategy_retry"%string)
  | ConnectError => bool_decide (connect_error_strategy = "strategy_retry"%string)
  | OtherRequestError => false
  end.

(** The [except (httpx.HTTPStatusError, httpx.RequestError)] block (lines
    3582-4049).  [Status] stands for the [HTTPStatusError] raised for a
    strategy-retry status; [rest] is the number of passes left after this
    one. *)
Definition handler (retry_attempt rest : nat) (e : outcome) : M flow :=
  _ ← modify (set_client_closed true);
  r1 ← match e with
       | ReadError => on_network_error retry_attempt read_error_strategy
       | _ => mret None
       end;
  match r1 with
  | Some code => mret (Break code)
  | None =>
    r2 ← match e with
         | ConnectError => on_network_error retry_attempt connect_error_strategy
         | _ => mret None
         end;
    match r2 with
    | Some code => mret (Break code)
    | None =>
      r3 ← (if is_strategy_error e then
              r ← strategy_retry_attempt retry_attempt;
              match r with
              | Some code => mret (Some code)
              | None =>
                st ← get;
                _ ← modify (set_last_error (last_error_status_code st)
                              (Some strategy_retry));
                mret None
              end
            else mret None);
      match r3 with
      | Some code => mret (Break code)
      | None =>
        match rest with
        | S _ => mret Continue
        | O => final_failure
        end
      end
    end
  end.

(** One pass through the body of [for retry_attempt in range(max_retries)]
    (lines 3306-3581).  A [continue] on the last pass leaves the loop with
    the response of that pass. *)
Definition iteration (retry_attempt rest : nat) : M flow :=
  _ ← on_pool (get_current_config s now);
  st ← get;
  o ← send (main_attempt retry_attempt) (upstream_url st) (authorization st)
        standard_timeout;
  match o with
  | Status status_code =>
    if bool_decide (status_code ∈ strategy_retry_status_codes) then
      handler retry_attempt rest (Status status_code)
    else if bool_decide (status_code ∈ no_retry_codes) then
      _ ← record_current status_code;
      mret (Break status_code)
    else if bool_decide (status_code ∈ switch_api_codes) then
      _ ← modify (set_last_error (Some status_code) (Some switch_api));
      switch_success ← smart_switch status_code;
      _ ← modify (set_client_closed true);
      _ ← (if switch_success : bool then
             _ ← validate_and_replace_user_key;
             url ← build_upstream_url;
             _ ← modify (set_upstream_url url);
             get_current_api_info
           else mret tt);
      match rest with
      | S _ => mret Continue
      | O => mret (Break status_code)
      end
    else if bool_decide (status_code < 400) then mret (Break status_code)
    else
      match rest with
      | S _ => _ ← modify (set_client_closed true); mret Continue
      | O => mret (Break status_code)
      end
  | e => handler retry_attempt rest e
  end.

Fixpoint attempt_loop (rest retry_attempt : nat) : M loop_exit :=
  f ← iteration retry_attempt rest;
  match f with
  | Break status => mret (Responded status)
  | Return502 => mret Returned502
  | Continue =>
    match rest with
    | S rest => attempt_loop rest (S retry_attempt)
    | O => mret Returned502
    end
  end.

(** The last-resort loop after the [for] loop (lines 4106-4219), entered
    with the failed status: a response that is an error of another kind
    ends it and becomes the response. *)
Fixpoint extended_retry_after (failed_status_code : Z) (fuel : nat)
  : M extended_result :=
  match fuel with
  | O => mret ExtNone
  | S fuel =>
    switch_success ← smart_switch failed_status_code;
    if switch_success : bool then
      r ← catch
            (_ ← validate_and_replace_user_key;
             url ← build_upstream_url;
             _ ← modify (set_upstream_url url);
             _ ← get_current_api_info;
             st ← get;
             o ← send extended_attempt (upstream_url st) (authorization st)
                   standard_timeout;
             match o with
             | Status code =>
               if bool_decide (code < 400)
               then _ ← modify (set_client_closed false); mret (ExtSuccess code)
               else if bool_decide (code ∈ switch_api_codes)
               then _ ← record_current code; mret ExtNone
               else _ ← modify (set_client_closed false); mret (ExtOther code)
             | _ => throw HttpxError
             end)
            (_ ← record_current 503; mret ExtNone);
      match r with
      | ExtNone => extended_retry_after failed_status_code fuel
      | r => mret r
      end
    else mret ExtNone
  end.

(** The retry after a final 401 or 403 (lines 4250-4309): it reuses
    [retry_client], and whatever it raises is swallowed. *)
Definition final_switch_retry (status_code : Z) : M Z :=
  switch_success ← smart_switch status_code;
  if switch_success : bool then
    _ ← validate_and_replace_user_key;
    catch
      (new_upstream_url ← build_upstream_url;
       _ ← on_pool (get_current_config s now);
       st ← get;
       if retry_client_closed st then throw RuntimeError
       else
         o ← send final_switch_attempt new_upstream_url (authorization st)
               standard_timeout;
         match o with
         | Status code => mret code
         | _ => throw HttpxError
         end)
      (mret status_code)
  else mret status_code.

(** The code after the loop (lines 4059-4309): the status of the response
    that goes on to the client. *)
Definition after_loop (status_code : Z) : M Z :=
  status_code ←
    (if bool_decide (status_code < 400) then
       _ ← on_pool (reset_on_success false);
       mret status_code
     else
       status_code ←
         (if bool_decide (status_code ∈ switch_api_codes) then
            st ← get;
            r ← extended_retry_after status_code (3 * length (configs (ls_pool st)));
            match r with
            | ExtSuccess code | ExtOther code => mret code
            | ExtNone => mret status_code
            end
          else mret status_code);
       _ ← (if bool_decide (400 <= status_code) then record_after_retry else mret tt);
       mret status_code);
  if bool_decide (400 <= status_code) then
    if bool_decide (status_code ∈ [401; 403]) then final_switch_retry status_code
    else mret status_code
  else mret status_code.

(** What the client gets: an upstream response, or the proxy's own 502. *)
Inductive served := Upstream (status : Z) | BadGateway.

(** A request: the credential and URL are derived before the loop (lines
    2948, 2975 and 3258), then the loop runs [max_retries] passes, then the
    code after the loop. *)
Definition handle_request : M served :=
  _ ← validate_and_replace_user_key;
  _ ← get_current_api_info;
  url ← build_upstream_url;
  _ ← modify (set_upstream_url url);
  exit ← attempt_loop (Z.to_nat (get_max_retries s) - 1) 0;
  match exit with
  | Responded status => status ← after_loop status; mret (Upstream status)
  | Returned502 => mret BadGateway
  end.

End Request.

(** A ladder attempt that goes to the rung of its pass, with that rung's
    URL and credential and the strategy-retry timeout. *)
Definition good_rung (ladder : list retry_config) (a : attempt) : Prop :=
  match att_kind a with
  | ladder_attempt i =>
    exists rung, ladder !! i = Some rung /\
      att_base_url a = rc_base_url rung /\ att_key a = rc_key rung /\
      att_timeout a = strategy_retry_timeout
  | _ => True
  end.

(** A computation that sends at most [n] ladder attempts, each of them to
    the rung of its pass, and only appends to the log of attempts. *)
Definition adds (ladder : list retry_config) (n : nat) {A} (m : M A) : Prop :=
  forall st, exists extra,
    attempts (m st).2 = attempts st ++ extra /\
    Forall (good_rung ladder) extra /\
    (length (ladder_attempts extra) <= n)%nat.

(** The ladder attempts a pass may make: one when the ladder has a rung for
    it. *)
Definition rung_budget (ladder : list retry_config) (retry_attempt : nat) : nat :=
  if bool_decide (retry_attempt < length ladder)%nat then 1%nat else 0%nat.

Definition initial_loop_state (p : pool) : loop_state :=
  {| ls_pool := p; upstream_url := ""; authorization := "";
     last_error_status_code := None; last_error_strategy := None;
     should_record_error_after_retry := false;
     retry_client_closed := false; attempts := [] |}.

End Orchestrator.

(** ** Adaptive timeout of the responses pool
       (app.py 98-100, [stream_generator] 4463-4539 and 4713-4777) *)

Module AdaptiveTimeout.

(** The two globals guarded by [codex_timeout_lock]. *)
Record timeout_state := {
  codex_timeout_extra_seconds : Z;
  codex_success_count : Z
}.

(** [stream_total_timeout = codex_base_timeout + current_extra_seconds]. *)
Definition stream_total_timeout (codex_base_timeout : Z) (st : timeout_state) : Z :=
  codex_base_timeout + codex_timeout_extra_seconds st.

(** What the upstream iterator delivers, each with its arrival time counted
    from [stream_start_time]: a chunk, the end of the stream, or an
    exception. *)
Inductive stream_event :=
| chunk
| end_of_stream
| httpx_read_timeout
| connection_error
| other_error.

(** How [stream_generator] leaves its read loop. *)
Inductive stream_end :=
| completed
| total_timeout
| read_timeout
| interrupted
| failed.

(** The read loop for a responses request (lines 4488-4539).  [elapsed] is
    the time of the loop head; the wait for the next event is cut at
    [remaining = stream_total_timeout - elapsed].  An upstream that delivers
    nothing more lets the wait expire. *)
Fixpoint read_stream (total elapsed : Z) (events : list (Z * stream_event))
  : stream_end :=
  if bool_decide (total - elapsed <= 0) then total_timeout
  else
    match events with
    | [] => total_timeout
    | (arrival, ev) :: rest =>
      if bool_decide (total <= arrival) then total_timeout
      else
        match ev with
        | chunk => read_stream total arrival rest
        | end_of_stream => completed
        | httpx_read_timeout => read_timeout
        | connection_error => interrupted
        | other_error => failed
        end
    end.

(** The update made on a timeout (lines 4504-4508, 4525-4529, 4729-4733). *)
Definition on_timeout (codex_increment : Z) (st : timeout_state) : timeout_state :=
  {| codex_timeout_extra_seconds := codex_timeout_extra_seconds st + codex_increment;
     codex_success_count := 0 |}.

(** The [finally] block when [connection_interrupted] is false (lines
    4766-4777). *)
Definition on_success (st : timeout_state) : timeout_state :=
  if bool_decide (0 < codex_timeout_extra_seconds st) then
    let count := codex_success_count st + 1 in
    if bool_decide (3 <= count) then
      {| codex_timeout_extra_seconds := 0; codex_success_count := 0 |}
    else
      {| codex_timeout_extra_seconds := codex_timeout_extra_seconds st;
         codex_success_count := count |}
  else st.

(** The state after the stream of one responses request.  Both timeouts set
    [connection_interrupted], so the [finally] block leaves the counters as
    the timeout branch set them; so does a connection error, without an
    update. *)
Definition after_stream (codex_increment : Z) (e : stream_end) (st : timeout_state)
  : timeout_state :=
  match e with
  | total_timeout | read_timeout => on_timeout codex_increment st
  | interrupted => st
  | completed | failed => on_success st
  end.

Definition stream_request (codex_base_timeout codex_increment : Z)
    (events : list (Z * stream_event)) (st : timeout_state)
  : stream_end * timeout_state :=
  let e := read_stream (stream_total_timeout codex_base_timeout st) 0 events in
  (e, after_stream codex_increment e st).

(** A run of chunks with the given arrival times, and the time of the loop
    head after it. *)
Definition chunks (arrivals : list Z) : list (Z * stream_event) :=
  (fun t => (t, chunk)) <$> arrivals.

Definition time_after (elapsed : Z) (arrivals : list Z) : Z :=
  foldl (fun _ t => t) elapsed arrivals.

End AdaptiveTimeout.

(** ** Thinking blocks in the stream translation  (openai_adapter.py 499-585) *)

Module Thinking.

Local Open Scope string_scope.

(** The keys of a decoded Anthropic event that [_convert_stream_chunk]
    reads: [type], [message.id], [content_block.type], [delta.type],
    [delta.thinking] and [delta.text]. *)
Record claude_chunk := {
  chunk_type : option string;
  message_id : option string;
  content_block_type : option string;
  delta_type : option string;
  delta_thinking : option string;
  delta_text : option string
}.

(** An element of [choices]: its [delta] and [finish_reason]. *)
Inductive choice :=
| role_delta (role : string)
| content_delta (content : string)
| finish (reason : string).

Record openai_chunk := {
  chunk_id : string;
  choices : list choice
}.

(** The line feed of ["\n"]. *)
Definition newline : string := String (Ascii.ascii_of_nat 10) "".

(** [OpenAIToClaude._convert_stream_chunk] with the class variable
    [_thinking_states] passed in and out. *)
Definition _convert_stream_chunk (claude_chunk : claude_chunk)
    (_thinking_states : gmap string bool) : openai_chunk * gmap string bool :=
  let message_id := default "default" (message_id claude_chunk) in
  let openai_chunk cs := {| chunk_id := "chatcmpl-" +:+ message_id; choices := cs |} in
  let chunk_type := chunk_type claude_chunk in
  if bool_decide (chunk_type = Some "message_start") then
    (openai_chunk [role_delta "assistant"], <[message_id := false]> _thinking_states)
  else if bool_decide (chunk_type = Some "content_block_start") then
    if bool_decide (content_block_type claude_chunk = Some "thinking") then
      (openai_chunk [content_delta "<think>"], <[message_id := true]> _thinking_states)
    else if bool_decide (content_block_type claude_chunk = Some "text") then
      if default false (_thinking_states !! message_id) then
        (openai_chunk [content_delta ("</think>" +:+ newline +:+ newline)],
         <[message_id := false]> _thinking_states)
      else (openai_chunk [], _thinking_states)
    else (openai_chunk [], _thinking_states)
  else if bool_decide (chunk_type = Some "content_block_delta") then
    if bool_decide (delta_type claude_chunk = Some "thinking_delta") then
      (openai_chunk [content_delta (default "" (delta_thinking claude_chunk))],
       _thinking_states)
    else if bool_decide (delta_type claude_chunk = Some "text_delta") then
      (openai_chunk [content_delta (default "" (delta_text claude_chunk))],
       _thinking_states)
    else (openai_chunk [], _thinking_states)
  else if bool_decide (chunk_type = Some "message_stop") then
    (openai_chunk
       ((if default false (_thinking_states !! message_id)
         then [content_delta "</think>"] else [])
        ++ [finish "stop"])%list,
     delete message_id _thinking_states)
  else (openai_chunk [], _thinking_states).

(** The [delta.content] text of a translated chunk. *)
Definition content_of (c : openai_chunk) : string :=
  foldr (fun ch acc => match ch with content_delta s => s +:+ acc | _ => acc end)
        "" (choices c).

(** The text a client receives for a sequence of events translated one
    after the other. *)
Fixpoint translate (events : list claude_chunk) (states : gmap string bool)
  : string * gmap string bool :=
  match events with
  | [] => ("", states)
  | e :: rest =>
    let '(c, states) := _convert_stream_chunk e states in
    let '(text, states) := translate rest states in
    (content_of c +:+ text, states)
  end.

(** Events of two client connections arriving interleaved: each event is
    tagged with its connection, all go through the one class variable, and
    each connection receives the text of its own events. *)
Fixpoint translate_two (events : list (bool * claude_chunk))
    (states : gmap string bool) : string * string * gmap string bool :=
  match events with
  | [] => ("", "", states)
  | (second, e) :: rest =>
    let '(c, states) := _convert_stream_chunk e states in
    let '(a, b, states) := translate_two rest states in
    if second : bool then (a, content_of c +:+ b, states)
    else (content_of c +:+ a, b, states)
  end.

(** The events of the Anthropic Messages stream, as they arrive decoded:
    only [message_start] carries the [message] object with its [id]. *)
Definition event (ty : string) : claude_chunk :=
  {| chunk_type := Some ty; message_id := None; content_block_type := None;
     delta_type := None; delta_thinking := None; delta_text := None |}.

Definition message_start (id : string) : claude_chunk :=
  {| chunk_type := Some "message_start"; message_id := Some id;
     content_block_type := None; delta_type := None;
     delta_thinking := None; delta_text := None |}.

Definition content_block_start (block_type : string) : claude_chunk :=
  {| chunk_type := Some "content_block_start"; message_id := None;
     content_block_type := Some block_type; delta_type := None;
     delta_thinking := None; delta_text := None |}.

Definition thinking_delta (thinking : string) : claude_chunk :=
  {| chunk_type := Some "content_block_delta"; message_id := None;
     content_block_type := None; delta_type := Some "thinking_delta";
     delta_thinking := Some thinking; delta_text := None |}.

Definition text_delta (text : string) : claude_chunk :=
  {| chunk_type := Some "content_block_delta"; message_id := None;
     content_block_type := None; delta_type := Some "text_delta";
     delta_thinking := None; delta_text := Some text |}.

Definition content_block_stop : claude_chunk := event "content_block_stop".
Definition message_delta : claude_chunk := event "message_delta".
Definition message_stop : claude_chunk := event "message_stop".

(** A message with one thinking block followed by one text block. *)
Definition thinking_message (id : string) (thinking text : list string)
  : list claude_chunk :=
  ([message_start id; content_block_start "thinking"]
   ++ (thinking_delta <$> thinking)
   ++ [content_block_stop; content_block_start "text"]
   ++ (text_delta <$> text)
   ++ [content_block_stop; message_delta; message_stop])%list.

(** A message with a text block only. *)
Definition text_message (id : string) (text : list string) : list claude_chunk :=
  ([message_start id; content_block_start "text"]
   ++ (text_delta <$> text)
   ++ [content_block_stop; message_delta; message_stop])%list.

Definition concat_strings (l : list string) : string := foldr String.append "" l.

(** The key of [_thinking_states] an event reads and writes. *)
Definition state_key (c : claude_chunk) : string := default "default" (message_id c).

(** *** Streams of one message

    The events of a message as the Messages API sends them: [message_start],
    then the content blocks one after the other, each a
    [content_block_start], its [content_block_delta] events and a
    [content_block_stop], then [message_delta] and [message_stop]; [ping]
    events may come anywhere. *)

(** A [content_block_delta] of another kind ([signature_delta],
    [input_json_delta], [citations_delta]). *)
Definition other_delta (ty : string) : claude_chunk :=
  {| chunk_type := Some "content_block_delta"; message_id := None;
     content_block_type := None; delta_type := Some ty;
     delta_thinking := None; delta_text := None |}.

Definition ping : claude_chunk := event "ping".

(** What arrives inside a block. *)
Inductive delta :=
| thinking_piece (thinking : string)
| text_piece (text : string)
| other_piece (delta_type : string)
| ping_piece.

Definition delta_event (d : delta) : claude_chunk :=
  match d with
  | thinking_piece x => thinking_delta x
  | text_piece x => text_delta x
  | other_piece ty => other_delta ty
  | ping_piece => ping
  end.

(** What arrives between [message_start] and [message_delta]: a block of
    some type ([thinking], [text], [tool_use], [redacted_thinking], ...), or
    a [ping]. *)
Inductive item :=
| block (block_type : string) (deltas : list delta)
| ping_item.

Definition item_events (i : item) : list claude_chunk :=
  match i with
  | block ty deltas =>
    (content_block_start ty :: (delta_event <$> deltas) ++ [content_block_stop])%list
  | ping_item => [ping]
  end.

Definition stream (id : string) (items : list item) : list claude_chunk :=
  (message_start id :: concat (item_events <$> items)
   ++ [message_delta; message_stop])%list.

(** A thinking delta comes in a thinking block only, a text delta in a text
    block only. *)
Definition delta_fits (block_type : string) (d : delta) : bool :=
  match d with
  | thinking_piece _ => bool_decide (block_type = "thinking")
  | text_piece _ => bool_decide (block_type = "text")
  | other_piece _ | ping_piece => true
  end.

Definition well_formed (items : list item) : bool :=
  forallb (fun i => match i with
                    | block ty deltas => forallb (delta_fits ty) deltas
                    | ping_item => true
                    end) items.

Definition is_thinking_block (i : item) : bool :=
  match i with
  | block ty _ => bool_decide (ty = "thinking")
  | ping_item => false
  end.

Definition is_text_block (i : item) : bool :=
  match i with
  | block ty _ => bool_decide (ty = "text")
  | ping_item => false
  end.

Definition no_thinking_block (items : list item) : bool :=
  forallb (fun i => negb (is_thinking_block i)) items.

Definition no_text_block (items : list item) : bool :=
  forallb (fun i => negb (is_text_block i)) items.

(** The text of the thinking and text deltas of a block, and of the blocks
    of a list. *)
Definition piece_text (d : delta) : string :=
  match d with
  | thinking_piece x | text_piece x => x
  | other_piece _ | ping_piece => ""
  end.

Definition pieces (deltas : list delta) : string :=
  concat_strings (piece_text <$> deltas).

Definition item_text (i : item) : string :=
  match i with
  | block _ deltas => pieces deltas
  | ping_item => ""
  end.

Definition items_text (items : list item) : string :=
  concat_strings (item_text <$> items).

(** The tags around the deltas, block by block: an opening tag at every
    thinking block; a closing tag and two line feeds at a text block that
    finds the flag set; a closing tag at the end when the flag is still
    set. *)
Fixpoint tagged (in_thinking : bool) (items : list item) : string :=
  match items with
  | [] => if in_thinking then "</think>" else ""
  | ping_item :: rest => tagged in_thinking rest
  | block ty deltas :: rest =>
    if bool_decide (ty = "thinking") then
      "<think>" +:+ pieces deltas +:+ tagged true rest
    else if bool_decide (ty = "text") then
      (if in_thinking then "</think>" +:+ newline +:+ newline else "")
      +:+ pieces deltas +:+ tagged false rest
    else pieces deltas +:+ tagged in_thinking rest
  end.

End Thinking.

(** ** Detection of OpenAI-Chat requests  (openai_adapter.py 131-240) *)

Module Detect.

Local Open Scope string_scope.

(** A decoded JSON value; an object is the list of its items. *)
#[warnings="-register-all"] Inductive json :=
| JNull
| JBool (b : bool)
| JNumber (n : Z)
| JString (s : string)
| JArray (items : list json)
| JObject (fields : list (string * json)).

(** [key in d] and [d.get(key)] for a JSON object. *)
Definition has_key (key : string) (fields : list (string * json)) : bool :=
  existsb (fun kv => bool_decide (kv.1 = key)) fields.

Fixpoint get (key : string) (fields : list (string * json)) : option json :=
  match fields with
  | [] => None
  | (k, v) :: rest => if bool_decide (k = key) then Some v else get key rest
  end.

(** [pattern in text] for strings. *)
Fixpoint starts_with (pattern text : string) : bool :=
  match pattern, text with
  | EmptyString, _ => true
  | String a pattern, String b text => bool_decide (a = b) && starts_with pattern text
  | String _ _, EmptyString => false
  end.

Fixpoint contains (pattern text : string) : bool :=
  starts_with pattern text ||
  match text with
  | EmptyString => false
  | String _ rest => contains pattern rest
  end.

(** [str.lower] on the ASCII letters. *)
Definition lower_ascii (c : Ascii.ascii) : Ascii.ascii :=
  let n := Ascii.nat_of_ascii c in
  if bool_decide (65 <= n <= 90)%nat then Ascii.ascii_of_nat (n + 32) else c.

Definition is_byte (n : nat) (c : Ascii.ascii) : bool :=
  bool_decide (Ascii.nat_of_ascii c = n).

(** [str.lower], a [str] being held as its UTF-8 encoding.  The code looks
    for ASCII text in the result and for nothing else, so what counts is
    which ASCII characters the result has and in which places.  They come
    from the ASCII letters and from the two other characters whose
    lower-case form has an ASCII letter: the capital I with a dot (U+0130,
    bytes 196 176), which becomes [i] and the combining dot U+0307 (bytes
    204 135), and the Kelvin sign (U+212A, bytes 226 132 170), which becomes
    [k].  Every other character outside ASCII stays outside ASCII and is
    kept as it is. *)
Fixpoint lower (text : string) : string :=
  match text with
  | EmptyString => EmptyString
  | String c rest =>
    match rest with
    | String c1 rest1 =>
      if is_byte 196 c && is_byte 176 c1 then
        String (Ascii.ascii_of_nat 105) (String (Ascii.ascii_of_nat 204)
                      (String (Ascii.ascii_of_nat 135) (lower rest1)))
      else
        match rest1 with
        | String c2 rest2 =>
          if is_byte 226 c && is_byte 132 c1 && is_byte 170 c2 then
            String (Ascii.ascii_of_nat 107) (lower rest2)
          else String (lower_ascii c) (lower rest)
        | EmptyString => String (lower_ascii c) (lower rest)
        end
    | EmptyString => String (lower_ascii c) (lower rest)
    end
  end.

(** [_is_openai_messages_format]: the first message that is not an object
    ends the search; a message with a string [content] is the OpenAI form. *)
Fixpoint messages_loop (messages : list json) : bool :=
  match messages with
  | [] => false
  | JObject msg :: rest =>
    match get "content" msg with
    | Some (JString _) => true
    | _ => messages_loop rest
    end
  | _ :: _ => false
  end.

Definition _is_openai_messages_format (messages : json) : bool :=
  match messages with
  | JArray (m :: rest) => messages_loop (m :: rest)
  | _ => false
  end.

(** [_is_openai_model_name]. *)
Definition _is_openai_model_name (model : json) : bool :=
  match model with
  | JString model =>
    existsb (fun pattern => contains pattern (lower model))
            ["gpt-"; "text-"; "davinci"; "curie"; "babbage"; "ada"]
  | _ => false
  end.

Definition is_claude_block (content_block : json) : bool :=
  match content_block with
  | JObject fields =>
    match get "type" fields with
    | Some (JString t) => bool_decide (t = "text") || bool_decide (t = "image")
    | _ => false
    end
  | _ => false
  end.

Definition has_claude_block (msg : json) : bool :=
  match msg with
  | JObject fields =>
    match get "content" fields with
    | Some (JArray content) => existsb is_claude_block content
    | _ => false
    end
  | _ => false
  end.

(** [_has_claude_format_features]. *)
Definition _has_claude_format_features (request_data : json) : bool :=
  match request_data with
  | JObject fields =>
    let has_claude_fields :=
      existsb (fun field => has_key field fields)
              ["system"; "anthropic_version"; "thinking"] in
    let block_found :=
      match default (JArray []) (get "messages" fields) with
      | JArray messages => existsb has_claude_block messages
      | _ => false
      end in
    if block_found then true
    else
      let model_found :=
        match default (JString "") (get "model" fields) with
        | JString model =>
          existsb (fun pattern => contains pattern (lower model))
                  ["claude-"; "anthropic"]
        | _ => false
        end in
      if model_found then true else has_claude_fields
  | _ => false
  end.

Definition openai_specific_params : list string :=
  ["frequency_penalty"; "presence_penalty"; "logit_bias"; "best_of"; "n"; "user"].

(** [sum] of a list of booleans. *)
Definition count_true (l : list bool) : nat := length (List.filter id l).

(** [is_openai_request]. *)
Definition is_openai_request (request_data : json) : bool :=
  match request_data with
  | JObject fields =>
    if negb (has_key "model" fields) || negb (has_key "messages" fields) then false
    else
      let has_openai_params :=
        existsb (fun param => has_key param fields) openai_specific_params in
      let is_openai_messages :=
        _is_openai_messages_format (default (JArray []) (get "messages" fields)) in
      if is_openai_messages then true
      else
        let openai_indicators :=
          [_is_openai_model_name (default (JString "") (get "model" fields));
           has_key "temperature" fields || has_key "top_p" fields;
           has_openai_params;
           negb (_has_claude_format_features request_data)] in
        if has_openai_params then true
        else bool_decide (2 <= count_true openai_indicators)%nat
  | _ => false
  end.

(** The wording of the specification, for an object with [model] and
    [messages]: the three heuristics, and the Anthropic-specific fields. *)
Definition has_string_content (fields : list (string * json)) : bool :=
  _is_openai_messages_format (default (JArray []) (get "messages" fields)).

Definition has_openai_param (fields : list (string * json)) : bool :=
  existsb (fun param => has_key param fields) openai_specific_params.

Definition has_openai_model (fields : list (string * json)) : bool :=
  _is_openai_model_name (default (JString "") (get "model" fields)).

Definition matches_openai_heuristics (fields : list (string * json)) : bool :=
  has_string_content fields || has_openai_param fields || has_openai_model fields.

Definition has_anthropic_fields (fields : list (string * json)) : bool :=
  has_key "system" fields || has_key "anthropic_version" fields ||
  match default (JArray []) (get "messages" fields) with
  | JArray messages => existsb has_claude_block messages
  | _ => false
  end.

End Detect.

(** ** Usage store  (token_stats.py 447-556, app.py 1029-1108) *)

Module Usage.

Local Open Scope string_scope.

Record counters := {
  total_requests : Z;
  total_tokens : Z;
  total_input_tokens : Z;
  total_output_tokens : Z;
  total_cache_creation_tokens : Z;
  total_cache_read_tokens : Z
}.

Definition zero_counters : counters :=
  {| total_requests := 0; total_tokens := 0; total_input_tokens := 0;
     total_output_tokens := 0; total_cache_creation_tokens := 0;
     total_cache_read_tokens := 0 |}.

(** A value of [stats['daily']]: the counters of the day and [models]. *)
Record day_record := {
  day_counters : counters;
  models : gmap string Z
}.

(** The content of the statistics file without [generated_at]. *)
Record stats := {
  summary : counters;
  unique_models : list string;
  by_model : gmap string counters;
  daily : gmap string day_record
}.

Definition _get_empty_stats_structure : stats :=
  {| summary := zero_counters; unique_models := [];
     by_model := ∅; daily := ∅ |}.

(** The [usage_data] dictionary: [None] is a missing key. *)
Record usage_data := {
  input_tokens : option Z;
  prompt_tokens : option Z;
  output_tokens : option Z;
  completion_tokens : option Z;
  cache_creation_input_tokens : option Z;
  cache_read_input_tokens : option Z;
  usage_total_tokens : option Z
}.

(** [d.get(a) or d.get(b, 0)]. *)
Definition get_or (a b : option Z) : Z :=
  match a with
  | Some v => if bool_decide (v <> 0) then v else default 0 b
  | None => default 0 b
  end.

Definition add_usage (input output cache_creation cache_read total : Z)
    (c : counters) : counters :=
  {| total_requests := total_requests c + 1;
     total_tokens := total_tokens c + total;
     total_input_tokens := total_input_tokens c + input;
     total_output_tokens := total_output_tokens c + output;
     total_cache_creation_tokens := total_cache_creation_tokens c + cache_creation;
     total_cache_read_tokens := total_cache_read_tokens c + cache_read |}.

(** [TokenStatsManager.record_usage] on the content of the file: read,
    update, write back. *)
Definition record_usage (model today : string) (usage : usage_data)
    (file : stats) : stats :=
  let input_tokens := get_or (input_tokens usage) (prompt_tokens usage) in
  let output_tokens := get_or (output_tokens usage) (completion_tokens usage) in
  let cache_creation := default 0 (cache_creation_input_tokens usage) in
  let cache_read := default 0 (cache_read_input_tokens usage) in
  let total_tokens :=
    default (input_tokens + output_tokens) (usage_total_tokens usage) in
  let add := add_usage input_tokens output_tokens cache_creation cache_read total_tokens in
  let day := default {| day_counters := zero_counters; models := ∅ |}
                     (daily file !! today) in
  {| summary := add (summary file);
     unique_models :=
       if bool_decide (model ∈ unique_models file) then unique_models file
       else (unique_models file ++ [model])%list;
     by_model :=
       <[model := add (default zero_counters (by_model file !! model))]> (by_model file);
     daily :=
       <[today := {| day_counters := add (day_counters day);
                     models := <[model := default 0 (models day !! model) + 1]> (models day) |}]>
         (daily file) |}.

(** The [usage] object of a [response.completed] event: [input_tokens],
    [output_tokens] and [input_tokens_details.cached_tokens]. *)
Record codex_usage := {
  codex_input_tokens : option Z;
  codex_output_tokens : option Z;
  cached_tokens : option Z
}.

(** The top-level [usage] object of an Anthropic event. *)
Record claude_usage := {
  claude_input_tokens : option Z;
  claude_output_tokens : option Z;
  claude_cache_creation_input_tokens : option Z;
  claude_cache_read_input_tokens : option Z
}.

(** A decoded [data:] line: its [type], its top-level [usage] and its
    [response.usage] (absent when missing or empty). *)
Record sse_event := {
  event_type : option string;
  event_usage : option claude_usage;
  response_usage : option codex_usage
}.

Definition codex_result (codex_usage : codex_usage) : usage_data :=
  let cached_tokens := default 0 (cached_tokens codex_usage) in
  let total_input := default 0 (codex_input_tokens codex_usage) in
  let new_input := total_input - cached_tokens in
  {| input_tokens := Some new_input;
     prompt_tokens := None;
     output_tokens := Some (default 0 (codex_output_tokens codex_usage));
     completion_tokens := None;
     cache_creation_input_tokens := Some 0;
     cache_read_input_tokens := Some cached_tokens;
     usage_total_tokens :=
       Some (new_input + default 0 (codex_output_tokens codex_usage) + cached_tokens) |}.

Definition claude_result (usage : claude_usage) : usage_data :=
  {| input_tokens := Some (default 0 (claude_input_tokens usage));
     prompt_tokens := None;
     output_tokens := Some (default 0 (claude_output_tokens usage));
     completion_tokens := None;
     cache_creation_input_tokens :=
       Some (default 0 (claude_cache_creation_input_tokens usage));
     cache_read_input_tokens := Some (default 0 (claude_cache_read_input_tokens usage));
     usage_total_tokens :=
       Some (default 0 (claude_input_tokens usage)
             + default 0 (claude_output_tokens usage)
             + default 0 (claude_cache_creation_input_tokens usage)
             + default 0 (claude_cache_read_input_tokens usage)) |}.

(** [extract_usage_from_chunks] over the decoded [data:] lines of the
    response: the first event that carries the usage decides. *)
Fixpoint extract_usage_from_chunks (events : list sse_event) (is_codex_request : bool)
  : option usage_data :=
  match events with
  | [] => None
  | data :: rest =>
    if is_codex_request then
      if bool_decide (event_type data = Some "response.completed") then
        match response_usage data with
        | Some codex_usage => Some (codex_result codex_usage)
        | None => extract_usage_from_chunks rest is_codex_request
        end
      else extract_usage_from_chunks rest is_codex_request
    else
      match event_usage data with
      | Some usage => Some (claude_result usage)
      | None => extract_usage_from_chunks rest is_codex_request
      end
  end.

(** The [finally] block of the stream (lines 4799-4819): the usage found in
    the response is recorded; without one nothing is written. *)
Definition record_response (model today : string) (events : list sse_event)
    (is_codex_request : bool) (file : stats) : stats :=
  match extract_usage_from_chunks events is_codex_request with
  | Some usage => record_usage model today usage file
  | None => file
  end.

(** The order on counters, field by field, and on a whole store: every
    counter that exists before is there afterwards and is not smaller. *)
Definition counters_le (a b : counters) : Prop :=
  total_requests a <= total_requests b /\
  total_tokens a <= total_tokens b /\
  total_input_tokens a <= total_input_tokens b /\
  total_output_tokens a <= total_output_tokens b /\
  total_cache_creation_tokens a <= total_cache_creation_tokens b /\
  total_cache_read_tokens a <= total_cache_read_tokens b.

Definition day_le (a b : day_record) : Prop :=
  counters_le (day_counters a) (day_counters b) /\
  forall m n, models a !! m = Some n ->
    exists n', models b !! m = Some n' /\ n <= n'.

Definition stats_le (a b : stats) : Prop :=
  counters_le (summary a) (summary b) /\
  (forall m c, by_model a !! m = Some c ->
     exists c', by_model b !! m = Some c' /\ counters_le c c') /\
  (forall d r, daily a !! d = Some r ->
     exists r', daily b !! d = Some r' /\ day_le r r').

(** Token counts that are numbers of tokens. *)
Definition nonneg (o : option Z) : Prop :=
  match o with
  | Some v => 0 <= v
  | None => True
  end.

Definition usage_nonneg (u : usage_data) : Prop :=
  nonneg (input_tokens u) /\ nonneg (prompt_tokens u) /\
  nonneg (output_tokens u) /\ nonneg (completion_tokens u) /\
  nonneg (cache_creation_input_tokens u) /\ nonneg (cache_read_input_tokens u) /\
  nonneg (usage_total_tokens u).

(** Upstream usage objects whose counts are numbers of tokens; for the
    responses pool the cached tokens are part of the input tokens. *)
Definition codex_usage_ok (u : codex_usage) : Prop :=
  0 <= default 0 (cached_tokens u) <= default 0 (codex_input_tokens u) /\
  0 <= default 0 (codex_output_tokens u).

Definition claude_usage_ok (u : claude_usage) : Prop :=
  nonneg (claude_input_tokens u) /\ nonneg (claude_output_tokens u) /\
  nonneg (claude_cache_creation_input_tokens u) /\
  nonneg (claude_cache_read_input_tokens u).

Definition event_ok (e : sse_event) : Prop :=
  (forall u, event_usage e = Some u -> claude_usage_ok u) /\
  (forall u, response_usage e = Some u -> codex_usage_ok u).

End Usage.

(** ** Sample configurations *)

Module Scenarios.
Import Pool.

Local Open Scope string_scope.

Definition entry (name type : string) : api_config :=
  {| cfg_name := name; cfg_base_url := "https://" +:+ name; cfg_key := "key-" +:+ name;
     cfg_type := Some type; cfg_enabled := None; cfg_time_enabled := None |}.

Definition entry_A : api_config := entry "a" "primary".
Definition entry_B : api_config := entry "b" "backup".

(** The default timeout settings. *)
Definition default_settings : settings :=
  {| api_error_threshold := 3; codex_error_threshold := 3;
     api_cooldown_seconds := 600; primary_api_check_interval := 30;
     max_retries := 4 |}.

Definition one_try : settings :=
  {| api_error_threshold := 3; codex_error_threshold := 3;
     api_cooldown_seconds := 600; primary_api_check_interval := 30;
     max_retries := 1 |}.

Definition make_pool (cfgs : list api_config) (d : gmap Z api_state) (index : Z)
    (on_backup : bool) (checked : option Z) : pool :=
  {| configs := cfgs; api_status := d; current_config_index := index;
     is_using_backup := on_backup; backup_start_time := None;
     last_primary_check_time := checked; last_primary_switch_time := 0 |}.

(** A primary and a backup, both healthy; the pool sits on the backup and
    probed the primaries at second 995. *)
Definition on_backup_pool : pool :=
  make_pool [entry_A; entry_B] (_init_status_dict [entry_A; entry_B]) 1 true (Some 995).

(** The same pool with the last probe at second 900. *)
Definition probe_due_pool : pool :=
  make_pool [entry_A; entry_B] (_init_status_dict [entry_A; entry_B]) 1 true (Some 900).


Definition cooling : api_state :=
  {| status := warning; error_count := 3; cooldown_until := Some 1500 |}.

(** A primary and a backup that are both cooling down until second 1500. *)
Definition cooling_pool : pool :=
  make_pool [entry_A; entry_B] (<[0 := cooling]> (<[1 := cooling]> ∅)) 0 false None.

(** One healthy primary. *)
Definition healthy_pool : pool :=
  make_pool [entry_A] (_init_status_dict [entry_A]) 0 false None.

(** The status-code lists of the built-in strategy table. *)
Definition default_strategy_retry_codes : list Z :=
  [400; 404; 408; 429; 500; 502; 503; 504; 520; 521; 522; 524].

Definition default_switch_api_codes : list Z := [401; 403].

Definition rung_1 : Orchestrator.retry_config :=
  {| Orchestrator.rc_name := "L1"; Orchestrator.rc_base_url := "https://l1";
     Orchestrator.rc_key := "key-l1" |}.

(** A request under the built-in strategies. *)
Definition default_request (s : settings) (ladder : list Orchestrator.retry_config)
    (world : nat -> Orchestrator.outcome) (p : pool)
  : result Orchestrator.served * Orchestrator.loop_state :=
  Orchestrator.handle_request s 1000 default_strategy_retry_codes
    default_switch_api_codes [] "switch_api" "switch_api" "strategy_retry"
    ladder world (Orchestrator.initial_loop_state p).

(** Upstreams that answer 401 four times and 200 afterwards. *)
Definition unauthorized_then_ok (n : nat) : Orchestrator.outcome :=
  if bool_decide (n < 4)%nat then Orchestrator.Status 401 else Orchestrator.Status 200.

(** Upstreams that refuse the connection eight times and answer 200
    afterwards. *)
Definition unreachable_then_ok (n : nat) : Orchestrator.outcome :=
  if bool_decide (n < 8)%nat then Orchestrator.ConnectError else Orchestrator.Status 200.

(** The main upstream answers 429, the ladder rung 500. *)
Definition overloaded (n : nat) : Orchestrator.outcome :=
  if bool_decide (n = 0)%nat then Orchestrator.Status 429 else Orchestrator.Status 500.

(** One primary with two errors on its record; the main upstream answers
    429 and the ladder rung 200. *)
Definition two_errors : api_state :=
  {| status := normal; error_count := 2; cooldown_until := None |}.

Definition shaky_pool : pool :=
  make_pool [entry_A] (<[0 := two_errors]> ∅) 0 false None.

Definition rung_answers (n : nat) : Orchestrator.outcome :=
  if bool_decide (n = 0)%nat then Orchestrator.Status 429 else Orchestrator.Status 200.

(** A primary with two errors on its record and a healthy backup, and
    upstreams that answer 429 to everything. *)
Definition shaky_pair_pool : pool :=
  make_pool [entry_A; entry_B]
    (<[0 := two_errors]> (_init_status_dict [entry_A; entry_B])) 0 false None.

Definition always_429 (n : nat) : Orchestrator.outcome := Orchestrator.Status 429.

(** Two streams through the one translator: connection A carries a
    message with a thinking block, connection B a message with text only, and
    B starts while A is in its thinking block. *)
Definition interleaved_streams : list (bool * Thinking.claude_chunk) :=
  [ (false, Thinking.message_start "msg_A");
    (false, Thinking.content_block_start "thinking");
    (false, Thinking.thinking_delta "plan");
    (true, Thinking.message_start "msg_B");
    (true, Thinking.content_block_start "text");
    (true, Thinking.text_delta "hello");
    (true, Thinking.content_block_stop);
    (true, Thinking.message_delta);
    (true, Thinking.message_stop);
    (false, Thinking.content_block_stop);
    (false, Thinking.content_block_start "text");
    (false, Thinking.text_delta "answer");
    (false, Thinking.content_block_stop);
    (false, Thinking.message_delta);
    (false, Thinking.message_stop) ].

Definition stream_of (second : bool) (events : list (bool * Thinking.claude_chunk))
  : list Thinking.claude_chunk :=
  snd <$> List.filter (fun e => Bool.eqb e.1 second) events.


(** The same request with its content as a list of blocks. *)
Definition block_request_fields : list (string * Detect.json) :=
  [ ("model", Detect.JString "gpt-4");
    ("system", Detect.JString "be brief");
    ("messages",
     Detect.JArray
       [Detect.JObject
          [("role", Detect.JString "user");
           ("content",
            Detect.JArray
              [Detect.JObject [("type", Detect.JString "text");
                               ("text", Detect.JString "hi")]])]]) ].

(** A [response.completed] event that reports more cached tokens than
    input tokens. *)
Definition cached_exceeds_input : Usage.sse_event :=
  {| Usage.event_type := Some "response.completed";
     Usage.event_usage := None;
     Usage.response_usage :=
       Some {| Usage.codex_input_tokens := Some 10;
               Usage.codex_output_tokens := Some 5;
               Usage.cached_tokens := Some 30 |} |}.

(** A well-formed one: 100 input tokens, 30 of them cached. *)
Definition cached_within_input : Usage.sse_event :=
  {| Usage.event_type := Some "response.completed";
     Usage.event_usage := None;
     Usage.response_usage :=
       Some {| Usage.codex_input_tokens := Some 100;
               Usage.codex_output_tokens := Some 5;
               Usage.cached_tokens := Some 30 |} |}.

End Scenarios.

(** ** Configuration lists  (config_manager.py, lines 310-424 and 426-544)

    The five lists of [ConfigManager] ([api_configs], [codex_configs],
    [openai_to_claude_configs], [retry_configs], [model_conversions]) are
    edited by the same six methods.  Those that only move entries around are
    given for any type of entry; those that read or write keys are given for
    the entries of the two pools, seen as the selector sees them. *)

Module ConfigManager.
Import Pool.

Local Open Scope string_scope.

Section Lists.

Context {A : Type}.

(** [0 <= index < len(configs)]. *)
Definition valid_index (index : Z) (configs : list A) : bool :=
  bool_decide (0 <= index < Z.of_nat (length configs)).

(** [configs[i], configs[j] = configs[j], configs[i]]. *)
Definition swap (i j : nat) (configs : list A) : list A :=
  match configs !! i, configs !! j with
  | Some a, Some b => <[i := b]> (<[j := a]> configs)
  | _, _ => configs
  end.

(** [delete_*_config]: [configs.pop(index)] for a valid index. *)
Definition delete_config (index : Z) (configs : list A) : bool * list A :=
  if valid_index index configs
  then (true, delete (Z.to_nat index) configs)
  else (false, configs).

(** [move_*_config]: [direction] is [(direction or "").lower()]. *)
Definition move_config (index : Z) (direction : option string) (configs : list A)
  : bool * list A :=
  if negb (valid_index index configs) then (false, configs)
  else
    let direction := Detect.lower (default "" direction) in
    let i := Z.to_nat index in
    if bool_decide (direction = "up") && bool_decide (0 < index) then
      (true, swap i (i - 1) configs)
    else if bool_decide (direction = "down")
            && bool_decide (index < Z.of_nat (length configs) - 1) then
      (true, swap i (i + 1) configs)
    else if bool_decide (direction = "top") && bool_decide (0 < index) then
      match configs !! i with
      | Some item => (true, item :: delete i configs)
      | None => (false, configs)
      end
    else if bool_decide (direction = "bottom")
            && bool_decide (index < Z.of_nat (length configs) - 1) then
      match configs !! i with
      | Some item => (true, (delete i configs ++ [item])%list)
      | None => (false, configs)
      end
    else (false, configs).

End Lists.

(** [get_enabled_api_configs] / [get_enabled_codex_configs]. *)
Definition get_enabled_api_configs (configs : list api_config) : list api_config :=
  List.filter (fun cfg => default true (cfg_enabled cfg)) configs.

Definition set_enabled (b : bool) (c : api_config) : api_config :=
  {| cfg_name := cfg_name c; cfg_base_url := cfg_base_url c; cfg_key := cfg_key c;
     cfg_type := cfg_type c; cfg_enabled := Some b;
     cfg_time_enabled := cfg_time_enabled c |}.

(** [toggle_api_config] / [toggle_codex_config]: the new value of [enabled],
    or [None] for an index outside the list. *)
Definition toggle_config (index : Z) (configs : list api_config)
  : option bool * list api_config :=
  if valid_index index configs then
    match configs !! Z.to_nat index with
    | Some c =>
      let enabled := negb (default true (cfg_enabled c)) in
      (Some enabled, <[Z.to_nat index := set_enabled enabled c]> configs)
    | None => (None, configs)
    end
  else (None, configs).

Definition set_name (name : string) (c : api_config) : api_config :=
  {| cfg_name := name; cfg_base_url := cfg_base_url c; cfg_key := cfg_key c;
     cfg_type := cfg_type c; cfg_enabled := cfg_enabled c;
     cfg_time_enabled := cfg_time_enabled c |}.

(** [duplicate_api_config] / [duplicate_codex_config]: a deep copy with the
    name marked, inserted right after the original. *)
Definition duplicate_config (index : Z) (configs : list api_config)
  : bool * list api_config :=
  if valid_index index configs then
    match configs !! Z.to_nat index with
    | Some c =>
      let new_config := set_name (cfg_name c +:+ "(复制)") c in
      (true, (take (S (Z.to_nat index)) configs ++ new_config
                :: drop (S (Z.to_nat index)) configs)%list)
    | None => (false, configs)
    end
  else (false, configs).

End ConfigManager.

(** ** Runtime state of the pools  (app.py, lines 190-210, 813-868 and 2673-2740) *)

Module Runtime.
Import Pool.

Definition set_configs (cfgs : list api_config) (p : pool) : pool :=
  {| configs := cfgs; api_status := api_status p;
     current_config_index := current_config_index p;
     is_using_backup := is_using_backup p;
     backup_start_time := backup_start_time p;
     last_primary_check_time := last_primary_check_time p;
     last_primary_switch_time := last_primary_switch_time p |}.

(** [refresh_api_runtime_state]: [stored] is the list the configuration
    manager holds. *)
Definition refresh_api_runtime_state (stored : list api_config) (now : Z)
    (reset_backup_state : bool) (p : pool) : pool :=
  let API_CONFIGS := ConfigManager.get_enabled_api_configs stored in
  let p := set_configs API_CONFIGS p in
  let p := set_status (_init_status_dict API_CONFIGS) p in
  ensure_current_api_index now reset_backup_state p.

(** [refresh_codex_runtime_state]. *)
Definition refresh_codex_runtime_state (stored : list api_config) (now : Z)
    (reset_backup_state : bool) (p : pool) : pool :=
  let CODEX_CONFIGS := ConfigManager.get_enabled_api_configs stored in
  let p := set_configs CODEX_CONFIGS p in
  let p := set_status (_init_status_dict CODEX_CONFIGS) p in
  let p :=
    match CODEX_CONFIGS with
    | [] => set_index (-1) p
    | _ :: _ =>
      let '(preferred, p) := get_first_available_primary_codex_index now p in
      match preferred with
      | Some i => set_index (Z.of_nat i) p
      | None => set_index 0 p
      end
    end in
  if reset_backup_state then set_backup false None None p else p.

(** The replies of [reset_api_cooldown] / [reset_codex_cooldown]. *)
Inductive reset_reply :=
| reset_done
| not_cooling
| invalid_index
| reset_count (n : nat)
| none_cooling.

Definition success (r : reset_reply) : bool :=
  match r with
  | reset_done | reset_count _ => true
  | not_cooling | invalid_index | none_cooling => false
  end.

(** [index in api_status and api_status[index]["cooldown_until"]]. *)
Definition is_cooling (d : gmap Z api_state) (index : Z) : bool :=
  match d !! index with
  | Some st => bool_decide (cooldown_until st <> None)
  | None => false
  end.

(** [reset_api_cooldown]: [data] is the value of [data["index"]], [None]
    when there is no body or no such key. *)
Definition reset_api_cooldown (data : option Z) (p : pool) : reset_reply * pool :=
  match data with
  | Some index =>
    if bool_decide (0 <= index < Z.of_nat (length (configs p))) then
      if is_cooling (api_status p) index
      then (reset_done, set_status (<[index := fresh_state]> (api_status p)) p)
      else (not_cooling, p)
    else (invalid_index, p)
  | None =>
    let '(count, d) :=
      foldl (fun '(count, d) i =>
               if is_cooling d (Z.of_nat i)
               then (S count, <[Z.of_nat i := fresh_state]> d)
               else (count, d))
            (0%nat, api_status p) (seq 0 (length (configs p))) in
    (if bool_decide (0 < count)%nat then reset_count count else none_cooling,
     set_status d p)
  end.

(** A pool none of whose records carries a cooldown deadline. *)
Definition no_cooldowns (p : pool) : Prop :=
  forall i st, api_status p !! i = Some st -> cooldown_until st = None.

(** [smart_codex_switch_api] (lines 813-868): the text of
    [smart_switch_api] over the responses pool, with its own threshold and
    with [get_codex_backup_api_indices]. *)
Definition smart_codex_switch_api (s : settings) (now : Z) (current_api_index : Z)
    (p : pool) : result (bool * Z) * pool :=
  match api_status p !! current_api_index with
  | None => (Raise KeyError, p)
  | Some st =>
    if bool_decide (error_count st < get_codex_error_threshold s)
    then (Ok (false, current_api_index), p)
    else
      match py_index (configs p) current_api_index with
      | Raise e => (Raise e, p)
      | Ok _ =>
        let '(recovered, p) :=
          if is_using_backup p then
            let '(primary_index, p) := get_first_available_primary_codex_index now p in
            match primary_index with
            | Some i =>
              let '(ok, p) := is_codex_api_available now i p in
              (if ok then Some i else None, p)
            | None => (None, p)
            end
          else (None, p) in
        match recovered with
        | Some primary_index =>
          let p := set_backup false None (last_primary_check_time p) p in
          let p := set_index (Z.of_nat primary_index) p in
          (Ok (true, Z.of_nat primary_index), p)
        | None =>
          let backup_indices := get_codex_backup_api_indices p in
          let '(found, p) := first_available now backup_indices p in
          match found with
          | Some backup_idx =>
            match current_entry p with
            | Raise e => (Raise e, p)
            | Ok _ =>
              let p := set_backup true (Some now) None p in
              let p := set_index (Z.of_nat backup_idx) p in
              (Ok (true, Z.of_nat backup_idx), p)
            end
          | None =>
            let p := set_backup true (Some now) None p in
            let backup_idx :=
              match backup_indices with
              | b :: _ => Z.of_nat b
              | [] => Z.of_nat (length (configs p)) - 1
              end in
            let p := set_index backup_idx p in
            match py_index (configs p) backup_idx with
            | Raise e => (Raise e, p)
            | Ok _ => (Ok (true, backup_idx), p)
            end
          end
        end
      end
  end.

End Runtime.

(** ** Runs of responses requests *)

Module AdaptiveTimeoutRuns.
Import AdaptiveTimeout.

(** The two globals at start-up (lines 99-100). *)
Definition initial_timeout_state : timeout_state :=
  {| codex_timeout_extra_seconds := 0; codex_success_count := 0 |}.

Definition is_timeout (e : stream_end) : bool :=
  match e with
  | total_timeout | read_timeout => true
  | _ => false
  end.

(** The globals after a sequence of streams that ended as listed. *)
Definition run_streams (codex_increment : Z) (ends : list stream_end)
    (st : timeout_state) : timeout_state :=
  foldl (fun st e => after_stream codex_increment e st) st ends.

End AdaptiveTimeoutRuns.

(** ** Updating the strategy table  (config_manager.py, lines 986-1009) *)

Module StrategyUpdate.
Import Classifier.

Local Open Scope string_scope.

Definition valid_strategies : list string :=
  ["strategy_retry"; "switch_api"; "normal_retry"].

(** The check made for a table that the argument holds. *)
Definition table_valid (table : option (gmap string string)) : bool :=
  match table with
  | Some t => bool_decide (map_Forall (fun _ strategy => strategy ∈ valid_strategies) t)
  | None => true
  end.

(** [update_error_handling_strategies]: the argument replaces the whole
    stored section when every strategy in it is a known one. *)
Definition update_error_handling_strategies (strategies stored : stored_strategies)
  : bool * stored_strategies :=
  if table_valid (stored_http_status_codes strategies)
     && table_valid (stored_network_errors strategies)
  then (true, strategies)
  else (false, stored).

End StrategyUpdate.

(** ** The statistics file over many calls  (token_stats.py, lines 464-556) *)

Module UsageTotals.
Import Usage.

(** One call of [record_usage]: the model, the day on which the call is
    made, and the usage. *)
Record call := {
  call_model : string;
  call_day : string;
  call_usage : usage_data
}.

(** The file after the calls, each one reading what the one before wrote. *)
Definition record_calls (calls : list call) (file : stats) : stats :=
  foldl (fun file c => record_usage (call_model c) (call_day c) (call_usage c) file)
        file calls.

(** Counters added field by field, and the totals over the values of a
    dictionary. *)
Definition add_counters (a b : counters) : counters :=
  {| total_requests := total_requests a + total_requests b;
     total_tokens := total_tokens a + total_tokens b;
     total_input_tokens := total_input_tokens a + total_input_tokens b;
     total_output_tokens := total_output_tokens a + total_output_tokens b;
     total_cache_creation_tokens :=
       total_cache_creation_tokens a + total_cache_creation_tokens b;
     total_cache_read_tokens := total_cache_read_tokens a + total_cache_read_tokens b |}.

Definition sum_counters {A : Type} (f : A -> counters) (m : gmap string A) : counters :=
  map_fold (fun _ a acc => add_counters (f a) acc) zero_counters m.

Definition sum_counts (m : gmap string Z) : Z :=
  map_fold (fun _ n acc => n + acc) 0 m.

(** The sections of the file agree with each other. *)
Definition consistent (file : stats) : Prop :=
  sum_counters (fun c => c) (by_model file) = summary file /\
  sum_counters day_counters (daily file) = summary file /\
  (forall d r, daily file !! d = Some r ->
     sum_counts (models r) = total_requests (day_counters r)) /\
  NoDup (unique_models file) /\
  (forall m, m ∈ unique_models file <-> is_Some (by_model file !! m)).

End UsageTotals.

(** ** Upstream sends of one request  (app.py, [reverse_proxy], lines 3287-4309) *)

Module Budget.
Import Pool Orchestrator.

(** A computation of the handler that runs on a pool with the entries
    [cfgs]: it leaves the entries as they are, only appends to the log of
    sends, and its result [r] and the number [n] of sends it makes satisfy
    [Q r n]. *)
Definition sends (cfgs : list api_config) {A} (Q : result A -> nat -> Prop)
    (m : M A) : Prop :=
  forall st, configs (ls_pool st) = cfgs ->
    configs (ls_pool (m st).2) = cfgs /\
    exists extra,
      attempts (m st).2 = attempts st ++ extra /\ Q (m st).1 (length extra).

Definition quiet {A} (r : result A) (n : nat) : Prop := n = 0%nat.

Definition at_most (b : nat) {A} (r : result A) (n : nat) : Prop := (n <= b)%nat.

(** At most [b] sends, and a response is handed on only when its status is
    below 400. *)
Definition answer_below_400 (b : nat) (r : result (option Z)) (n : nat) : Prop :=
  (n <= b)%nat /\ forall c, r = Ok (Some c) -> c < 400.

Definition break_below_400 (b : nat) (r : result flow) (n : nat) : Prop :=
  (n <= b)%nat /\ forall c, r = Ok (Break c) -> c < 400.

(** The sends of the last-resort loop, which only the last pass enters. *)
Definition extended_budget (cfgs : list api_config) (rest : nat) : nat :=
  match rest with
  | O => 3 * length cfgs
  | S _ => 0
  end.

(** One pass: at most [b] sends, and one send when the pass ends the loop
    with an error response. *)
Definition pass_budget (b : nat) (r : result flow) (n : nat) : Prop :=
  (n <= b)%nat /\ forall c, r = Ok (Break c) -> 400 <= c -> (n <= 1)%nat.

(** The loop with [rest] passes after the first. *)
Definition loop_budget (cfgs : list api_config) (rest : nat)
    (r : result loop_exit) (n : nat) : Prop :=
  (n <= 2 * S rest + 3 * length cfgs)%nat /\
  forall c, r = Ok (Responded c) -> 400 <= c -> (n <= 2 * rest + 1)%nat.

(** The code after the loop, entered with [status_code]. *)
Definition after_budget (cfgs : list api_config) (status_code : Z) {A}
    (r : result A) (n : nat) : Prop :=
  (n <= 3 * length cfgs + 1)%nat /\ (status_code < 400 -> n = 0%nat).

(** The sends each stage of the [except] block may make for the error [e]:
    the switch after a [ReadError], the switch after a [ConnectError], and
    the ladder attempt. *)
Definition read_budget (read_error_strategy : string) (e : outcome) : nat :=
  match e with
  | ReadError => if bool_decide (read_error_strategy = "switch_api"%string) then 1 else 0
  | _ => 0
  end.

Definition connect_budget (connect_error_strategy : string) (e : outcome) : nat :=
  match e with
  | ConnectError =>
    if bool_decide (connect_error_strategy = "switch_api"%string) then 1 else 0
  | _ => 0
  end.

Definition ladder_budget
    (read_error_strategy connect_error_strategy read_timeout_strategy : string)
    (e : outcome) : nat :=
  if is_strategy_error read_error_strategy connect_error_strategy
       read_timeout_strategy e then 1 else 0.

(** The part of one pass that follows the main send, as [iteration] has it
    (lines 3403-3581), with [o] what the send returned. *)
Definition pass_after_send (s : settings) (now : Z)
    (strategy_retry_status_codes switch_api_codes no_retry_codes : list Z)
    (read_error_strategy connect_error_strategy read_timeout_strategy : string)
    (READ_TIMEOUT_RETRY_CONFIGS : list retry_config) (world : nat -> outcome)
    (retry_attempt rest : nat) (o : outcome) : M flow :=
  match o with
  | Status status_code =>
    if bool_decide (status_code ∈ strategy_retry_status_codes) then
      handler s now switch_api_codes read_error_strategy connect_error_strategy
        read_timeout_strategy READ_TIMEOUT_RETRY_CONFIGS world retry_attempt rest
        (Status status_code)
    else if bool_decide (status_code ∈ no_retry_codes) then
      _ ← record_current s now status_code;
      mret (Break status_code)
    else if bool_decide (status_code ∈ switch_api_codes) then
      _ ← modify (set_last_error (Some status_code) (Some switch_api));
      switch_success ← smart_switch s now status_code;
      _ ← modify (set_client_closed true);
      _ ← (if switch_success : bool then
             _ ← validate_and_replace_user_key s now;
             url ← build_upstream_url s now;
             _ ← modify (set_upstream_url url);
             get_current_api_info s now
           else mret tt);
      match rest with
      | S _ => mret Continue
      | O => mret (Break status_code)
      end
    else if bool_decide (status_code < 400) then mret (Break status_code)
    else
      match rest with
      | S _ => _ ← modify (set_client_closed true); mret Continue
      | O => mret (Break status_code)
      end
  | e =>
    handler s now switch_api_codes read_error_strategy connect_error_strategy
      read_timeout_strategy READ_TIMEOUT_RETRY_CONFIGS world retry_attempt rest e
  end.

End Budget.

(** ** Limit on cache_control blocks  (app.py, lines 2800-2871 and 3371-3403) *)

Module CacheControl.
Import Detect.

Local Open Scope string_scope.

(** Truth value of a decoded JSON value. *)
Definition truthy (v : json) : bool :=
  match v with
  | JNull => false
  | JBool b => b
  | JNumber n => bool_decide (n <> 0)
  | JString s => bool_decide (s <> "")
  | JArray items => bool_decide (items <> [])
  | JObject fields => bool_decide (fields <> [])
  end.

(** A [str] is held as its UTF-8 encoding, and Python iterates a [str] by
    code point: a character is a first byte together with the continuation
    bytes ([10xxxxxx]) that follow it. *)
Definition is_continuation (c : Ascii.ascii) : bool :=
  match c with
  | Ascii.Ascii _ _ _ _ _ _ b6 b7 => b7 && negb b6
  end.

Fixpoint code_points (s : string) : list string :=
  match s with
  | EmptyString => []
  | String c rest =>
    let tail := code_points rest in
    match rest with
    | String d _ =>
      if is_continuation d then
        match tail with
        | x :: xs => String c x :: xs
        | [] => [String c EmptyString]
        end
      else String c EmptyString :: tail
    | EmptyString => [String c EmptyString]
    end
  end.

(** The one-character strings [for item in s] yields for a [str]. *)
Definition chars (s : string) : list json := JString <$> code_points s.

(** [for item in v]: the items of a list, the characters of a string, the
    keys of an object; [None] is the [TypeError] of a value that cannot be
    iterated. *)
Definition py_iter (v : json) : option (list json) :=
  match v with
  | JArray items => Some items
  | JString s => Some (chars s)
  | JObject fields => Some ((fun kv => JString kv.1) <$> fields)
  | _ => None
  end.

(** [del d[key]] and [d[key] = v] on the items of an object. *)
Definition del_key (key : string) (fields : list (string * json))
  : list (string * json) :=
  List.filter (fun kv => negb (bool_decide (kv.1 = key))) fields.

Fixpoint set_key (key : string) (v : json) (fields : list (string * json))
  : list (string * json) :=
  match fields with
  | [] => [(key, v)]
  | (k, x) :: rest =>
    if bool_decide (k = key) then (k, v) :: rest else (k, x) :: set_key key v rest
  end.

(** [isinstance(item, dict) and "cache_control" in item]. *)
Definition has_cache_control (item : json) : bool :=
  match item with
  | JObject fields => has_key "cache_control" fields
  | _ => false
  end.

Definition remove_cache_control (item : json) : json :=
  match item with
  | JObject fields => JObject (del_key "cache_control" fields)
  | _ => item
  end.

(** The loop over the items of [system] or of one [content]: the fixed
    list and the counter after it. *)
Fixpoint limit_items (max_blocks : Z) (items : list json) (cache_control_count : Z)
  : list json * Z :=
  match items with
  | [] => ([], cache_control_count)
  | item :: rest =>
    if has_cache_control item then
      if bool_decide (cache_control_count < max_blocks) then
        let '(fixed, count) := limit_items max_blocks rest (cache_control_count + 1) in
        (item :: fixed, count)
      else
        let '(fixed, count) := limit_items max_blocks rest cache_control_count in
        (remove_cache_control item :: fixed, count)
    else
      let '(fixed, count) := limit_items max_blocks rest cache_control_count in
      (item :: fixed, count)
  end.

(** The loop over [messages]. *)
Fixpoint limit_messages (max_blocks : Z) (messages : list json)
    (cache_control_count : Z) : list json * Z :=
  match messages with
  | [] => ([], cache_control_count)
  | JObject msg :: rest =>
    match default (JArray []) (get "content" msg) with
    | JArray content =>
      let '(fixed_content, count) := limit_items max_blocks content cache_control_count in
      let '(fixed, count) := limit_messages max_blocks rest count in
      (JObject (set_key "content" (JArray fixed_content) msg) :: fixed, count)
    | _ =>
      let '(fixed, count) := limit_messages max_blocks rest cache_control_count in
      (JObject msg :: fixed, count)
    end
  | msg :: rest =>
    let '(fixed, count) := limit_messages max_blocks rest cache_control_count in
    (msg :: fixed, count)
  end.

(** The body of the [try] block: [None] when an iteration raises. *)
Definition limit_body (request_data : list (string * json)) (max_blocks : Z)
  : option (list (string * json)) :=
  let fixed_request := request_data in
  let system_items := default (JArray []) (get "system" fixed_request) in
  '(fixed_request, cache_control_count) ←
    (if truthy system_items then
       items ← py_iter system_items;
       let '(fixed_system, count) := limit_items max_blocks items 0 in
       Some (set_key "system" (JArray fixed_system) fixed_request, count)
     else Some (fixed_request, 0));
  let messages := default (JArray []) (get "messages" fixed_request) in
  if truthy messages then
    msgs ← py_iter messages;
    let '(fixed_messages, _) := limit_messages max_blocks msgs cache_control_count in
    Some (set_key "messages" (JArray fixed_messages) fixed_request)
  else Some fixed_request.

(** [limit_cache_control_blocks] on the items of the request object: when
    the body raises the request is returned as it came. *)
Definition limit_cache_control_blocks (request_data : list (string * json))
    (max_blocks : Z) : list (string * json) :=
  default request_data (limit_body request_data max_blocks).

(** The count the caller makes before it applies the limit (lines
    3378-3389). *)
Definition count_items (items : list json) : Z :=
  Z.of_nat (length (List.filter has_cache_control items)).

Definition count_message (msg : json) : Z :=
  match msg with
  | JObject fields =>
    match default (JArray []) (get "content" fields) with
    | JArray content => count_items content
    | _ => 0
    end
  | _ => 0
  end.

Fixpoint count_messages (messages : list json) : Z :=
  match messages with
  | [] => 0
  | msg :: rest => count_message msg + count_messages rest
  end.

Definition cache_count (request_data : list (string * json)) : option Z :=
  items ← py_iter (default (JArray []) (get "system" request_data));
  msgs ← py_iter (default (JArray []) (get "messages" request_data));
  Some (count_items items + count_messages msgs).


End CacheControl.

(** ** Errors found in a response body  (app.py, lines 1272-1307) *)

Module ErrorSwitch.
Import Detect.

Local Open Scope string_scope.

Section Str.

(** [str(v)] for a value that is not a string, and [str.lower], which
    Python defines over the whole of Unicode (it maps the Kelvin sign to
    [k], for one): both are parameters. *)
Variable py_str : json -> string.
Variable py_lower : string -> string.

Definition str (v : json) : string :=
  match v with
  | JString s => s
  | _ => py_str v
  end.

Definition switch_statuses : list Z := [401; 403; 429; 502; 503; 500].

(** The dictionary [error_patterns], in the order of its items. *)
Definition error_patterns : list (Z * list string) :=
  [ (401, ["401"; "unauthorized"; "invalid key"; "authentication"; "bearer token";
           "not authorized"]);
    (403, ["403"; "forbidden"; "access denied"; "invalid key"; "unauthorized";
           "authentication"]);
    (429, ["429"; "rate limit"; "too many requests"]);
    (502, ["502"; "bad gateway"; "500"; "internal server"]);
    (503, ["503"; "service unavailable"; "unavailable"; "server unavailable";
           "overloaded"; "temporarily unavailable"]) ].

(** [any(keyword in error_msg_lower for keyword in keywords)]. *)
Definition any_keyword (keywords : list string) (error_msg_lower : string) : bool :=
  existsb (fun keyword => contains keyword error_msg_lower) keywords.

(** The lower-cased text that the keywords are looked up in. *)
Definition error_text (error_info : list (string * json)) : string :=
  let error_msg :=
    str (default (JString "") (get "error" error_info))
    +:+ str (default (JString "") (get "details" error_info)) in
  py_lower error_msg.

(** [should_trigger_api_switch]; [None] is the argument [None]. *)
Definition should_trigger_api_switch (error_info : option (list (string * json)))
  : bool * option Z :=
  match error_info with
  | None | Some [] => (false, None)
  | Some error_info =>
    let by_text :=
      match List.find (fun entry => any_keyword entry.2 (error_text error_info))
                      error_patterns with
      | Some (error_code, _) => (true, Some error_code)
      | None => (false, None)
      end in
    match get "status" error_info with
    | Some (JNumber status) =>
      if bool_decide (status ∈ switch_statuses) then (true, Some status) else by_text
    | _ => by_text
    end
  end.

(** The [status] of the dictionary when it is one of the six codes. *)
Definition switch_status (error_info : list (string * json)) : option Z :=
  match get "status" error_info with
  | Some (JNumber status) =>
    if bool_decide (status ∈ switch_statuses) then Some status else None
  | _ => None
  end.

End Str.

End ErrorSwitch.

(** ** Conversion of an OpenAI request  (openai_adapter.py, lines 59-87, 243-394
    and 599-618) *)

Module Adapter.
Import Detect CacheControl.

Local Open Scope string_scope.

Section Str.

(** [str(v)] for a value that is not a string. *)
Variable py_str : json -> string.

Definition str (v : json) : string :=
  match v with
  | JString s => s
  | _ => py_str v
  end.

Definition MODEL_MAPPING : list (string * string) :=
  [ ("gpt-4", "claude-sonnet-4-20250514");
    ("gpt-4-turbo", "claude-sonnet-4-20250514");
    ("gpt-3.5-turbo", "claude-sonnet-4-20250514");
    ("claude-sonnet-4", "claude-sonnet-4-20250514");
    ("claude-sonnet-3.5", "claude-sonnet-4-20250514");
    ("claude-haiku", "claude-sonnet-4-20250514");
    ("claude-sonnet-4-20250514", "claude-sonnet-4-20250514");
    ("claude-sonnet-4-20250514-thinking", "claude-sonnet-4-20250514");
    ("claude-sonnet-4-5-20250929", "claude-sonnet-4-5-20250929");
    ("claude-opus-4-1-20250805", "claude-opus-4-1-20250805") ].

(** [MODEL_MAPPING.get(original_model, "claude-sonnet-4-20250514")]. *)
Definition mapped_model (original_model : string) : string :=
  match List.find (fun kv => bool_decide (kv.1 = original_model)) MODEL_MAPPING with
  | Some (_, model) => model
  | None => "claude-sonnet-4-20250514"
  end.

(** [text.endswith(suffix)]. *)
Fixpoint ends_with (suffix text : string) : bool :=
  bool_decide (text = suffix) ||
  match text with
  | EmptyString => false
  | String _ rest => ends_with suffix rest
  end.

Definition _should_enable_thinking (original_model : string) : bool :=
  ends_with "-thinking" original_model.

Definition text_block (text : json) : json :=
  JObject [("type", JString "text"); ("text", text)].

(** One item of a list [content]. *)
Definition convert_item (item : json) : json :=
  match item with
  | JObject fields =>
    if has_key "type" fields && has_key "text" fields then item
    else if has_key "text" fields then text_block (default JNull (get "text" fields))
    else text_block (JString (str item))
  | _ => text_block (JString (str item))
  end.

(** [msg.get("role") == "system"]. *)
Definition is_system (fields : list (string * json)) : bool :=
  match get "role" fields with
  | Some (JString role) => bool_decide (role = "system")
  | _ => false
  end.

Definition convert_content (content : json) : list json :=
  match content with
  | JString _ => [text_block content]
  | JArray items => convert_item <$> items
  | _ => [text_block (JString (str content))]
  end.

(** [_convert_messages] on the items of [openai_messages]; [None] is the
    [AttributeError] of a message that is not an object. *)
Fixpoint _convert_messages (openai_messages : list json) : option (list json) :=
  match openai_messages with
  | [] => Some []
  | JObject msg :: rest =>
    if is_system msg then _convert_messages rest
    else
      let claude_msg :=
        JObject [("role", default (JString "user") (get "role" msg));
                 ("content",
                  JArray (convert_content (default (JString "") (get "content" msg))))] in
      claude_messages ← _convert_messages rest;
      Some (claude_msg :: claude_messages)
  | _ :: _ => None
  end.

(** The texts of the parts of type [text]; [None] when the text of such a
    part is not a string (the [join] raises). *)
Fixpoint text_parts (parts : list json) : option (list string) :=
  match parts with
  | [] => Some []
  | JObject part :: rest =>
    match get "type" part with
    | Some (JString "text") =>
      match default (JString "") (get "text" part) with
      | JString text => texts ← text_parts rest; Some (text :: texts)
      | _ => None
      end
    | _ => text_parts rest
    end
  | _ :: rest => text_parts rest
  end.

Fixpoint join (sep : string) (l : list string) : string :=
  match l with
  | [] => ""
  | [a] => a
  | a :: rest => a +:+ sep +:+ join sep rest
  end.

(** [_extract_system_message]: the first system message whose content is
    a string or a list decides. *)
Fixpoint _extract_system_message (messages : list json) : option (option string) :=
  match messages with
  | [] => Some None
  | JObject msg :: rest =>
    if is_system msg then
      match default (JString "") (get "content" msg) with
      | JString content => Some (Some content)
      | JArray parts => texts ← text_parts parts; Some (Some (join Thinking.newline texts))
      | _ => _extract_system_message rest
      end
    else _extract_system_message rest
  | _ :: _ => None
  end.

Definition claude_code_system : string :=
  "You are Claude Code, Anthropic's official CLI for Claude.".

(** [convert_request] on the items of the request object: the Claude
    request and [enable_thinking], which selects the [anthropic-beta] header;
    [None] when the conversion raises. *)
Definition convert_request (openai_request : list (string * json))
  : option (list (string * json) * bool) :=
  original_model ←
    match default (JString "gpt-4") (get "model" openai_request) with
    | JString original_model => Some original_model
    | _ => None
    end;
  let enable_thinking := _should_enable_thinking original_model in
  let requested_max_tokens := default (JNumber 32000) (get "max_tokens" openai_request) in
  openai_messages ← py_iter (default (JArray []) (get "messages" openai_request));
  claude_messages ← _convert_messages openai_messages;
  system_content ← _extract_system_message openai_messages;
  let combined_system :=
    match system_content with
    | Some system_content =>
      if bool_decide (system_content <> "")
      then claude_code_system +:+ Thinking.newline +:+ Thinking.newline +:+ system_content
      else claude_code_system
    | None => claude_code_system
    end in
  let temperature :=
    if enable_thinking then JNumber 1
    else default (JNumber 1) (get "temperature" openai_request) in
  Some
    (([ ("model", JString (mapped_model original_model));
       ("max_tokens", requested_max_tokens);
       ("messages", JArray claude_messages);
       ("system",
        JArray [JObject [("type", JString "text");
                         ("text", JString combined_system);
                         ("cache_control", JObject [("type", JString "ephemeral")])]]);
       ("temperature", temperature);
       ("stream", JBool true);
       ("metadata", JObject [("user_id", JString "user_openai_adapter_session")]) ]
     ++ (if enable_thinking
         then [("thinking", JObject [("type", JString "enabled");
                                     ("budget_tokens", JNumber 30000)])]
         else []))%list,
     enable_thinking).

(** [detect_and_convert_request]: the flag and the data of its result. *)
Definition detect_and_convert_request (request_data : json) : option (bool * json) :=
  if is_openai_request request_data then
    match request_data with
    | JObject openai_request =>
      '(converted, _) ← convert_request openai_request;
      Some (true, JObject converted)
    | _ => None
    end
  else Some (false, request_data).

End Str.

(** An OpenAI request for the thinking mode, with a system message and a
    stop sequence. *)
Definition thinking_request : list (string * json) :=
  [("model", JString "gpt-4-thinking");
   ("messages",
    JArray [JObject [("role", JString "system"); ("content", JString "be brief")];
            JObject [("role", JString "user"); ("content", JString "hi")]]);
   ("stop", JArray [JString "END"])].

(** A message as the conversion writes it: a role, and a list as content. *)
Definition claude_message (msg : json) : Prop :=
  exists role content,
    msg = JObject [("role", role); ("content", JArray content)] /\
    role <> JString "system".

End Adapter.

(** ** A pool that waits on a cooling backup *)

Module SelectorScenarios.
Import Pool.

(** A healthy primary and a backup that is cooling down until second 1500;
    the pool sits on the backup and probed the primaries at second 995. *)
Definition waiting_on_backup_pool : pool :=
  Scenarios.make_pool [Scenarios.entry_A; Scenarios.entry_B]
    (<[1 := Scenarios.cooling]> (_init_status_dict [Scenarios.entry_A; Scenarios.entry_B]))
    1 true (Some 995).

(** A second backup. *)
Definition entry_C : api_config := Scenarios.entry "c" "backup".

(** A healthy primary and two backups, the first of them cooling down until
    second 1500; the pool sits on that backup and probed the primaries at
    second 995. *)
Definition backup_gone_pool : pool :=
  Scenarios.make_pool [Scenarios.entry_A; Scenarios.entry_B; entry_C]
    (<[1 := Scenarios.cooling]>
       (_init_status_dict [Scenarios.entry_A; Scenarios.entry_B; entry_C]))
    1 true (Some 995).

End SelectorScenarios.

(** * Properties *)

(** ** Python list indexing *)

Lemma py_index_in_range {A} (l : list A) (i : Z) :
  0 <= i < Z.of_nat (length l) ->
  exists a, py_index l i = Ok a /\ l !! Z.to_nat i = Some a.
Proof.
  intros Hi. unfold py_index.
  rewrite (bool_decide_eq_false_2 (i < 0)) by lia.
  rewrite bool_decide_eq_true_2 by lia.
  destruct (l !! Z.to_nat i) as [a|] eqn:E; [eauto|].
  apply lookup_ge_None in E. lia.
Qed.

(** ** The error recorder *)

Module PoolRecorder.
Import Pool.

Section Core.

Variables (api_index error_code now threshold cooldown_seconds : Z).
Variables (d : gmap Z api_state) (cfgs : list api_config).

Let d' := (_record_error_core api_index error_code now d cfgs threshold cooldown_seconds).2.

Lemma record_error_core_lookup :
  d' !! api_index =
    Some (let n := error_count (state_of d api_index) + 1 in
          if bool_decide (threshold <= n)
          then {| status := warning; error_count := n;
                  cooldown_until := Some (now + cooldown_seconds) |}
          else {| status := status (state_of d api_index); error_count := n;
                  cooldown_until := cooldown_until (state_of d api_index) |}).
Proof.
  subst d'. unfold _record_error_core, state_of. cbn [snd].
  rewrite lookup_insert_eq. f_equal.
  destruct (d !! api_index) as [st|] eqn:E; cbn.
  - rewrite E. cbn. by destruct (bool_decide _).
  - rewrite lookup_insert_eq. cbn. by destruct (bool_decide _).
Qed.

Lemma record_error_core_other (j : Z) :
  j <> api_index -> d' !! j = d !! j.
Proof.
  intros Hj. subst d'. unfold _record_error_core. cbn [snd].
  rewrite lookup_insert_ne by done.
  destruct (d !! api_index); [done|]. by rewrite lookup_insert_ne.
Qed.

Lemma record_error_core_state :
  state_of d' api_index =
    let n := error_count (state_of d api_index) + 1 in
    if bool_decide (threshold <= n)
    then {| status := warning; error_count := n;
            cooldown_until := Some (now + cooldown_seconds) |}
    else {| status := status (state_of d api_index); error_count := n;
            cooldown_until := cooldown_until (state_of d api_index) |}.
Proof. unfold state_of at 1. by rewrite record_error_core_lookup. Qed.

Lemma record_error_core_count :
  error_count (state_of d' api_index) = error_count (state_of d api_index) + 1.
Proof. rewrite record_error_core_state. cbn. by destruct (bool_decide _). Qed.

Lemma record_error_core_cooldown :
  threshold <= error_count (state_of d' api_index) ->
  cooldown_until (state_of d' api_index) = Some (now + cooldown_seconds) /\
  status (state_of d' api_index) = warning.
Proof.
  rewrite record_error_core_state. cbn.
  destruct (bool_decide _) eqn:E; cbn; [done|].
  apply bool_decide_eq_false in E. lia.
Qed.

Lemma record_error_core_below :
  error_count (state_of d' api_index) < threshold ->
  cooldown_until (state_of d' api_index) = cooldown_until (state_of d api_index) /\
  status (state_of d' api_index) = status (state_of d api_index).
Proof.
  rewrite record_error_core_state. cbn.
  destruct (bool_decide _) eqn:E; cbn; [|done].
  apply bool_decide_eq_true in E. lia.
Qed.

Lemma record_error_core_inv : status_inv d -> status_inv d'.
Proof.
  intros Hinv j st Hj.
  destruct (decide (j = api_index)) as [->|Hne].
  - rewrite record_error_core_lookup in Hj. injection Hj as <-.
    assert (H0 : 0 <= error_count (state_of d api_index) /\
                 (cooldown_until (state_of d api_index) = None ->
                  status (state_of d api_index) = normal)).
    { unfold state_of. destruct (d !! api_index) as [st0|] eqn:E; cbn; [|done].
      by eapply Hinv. }
    cbn.
    destruct (bool_decide (threshold <= error_count (state_of d api_index) + 1));
      cbn; split; try done; lia || tauto.
  - rewrite record_error_core_other in Hj by done. by eapply Hinv.
Qed.

End Core.

Lemma recorded_status s codex now api_index error_code p :
  api_status (recorded s codex now api_index error_code p) =
  (_record_error_core api_index error_code now (api_status p) (configs p)
     (threshold_of s codex) (api_cooldown_seconds s)).2.
Proof.
  unfold recorded, record_codex_error, record_api_error, threshold_of.
  destruct codex; by destruct (_record_error_core _ _ _ _ _ _ _).
Qed.

(** C10.  Every call of [record_api_error] and of [record_codex_error]
    leaves a record for the entry whose error count is one more than before
    (an absent record counting as a fresh one); whenever the new count has
    reached the threshold the cooldown deadline is set to the time of the
    call plus [api_cooldown_seconds] and the status to [warning], on every
    such call, so that a further error recorded later moves the deadline to
    that later time. *)
Theorem record_error_increments_and_cools
    (s : settings) (codex : bool) (now api_index error_code : Z) (p : pool) :
  let p' := recorded s codex now api_index error_code p in
  let after := state_of (api_status p') api_index in
  is_Some (api_status p' !! api_index) /\
  error_count after = error_count (state_of (api_status p) api_index) + 1 /\
  (threshold_of s codex <= error_count after ->
     cooldown_until after = Some (now + api_cooldown_seconds s) /\
     status after = warning /\
     forall later error_code',
       let after' := state_of (api_status (recorded s codex later api_index error_code' p'))
                              api_index in
       error_count after' = error_count after + 1 /\
       cooldown_until after' = Some (later + api_cooldown_seconds s) /\
       status after' = warning).
Proof.
  intros p' after. subst after p'.
  rewrite !recorded_status. split; [|split].
  - rewrite record_error_core_lookup. eauto.
  - apply record_error_core_count.
  - intros Hthr.
    destruct (record_error_core_cooldown _ error_code now _ _ _ (configs p) Hthr)
      as [Hc Hs].
    split; [done|]. split; [done|].
    intros later error_code'. cbn zeta. rewrite !recorded_status.
    rewrite record_error_core_count.
    split; [done|].
    set (d1 := (_record_error_core api_index error_code now (api_status p)
                  (configs p) (threshold_of s codex) (api_cooldown_seconds s)).2) in *.
    assert (H2 : threshold_of s codex
                 <= error_count (state_of
                      (_record_error_core api_index error_code' later d1
                         (configs (recorded s codex now api_index error_code p))
                         (threshold_of s codex) (api_cooldown_seconds s)).2 api_index)).
    { rewrite record_error_core_count. lia. }
    destruct (record_error_core_cooldown _ _ _ _ _ _ _ H2). done.
Qed.

End PoolRecorder.

(** ** The error classifier *)

Module ClassifierSpec.
Import Classifier.

Local Open Scope string_scope.

Lemma update_lookup (defaults : gmap string string) stored (k : string) :
  update defaults stored !! k =
    match stored ≫= (.!! k) with
    | Some v => Some v
    | None => defaults !! k
    end.
Proof.
  destruct stored as [t|]; cbn; [|done].
  rewrite lookup_union. destruct (t !! k), (defaults !! k); done.
Qed.

Lemma default_http_default : default_http_status_codes !! "default" = Some "strategy_retry".
Proof. reflexivity. Qed.

Lemma default_network_default : default_network_errors !! "default" = Some "switch_api".
Proof. reflexivity. Qed.

(** The [default] entry of the table the classifier reads is the configured
    one when there is one, and the built-in one otherwise. *)
Lemma matching_table_default stored o :
  matching_table stored o !! "default" =
    Some (default (hard_coded_fallback o) (configured_table stored o ≫= (.!! "default"))).
Proof.
  destruct o; unfold matching_table, get_error_handling_strategies;
    cbn [http_status_codes network_errors configured_table hard_coded_fallback];
    rewrite update_lookup; destruct (_ ≫= _); done.
Qed.

Lemma classify_unfold stored o :
  classify stored o =
    match matching_table stored o !! key_of o with
    | Some exact => Some exact
    | None => matching_table stored o !! "default"
    end.
Proof. destruct o; reflexivity. Qed.

(** The three transport kinds of the data model have built-in entries, so
    the exact lookup never misses for them. *)
Lemma transport_kind_listed stored kind :
  kind ∈ transport_kinds ->
  is_Some (network_errors (get_error_handling_strategies stored) !! kind).
Proof.
  intros Hk. unfold get_error_handling_strategies. cbn [network_errors].
  rewrite update_lookup. destruct (_ ≫= _); [eauto|].
  unfold transport_kinds in Hk.
  repeat (apply elem_of_cons in Hk as [->|Hk]; [by eexists|]).
  by apply elem_of_nil in Hk.
Qed.

(** Outside these kinds [get_network_error_strategy] goes from the exact
    key straight to [switch_api]: a configured [default] is not read. *)
Lemma get_network_error_strategy_skips_default :
  let stored := {| stored_http_status_codes := None;
                   stored_network_errors := Some {["default" := "normal_retry"]} |} in
  get_network_error_strategy stored "PoolTimeout" = "switch_api" /\
  classify stored (TransportError "PoolTimeout") = Some "normal_retry".
Proof. split; reflexivity. Qed.

(** C1.  For every outcome the classifier answers with the entry of the
    exact key in the matching table when there is one, otherwise with the
    [default] entry of that table; the [default] entry is the configured one
    or else the hard-coded [strategy_retry] (HTTP statuses) or [switch_api]
    (transport errors), so there is always an answer.  For the three
    transport kinds [get_network_error_strategy] gives the same answer. *)
Theorem classifier_lookup_order (stored : stored_strategies) (o : outcome) :
  let table := matching_table stored o in
  exists strategy,
    classify stored o = Some strategy /\
    strategy =
      match table !! key_of o with
      | Some exact => exact
      | None =>
        match configured_table stored o ≫= (.!! "default") with
        | Some configured => configured
        | None => hard_coded_fallback o
        end
      end /\
    table !! "default" =
      Some (default (hard_coded_fallback o)
                    (configured_table stored o ≫= (.!! "default"))) /\
    forall kind, o = TransportError kind -> kind ∈ transport_kinds ->
      get_network_error_strategy stored kind = strategy.
Proof.
  intros table. subst table.
  rewrite classify_unfold, matching_table_default.
  destruct (matching_table stored o !! key_of o) as [exact|] eqn:E.
  - exists exact. repeat split; try done.
    intros kind -> _. unfold get_network_error_strategy.
    cbn [matching_table key_of] in E. by rewrite E.
  - eexists. split; [reflexivity|]. split.
    { by destruct (_ ≫= _). }
    split; [done|].
    intros kind -> Hk.
    destruct (transport_kind_listed stored kind Hk) as [v Hv].
    cbn [matching_table key_of] in E. congruence.
Qed.

End ClassifierSpec.

(** ** The adaptive timeout *)

Module AdaptiveTimeoutSpec.
Import AdaptiveTimeout.

(** The read loop past a run of chunks that all arrive before the deadline. *)
Lemma read_stream_chunks total elapsed arrivals rest :
  elapsed < total ->
  Forall (fun t => t < total) arrivals ->
  read_stream total elapsed (chunks arrivals ++ rest) =
  read_stream total (time_after elapsed arrivals) rest.
Proof.
  revert elapsed. induction arrivals as [|t ts IH]; intros elapsed He Hall.
  - reflexivity.
  - apply Forall_cons in Hall as [Ht Hts].
    cbn [chunks fmap list_fmap app read_stream].
    rewrite bool_decide_eq_false_2 by lia.
    rewrite bool_decide_eq_false_2 by lia.
    fold (chunks ts). by rewrite IH.
Qed.

Lemma last_before total elapsed arrivals :
  elapsed < total -> Forall (fun t => t < total) arrivals ->
  time_after elapsed arrivals < total.
Proof.
  revert elapsed. induction arrivals as [|t ts IH]; intros elapsed He Hall; [done|].
  apply Forall_cons in Hall as [Ht Hts]. by apply (IH t).
Qed.

(** A stream whose chunks and whose end arrive before the deadline is read
    to its end. *)
Lemma read_stream_completes total arrivals t :
  0 < total -> Forall (fun t => t < total) arrivals -> t < total ->
  read_stream total 0 (chunks arrivals ++ [(t, end_of_stream)]) = completed.
Proof.
  intros H0 Hall Ht. rewrite read_stream_chunks by done.
  pose proof (last_before total 0 arrivals H0 Hall).
  cbn. rewrite !bool_decide_eq_false_2 by lia. done.
Qed.

(** An event that arrives at the deadline or later is not waited for. *)
Lemma read_stream_times_out total arrivals t ev rest :
  Forall (fun t => t < total) arrivals -> total <= t ->
  read_stream total 0 (chunks arrivals ++ (t, ev) :: rest) = total_timeout.
Proof.
  intros Hall Ht.
  destruct (decide (0 < total)) as [H0|H0].
  - rewrite read_stream_chunks by done.
    pose proof (last_before total 0 arrivals H0 Hall).
    cbn. rewrite bool_decide_eq_false_2 by lia.
    by rewrite bool_decide_eq_true_2 by lia.
  - destruct arrivals; cbn; by rewrite bool_decide_eq_true_2 by lia.
Qed.

Lemma on_success_counts st :
  0 < codex_timeout_extra_seconds st -> codex_success_count st + 1 < 3 ->
  on_success st =
    {| codex_timeout_extra_seconds := codex_timeout_extra_seconds st;
       codex_success_count := codex_success_count st + 1 |}.
Proof.
  intros He Hc. unfold on_success.
  rewrite bool_decide_eq_true_2 by done. by rewrite bool_decide_eq_false_2 by lia.
Qed.

Lemma on_success_resets st :
  0 < codex_timeout_extra_seconds st -> 3 <= codex_success_count st + 1 ->
  on_success st = {| codex_timeout_extra_seconds := 0; codex_success_count := 0 |}.
Proof.
  intros He Hc. unfold on_success.
  rewrite bool_decide_eq_true_2 by done. by rewrite bool_decide_eq_true_2 by lia.
Qed.

(** C5.  The body deadline of a request is base + extra seconds: a stream
    that ends before it is read to the end, an event due at or after it is a
    timeout.  A timeout adds the increment to the extra seconds and zeroes
    the success counter; a completion with extra seconds above zero counts
    one success, and the third one resets the state to (0, 0); a completion
    with no extra seconds changes nothing. *)
Theorem adaptive_timeout_state_machine
    (codex_base_timeout codex_increment : Z) (st : timeout_state) :
  let total := stream_total_timeout codex_base_timeout st in
  total = codex_base_timeout + codex_timeout_extra_seconds st /\
  (forall arrivals t, 0 < total -> Forall (fun a => a < total) arrivals -> t < total ->
     stream_request codex_base_timeout codex_increment
       (chunks arrivals ++ [(t, end_of_stream)]) st = (completed, on_success st)) /\
  (forall arrivals t ev rest, Forall (fun a => a < total) arrivals -> total <= t ->
     stream_request codex_base_timeout codex_increment
       (chunks arrivals ++ (t, ev) :: rest) st
     = (total_timeout, on_timeout codex_increment st)) /\
  on_timeout codex_increment st =
    {| codex_timeout_extra_seconds := codex_timeout_extra_seconds st + codex_increment;
       codex_success_count := 0 |} /\
  after_stream codex_increment read_timeout st = on_timeout codex_increment st /\
  (0 < codex_timeout_extra_seconds st -> codex_success_count st + 1 < 3 ->
     on_success st =
       {| codex_timeout_extra_seconds := codex_timeout_extra_seconds st;
          codex_success_count := codex_success_count st + 1 |}) /\
  (0 < codex_timeout_extra_seconds st -> 3 <= codex_success_count st + 1 ->
     on_success st = {| codex_timeout_extra_seconds := 0; codex_success_count := 0 |}) /\
  (codex_timeout_extra_seconds st <= 0 -> on_success st = st) /\
  (0 < codex_timeout_extra_seconds st + codex_increment ->
     on_success (on_success (on_success (on_timeout codex_increment st)))
     = {| codex_timeout_extra_seconds := 0; codex_success_count := 0 |}).
Proof.
  intros total. subst total. repeat split.
  - intros arrivals t H0 Hall Ht. unfold stream_request.
    by rewrite read_stream_completes.
  - intros arrivals t ev rest Hall Ht. unfold stream_request.
    by rewrite read_stream_times_out.
  - apply on_success_counts.
  - apply on_success_resets.
  - intros He. unfold on_success. by rewrite bool_decide_eq_false_2 by lia.
  - intros He.
    rewrite (on_success_counts (on_timeout codex_increment st)) by (cbn; lia).
    cbn [on_timeout codex_timeout_extra_seconds codex_success_count].
    rewrite (on_success_counts
               {| codex_timeout_extra_seconds := _; codex_success_count := 0 + 1 |})
      by (cbn; lia).
    cbn [codex_timeout_extra_seconds codex_success_count].
    apply on_success_resets; cbn; lia.
Qed.

(** Scenario S4 of the specification: base 60, a stall until second 61,
    then three requests that complete. *)
Example adaptive_timeout_growth :
  let st0 := {| codex_timeout_extra_seconds := 0; codex_success_count := 0 |} in
  let ok := [(1, chunk); (2, end_of_stream)] in
  let '(e1, st1) := stream_request 60 60 [(1, chunk); (61, chunk)] st0 in
  let '(e2, st2) := stream_request 60 60 ok st1 in
  let '(e3, st3) := stream_request 60 60 ok st2 in
  let '(e4, st4) := stream_request 60 60 ok st3 in
  e1 = total_timeout /\
  st1 = {| codex_timeout_extra_seconds := 60; codex_success_count := 0 |} /\
  stream_total_timeout 60 st1 = 120 /\
  [e2; e3; e4] = [completed; completed; completed] /\
  st4 = st0.
Proof. repeat split. Qed.

End AdaptiveTimeoutSpec.

(** ** The selectors *)

Module PoolSelector.
Import Pool.

Lemma frame_refl p : frame p p.
Proof. by repeat split. Qed.

Lemma frame_trans p1 p2 p3 : frame p1 p2 -> frame p2 p3 -> frame p1 p3.
Proof. unfold frame. intros (?&?&?&?&?&?) (?&?&?&?&?&?). repeat split; congruence. Qed.

Lemma same_avail_refl now p : same_avail now p p.
Proof. by split. Qed.

Lemma same_avail_trans now p1 p2 p3 :
  same_avail now p1 p2 -> same_avail now p2 p3 -> same_avail now p1 p3.
Proof.
  intros [H1 H2] [H3 H4]. split; [congruence|]. intros i. by rewrite H4, H2.
Qed.

(** Availability reads the entry and its own record only. *)
Lemma is_api_available_ext now i p p' :
  configs p' = configs p ->
  api_status p' !! Z.of_nat i = api_status p !! Z.of_nat i ->
  (is_api_available now i p').1 = (is_api_available now i p).1.
Proof.
  intros Hc Hs. unfold is_api_available. rewrite Hc, Hs.
  repeat case_match; done.
Qed.

Lemma same_avail_fields now p p' :
  configs p' = configs p -> api_status p' = api_status p -> same_avail now p p'.
Proof.
  intros Hc Hs. split; [done|]. intros i. apply is_api_available_ext; [done|].
  by rewrite Hs.
Qed.

(** One availability check: only records change, and only by the reset of
    an expired cooldown, which leaves every entry as available as before. *)
Lemma is_api_available_post now i p :
  frame p (is_api_available now i p).2 /\
  same_avail now p (is_api_available now i p).2 /\
  (status_inv (api_status p) -> status_inv (api_status (is_api_available now i p).2)).
Proof.
  unfold is_api_available.
  destruct (configs p !! i) as [c|] eqn:Ec; cbn;
    [|split; [apply frame_refl|split; [apply same_avail_refl|done]]].
  destruct (negb (default true (cfg_enabled c))) eqn:Een; cbn;
    [split; [apply frame_refl|split; [apply same_avail_refl|done]]|].
  destruct (negb (day_allowed now c)) eqn:Eday; cbn;
    [split; [apply frame_refl|split; [apply same_avail_refl|done]]|].
  destruct (api_status p !! Z.of_nat i) as [st|] eqn:Est; cbn;
    [|split; [apply frame_refl|split; [apply same_avail_refl|done]]].
  destruct (cooldown_until st) as [t|] eqn:Et; cbn;
    [|split; [apply frame_refl|split; [apply same_avail_refl|done]]].
  destruct (bool_decide (now < t)) eqn:Enow; cbn;
    [split; [apply frame_refl|split; [apply same_avail_refl|done]]|].
  split; [by repeat split|]. split.
  - split; [done|]. intros j.
    destruct (decide (j = i)) as [->|Hne].
    + unfold is_api_available. cbn. rewrite Ec. cbn. rewrite Een, Eday. cbn.
      rewrite lookup_insert_eq, Est. cbn. by rewrite Et, Enow.
    + apply is_api_available_ext; [done|]. cbn. by rewrite lookup_insert_ne by lia.
  - intros Hinv j st' Hj. cbn in Hj.
    destruct (decide (j = Z.of_nat i)) as [->|Hne].
    + rewrite lookup_insert_eq in Hj. by injection Hj as <-.
    + rewrite lookup_insert_ne in Hj by done. by eapply Hinv.
Qed.

(** [first_available] finds the first index of the list that is available. *)
Lemma first_available_post now idxs p :
  let r := first_available now idxs p in
  frame p r.2 /\ same_avail now p r.2 /\
  (status_inv (api_status p) -> status_inv (api_status r.2)) /\
  match r.1 with
  | Some idx => idx ∈ idxs /\ (is_api_available now idx p).1 = true
  | None => forall idx, idx ∈ idxs -> (is_api_available now idx p).1 = false
  end.
Proof.
  revert p. induction idxs as [|idx rest IH]; intros p; cbn.
  - split; [apply frame_refl|]. split; [apply same_avail_refl|]. split; [done|].
    intros idx Hin. by apply elem_of_nil in Hin.
  - destruct (is_api_available_post now idx p) as (Hf & Ha & Hi).
    destruct (is_api_available now idx p) as [ok p1] eqn:E. cbn in *.
    destruct ok; cbn.
    + split; [done|]. split; [done|]. split; [done|].
      split; [apply elem_of_cons; by left|]. by rewrite E.
    + destruct (IH p1) as (Hf' & Ha' & Hi' & Hr).
      split; [by eapply frame_trans|]. split; [by eapply same_avail_trans|].
      split; [tauto|].
      destruct ((first_available now rest p1).1) as [found|].
      * destruct Hr as [Hin Hav]. split; [apply elem_of_cons; by right|].
        destruct Ha as [_ Ha]. by rewrite <- Ha.
      * intros j Hj. apply elem_of_cons in Hj as [->|Hj]; [by rewrite E|].
        destruct Ha as [_ Ha]. rewrite <- Ha. by apply Hr.
Qed.

(** [available_indices] keeps exactly the indices that are available. *)
Lemma available_indices_post now idxs p :
  let r := available_indices now idxs p in
  frame p r.2 /\ same_avail now p r.2 /\
  (status_inv (api_status p) -> status_inv (api_status r.2)) /\
  r.1 = List.filter (fun idx => (is_api_available now idx p).1) idxs.
Proof.
  revert p. induction idxs as [|idx rest IH]; intros p; cbn.
  - split; [apply frame_refl|]. split; [apply same_avail_refl|]. done.
  - destruct (is_api_available_post now idx p) as (Hf & Ha & Hi).
    destruct (is_api_available now idx p) as [ok p1] eqn:E. cbn in *.
    destruct (IH p1) as (Hf' & Ha' & Hi' & Hr).
    destruct (available_indices now rest p1) as [l p2] eqn:E2. cbn in *.
    split; [by eapply frame_trans|]. split; [by eapply same_avail_trans|].
    split; [tauto|].
    assert (Hl : l = List.filter (fun idx => (is_api_available now idx p).1) rest).
    { rewrite Hr. apply List.filter_ext. intros j. destruct Ha as [_ Ha]. by rewrite Ha. }
    destruct ok; by rewrite Hl.
Qed.

(** The indices of [enumerate]: those of the entries that satisfy [P]. *)
Lemma indices_from_spec P k cfgs idx :
  idx ∈ indices_from P k cfgs <->
  (k <= idx)%nat /\ exists cfg, cfgs !! (idx - k)%nat = Some cfg /\ P cfg = true.
Proof.
  revert k. induction cfgs as [|c rest IH]; intros k; cbn.
  - split; [intros H; by apply elem_of_nil in H|]. by intros (_ & cfg & H & _).
  - assert (Hrest : idx ∈ indices_from P (S k) rest <->
                    (k < idx)%nat /\ exists cfg, (c :: rest) !! (idx - k)%nat = Some cfg
                                        /\ P cfg = true).
    { rewrite IH. split.
      - intros (Hk & cfg & Hl & HP). split; [lia|]. exists cfg. split; [|done].
        replace (idx - k)%nat with (S (idx - S k)) by lia. done.
      - intros (Hk & cfg & Hl & HP). split; [lia|]. exists cfg. split; [|done].
        replace (idx - k)%nat with (S (idx - S k)) in Hl by lia. done. }
    destruct (P c) eqn:EP.
    + rewrite elem_of_cons, Hrest. split.
      * intros [->|(Hk & H)]; [|split; [lia|done]].
        split; [lia|]. exists c. by rewrite Nat.sub_diag.
      * intros (Hk & cfg & Hl & HP).
        destruct (decide (idx = k)) as [->|Hne]; [by left|].
        right. split; [lia|]. eauto.
    + rewrite Hrest. split.
      * intros (Hk & H). split; [lia|done].
      * intros (Hk & cfg & Hl & HP).
        destruct (decide (idx = k)) as [->|Hne].
        -- rewrite Nat.sub_diag in Hl. cbn in Hl. congruence.
        -- split; [lia|]. eauto.
Qed.

Lemma primary_indices_spec p i : i ∈ get_primary_api_indices p <-> primary_at p i.
Proof.
  unfold get_primary_api_indices, _get_primary_indices, primary_at.
  rewrite indices_from_spec, Nat.sub_0_r. split; [by intros [_ H]|].
  intros H. split; [lia|done].
Qed.

Lemma indices_from_lt P cfgs idx :
  idx ∈ indices_from P 0 cfgs -> (idx < length cfgs)%nat.
Proof.
  rewrite indices_from_spec, Nat.sub_0_r. intros (_ & cfg & Hl & _).
  by eapply lookup_lt_Some.
Qed.

Lemma index_in_range p :
  index_out_of_range p = false <->
  0 <= current_config_index p < Z.of_nat (length (configs p)).
Proof.
  unfold index_out_of_range. rewrite orb_false_iff, !bool_decide_eq_false. lia.
Qed.

Lemma current_entry_ok p :
  0 <= current_config_index p < Z.of_nat (length (configs p)) ->
  exists cfg, current_entry p = Ok cfg /\
              configs p !! Z.to_nat (current_config_index p) = Some cfg.
Proof. apply py_index_in_range. Qed.

(** [ensure_current_api_index] with [reset_backup_state=True] on a pool that
    is not empty: a valid index, and the pool is off backup. *)
Lemma ensure_current_api_index_post now p :
  configs p <> [] ->
  let p' := ensure_current_api_index now true p in
  configs p' = configs p /\ same_avail now p p' /\
  0 <= current_config_index p' < Z.of_nat (length (configs p')) /\
  is_using_backup p' = false /\
  (status_inv (api_status p) -> status_inv (api_status p')).
Proof.
  intros Hne. unfold ensure_current_api_index, find_primary_api_for_time.
  destruct (configs p) as [|c0 cs] eqn:Ec; [done|].
  destruct (get_primary_api_indices p) as [|first rest] eqn:Ep.
  - cbn. rewrite Ec. cbn. rewrite bool_decide_eq_true_2 by lia. cbn.
    rewrite Ec. cbn. split; [done|]. split; [by apply same_avail_fields|].
    split; [lia|]. done.
  - unfold get_first_available_primary_api_index. rewrite Ep.
    destruct (first_available_post now (first :: rest) p) as (Hf & Ha & Hi & Hr).
    destruct (first_available now (first :: rest) p) as [found p1] eqn:E1.
    cbn [fst snd] in *.
    assert (Hlt : (default first found < length (configs p1))%nat).
    { destruct Hf as [Hc _]. rewrite Hc.
      apply (indices_from_lt is_primary). fold (_get_primary_indices (configs p)).
      fold (get_primary_api_indices p). rewrite Ep.
      destruct found as [f|]; cbn; [tauto|]. apply elem_of_cons. by left. }
    cbn. rewrite bool_decide_eq_true_2 by done. cbn.
    destruct Hf as (Hc & _). split; [congruence|]. split.
    { eapply same_avail_trans; [exact Ha|]. by apply same_avail_fields. }
    split; [lia|]. done.
Qed.

(** What [get_current_config] guarantees on a pool that is not empty: the
    entries stay, availability stays, the index ends up valid and the entry at
    it is returned; the pool is off backup when a primary is available and
    the selection either started off backup, was due to probe, or had to
    re-normalize the index; and with nothing available a valid index stays
    where it was. *)
Lemma get_current_config_post s now p :
  configs p <> [] ->
  let r := get_current_config s now p in
  configs r.2 = configs p /\ same_avail now p r.2 /\
  0 <= current_config_index r.2 < Z.of_nat (length (configs r.2)) /\
  r.1 = current_entry r.2 /\
  (status_inv (api_status p) -> status_inv (api_status r.2)) /\
  (is_using_backup p = false \/ should_check (primary_api_check_interval s) now p = true
   \/ index_out_of_range p = true ->
   (exists i, primary_at p i /\ available now p i) ->
   is_using_backup r.2 = false) /\
  ((forall i, (is_api_available now i p).1 = false) ->
   index_out_of_range p = false ->
   current_config_index r.2 = current_config_index p).
Proof.
  intros Hne. unfold get_current_config.
  destruct (configs p) as [|c0 cs] eqn:Ec; [done|].
  (* the index after the re-normalization *)
  set (p1 := if index_out_of_range p then _ else p).
  assert (H1 : configs p1 = configs p /\ same_avail now p p1 /\
               0 <= current_config_index p1 < Z.of_nat (length (configs p1)) /\
               (status_inv (api_status p) -> status_inv (api_status p1)) /\
               (index_out_of_range p = true -> is_using_backup p1 = false) /\
               (index_out_of_range p = false -> p1 = p)).
  { subst p1. destruct (index_out_of_range p) eqn:Eo.
    - destruct (ensure_current_api_index_post now p) as (Hc & Ha & Hr & Hb & Hi);
        [by rewrite Ec|].
      rewrite (proj2 (index_in_range _) Hr).
      split; [done|]. split; [done|]. split; [done|]. split; [done|]. by split.
    - apply index_in_range in Eo. split; [done|]. split; [apply same_avail_refl|].
      split; [done|]. split; [done|]. split; done. }
  clearbody p1. destruct H1 as (Hc1 & Ha1 & Hr1 & Hi1 & Hb1 & Hp1).
  destruct (available_indices_post now (get_primary_api_indices p1) p1)
    as (Hf2 & Ha2 & Hi2 & Hl).
  destruct (available_indices now (get_primary_api_indices p1) p1) as [l p2] eqn:E2.
  cbn [fst snd] in *.
  destruct Hf2 as (Hc2 & Hx2 & Hb2 & Hs2 & Hk2 & Hw2).
  (* an available primary shows up in [l] *)
  assert (Hprim : (exists i, primary_at p i /\ available now p i) -> l <> []).
  { intros (i & Hpi & Hav) ->. symmetry in Hl.
    assert (Hin : i ∈ List.filter (fun idx => (is_api_available now idx p1).1)
                      (get_primary_api_indices p1)).
    { apply list_elem_of_In, List.filter_In. split.
      - apply list_elem_of_In, primary_indices_spec.
        unfold primary_at in *. by rewrite Hc1.
      - destruct Ha1 as [_ Ha1]. by rewrite Ha1. }
    rewrite Hl in Hin. by apply elem_of_nil in Hin. }
  assert (Hlval : forall i, i ∈ l -> (i < length (configs p2))%nat).
  { intros i Hi. rewrite Hl in Hi. apply list_elem_of_In, List.filter_In in Hi as [Hi _].
    apply list_elem_of_In in Hi. rewrite Hc2. by apply (indices_from_lt is_primary). }
  assert (Hlav : forall i, i ∈ l -> (is_api_available now i p).1 = true).
  { intros i Hi. rewrite Hl in Hi. apply list_elem_of_In, List.filter_In in Hi as [_ Hi].
    destruct Ha1 as [_ Ha1]. by rewrite <- Ha1. }
  assert (Ha12 : same_avail now p p2) by (by eapply same_avail_trans).
  destruct (is_using_backup p2) eqn:Eb2.
  - (* on backup *)
    remember (should_check (primary_api_check_interval s) now p2) as check eqn:Echeck.
    assert (Hcheck : index_out_of_range p = false ->
                     check = should_check (primary_api_check_interval s) now p).
    { intros Ho. subst check. unfold should_check. rewrite Hk2. by rewrite (Hp1 Ho). }
    clear Echeck.
    destruct (if check then head l else None) as [target_idx|] eqn:Eh.
    + (* a primary has recovered *)
      destruct check; [|done].
      cbn. assert (Hin : target_idx ∈ l).
      { destruct l; [done|]. injection Eh as <-. apply elem_of_cons. by left. }
      split; [congruence|]. split.
      { eapply same_avail_trans; [exact Ha12|]. by apply same_avail_fields. }
      split; [specialize (Hlval _ Hin); lia|]. split; [done|]. split; [tauto|].
      split; [done|].
      intros Hnone. specialize (Hlav _ Hin). rewrite Hnone in Hlav. done.
    + set (p3 := if check then _ else p2).
      assert (H3 : frame p2 (set_backup (is_using_backup p3) (backup_start_time p3)
                               (last_primary_check_time p2) p3) /\
                   api_status p3 = api_status p2).
      { subst p3. destruct check; by repeat split. }
      destruct H3 as [(Hc3 & Hx3 & Hb3 & Hs3 & _) Hst3]. cbn in Hc3, Hx3, Hb3, Hs3.
      assert (Ha3 : same_avail now p p3).
      { eapply same_avail_trans; [exact Ha12|]. by apply same_avail_fields. }
      clearbody p3.
      destruct (first_available_post now (get_backup_api_indices p1) p3)
        as (Hf4 & Ha4 & Hi4 & Hr4).
      destruct (first_available now (get_backup_api_indices p1) p3) as [found p4] eqn:E4.
      cbn [fst snd] in *.
      destruct Hf4 as (Hc4 & Hx4 & Hb4 & Hs4 & Hk4 & Hw4).
      assert (Hprimfalse :
        is_using_backup p = false \/
        should_check (primary_api_check_interval s) now p = true \/
        index_out_of_range p = true ->
        (exists i, primary_at p i /\ available now p i) -> False).
      { intros Hor Hex. specialize (Hprim Hex).
        destruct (index_out_of_range p) eqn:Eo.
        - specialize (Hb1 eq_refl). congruence.
        - specialize (Hp1 eq_refl). subst p1.
          destruct Hor as [Hor|[Hor|Hor]]; [congruence| |done].
          rewrite (Hcheck eq_refl), Hor in Eh. by destruct l. }
      destruct found as [backup_idx|].
      * destruct Hr4 as [Hin4 Hav4].
        apply (indices_from_lt is_backup) in Hin4.
        cbn. split.
        { case_bool_decide; cbn; congruence. }
        split.
        { eapply same_avail_trans; [exact Ha3|].
          eapply same_avail_trans; [exact Ha4|].
          apply same_avail_fields; by case_bool_decide. }
        split.
        { case_bool_decide; cbn; rewrite Hc4, Hc3, Hc2; lia. }
        split; [done|]. split; [case_bool_decide; cbn; rewrite Hst3 in Hi4; tauto|].
        split; [intros; exfalso; eauto|].
        intros Hnone. destruct Ha3 as [_ Ha3]. rewrite Ha3, Hnone in Hav4. done.
      * cbn. split; [congruence|]. split; [by eapply same_avail_trans|].
        split; [rewrite Hx4, Hx3, Hx2, Hc4, Hc3, Hc2; lia|]. split; [done|].
        split; [rewrite Hst3 in Hi4; tauto|].
        split; [intros; exfalso; eauto|].
        intros _ Ho. rewrite Hx4, Hx3, Hx2. by rewrite (Hp1 Ho).
  - (* off backup *)
    destruct l as [|selected_index rest].
    + destruct (first_available_post now (get_backup_api_indices p1) p2)
        as (Hf4 & Ha4 & Hi4 & Hr4).
      destruct (first_available now (get_backup_api_indices p1) p2) as [found p4] eqn:E4.
      cbn [fst snd] in *.
      destruct Hf4 as (Hc4 & Hx4 & Hb4 & Hs4 & Hk4 & Hw4).
      destruct found as [backup_idx|].
      * destruct Hr4 as [Hin4 Hav4].
        apply (indices_from_lt is_backup) in Hin4.
        cbn. split.
        { destruct (_ || _); cbn; congruence. }
        split.
        { eapply same_avail_trans; [exact Ha12|].
          eapply same_avail_trans; [exact Ha4|].
          apply same_avail_fields; by destruct (_ || _). }
        split.
        { destruct (_ || _); cbn; rewrite Hc4, Hc2; lia. }
        split; [done|]. split; [destruct (_ || _); cbn; tauto|].
        split; [intros _ Hex; by specialize (Hprim Hex)|].
        intros Hnone. destruct Ha12 as [_ Ha12]. rewrite Ha12, Hnone in Hav4. done.
      * cbn. split; [congruence|].
        split; [eapply same_avail_trans; [exact Ha12|exact Ha4]|].
        split; [rewrite Hx4, Hx2, Hc4, Hc2; lia|]. split; [done|].
        split; [tauto|].
        split; [intros _ Hex; by specialize (Hprim Hex)|].
        intros _ Ho. rewrite Hx4, Hx2. by rewrite (Hp1 Ho).
    + assert (Hin : selected_index ∈ selected_index :: rest)
        by (apply elem_of_cons; by left).
      cbn. split.
      { case_bool_decide; cbn; congruence. }
      split.
      { eapply same_avail_trans; [exact Ha12|].
        apply same_avail_fields; by case_bool_decide. }
      split.
      { specialize (Hlval _ Hin). case_bool_decide; cbn; lia. }
      split; [done|]. split; [case_bool_decide; cbn; tauto|].
      split; [done|].
      intros Hnone. specialize (Hlav _ Hin). rewrite Hnone in Hlav. done.
Qed.

Lemma codex_backup_indices_lt p idx :
  idx ∈ get_codex_backup_api_indices p -> (idx < length (configs p))%nat.
Proof.
  unfold get_codex_backup_api_indices.
  destruct (_get_backup_indices (configs p)) as [|b bs] eqn:Eb.
  - case_bool_decide; intros Hin; [|by apply elem_of_nil in Hin].
    apply list_elem_of_singleton in Hin. lia.
  - intros Hin. apply (indices_from_lt is_backup).
    fold (_get_backup_indices (configs p)). by rewrite Eb.
Qed.

(** The same for [get_current_codex_config] on a pool of two or more
    entries; the re-normalization of the index does not touch the backup
    flag there. *)
Lemma get_current_codex_config_post s now p :
  (2 <= length (configs p))%nat ->
  let r := get_current_codex_config s now p in
  configs r.2 = configs p /\ same_avail now p r.2 /\
  0 <= current_config_index r.2 < Z.of_nat (length (configs r.2)) /\
  r.1 = current_entry r.2 /\
  (status_inv (api_status p) -> status_inv (api_status r.2)) /\
  (is_using_backup p = false \/ should_check (primary_api_check_interval s) now p = true ->
   (exists i, primary_at p i /\ available now p i) ->
   is_using_backup r.2 = false) /\
  ((forall i, (is_api_available now i p).1 = false) ->
   index_out_of_range p = false ->
   current_config_index r.2 = current_config_index p).
Proof.
  intros Hlen. unfold get_current_codex_config.
  destruct (configs p) as [|c0 [|c1 cs]] eqn:Ec; [cbn in Hlen; lia..|].
  set (p1 := if index_out_of_range p then _ else p).
  assert (H1 : frame p (set_index (current_config_index p) p1) /\
               same_avail now p p1 /\
               0 <= current_config_index p1 < Z.of_nat (length (configs p1)) /\
               (status_inv (api_status p) -> status_inv (api_status p1)) /\
               (index_out_of_range p = false -> p1 = p)).
  { subst p1. destruct (index_out_of_range p) eqn:Eo.
    - unfold get_first_available_primary_codex_index,
        get_first_available_primary_api_index.
      destruct (first_available_post now (get_primary_api_indices p) p)
        as (Hf & Ha & Hi & Hr).
      destruct (first_available now (get_primary_api_indices p) p) as [found p0] eqn:E0.
      cbn [fst snd] in *. destruct Hf as (Hc & Hx & Hb & Hs & Hk & Hw).
      destruct found as [i|]; [|destruct (get_primary_api_indices p) as [|first rest] eqn:Ep].
      + destruct Hr as [Hin _]. apply (indices_from_lt is_primary) in Hin.
        split; [by repeat split|]. split.
        { eapply same_avail_trans; [exact Ha|]. by apply same_avail_fields. }
        split; [cbn; rewrite Hc; lia|]. by split.
      + split; [by repeat split|]. split.
        { eapply same_avail_trans; [exact Ha|]. by apply same_avail_fields. }
        split; [cbn; rewrite Hc, Ec; cbn; lia|]. by split.
      + assert (Hin : first ∈ get_primary_api_indices p)
          by (rewrite Ep; apply elem_of_cons; by left).
        apply (indices_from_lt is_primary) in Hin.
        split; [by repeat split|]. split.
        { eapply same_avail_trans; [exact Ha|]. by apply same_avail_fields. }
        split; [cbn; rewrite Hc; lia|]. by split.
    - apply index_in_range in Eo. split; [by repeat split|].
      split; [apply same_avail_refl|]. split; [by rewrite Ec in *|]. by split. }
  clearbody p1.
  destruct H1 as ((Hc1 & _ & Hb1 & Hs1 & Hk1 & Hw1) & Ha1 & Hr1 & Hi1 & Hp1).
  cbn in Hc1, Hb1, Hs1, Hk1, Hw1.
  destruct (available_indices_post now (get_primary_api_indices p) p1)
    as (Hf2 & Ha2 & Hi2 & Hl).
  destruct (available_indices now (get_primary_api_indices p) p1) as [l p2] eqn:E2.
  cbn [fst snd] in *.
  destruct Hf2 as (Hc2 & Hx2 & Hb2 & Hs2 & Hk2 & Hw2).
  assert (Hprim : (exists i, primary_at p i /\ available now p i) -> l <> []).
  { intros (i & Hpi & Hav) ->. symmetry in Hl.
    assert (Hin : i ∈ List.filter (fun idx => (is_api_available now idx p1).1)
                      (get_primary_api_indices p)).
    { apply list_elem_of_In, List.filter_In. split.
      - by apply list_elem_of_In, primary_indices_spec.
      - destruct Ha1 as [_ Ha1]. by rewrite Ha1. }
    rewrite Hl in Hin. by apply elem_of_nil in Hin. }
  assert (Hlval : forall i, i ∈ l -> (i < length (configs p2))%nat).
  { intros i Hi. rewrite Hl in Hi. apply list_elem_of_In, List.filter_In in Hi as [Hi _].
    apply list_elem_of_In in Hi. rewrite Hc2, Hc1.
    by apply (indices_from_lt is_primary). }
  assert (Hlav : forall i, i ∈ l -> (is_api_available now i p).1 = true).
  { intros i Hi. rewrite Hl in Hi. apply list_elem_of_In, List.filter_In in Hi as [_ Hi].
    destruct Ha1 as [_ Ha1]. by rewrite <- Ha1. }
  assert (Ha12 : same_avail now p p2) by (by eapply same_avail_trans).
  assert (Hbk : forall idx, idx ∈ get_codex_backup_api_indices p ->
                            (idx < length (configs p2))%nat).
  { intros idx Hin. rewrite Hc2, Hc1. by apply codex_backup_indices_lt. }
  destruct (is_using_backup p2) eqn:Eb2.
  - remember (should_check (primary_api_check_interval s) now p2) as check eqn:Echeck.
    assert (Hcheck : check = should_check (primary_api_check_interval s) now p).
    { subst check. unfold should_check. by rewrite Hk2, Hk1. }
    clear Echeck.
    destruct (if check then head l else None) as [target_idx|] eqn:Eh.
    + destruct check; [|done].
      cbn. assert (Hin : target_idx ∈ l).
      { destruct l; [done|]. injection Eh as <-. apply elem_of_cons. by left. }
      split; [congruence|]. split.
      { eapply same_avail_trans; [exact Ha12|]. by apply same_avail_fields. }
      split; [specialize (Hlval _ Hin); lia|]. split; [done|]. split; [tauto|].
      split; [done|].
      intros Hnone. specialize (Hlav _ Hin). rewrite Hnone in Hlav. done.
    + set (p3 := if check then _ else p2).
      assert (H3 : frame p2 (set_backup (is_using_backup p3) (backup_start_time p3)
                               (last_primary_check_time p2) p3) /\
                   api_status p3 = api_status p2).
      { subst p3. destruct check; by repeat split. }
      destruct H3 as [(Hc3 & Hx3 & Hb3 & Hs3 & _) Hst3]. cbn in Hc3, Hx3, Hb3, Hs3.
      assert (Ha3 : same_avail now p p3).
      { eapply same_avail_trans; [exact Ha12|]. by apply same_avail_fields. }
      clearbody p3.
      destruct (first_available_post now (get_codex_backup_api_indices p) p3)
        as (Hf4 & Ha4 & Hi4 & Hr4).
      destruct (first_available now (get_codex_backup_api_indices p) p3)
        as [found p4] eqn:E4.
      cbn [fst snd] in *.
      destruct Hf4 as (Hc4 & Hx4 & Hb4 & Hs4 & Hk4 & Hw4).
      assert (Hprimfalse :
        is_using_backup p = false \/
        should_check (primary_api_check_interval s) now p = true ->
        (exists i, primary_at p i /\ available now p i) -> False).
      { intros Hor Hex. specialize (Hprim Hex).
        destruct Hor as [Hor|Hor]; [congruence|].
        rewrite Hcheck, Hor in Eh. by destruct l. }
      destruct found as [backup_idx|].
      * destruct Hr4 as [Hin4 Hav4]. apply Hbk in Hin4.
        cbn. split.
        { case_bool_decide; cbn; congruence. }
        split.
        { eapply same_avail_trans; [exact Ha3|].
          eapply same_avail_trans; [exact Ha4|].
          apply same_avail_fields; by case_bool_decide. }
        split.
        { case_bool_decide; cbn; rewrite Hc4, Hc3; lia. }
        split; [done|]. split; [case_bool_decide; cbn; rewrite Hst3 in Hi4; tauto|].
        split; [intros; exfalso; eauto|].
        intros Hnone. destruct Ha3 as [_ Ha3]. rewrite Ha3, Hnone in Hav4. done.
      * cbn. split; [congruence|]. split; [by eapply same_avail_trans|].
        split; [rewrite Hx4, Hx3, Hx2, Hc4, Hc3, Hc2; lia|]. split; [done|].
        split; [rewrite Hst3 in Hi4; tauto|].
        split; [intros; exfalso; eauto|].
        intros _ Ho. rewrite Hx4, Hx3, Hx2. by rewrite (Hp1 Ho).
  - destruct l as [|selected_index rest].
    + destruct (first_available_post now (get_codex_backup_api_indices p) p2)
        as (Hf4 & Ha4 & Hi4 & Hr4).
      destruct (first_available now (get_codex_backup_api_indices p) p2)
        as [found p4] eqn:E4.
      cbn [fst snd] in *.
      destruct Hf4 as (Hc4 & Hx4 & Hb4 & Hs4 & Hk4 & Hw4).
      destruct found as [backup_idx|].
      * destruct Hr4 as [Hin4 Hav4]. apply Hbk in Hin4.
        cbn. split; [congruence|]. split.
        { eapply same_avail_trans; [exact Ha12|].
          eapply same_avail_trans; [exact Ha4|]. by apply same_avail_fields. }
        split; [rewrite Hc4; lia|].
        split; [done|]. split; [tauto|].
        split; [intros _ Hex; by specialize (Hprim Hex)|].
        intros Hnone. destruct Ha12 as [_ Ha12]. rewrite Ha12, Hnone in Hav4. done.
      * cbn. split; [congruence|].
        split; [eapply same_avail_trans; [exact Ha12|exact Ha4]|].
        split; [rewrite Hx4, Hx2, Hc4, Hc2; lia|]. split; [done|].
        split; [tauto|].
        split; [intros _ Hex; by specialize (Hprim Hex)|].
        intros _ Ho. rewrite Hx4, Hx2. by rewrite (Hp1 Ho).
    + assert (Hin : selected_index ∈ selected_index :: rest)
        by (apply elem_of_cons; by left).
      cbn. split; [congruence|]. split.
      { eapply same_avail_trans; [exact Ha12|]. by apply same_avail_fields. }
      split; [specialize (Hlval _ Hin); lia|].
      split; [done|]. split; [tauto|].
      split; [done|].
      intros Hnone. specialize (Hlav _ Hin). rewrite Hnone in Hlav. done.
Qed.

Lemma primary_at_configs p p' i : configs p' = configs p -> primary_at p' i -> primary_at p i.
Proof. unfold primary_at. by intros ->. Qed.

Lemma select_small_codex s now p :
  ~ renormalizes true p -> (select true s now p).2 = p.
Proof.
  unfold renormalizes, select, get_current_codex_config. intros Hn.
  destruct (configs p) as [|c0 [|c1 cs]]; [done..|]. cbn in Hn. lia.
Qed.

(** C2, as the specification states it, fails: between two probes the
    selection stays on the backup although the primary is available. *)
Lemma backup_kept_between_probes :
  let p' := (get_current_config Scenarios.default_settings 1000
               Scenarios.on_backup_pool).2 in
  (exists i, primary_at p' i /\ available 1000 p' i) /\ is_using_backup p' = true.
Proof. split; [exists 0%nat|]; repeat split. by eexists. Qed.

(** C2, amended.  After a selection, of either pool, the backup flag is
    off whenever a primary is available, provided the selection started off
    backup, or a probe of the primaries was due (no probe yet, or the check
    interval has passed since the last one) on a pool on which the selector
    runs its scheduling, or the messages selector had to re-normalize its
    index. *)
Theorem backup_flag_off_after_probe (codex : bool) (s : settings) (now : Z) (p : pool) :
  is_using_backup p = false \/
  (should_check (primary_api_check_interval s) now p = true /\ renormalizes codex p) \/
  (codex = false /\ index_out_of_range p = true) ->
  let p' := (select codex s now p).2 in
  (exists i, primary_at p' i /\ available now p' i) ->
  is_using_backup p' = false.
Proof.
  intros Hpre p' (i & Hpi & Hav). subst p'.
  destruct (decide (renormalizes codex p)) as [Hr|Hr].
  - destruct codex; cbn in Hr.
    + destruct (get_current_codex_config_post s now p Hr)
        as (Hc & [_ Ha] & _ & _ & _ & Hb & _).
      cbn [select] in *. apply Hb.
      * destruct Hpre as [?|[[? _]|[? _]]]; [by left|by right|done].
      * exists i. split; [by eapply primary_at_configs|].
        unfold available in *. by rewrite <- Ha.
    + destruct (get_current_config_post s now p Hr)
        as (Hc & [_ Ha] & _ & _ & _ & Hb & _).
      cbn [select] in *. apply Hb.
      * destruct Hpre as [?|[[? _]|[_ ?]]]; tauto.
      * exists i. split; [by eapply primary_at_configs|].
        unfold available in *. by rewrite <- Ha.
  - destruct codex.
    + rewrite select_small_codex in * by done.
      destruct Hpre as [?|[[_ ?]|[? _]]]; done.
    + cbn in Hr. apply dec_stable in Hr.
      unfold select, get_current_config in *. rewrite Hr in *. cbn in *.
      destruct Hpi as (cfg & Hl & _). by rewrite Hr in Hl.
Qed.

Lemma backup_flag_off_after_probe_witness :
  is_using_backup
    (select false Scenarios.default_settings 1000 Scenarios.probe_due_pool).2 = false.
Proof.
  apply (backup_flag_off_after_probe false Scenarios.default_settings 1000
           Scenarios.probe_due_pool).
  - right. left. split; [reflexivity|]. cbn. discriminate.
  - exists 0%nat. split; [by eexists|reflexivity].
Defined.



End PoolSelector.

(** ** The retry loop *)

Module OrchestratorSpec.
Import Pool Orchestrator.

(** *** Reset after success *)

Lemma status_inv_empty : status_inv ∅.
Proof. intros i st H. by rewrite lookup_empty in H. Qed.

Lemma status_inv_insert (d : gmap Z api_state) (i : Z) (st : api_state) :
  status_inv d ->
  0 <= error_count st ->
  (cooldown_until st = None -> status st = normal) ->
  status_inv (<[i := st]> d).
Proof.
  intros Hinv H0 Hc j st' Hj.
  destruct (decide (j = i)) as [->|Hne].
  - rewrite lookup_insert_eq in Hj. by injection Hj as <-.
  - rewrite lookup_insert_ne in Hj by done. by eapply Hinv.
Qed.

Lemma needs_reset_false (d : gmap Z api_state) (i : Z) (st : api_state) :
  status_inv d -> d !! i = Some st -> needs_reset st = false -> st = fresh_state.
Proof.
  intros Hinv Hi Hn. destruct (Hinv _ _ Hi) as [H0 Hc].
  unfold needs_reset in Hn. apply orb_false_iff in Hn as [H1 H2].
  apply bool_decide_eq_false in H1, H2.
  assert (Hnone : cooldown_until st = None) by (by apply dec_stable).
  destruct st as [k n c]; cbn in *. subst c.
  rewrite (Hc eq_refl). unfold fresh_state. f_equal. lia.
Qed.

(** The reset leaves the record of the current index fresh, and touches
    nothing else of the pool. *)
Lemma reset_on_success_clears (is_codex_request : bool) (p : pool) :
  status_inv (api_status p) ->
  (is_codex_request = true ->
   current_config_index p < Z.of_nat (length (configs p))) ->
  let p' := (reset_on_success is_codex_request p).2 in
  frame p p' /\
  state_of (api_status p') (current_config_index p) = fresh_state /\
  (forall j, j <> current_config_index p -> api_status p' !! j = api_status p !! j) /\
  status_inv (api_status p').
Proof.
  intros Hinv Hidx. unfold reset_on_success, state_of.
  assert (Hdone : forall st, api_status p !! current_config_index p = Some st ->
            needs_reset st = true ->
            let p' := set_status (<[current_config_index p := fresh_state]> (api_status p)) p in
            frame p p' /\
            default fresh_state (api_status p' !! current_config_index p) = fresh_state /\
            (forall j, j <> current_config_index p -> api_status p' !! j = api_status p !! j) /\
            status_inv (api_status p')).
  { intros st Hst Hn. cbn. split; [done|]. split; [by rewrite lookup_insert_eq|].
    split; [intros j Hj; by rewrite lookup_insert_ne|].
    apply status_inv_insert; cbn; done. }
  assert (Hkeep : forall st, api_status p !! current_config_index p = Some st ->
            needs_reset st = false ->
            frame p p /\
            default fresh_state (api_status p !! current_config_index p) = fresh_state /\
            (forall j, j <> current_config_index p -> api_status p !! j = api_status p !! j) /\
            status_inv (api_status p)).
  { intros st Hst Hn. split; [done|]. split; [|done].
    rewrite Hst. cbn. by eapply needs_reset_false. }
  assert (Hnone : api_status p !! current_config_index p = None ->
            frame p p /\
            default fresh_state (api_status p !! current_config_index p) = fresh_state /\
            (forall j, j <> current_config_index p -> api_status p !! j = api_status p !! j) /\
            status_inv (api_status p)).
  { intros Hst. split; [done|]. split; [|done]. by rewrite Hst. }
  destruct is_codex_request.
  - rewrite bool_decide_eq_true_2 by auto.
    destruct (api_status p !! current_config_index p) as [st|] eqn:Hst;
      [|cbn [snd]; rewrite ?Hst; by apply Hnone].
    destruct (needs_reset st) eqn:Hn; cbn [snd]; rewrite ?Hst; eauto.
  - destruct (api_status p !! current_config_index p) as [st|] eqn:Hst;
      [|cbn [snd]; rewrite ?Hst; by apply Hnone].
    destruct (needs_reset st) eqn:Hn; cbn [snd]; rewrite ?Hst; eauto.
Qed.

Section AfterLoop.

Variable s : settings.
Variable now : Z.
Variable switch_api_codes : list Z.
Variable world : nat -> outcome.

Lemma after_loop_success (status_code : Z) (st : loop_state) :
  status_code < 400 ->
  ls_pool (after_loop s now switch_api_codes world status_code st).2
  = (reset_on_success false (ls_pool st)).2.
Proof.
  intros Hlt. unfold after_loop.
  rewrite (bool_decide_eq_true_2 (status_code < 400)) by done.
  unfold mbind, M_bind, mret, M_ret, on_pool.
  destruct (reset_on_success false (ls_pool st)) as [[[]|e] p'] eqn:Hr; cbn [snd]; [|done].
  rewrite bool_decide_eq_false_2 by lia. done.
Qed.

End AfterLoop.

(** C3.  In the branch [upstream_resp.status_code < 400] after the loop
    (lines 4059-4082) the record of the current entry is left with
    [error_count = 0], no [cooldown_until] and [status = normal]; the index,
    the backup flags and the records of the other entries stay as they
    were.  The records are assumed well formed ([status_inv]). *)
Theorem success_branch_clears_current_entry
    (s : settings) (now : Z) (switch_api_codes : list Z) (world : nat -> outcome)
    (status_code : Z) (st : loop_state) :
  status_code < 400 ->
  status_inv (api_status (ls_pool st)) ->
  let p := ls_pool st in
  let p' := ls_pool (after_loop s now switch_api_codes world status_code st).2 in
  frame p p' /\
  state_of (api_status p') (current_config_index p') = fresh_state /\
  (forall j, j <> current_config_index p -> api_status p' !! j = api_status p !! j).
Proof.
  intros Hlt Hinv p p'. subst p p'. rewrite after_loop_success by done.
  destruct (reset_on_success_clears false (ls_pool st) Hinv) as (Hf & Hs & Ho & _);
    [done|].
  split; [done|]. split; [|done].
  destruct Hf as (_ & -> & _). done.
Qed.

Lemma success_branch_clears_current_entry_witness :
  state_of
    (api_status
       (ls_pool
          (after_loop Scenarios.default_settings 1000
             Scenarios.default_switch_api_codes Scenarios.unauthorized_then_ok 200
             (initial_loop_state Scenarios.cooling_pool)).2)) 0
  = fresh_state.
Proof.
  apply (success_branch_clears_current_entry Scenarios.default_settings 1000
           Scenarios.default_switch_api_codes Scenarios.unauthorized_then_ok 200
           (initial_loop_state Scenarios.cooling_pool)).
  - lia.
  - apply status_inv_insert; [|cbn; lia|cbn; discriminate].
    apply status_inv_insert; [|cbn; lia|cbn; discriminate].
    apply status_inv_empty.
Defined.

(** C3, as stated, fails for a response that the retry after the loop
    obtains (lines 4092-4224).  Both entries are cooling down; the upstreams
    answer 401 to the four passes of the loop and 200 to the retry that
    follows.  The client is served the 200 of entry b, the current entry, and
    the record of b still holds three errors and its cooldown. *)
Lemma success_after_loop_keeps_cooldown :
  let r := Scenarios.default_request Scenarios.default_settings []
             Scenarios.unauthorized_then_ok Scenarios.cooling_pool in
  r.1 = Ok (Upstream 200) /\
  last (attempts r.2)
    = Some {| att_kind := extended_attempt;
              att_base_url := cfg_base_url Scenarios.entry_B;
              att_key := cfg_key Scenarios.entry_B;
              att_timeout := standard_timeout |} /\
  current_config_index (ls_pool r.2) = 1 /\
  state_of (api_status (ls_pool r.2)) (current_config_index (ls_pool r.2))
    = Scenarios.cooling /\
  Scenarios.cooling <> fresh_state.
Proof. vm_compute. repeat split; discriminate. Qed.

(** The sibling path: the same retry inside the loop (lines 3926-4049)
    leaves the loop through [break], reaches the branch of lines 4059-4082,
    and the record of b is cleared. *)
Example success_inside_loop_clears_cooldown :
  let r := Scenarios.default_request Scenarios.default_settings []
             Scenarios.unreachable_then_ok Scenarios.cooling_pool in
  r.1 = Ok (Upstream 200) /\
  option_map att_kind (last (attempts r.2)) = Some extended_attempt /\
  current_config_index (ls_pool r.2) = 1 /\
  state_of (api_status (ls_pool r.2)) (current_config_index (ls_pool r.2))
    = fresh_state.
Proof. vm_compute. repeat split. Qed.

(** *** Counting ladder attempts *)

Section Adds.

Variable ladder : list retry_config.

Lemma adds_weaken {A} (n n' : nat) (m : M A) :
  (n <= n')%nat -> adds ladder n m -> adds ladder n' m.
Proof.
  intros Hle Hm st. destruct (Hm st) as (extra & E & F & L).
  exists extra. repeat split; [done|done|lia].
Qed.

Lemma adds_zero {A} (n : nat) (m : M A) : adds ladder 0 m -> adds ladder n m.
Proof. apply adds_weaken. lia. Qed.

Lemma adds_same {A} (m : M A) :
  (forall st, attempts (m st).2 = attempts st) -> adds ladder 0 m.
Proof.
  intros H st. exists []. rewrite H, app_nil_r. repeat split; [constructor|].
  cbn. lia.
Qed.

Lemma adds_ret {A} (a : A) : adds ladder 0 (mret a : M A).
Proof. by apply adds_same. Qed.

Lemma adds_get : adds ladder 0 get.
Proof. by apply adds_same. Qed.

Lemma adds_throw {A} (e : exn) : adds ladder 0 (throw e : M A).
Proof. by apply adds_same. Qed.

Lemma adds_modify (f : loop_state -> loop_state) :
  (forall st, attempts (f st) = attempts st) -> adds ladder 0 (modify f).
Proof. intros H. by apply adds_same. Qed.

Lemma adds_on_pool {A} (f : pool -> result A * pool) : adds ladder 0 (on_pool f).
Proof.
  apply adds_same. intros st. unfold on_pool. by destruct (f (ls_pool st)).
Qed.

Lemma adds_bind {A B} (n1 n2 : nat) (m : M A) (k : A -> M B) :
  adds ladder n1 m -> (forall a, adds ladder n2 (k a)) ->
  adds ladder (n1 + n2) (m ≫= k).
Proof.
  intros Hm Hk st. unfold mbind, M_bind.
  destruct (Hm st) as (e1 & E1 & F1 & L1).
  destruct (m st) as [[a|e] st']; cbn [snd] in *.
  - destruct (Hk a st') as (e2 & E2 & F2 & L2).
    exists (e1 ++ e2). rewrite E2, E1, app_assoc. split; [done|].
    split; [by apply Forall_app|].
    unfold ladder_attempts in *. rewrite List.filter_app, length_app. lia.
  - exists e1. repeat split; [done|done|lia].
Qed.

Lemma adds_bind0 {A B} (m : M A) (k : A -> M B) :
  adds ladder 0 m -> (forall a, adds ladder 0 (k a)) -> adds ladder 0 (m ≫= k).
Proof. apply (adds_bind 0 0). Qed.

Lemma adds_bind_l {A B} (n : nat) (m : M A) (k : A -> M B) :
  adds ladder n m -> (forall a, adds ladder 0 (k a)) -> adds ladder n (m ≫= k).
Proof.
  intros Hm Hk. apply (adds_weaken (n + 0)); [lia|]. by apply adds_bind.
Qed.

Lemma adds_bind_r {A B} (n : nat) (m : M A) (k : A -> M B) :
  adds ladder 0 m -> (forall a, adds ladder n (k a)) -> adds ladder n (m ≫= k).
Proof. apply (adds_bind 0 n). Qed.

Lemma adds_catch {A} (m h : M A) :
  adds ladder 0 m -> adds ladder 0 h -> adds ladder 0 (catch m h).
Proof.
  intros Hm Hh st. unfold catch.
  destruct (Hm st) as (e1 & E1 & F1 & L1).
  destruct (m st) as [[a|e] st']; cbn [snd] in *.
  - exists e1. done.
  - destruct (Hh st') as (e2 & E2 & F2 & L2).
    exists (e1 ++ e2). rewrite E2, E1, app_assoc. split; [done|].
    split; [by apply Forall_app|].
    unfold ladder_attempts in *. rewrite List.filter_app, length_app. lia.
Qed.

Variable world : nat -> outcome.

Lemma adds_send (k : attempt_kind) (base_url key : string) (tk : timeout_kind) :
  (forall i, k <> ladder_attempt i) ->
  adds ladder 0 (send world k base_url key tk).
Proof.
  intros Hk st. eexists [_]. split; [reflexivity|]. split.
  - constructor; [|constructor]. unfold good_rung. cbn.
    destruct k; try done. by destruct (Hk retry_attempt).
  - unfold ladder_attempts, is_ladder. cbn.
    destruct k; cbn; try lia. by destruct (Hk retry_attempt).
Qed.

Lemma adds_send_ladder (i : nat) (rung : retry_config) :
  ladder !! i = Some rung ->
  adds ladder 1
    (send world (ladder_attempt i) (rc_base_url rung) (rc_key rung)
       strategy_retry_timeout).
Proof.
  intros Hi st. eexists [_]. split; [reflexivity|]. split.
  - constructor; [|constructor]. unfold good_rung. cbn. by exists rung.
  - cbn. lia.
Qed.

End Adds.

Create HintDb adds discriminated.

#[local] Hint Resolve adds_ret adds_get adds_throw adds_on_pool : adds.

Ltac adds_step :=
  first
    [ apply adds_ret
    | apply adds_get
    | apply adds_throw
    | apply adds_on_pool
    | apply adds_modify; intros ?; reflexivity
    | apply adds_send; intros ?; discriminate
    | solve [auto 1 with adds nocore]
    | apply adds_bind0; [|intros ?]
    | apply adds_catch
    | case_bool_decide
    | case_match ].

Ltac adds0 := repeat adds_step.

Section LadderBound.

Variable s : settings.
Variable now : Z.
Variable strategy_retry_status_codes switch_api_codes no_retry_codes : list Z.
Variable read_error_strategy connect_error_strategy read_timeout_strategy : string.
Variable ladder : list retry_config.
Variable world : nat -> outcome.

Lemma adds_validate : adds ladder 0 (validate_and_replace_user_key s now).
Proof. unfold validate_and_replace_user_key. adds0. Qed.

Lemma adds_build_upstream_url : adds ladder 0 (build_upstream_url s now).
Proof. unfold build_upstream_url. adds0. Qed.

Lemma adds_get_current_api_info : adds ladder 0 (get_current_api_info s now).
Proof. unfold get_current_api_info. adds0. Qed.

Lemma adds_record_current (c : Z) : adds ladder 0 (record_current s now c).
Proof. unfold record_current. adds0. Qed.

Lemma adds_smart_switch (c : Z) : adds ladder 0 (smart_switch s now c).
Proof. unfold smart_switch. adds0. Qed.

Hint Resolve adds_validate adds_build_upstream_url adds_get_current_api_info
  adds_record_current adds_smart_switch : adds.

Lemma adds_record_after_retry : adds ladder 0 (record_after_retry s now).
Proof. unfold record_after_retry. adds0. Qed.

Lemma adds_on_network_error (i : nat) (error_strategy : string) :
  adds ladder 0 (on_network_error s now world i error_strategy).
Proof. unfold on_network_error. adds0. Qed.

Lemma adds_extended_retry (fuel : nat) :
  adds ladder 0 (extended_retry s now world fuel).
Proof.
  induction fuel as [|fuel IH]; cbn [extended_retry]; adds0.
Qed.

Lemma adds_extended_retry_after (c : Z) (fuel : nat) :
  adds ladder 0 (extended_retry_after s now switch_api_codes world c fuel).
Proof.
  induction fuel as [|fuel IH]; cbn [extended_retry_after]; adds0.
Qed.

Hint Resolve adds_record_after_retry adds_on_network_error adds_extended_retry
  adds_extended_retry_after : adds.

Lemma adds_final_failure :
  adds ladder 0 (final_failure s now switch_api_codes world).
Proof. unfold final_failure. adds0. Qed.

Lemma adds_final_switch_retry (c : Z) :
  adds ladder 0 (final_switch_retry s now world c).
Proof. unfold final_switch_retry. adds0. Qed.

Hint Resolve adds_final_failure adds_final_switch_retry : adds.

Lemma adds_after_loop (c : Z) :
  adds ladder 0 (after_loop s now switch_api_codes world c).
Proof. unfold after_loop. adds0. Qed.

(** One pass sends at most one ladder attempt, to the rung of the pass. *)
Lemma adds_strategy_retry_attempt (i : nat) :
  adds ladder (rung_budget ladder i) (strategy_retry_attempt ladder world i).
Proof.
  unfold strategy_retry_attempt, rung_budget.
  destruct (ladder !! i) as [rung|] eqn:Hi.
  - rewrite bool_decide_eq_true_2 by (by eapply lookup_lt_Some).
    apply adds_bind_l; [by apply adds_send_ladder|]. intros o. adds0.
  - apply adds_zero. adds0.
Qed.

Lemma adds_handler (i rest : nat) (e : outcome) :
  adds ladder (rung_budget ladder i)
    (handler s now switch_api_codes read_error_strategy connect_error_strategy
       read_timeout_strategy ladder world i rest e).
Proof.
  unfold handler.
  apply adds_bind_r; [adds0|intros _].
  apply adds_bind_r; [adds0|intros r1].
  destruct r1; [apply adds_zero; adds0|].
  apply adds_bind_r; [adds0|intros r2].
  destruct r2; [apply adds_zero; adds0|].
  apply adds_bind_l.
  - destruct (is_strategy_error _ _ _ e); [|apply adds_zero; adds0].
    apply adds_bind_l; [apply adds_strategy_retry_attempt|]. intros r. adds0.
  - intros r3. adds0.
Qed.

Lemma adds_iteration (i rest : nat) :
  adds ladder (rung_budget ladder i)
    (iteration s now strategy_retry_status_codes switch_api_codes no_retry_codes
       read_error_strategy connect_error_strategy read_timeout_strategy ladder
       world i rest).
Proof.
  unfold iteration.
  apply adds_bind_r; [adds0|intros _].
  apply adds_bind_r; [adds0|intros st].
  apply adds_bind_r; [adds0|intros o].
  destruct o; try apply adds_handler.
  case_bool_decide; [apply adds_handler|].
  apply adds_zero. adds0.
Qed.

Lemma adds_attempt_loop (rest i : nat) :
  adds ladder (Nat.min (S rest) (length ladder - i))
    (attempt_loop s now strategy_retry_status_codes switch_api_codes no_retry_codes
       read_error_strategy connect_error_strategy read_timeout_strategy ladder
       world rest i).
Proof.
  revert i. induction rest as [|rest IH]; intros i; cbn [attempt_loop].
  - apply (adds_weaken ladder (rung_budget ladder i + 0)).
    { unfold rung_budget. case_bool_decide; lia. }
    apply adds_bind; [apply adds_iteration|]. intros f. adds0.
  - apply (adds_weaken ladder
             (rung_budget ladder i + Nat.min (S rest) (length ladder - S i))).
    { unfold rung_budget. case_bool_decide; lia. }
    apply adds_bind; [apply adds_iteration|]. intros f.
    destruct f; [apply IH|apply adds_zero; adds0..].
Qed.

Lemma adds_handle_request :
  adds ladder (Nat.min (length ladder) (Z.to_nat (get_max_retries s)))
    (handle_request s now strategy_retry_status_codes switch_api_codes
       no_retry_codes read_error_strategy connect_error_strategy
       read_timeout_strategy ladder world).
Proof.
  unfold handle_request.
  apply adds_bind_r; [adds0|intros _].
  apply adds_bind_r; [adds0|intros _].
  apply adds_bind_r; [adds0|intros url].
  apply adds_bind_r; [adds0|intros _].
  apply adds_bind_l.
  - eapply adds_weaken; [|apply adds_attempt_loop].
    assert (0 < get_max_retries s).
    { unfold get_max_retries. case_bool_decide; lia. }
    lia.
  - intros exit. destruct exit; [|adds0].
    apply adds_bind0; [apply adds_after_loop|]. intros c. adds0.
Qed.

End LadderBound.

(** *** What the strategy-retry path does to the pool *)

Lemma bind_eq {A B} (m : M A) (k : A -> M B) (st : loop_state) :
  (m ≫= k) st
  = match m st with
    | (Ok a, st') => k a st'
    | (Raise e, st') => (Raise e, st')
    end.
Proof. reflexivity. Qed.

Section LadderFrame.

Variable s : settings.
Variable now : Z.
Variable switch_api_codes : list Z.
Variable read_error_strategy connect_error_strategy read_timeout_strategy : string.
Variable ladder : list retry_config.
Variable world : nat -> outcome.

Local Abbreviation handler :=
  (handler s now switch_api_codes read_error_strategy connect_error_strategy
     read_timeout_strategy ladder world).
Local Abbreviation is_strategy_error :=
  (is_strategy_error read_error_strategy connect_error_strategy
     read_timeout_strategy).

(** A ladder attempt reads and writes nothing of the pool. *)
Lemma strategy_retry_attempt_pool (i : nat) (st : loop_state) :
  ls_pool (strategy_retry_attempt ladder world i st).2 = ls_pool st.
Proof.
  unfold strategy_retry_attempt.
  destruct (ladder !! i) as [rung|]; [|done].
  unfold mbind, M_bind, send, modify, mret, M_ret. cbn.
  destruct (world (length (attempts st))); try done.
  case_bool_decide; done.
Qed.

Lemma strategy_retry_attempt_result (i : nat) (st : loop_state) :
  let r := strategy_retry_attempt ladder world i st in
  (r.1 = Ok None /\
   last_error_status_code r.2 = last_error_status_code st /\
   last_error_strategy r.2 = last_error_strategy st /\
   should_record_error_after_retry r.2 = should_record_error_after_retry st) \/
  (exists code, r.1 = Ok (Some code) /\ code < 400).
Proof.
  unfold strategy_retry_attempt.
  destruct (ladder !! i) as [rung|]; [|by left].
  unfold mbind, M_bind, send, modify, mret, M_ret. cbn.
  destruct (world (length (attempts st))) as [code| | | |]; try by left.
  case_bool_decide; [right; by exists code|by left].
Qed.

(** The two network-error branches do nothing for an error whose strategy
    is [strategy_retry]. *)
Lemma on_network_error_strategy_retry (i : nat) (st : loop_state) :
  on_network_error s now world i "strategy_retry" st = (Ok None, st).
Proof. reflexivity. Qed.

(** The part of the handler before the ladder attempt, for an error that
    takes the strategy-retry path. *)
Lemma handler_strategy_error (i rest : nat) (e : outcome) (st : loop_state) :
  is_strategy_error e = true ->
  handler i rest e st
  = (r3 ← (r ← strategy_retry_attempt ladder world i;
           match r with
           | Some code => mret (Some code)
           | None =>
             st ← get;
             _ ← modify (set_last_error (last_error_status_code st)
                           (Some strategy_retry));
             mret None
           end);
     match r3 with
     | Some code => mret (Break code)
     | None =>
       match rest with
       | S _ => mret Continue
       | O => final_failure s now switch_api_codes world
       end
     end) (set_client_closed true st).
Proof.
  intros He. unfold Orchestrator.handler.
  change (Orchestrator.is_strategy_error _ _ _ e) with (is_strategy_error e).
  rewrite He.
  destruct e; cbn in He; try done.
  - apply bool_decide_eq_true in He. subst read_error_strategy. reflexivity.
  - apply bool_decide_eq_true in He. subst connect_error_strategy. reflexivity.
Qed.

(** A pass that is not the last one and takes the strategy-retry path
    leaves the pool as the selector left it: it ends with the response of the
    rung, or goes on to the next pass with the error noted for later. *)
Lemma handler_strategy_error_pool (i rest : nat) (e : outcome) (st : loop_state) :
  is_strategy_error e = true ->
  let r := handler i (S rest) e st in
  ls_pool r.2 = ls_pool st /\
  ((r.1 = Ok Continue /\
    last_error_strategy r.2 = Some strategy_retry /\
    should_record_error_after_retry r.2 = true) \/
   (exists code, r.1 = Ok (Break code) /\ code < 400)).
Proof.
  intros He. rewrite handler_strategy_error by done.
  do 2 rewrite bind_eq.
  pose proof (strategy_retry_attempt_pool i (set_client_closed true st)) as Hp.
  destruct (strategy_retry_attempt_result i (set_client_closed true st))
    as [(Hr & _)|(code & Hr & Hc)];
    destruct (strategy_retry_attempt ladder world i (set_client_closed true st))
      as [r st1]; cbn [fst snd] in *; subst r; cbn.
  - split; [done|]. by left.
  - split; [done|]. right. by exists code.
Qed.

Lemma note_strategy_retry (st1 : loop_state) :
  (st ← get;
   _ ← modify (set_last_error (last_error_status_code st) (Some strategy_retry));
   mret None) st1
  = (Ok (@None Z),
     set_last_error (last_error_status_code st1) (Some strategy_retry) st1).
Proof. reflexivity. Qed.

(** Once the passes are used up the error noted by the strategy-retry path
    is recorded against the current entry. *)
Lemma record_after_retry_strategy (st : loop_state) :
  should_record_error_after_retry st = true ->
  last_error_strategy st = Some strategy_retry ->
  ls_pool (record_after_retry s now st).2
  = (record_api_error s now (current_config_index (ls_pool st)) 503 (ls_pool st)).2.
Proof.
  intros H1 H2.
  remember (record_api_error s now (current_config_index (ls_pool st)) 503
              (ls_pool st)) as q eqn:Hq.
  unfold record_after_retry, mbind, M_bind, get. cbv beta iota.
  rewrite H1, H2. unfold record_current, on_pool. rewrite <- Hq.
  by destruct q.
Qed.

Lemma handler_exhausted_pool (i : nat) (e : outcome) (st : loop_state) :
  is_strategy_error e = true ->
  (strategy_retry_attempt ladder world i (set_client_closed true st)).1 = Ok None ->
  switch_api_codes = [] ->
  ls_pool (handler i 0 e st).2
  = (record_api_error s now (current_config_index (ls_pool st)) 503 (ls_pool st)).2.
Proof.
  intros He Hr Hs. rewrite handler_strategy_error by done.
  remember (record_api_error s now (current_config_index (ls_pool st)) 503
              (ls_pool st)).2 as q eqn:Hq.
  do 2 rewrite bind_eq.
  pose proof (strategy_retry_attempt_pool i (set_client_closed true st)) as Hp.
  destruct (strategy_retry_attempt ladder world i (set_client_closed true st))
    as [r st1]; cbn [fst snd] in *; subst r.
  cbv beta iota. rewrite note_strategy_retry. cbv beta iota.
  unfold final_failure. rewrite bind_eq.
  pose proof (record_after_retry_strategy
                (set_last_error (last_error_status_code st1) (Some strategy_retry) st1)
                eq_refl eq_refl) as Hrec.
  cbn [ls_pool set_last_error] in Hrec. rewrite Hp in Hrec.
  cbn [ls_pool set_client_closed] in Hrec. rewrite <- Hq in Hrec.
  destruct (record_after_retry s now _) as [[[]|ex] st2]; cbn [snd] in *; [|done].
  rewrite bool_decide_eq_false_2 by (rewrite Hs; tauto). done.
Qed.

End LadderFrame.

(** C4, as stated, fails in its last part: when the ladder is used up the
    path records an error against the current entry.  One pass, a ladder of
    one rung; the main upstream answers 429 and the rung 500.  The request
    ends in the proxy's 502 after one ladder attempt, and the error count of
    the entry has gone from 0 to 1. *)
Lemma strategy_retry_exhaustion_records_error :
  let r := Scenarios.default_request Scenarios.one_try [Scenarios.rung_1]
             Scenarios.overloaded Scenarios.healthy_pool in
  r.1 = Ok BadGateway /\
  map att_kind (attempts r.2) = [main_attempt 0; ladder_attempt 0] /\
  error_count (state_of (api_status Scenarios.healthy_pool) 0) = 0 /\
  error_count (state_of (api_status (ls_pool r.2)) 0) = 1.
Proof. vm_compute. repeat split. Qed.

(** A rung that answers below 400 ends the loop with that response, and the
    branch after the loop then clears the record of the current entry of the
    pool. *)
Example strategy_retry_success_resets_entry :
  let r := Scenarios.default_request Scenarios.one_try [Scenarios.rung_1]
             Scenarios.rung_answers Scenarios.shaky_pool in
  r.1 = Ok (Upstream 200) /\
  map att_kind (attempts r.2) = [main_attempt 0; ladder_attempt 0] /\
  state_of (api_status Scenarios.shaky_pool) 0 = Scenarios.two_errors /\
  state_of (api_status (ls_pool r.2)) 0 = fresh_state.
Proof. vm_compute. repeat split. Qed.

End OrchestratorSpec.

(** ** Thinking blocks in the translated stream *)

Module ThinkingSpec.
Import Thinking.

Local Open Scope string_scope.

Lemma append_nil_r (a : string) : a +:+ "" = a.
Proof.
  induction a as [|c a IH]; [done|].
  change (String c (a +:+ "") = String c a). by rewrite IH.
Qed.

Lemma append_assoc (a b c : string) : (a +:+ b) +:+ c = a +:+ (b +:+ c).
Proof.
  induction a as [|x a IH]; [done|].
  change (String x ((a +:+ b) +:+ c) = String x (a +:+ (b +:+ c))). by rewrite IH.
Qed.

Lemma translate_app (l1 l2 : list claude_chunk) (states : gmap string bool) :
  translate (l1 ++ l2) states
  = let '(t1, states) := translate l1 states in
    let '(t2, states) := translate l2 states in
    (t1 +:+ t2, states).
Proof.
  revert states. induction l1 as [|e l1 IH]; intros states; cbn [translate app].
  - by destruct (translate l2 states).
  - destruct (_convert_stream_chunk e states) as [c st1]. rewrite IH.
    destruct (translate l1 st1) as [t1 st2].
    destruct (translate l2 st2) as [t2 st3].
    by rewrite append_assoc.
Qed.

Lemma translate_cons (e : claude_chunk) (rest : list claude_chunk)
    (states : gmap string bool) :
  translate (e :: rest) states
  = let '(c, states) := _convert_stream_chunk e states in
    let '(text, states) := translate rest states in
    (content_of c +:+ text, states).
Proof. reflexivity. Qed.

(** The steps of the translator on the events of a message. *)
Lemma convert_message_start (id : string) (states : gmap string bool) :
  _convert_stream_chunk (message_start id) states
  = ({| chunk_id := "chatcmpl-" +:+ id; choices := [role_delta "assistant"] |},
     <[id := false]> states).
Proof. reflexivity. Qed.

Lemma convert_thinking_start (states : gmap string bool) :
  _convert_stream_chunk (content_block_start "thinking") states
  = ({| chunk_id := "chatcmpl-default"; choices := [content_delta "<think>"] |},
     <["default" := true]> states).
Proof. reflexivity. Qed.

Lemma convert_text_start (states : gmap string bool) :
  _convert_stream_chunk (content_block_start "text") states
  = if default false (states !! "default") then
      ({| chunk_id := "chatcmpl-default";
          choices := [content_delta ("</think>" +:+ newline +:+ newline)] |},
       <["default" := false]> states)
    else ({| chunk_id := "chatcmpl-default"; choices := [] |}, states).
Proof. reflexivity. Qed.

Lemma convert_thinking_delta (x : string) (states : gmap string bool) :
  _convert_stream_chunk (thinking_delta x) states
  = ({| chunk_id := "chatcmpl-default"; choices := [content_delta x] |}, states).
Proof. reflexivity. Qed.

Lemma convert_text_delta (x : string) (states : gmap string bool) :
  _convert_stream_chunk (text_delta x) states
  = ({| chunk_id := "chatcmpl-default"; choices := [content_delta x] |}, states).
Proof. reflexivity. Qed.

Lemma convert_content_block_stop (states : gmap string bool) :
  _convert_stream_chunk content_block_stop states
  = ({| chunk_id := "chatcmpl-default"; choices := [] |}, states).
Proof. reflexivity. Qed.

Lemma convert_message_delta (states : gmap string bool) :
  _convert_stream_chunk message_delta states
  = ({| chunk_id := "chatcmpl-default"; choices := [] |}, states).
Proof. reflexivity. Qed.

Lemma convert_message_stop (states : gmap string bool) :
  _convert_stream_chunk message_stop states
  = ({| chunk_id := "chatcmpl-default";
        choices := (if default false (states !! "default")
                    then [content_delta "</think>"] else []) ++ [finish "stop"] |},
     delete "default" states).
Proof. reflexivity. Qed.

(** The deltas pass through and leave the state alone. *)
Lemma translate_thinking_deltas (l : list string) (states : gmap string bool) :
  translate (thinking_delta <$> l) states = (concat_strings l, states).
Proof.
  induction l as [|x l IH]; [done|].
  rewrite fmap_cons, translate_cons, convert_thinking_delta, IH.
  cbn. by rewrite append_nil_r.
Qed.

Lemma translate_text_deltas (l : list string) (states : gmap string bool) :
  translate (text_delta <$> l) states = (concat_strings l, states).
Proof.
  induction l as [|x l IH]; [done|].
  rewrite fmap_cons, translate_cons, convert_text_delta, IH.
  cbn. by rewrite append_nil_r.
Qed.

(** The steps of the translator on the other events of a stream. *)
Lemma convert_other_delta (ty : string) (states : gmap string bool) :
  content_of (_convert_stream_chunk (other_delta ty) states).1 = "" /\
  (_convert_stream_chunk (other_delta ty) states).2 = states.
Proof.
  unfold _convert_stream_chunk, other_delta. cbn.
  repeat case_bool_decide; done.
Qed.

Lemma convert_ping (states : gmap string bool) :
  _convert_stream_chunk ping states
  = ({| chunk_id := "chatcmpl-default"; choices := [] |}, states).
Proof. reflexivity. Qed.

Lemma convert_other_start (ty : string) (states : gmap string bool) :
  ty <> "thinking" -> ty <> "text" ->
  _convert_stream_chunk (content_block_start ty) states
  = ({| chunk_id := "chatcmpl-default"; choices := [] |}, states).
Proof.
  intros H1 H2. unfold _convert_stream_chunk, content_block_start. cbn.
  rewrite (bool_decide_eq_false_2 (Some ty = Some "thinking")) by congruence.
  by rewrite (bool_decide_eq_false_2 (Some ty = Some "text")) by congruence.
Qed.

(** The deltas of a block pass through and leave the state alone. *)
Lemma translate_deltas (deltas : list delta) (states : gmap string bool) :
  translate (delta_event <$> deltas) states = (pieces deltas, states).
Proof.
  induction deltas as [|d deltas IH]; [done|].
  rewrite fmap_cons, translate_cons.
  assert (Hd : content_of (_convert_stream_chunk (delta_event d) states).1
               = piece_text d /\
               (_convert_stream_chunk (delta_event d) states).2 = states).
  { destruct d as [x|x|ty|]; cbn [delta_event piece_text].
    - rewrite convert_thinking_delta. cbn. by rewrite append_nil_r.
    - rewrite convert_text_delta. cbn. by rewrite append_nil_r.
    - apply convert_other_delta.
    - by rewrite convert_ping. }
  destruct (_convert_stream_chunk (delta_event d) states) as [c st].
  cbn [fst snd] in Hd. destruct Hd as [-> ->]. by rewrite IH.
Qed.

(** The blocks of a message and its last two events, from a state in which
    the entry ["default"] holds the flag [in_thinking]. *)
Lemma translate_items (items : list item) (states : gmap string bool) :
  translate (concat (item_events <$> items) ++ [message_delta; message_stop]) states
  = (tagged (default false (states !! "default")) items, delete "default" states).
Proof.
  revert states. induction items as [|i items IH]; intros states.
  - cbn [fmap list_fmap concat app].
    rewrite translate_cons, convert_message_delta; cbv beta iota.
    rewrite translate_cons, convert_message_stop; cbv beta iota.
    cbn [translate tagged]. f_equal.
    destruct (default false (states !! "default")); cbn; done.
  - rewrite fmap_cons. cbn [concat]. rewrite <- app_assoc.
    destruct i as [ty deltas|]; cbn [item_events tagged].
    2:{ cbn [app]. rewrite translate_cons, convert_ping; cbv beta iota.
        rewrite IH. done. }
    cbn [app]. rewrite translate_cons.
    assert (Hrest : forall st,
              translate (((delta_event <$> deltas) ++ [content_block_stop]) ++
                         concat (item_events <$> items) ++
                         [message_delta; message_stop]) st
              = (pieces deltas +:+ tagged (default false (st !! "default")) items,
                 delete "default" st)).
    { intros st. rewrite <- app_assoc, translate_app, translate_deltas; cbv beta iota.
      cbn [app]. rewrite translate_cons, convert_content_block_stop; cbv beta iota.
      rewrite IH. done. }
    case_bool_decide as Hth; [|case_bool_decide as Htx].
    + subst ty. rewrite convert_thinking_start; cbv beta iota.
      rewrite Hrest, lookup_insert_eq, delete_insert_eq.
      cbn [from_option Datatypes.id content_of choices foldr].
      by rewrite append_nil_r.
    + subst ty. rewrite convert_text_start.
      destruct (default false (states !! "default")) eqn:Ef; cbv beta iota.
      * rewrite Hrest, lookup_insert_eq, delete_insert_eq.
        cbn [from_option Datatypes.id content_of choices foldr].
        by rewrite append_nil_r.
      * rewrite Hrest, Ef. done.
    + rewrite (convert_other_start ty states Hth Htx); cbv beta iota.
      rewrite Hrest. done.
Qed.

(** Every event but [message_start] works on the entry ["default"]. *)
Lemma state_key_default (c : claude_chunk) :
  message_id c = None -> state_key c = "default".
Proof. unfold state_key. by intros ->. Qed.

Lemma convert_key (c : claude_chunk) (states : gmap string bool) (k : string) :
  k <> state_key c ->
  (_convert_stream_chunk c states).2 !! k = states !! k.
Proof.
  intros Hk. unfold _convert_stream_chunk. fold (state_key c).
  repeat case_bool_decide; repeat case_match; cbn [snd];
    rewrite ?lookup_insert_ne, ?lookup_delete_ne by done; done.
Qed.

Lemma concat_strings_app (l1 l2 : list string) :
  concat_strings (l1 ++ l2) = concat_strings l1 +:+ concat_strings l2.
Proof.
  induction l1 as [|x l1 IH]; [done|].
  cbn [app]. unfold concat_strings in *. cbn [foldr]. by rewrite IH, append_assoc.
Qed.

Lemma items_text_app (l1 l2 : list item) :
  items_text (l1 ++ l2) = items_text l1 +:+ items_text l2.
Proof. unfold items_text. by rewrite fmap_app, concat_strings_app. Qed.

Lemma items_text_cons (i : item) (l : list item) :
  items_text (i :: l) = item_text i +:+ items_text l.
Proof. reflexivity. Qed.

Lemma no_thinking_block_cons (i : item) (l : list item) :
  no_thinking_block (i :: l) = negb (is_thinking_block i) && no_thinking_block l.
Proof. reflexivity. Qed.

Lemma no_text_block_cons (i : item) (l : list item) :
  no_text_block (i :: l) = negb (is_text_block i) && no_text_block l.
Proof. reflexivity. Qed.

Lemma well_formed_cons (i : item) (l : list item) :
  well_formed (i :: l)
  = match i with
    | block ty deltas => forallb (delta_fits ty) deltas
    | ping_item => true
    end && well_formed l.
Proof. reflexivity. Qed.

(** Without a thinking block, and with the flag not set, no tag is
    written. *)
Lemma tagged_plain (items : list item) :
  no_thinking_block items = true -> tagged false items = items_text items.
Proof.
  induction items as [|i items IH]; [done|].
  rewrite no_thinking_block_cons. intros [Hi Hrest]%andb_true_iff.
  rewrite items_text_cons. destruct i as [ty deltas|]; cbn [tagged item_text].
  - cbn in Hi. apply negb_true_iff in Hi. rewrite Hi, (IH Hrest).
    by destruct (bool_decide (ty = "text")).
  - by rewrite (IH Hrest).
Qed.

(** Blocks that are neither thinking nor text leave the flag as it is. *)
Lemma tagged_other (flag : bool) (items rest : list item) :
  no_thinking_block items = true -> no_text_block items = true ->
  tagged flag (items ++ rest) = items_text items +:+ tagged flag rest.
Proof.
  induction items as [|i items IH]; [done|].
  rewrite no_thinking_block_cons, no_text_block_cons.
  intros [Hi Hrest]%andb_true_iff [Hi' Hrest']%andb_true_iff.
  rewrite items_text_cons. cbn [app].
  destruct i as [ty deltas|]; cbn [tagged item_text].
  - cbn in Hi, Hi'. apply negb_true_iff in Hi, Hi'. rewrite Hi, Hi'.
    by rewrite (IH Hrest Hrest'), append_assoc.
  - by rewrite (IH Hrest Hrest').
Qed.

(** Up to the first thinking block. *)
Lemma tagged_until_thinking (flag : bool) (pre : list item) (thinking : list delta)
    (post : list item) :
  no_thinking_block pre = true ->
  flag = false \/ no_text_block pre = true ->
  tagged flag (pre ++ block "thinking" thinking :: post)
  = items_text pre +:+ "<think>" +:+ pieces thinking +:+ tagged true post.
Proof.
  revert flag. induction pre as [|i pre IH]; intros flag Hth Hor; [done|].
  rewrite no_thinking_block_cons in Hth. apply andb_true_iff in Hth as [Hi Hrest].
  assert (Hor' : forall b, b = false \/ (flag = false -> False) ->
                           b = false \/ no_text_block pre = true).
  { intros b [->|Hb]; [by left|]. destruct Hor as [->|Hor]; [done|right].
    rewrite no_text_block_cons in Hor. by apply andb_true_iff in Hor as [_ ?]. }
  rewrite items_text_cons. cbn [app].
  destruct i as [ty deltas|]; cbn [tagged item_text].
  2:{ apply IH; [done|]. apply Hor'. destruct flag; [right; done|by left]. }
  cbn in Hi. apply negb_true_iff in Hi. rewrite Hi. clear Hi.
  destruct (decide (ty = "text")) as [Htx|Htx];
    [rewrite (bool_decide_eq_true_2 _ Htx)|rewrite (bool_decide_eq_false_2 _ Htx)].
  - destruct Hor as [->|Hor].
    + rewrite (IH false Hrest (Hor' false (or_introl eq_refl))).
      by rewrite append_assoc.
    + rewrite no_text_block_cons in Hor. cbn [is_text_block] in Hor.
      rewrite (bool_decide_eq_true_2 _ Htx) in Hor. done.
  - rewrite (IH flag Hrest); [by rewrite append_assoc|].
    apply Hor'. destruct flag; [right; done|by left].
Qed.

(** In a well-formed stream the blocks that are neither thinking nor text
    carry no text. *)
Lemma pieces_silent (ty : string) (deltas : list delta) :
  ty <> "thinking" -> ty <> "text" ->
  forallb (delta_fits ty) deltas = true -> pieces deltas = "".
Proof.
  intros H1 H2. induction deltas as [|d deltas IH]; [done|].
  cbn [forallb]. intros [Hd Hrest]%andb_true_iff.
  unfold pieces in *. rewrite fmap_cons. unfold concat_strings in *. cbn [foldr].
  rewrite (IH Hrest), append_nil_r.
  destruct d as [x|x| |]; cbn in Hd |- *; try done.
  - by apply bool_decide_eq_true in Hd.
  - by apply bool_decide_eq_true in Hd.
Qed.

Lemma items_text_silent (items : list item) :
  well_formed items = true ->
  no_thinking_block items = true -> no_text_block items = true ->
  items_text items = "".
Proof.
  induction items as [|i items IH]; [done|].
  rewrite well_formed_cons, no_thinking_block_cons, no_text_block_cons.
  intros [Hw Hws]%andb_true_iff [Hi Hrest]%andb_true_iff [Hi' Hrest']%andb_true_iff.
  rewrite items_text_cons, (IH Hws Hrest Hrest'), append_nil_r.
  destruct i as [ty deltas|]; [|done]. cbn [item_text].
  cbn in Hi, Hi'. apply negb_true_iff in Hi, Hi'.
  apply bool_decide_eq_false in Hi, Hi'. by eapply pieces_silent.
Qed.

Lemma well_formed_app (l1 l2 : list item) :
  well_formed (l1 ++ l2) = well_formed l1 && well_formed l2.
Proof. apply forallb_app. Qed.

Lemma stream_keys_default (id : string) (items : list item) :
  Forall (fun e => state_key e = "default") (tail (stream id items)).
Proof.
  unfold stream. cbn [tail]. apply Forall_app. split; [|by repeat constructor].
  apply Forall_concat, Forall_fmap, Forall_forall. intros i _.
  destruct i as [ty deltas|]; cbn [item_events]; [|by repeat constructor].
  constructor; [done|]. apply Forall_app. split; [|by repeat constructor].
  apply Forall_fmap, Forall_forall. intros d _. by destruct d.
Qed.

(** The streams of the scenario are streams of this form. *)
Lemma thinking_message_stream (id : string) (thinking text : list string) :
  thinking_message id thinking text
  = stream id [block "thinking" (thinking_piece <$> thinking);
               block "text" (text_piece <$> text)].
Proof.
  unfold thinking_message, stream. cbn -[message_delta message_stop content_block_stop].
  rewrite <- !list_fmap_compose, app_nil_r.
  repeat first [rewrite <- app_assoc | progress cbn [app]]. reflexivity.
Qed.

Lemma text_message_stream (id : string) (text : list string) :
  text_message id text = stream id [block "text" (text_piece <$> text)].
Proof.
  unfold text_message, stream. cbn -[message_delta message_stop content_block_stop].
  rewrite <- !list_fmap_compose, app_nil_r.
  repeat first [rewrite <- app_assoc | progress cbn [app]]. reflexivity.
Qed.

(** C6, the part that holds.  Every stream of one message - any blocks, any
    deltas, pings anywhere - translated on its own from any state of
    [_thinking_states]: the client receives the deltas with an opening tag at
    every thinking block, a closing tag and two line feeds at a text block
    that finds the flag set, and a closing tag at the end when the flag is
    still set.  The flag the first block finds is the one stored under
    ["default"] and not the one [message_start] has just stored under the
    message id: of the events of the stream only [message_start] uses the
    message id as key, all the others read and write the entry ["default"],
    which is the one the message leaves deleted, while the entry of the id
    stays behind.

    So a well-formed stream with exactly one thinking block has exactly one
    pair of tags, around the text of the thinking deltas, when no text block
    comes before the thinking block or the entry ["default"] was not set:
    the closing tag is written at the first text block after the thinking
    block, or at the end of the message when no text block follows. *)
Theorem thinking_bracketed_single_stream
    (id : string) (items : list item) (states : gmap string bool) :
  let r := translate (stream id items) states in
  let flag := if bool_decide (id = "default") then false
              else default false (states !! "default") in
  r.1 = tagged flag items /\
  r.2 = delete "default" (<[id := false]> states) /\
  Forall (fun e => state_key e = "default") (tail (stream id items)) /\
  (forall (pre : list item) thinking (between : list item) text (post : list item),
     items = (pre ++ block "thinking" thinking :: between
                  ++ block "text" text :: post)%list ->
     well_formed items = true ->
     no_thinking_block pre = true -> no_thinking_block between = true ->
     no_text_block between = true -> no_thinking_block post = true ->
     flag = false \/ no_text_block pre = true ->
     r.1 = items_text pre +:+ "<think>" +:+ pieces thinking
           +:+ "</think>" +:+ newline +:+ newline
           +:+ pieces text +:+ items_text post) /\
  (forall (pre : list item) thinking (post : list item),
     items = (pre ++ block "thinking" thinking :: post)%list ->
     well_formed items = true ->
     no_thinking_block pre = true ->
     no_thinking_block post = true -> no_text_block post = true ->
     flag = false \/ no_text_block pre = true ->
     r.1 = items_text pre +:+ "<think>" +:+ pieces thinking +:+ "</think>").
Proof.
  cbv zeta.
  assert (E : translate (stream id items) states
              = (tagged (if bool_decide (id = "default") then false
                         else default false (states !! "default")) items,
                 delete "default" (<[id := false]> states))).
  { unfold stream. rewrite translate_cons, convert_message_start; cbv beta iota.
    rewrite translate_items. cbn [content_of choices foldr].
    f_equal. f_equal. case_bool_decide as Hid.
    - subst id. by rewrite lookup_insert_eq.
    - by rewrite lookup_insert_ne. }
  rewrite E. cbn [fst snd].
  split; [done|]. split; [done|]. split; [apply stream_keys_default|]. split.
  - intros pre thinking between text post -> Hwf Hpre Hbetween Hbetween' Hpost Hor.
    rewrite (tagged_until_thinking _ _ _ _ Hpre Hor).
    rewrite (tagged_other _ _ _ Hbetween Hbetween').
    rewrite well_formed_app in Hwf. apply andb_true_iff in Hwf as [_ Hwf].
    rewrite well_formed_cons in Hwf. apply andb_true_iff in Hwf as [_ Hwf].
    rewrite well_formed_app in Hwf. apply andb_true_iff in Hwf as [Hwf _].
    rewrite (items_text_silent _ Hwf Hbetween Hbetween').
    cbn [tagged]. rewrite bool_decide_eq_false_2 by done.
    rewrite bool_decide_eq_true_2 by done.
    rewrite (tagged_plain _ Hpost).
    change ("" +:+ ?x) with x. by rewrite !append_assoc.
  - intros pre thinking post -> Hwf Hpre Hpost Hpost' Hor.
    rewrite (tagged_until_thinking _ _ _ _ Hpre Hor).
    rewrite <- (app_nil_r post), (tagged_other _ _ _ Hpost Hpost').
    rewrite well_formed_app in Hwf. apply andb_true_iff in Hwf as [_ Hwf].
    rewrite well_formed_cons in Hwf. apply andb_true_iff in Hwf as [_ Hwf].
    rewrite (items_text_silent _ Hwf Hpost Hpost'). done.
Qed.

(** One stream on its own with two thinking blocks: an opening tag at each
    of them, and a closing tag only where a text block follows. *)
Example two_thinking_blocks_open_two_tags :
  (translate
     (stream "msg_1"
        [block "thinking" [thinking_piece "a"];
         block "tool_use" [other_piece "input_json_delta"];
         block "thinking" [thinking_piece "b"];
         block "text" [text_piece "c"]]) ∅).1
  = "<think>a<think>b</think>" +:+ newline +:+ newline +:+ "c" /\
  (translate
     (stream "msg_1"
        [block "thinking" [thinking_piece "a"];
         block "text" [text_piece "b"];
         block "thinking" [thinking_piece "c"];
         block "text" [text_piece "d"]]) ∅).1
  = "<think>a</think>" +:+ newline +:+ newline +:+ "b"
    +:+ "<think>c</think>" +:+ newline +:+ newline +:+ "d".
Proof. vm_compute. repeat split. Qed.

(** A text-only stream that starts while the entry ["default"] is set - left
    there by a stream that was cut off inside its thinking block - begins
    with a closing tag. *)
Example stale_flag_closes_a_tag_never_opened :
  (translate (stream "msg_2" [block "text" [text_piece "hello"]])
     {["default" := true]}).1
  = "</think>" +:+ newline +:+ newline +:+ "hello".
Proof. vm_compute. repeat split. Qed.

(** C6, as stated, fails in its second part: the state is not keyed by the
    message id.  Stream B starts while stream A is inside its thinking block;
    B's text block finds the flag that A's thinking block set under
    ["default"], so B is sent a closing tag it never opened, and A's text
    block then finds the flag cleared, so A's thinking is never closed.  Each
    stream translated on its own comes out right. *)
Lemma interleaved_streams_share_state :
  let r := translate_two Scenarios.interleaved_streams ∅ in
  Scenarios.stream_of false Scenarios.interleaved_streams
    = thinking_message "msg_A" ["plan"] ["answer"] /\
  Scenarios.stream_of true Scenarios.interleaved_streams
    = text_message "msg_B" ["hello"] /\
  r.1.1 = "<think>plananswer" /\
  r.1.2 = "</think>" +:+ newline +:+ newline +:+ "hello" /\
  (translate (thinking_message "msg_A" ["plan"] ["answer"]) ∅).1
    = "<think>plan</think>" +:+ newline +:+ newline +:+ "answer" /\
  (translate (text_message "msg_B" ["hello"]) ∅).1 = "hello".
Proof. vm_compute. repeat split. Qed.

End ThinkingSpec.

(** ** Detection of OpenAI-Chat requests *)

Module DetectSpec.
Import Detect.

Local Open Scope string_scope.






(** On that body the answer is Anthropic, although the model name is
    OpenAI-style. *)
Example block_request_is_anthropic :
  matches_openai_heuristics Scenarios.block_request_fields = true /\
  has_anthropic_fields Scenarios.block_request_fields = true /\
  is_openai_request (JObject Scenarios.block_request_fields) = false.
Proof. vm_compute. repeat split. Qed.

(** [lower] on the two characters outside ASCII whose lower-case form has
    an ASCII letter: the Kelvin sign and the capital I with a dot. *)
Example lower_maps_kelvin_sign_and_dotted_capital_i :
  Detect.lower "INVALID KEY" = "invalid key" /\
  Detect.contains "davinci" (Detect.lower "text-DAVINCİ-003") = true /\
  Detect.contains "davinci" (Detect.lower "text-DAVINCE-003") = false.
Proof. by vm_compute. Qed.

End DetectSpec.

(** ** The usage store *)

Module UsageSpec.
Import Usage.

Local Open Scope string_scope.

Lemma counters_le_refl (c : counters) : counters_le c c.
Proof. unfold counters_le. lia. Qed.

Lemma counters_le_add (input output cache_creation cache_read total : Z)
    (c : counters) :
  0 <= input -> 0 <= output -> 0 <= cache_creation -> 0 <= cache_read ->
  0 <= total ->
  counters_le c (add_usage input output cache_creation cache_read total c).
Proof. unfold counters_le, add_usage. cbn. lia. Qed.

Lemma get_or_nonneg (a b : option Z) : nonneg a -> nonneg b -> 0 <= get_or a b.
Proof.
  unfold get_or. destruct a as [v|], b as [w|]; cbn; intros Ha Hb;
    try case_bool_decide; lia.
Qed.

Lemma default_nonneg (a : option Z) : nonneg a -> 0 <= default 0 a.
Proof. destruct a; cbn; lia. Qed.

Lemma record_usage_monotone (model today : string) (usage : usage_data)
    (file : stats) :
  usage_nonneg usage -> stats_le file (record_usage model today usage file).
Proof.
  intros (Hi & Hp & Ho & Hc & Hcc & Hcr & Ht).
  pose proof (get_or_nonneg _ _ Hi Hp) as Hin.
  pose proof (get_or_nonneg _ _ Ho Hc) as Hout.
  pose proof (default_nonneg _ Hcc) as Hcre.
  pose proof (default_nonneg _ Hcr) as Hrd.
  assert (Htot : 0 <= default (get_or (input_tokens usage) (prompt_tokens usage)
                               + get_or (output_tokens usage) (completion_tokens usage))
                              (usage_total_tokens usage)).
  { destruct (usage_total_tokens usage); cbn in *; lia. }
  unfold record_usage, stats_le. cbn [summary by_model daily].
  split; [by apply counters_le_add|]. split.
  - intros m c Hm. destruct (decide (m = model)) as [->|Hne].
    + rewrite lookup_insert_eq, Hm. eexists. split; [done|]. cbn [from_option id].
      by apply counters_le_add.
    + rewrite lookup_insert_ne by done. exists c. split; [done|].
      apply counters_le_refl.
  - intros d r Hd. destruct (decide (d = today)) as [->|Hne].
    + rewrite lookup_insert_eq, Hd. eexists. split; [done|]. cbn [from_option id].
      split; cbn [day_counters models]; [by apply counters_le_add|].
      intros m n Hm. destruct (decide (m = model)) as [->|Hne].
      * rewrite lookup_insert_eq, Hm. eexists. split; [done|]. cbn. lia.
      * rewrite lookup_insert_ne by done. exists n. split; [done|lia].
    + rewrite lookup_insert_ne by done. exists r. split; [done|].
      split; [apply counters_le_refl|]. intros m n Hm. exists n. split; [done|lia].
Qed.

Lemma stats_le_refl (file : stats) : stats_le file file.
Proof.
  split; [apply counters_le_refl|]. split.
  - intros m c Hm. exists c. split; [done|apply counters_le_refl].
  - intros d r Hd. exists r. split; [done|].
    split; [apply counters_le_refl|]. intros m n Hm. exists n. split; [done|lia].
Qed.

Lemma codex_result_nonneg (u : codex_usage) :
  codex_usage_ok u -> usage_nonneg (codex_result u).
Proof. intros [H1 H2]. unfold usage_nonneg, codex_result. cbn. lia. Qed.

Lemma claude_result_nonneg (u : claude_usage) :
  claude_usage_ok u -> usage_nonneg (claude_result u).
Proof.
  intros (H1 & H2 & H3 & H4). apply default_nonneg in H1, H2, H3, H4.
  unfold usage_nonneg, claude_result. cbn. lia.
Qed.

Lemma extract_usage_nonneg (events : list sse_event) (is_codex_request : bool)
    (usage : usage_data) :
  Forall event_ok events ->
  extract_usage_from_chunks events is_codex_request = Some usage ->
  usage_nonneg usage.
Proof.
  induction 1 as [|e events [Hcl Hco] _ IH]; cbn [extract_usage_from_chunks]; [done|].
  destruct is_codex_request.
  - case_bool_decide; [|done].
    destruct (response_usage e) as [u|]; [|done].
    intros [= <-]. by apply codex_result_nonneg, Hco.
  - destruct (event_usage e) as [u|]; [|done].
    intros [= <-]. by apply claude_result_nonneg, Hcl.
Qed.

(** The records of the model and of the day exist after a call, and the
    request counters of the call have gone up by one. *)
Lemma record_usage_creates (model today : string) (usage : usage_data)
    (file : stats) :
  let file' := record_usage model today usage file in
  let day := default {| day_counters := zero_counters; models := ∅ |}
                     (daily file !! today) in
  total_requests (summary file') = total_requests (summary file) + 1 /\
  (exists c, by_model file' !! model = Some c /\
     total_requests c
     = total_requests (default zero_counters (by_model file !! model)) + 1) /\
  (exists r, daily file' !! today = Some r /\
     total_requests (day_counters r) = total_requests (day_counters day) + 1 /\
     models r !! model = Some (default 0 (models day !! model) + 1)).
Proof.
  cbn. split; [done|]. split.
  - rewrite lookup_insert_eq. by eexists.
  - rewrite lookup_insert_eq. eexists. split; [done|]. cbn.
    split; [done|]. by rewrite lookup_insert_eq.
Qed.

(** C8, as stated, fails for usage taken from a [response.completed] event
    whose cached tokens exceed its input tokens: the extraction subtracts
    them, [record_usage] is called with [input_tokens = -20], and the input
    counter of the summary goes down. *)
Lemma codex_cached_tokens_lower_input_counter :
  let usage := extract_usage_from_chunks [Scenarios.cached_exceeds_input] true in
  let file' := record_response "gpt-5" "2026-01-01"
                 [Scenarios.cached_exceeds_input] true _get_empty_stats_structure in
  (input_tokens <$> usage) = Some (Some (-20)) /\
  total_input_tokens (summary _get_empty_stats_structure) = 0 /\
  total_input_tokens (summary file') = -20 /\
  ~ stats_le _get_empty_stats_structure file'.
Proof.
  cbv zeta. split; [reflexivity|]. split; [reflexivity|]. split; [reflexivity|].
  intros [(_ & _ & H & _) _]. vm_compute in H. by apply H.
Qed.

(** A well-formed event of the same kind: 100 input tokens of which 30 were
    cached are stored as 70 new and 30 read from the cache. *)
Example codex_usage_recorded :
  let file' := record_response "gpt-5" "2026-01-01"
                 [Scenarios.cached_within_input] true _get_empty_stats_structure in
  event_ok Scenarios.cached_within_input /\
  summary file'
  = {| total_requests := 1; total_tokens := 105; total_input_tokens := 70;
       total_output_tokens := 5; total_cache_creation_tokens := 0;
       total_cache_read_tokens := 30 |}.
Proof.
  cbv zeta. split; [|reflexivity].
  split; [intros u [=]|]. intros u [= <-]. unfold codex_usage_ok. cbn. lia.
Qed.

(** C8, amended.  A call of [record_usage] with counts that are not
    negative leaves every counter that was stored at least as large as it
    was; any call creates the records of the model and of the day when they
    are missing and adds one to each request counter: of the summary, of the
    model, of the day and of the model within the day.  The usage extracted from
    a response has such counts when the upstream's counts are not negative
    and, for a [response.completed] event, the cached tokens do not exceed
    the input tokens; recording the usage of such a response never lowers a
    counter. *)
Theorem usage_store_monotone_on_token_counts :
  (forall model today usage file,
     usage_nonneg usage -> stats_le file (record_usage model today usage file)) /\
  (forall model today usage file,
     let file' := record_usage model today usage file in
     let day := default {| day_counters := zero_counters; models := ∅ |}
                        (daily file !! today) in
     total_requests (summary file') = total_requests (summary file) + 1 /\
     (exists c, by_model file' !! model = Some c /\
        total_requests c
        = total_requests (default zero_counters (by_model file !! model)) + 1) /\
     (exists r, daily file' !! today = Some r /\
        total_requests (day_counters r) = total_requests (day_counters day) + 1 /\
        models r !! model = Some (default 0 (models day !! model) + 1))) /\
  (forall u, codex_usage_ok u -> usage_nonneg (codex_result u)) /\
  (forall u, claude_usage_ok u -> usage_nonneg (claude_result u)) /\
  (forall model today events is_codex_request file,
     Forall event_ok events ->
     stats_le file (record_response model today events is_codex_request file)).
Proof.
  split; [apply record_usage_monotone|].
  split; [apply record_usage_creates|].
  split; [apply codex_result_nonneg|].
  split; [apply claude_result_nonneg|].
  intros model today events is_codex_request file Hok. unfold record_response.
  destruct (extract_usage_from_chunks events is_codex_request) as [usage|] eqn:He.
  - apply record_usage_monotone. by eapply extract_usage_nonneg.
  - apply stats_le_refl.
Qed.

End UsageSpec.

(** * Further properties of the code *)

(** ** Availability and cooldown *)

Module PoolAvailability.
Import Pool.

Lemma is_api_available_spec (now : Z) (i : nat) (p : pool) :
  let r := is_api_available now i p in
  let st := state_of (api_status p) (Z.of_nat i) in
  (r.1 = true <->
     exists cfg, configs p !! i = Some cfg /\
       default true (cfg_enabled cfg) = true /\
       day_allowed now cfg = true /\
       forall t, cooldown_until st = Some t -> t <= now) /\
  (r.1 = false -> r.2 = p) /\
  (r.1 = true -> cooldown_until st = None -> r.2 = p) /\
  (r.1 = true -> cooldown_until st <> None ->
     r.2 = set_status (<[Z.of_nat i := fresh_state]> (api_status p)) p).
Proof.
  cbv zeta. unfold is_api_available, state_of.
  destruct (configs p !! i) as [cfg|] eqn:Ec.
  2:{ cbn. repeat split; try done. by intros (cfg & ? & _). }
  destruct (default true (cfg_enabled cfg)) eqn:Een; cbn [negb].
  2:{ cbn. repeat split; try done. intros (cfg' & [= <-] & He & _). congruence. }
  destruct (day_allowed now cfg) eqn:Eday; cbn [negb].
  2:{ cbn. repeat split; try done. intros (cfg' & [= <-] & _ & Hd & _). congruence. }
  destruct (api_status p !! Z.of_nat i) as [st|] eqn:Est; cbn [default from_option id].
  2:{ cbn. repeat split; try done. intros _. exists cfg. done. }
  destruct (cooldown_until st) as [t|] eqn:Et.
  2:{ cbn. repeat split; try done. intros _. exists cfg. done. }
  case_bool_decide as Hlt; cbn [fst snd].
  - repeat split; try done.
    intros (cfg' & _ & _ & _ & Ht). specialize (Ht t eq_refl). lia.
  - repeat split; try done. intros _. exists cfg. repeat split; try done.
    intros t' [= <-]. lia.
Qed.

Lemma get_api_error_threshold_pos (s : settings) : 0 < get_api_error_threshold s.
Proof. unfold get_api_error_threshold. case_bool_decide; lia. Qed.

(** The record of an entry after [k] errors recorded at [now], starting
    from a fresh record. *)
Lemma record_api_error_iter (s : settings) (now idx code : Z) (p : pool) (k : nat) :
  state_of (api_status p) idx = fresh_state ->
  let p' := Nat.iter k (fun q => (record_api_error s now idx code q).2) p in
  configs p' = configs p /\
  state_of (api_status p') idx
  = if bool_decide (k = 0%nat) then fresh_state
    else if bool_decide (get_api_error_threshold s <= Z.of_nat k)
    then {| status := warning; error_count := Z.of_nat k;
            cooldown_until := Some (now + api_cooldown_seconds s) |}
    else {| status := normal; error_count := Z.of_nat k; cooldown_until := None |}.
Proof.
  intros Hfresh. induction k as [|k [IHc IHs]]; [done|].
  cbv zeta in *. rewrite Nat.iter_succ.
  set (q := Nat.iter k (fun q => (record_api_error s now idx code q).2) p) in *.
  assert (Hst : api_status (record_api_error s now idx code q).2
                = (_record_error_core idx code now (api_status q) (configs q)
                     (get_api_error_threshold s) (api_cooldown_seconds s)).2).
  { unfold record_api_error. by destruct (_record_error_core _ _ _ _ _ _ _). }
  assert (Hcf : configs (record_api_error s now idx code q).2 = configs q).
  { unfold record_api_error. by destruct (_record_error_core _ _ _ _ _ _ _). }
  split; [congruence|].
  rewrite Hst, PoolRecorder.record_error_core_state, IHs. cbv zeta.
  pose proof (get_api_error_threshold_pos s) as Hthr.
  rewrite (bool_decide_eq_false_2 (S k = 0%nat)) by lia.
  repeat case_bool_decide; cbn [error_count status cooldown_until fresh_state] in *;
    try lia; f_equal; lia.
Qed.

(** X1.  An enabled entry with a fresh record stays available while fewer
    errors than the threshold have been recorded against it; once the
    threshold is reached at time [now] it is unavailable until
    [now + api_cooldown_seconds], and the first check at or after that time
    finds it available again and clears its record. *)
Theorem threshold_errors_open_a_cooldown_window
    (s : settings) (now code : Z) (i : nat) (p : pool) (cfg : api_config)
    (k : nat) (later : Z) :
  configs p !! i = Some cfg ->
  default true (cfg_enabled cfg) = true ->
  day_allowed later cfg = true ->
  state_of (api_status p) (Z.of_nat i) = fresh_state ->
  let p' := Nat.iter k (fun q => (record_api_error s now (Z.of_nat i) code q).2) p in
  let r := is_api_available later i p' in
  (Z.of_nat k < get_api_error_threshold s -> r.1 = true) /\
  (get_api_error_threshold s <= Z.of_nat k ->
   (later < now + api_cooldown_seconds s -> r.1 = false) /\
   (now + api_cooldown_seconds s <= later ->
    r.1 = true /\ state_of (api_status r.2) (Z.of_nat i) = fresh_state)).
Proof.
  intros Hc Hen Hday Hfresh p' r.
  destruct (record_api_error_iter s now (Z.of_nat i) code p k Hfresh) as [Hcf Hst].
  fold p' in Hcf, Hst.
  destruct (is_api_available_spec later i p') as (Hiff & _ & Hkeep & Hreset).
  fold r in Hiff, Hkeep, Hreset. cbv zeta in Hiff, Hkeep, Hreset.
  pose proof (get_api_error_threshold_pos s) as Hthr.
  split.
  - intros Hlt. apply Hiff. exists cfg. rewrite Hcf. repeat split; try done.
    intros t. rewrite Hst. repeat case_bool_decide; cbn; try done; lia.
  - intros Hge.
    assert (Hst' : state_of (api_status p') (Z.of_nat i)
                   = {| status := warning; error_count := Z.of_nat k;
                        cooldown_until := Some (now + api_cooldown_seconds s) |}).
    { rewrite Hst. rewrite bool_decide_eq_false_2 by lia.
      by rewrite bool_decide_eq_true_2. }
    split.
    + intros Hlt. destruct (r.1) eqn:Er; [|done].
      apply proj1 in Hiff. destruct (Hiff eq_refl) as (_ & _ & _ & _ & Ht).
      rewrite Hst' in Ht. specialize (Ht _ eq_refl). lia.
    + intros Hle.
      assert (Er : r.1 = true).
      { apply Hiff. exists cfg. rewrite Hcf. repeat split; try done.
        rewrite Hst'. intros t [= <-]. done. }
      split; [done|]. rewrite Hreset; [|done|by rewrite Hst'].
      unfold state_of. cbn. by rewrite lookup_insert_eq.
Qed.

Lemma threshold_errors_open_a_cooldown_window_witness :
  let p' := Nat.iter 3
              (fun q => (record_api_error Scenarios.default_settings 1000 0 429 q).2)
              Scenarios.healthy_pool in
  (is_api_available 1599 0 p').1 = false /\
  (is_api_available 1600 0 p').1 = true.
Proof.
  cbv zeta. split.
  - refine (proj1 (proj2 (threshold_errors_open_a_cooldown_window
             Scenarios.default_settings 1000 429 0 Scenarios.healthy_pool
             Scenarios.entry_A 3 1599 _ _ _ _) _) _);
      by vm_compute.
  - refine (proj1 (proj2 (proj2 (threshold_errors_open_a_cooldown_window
             Scenarios.default_settings 1000 429 0 Scenarios.healthy_pool
             Scenarios.entry_A 3 1600 _ _ _ _) _) _));
      by vm_compute.
Defined.

(** The scan for the first available index stops at the first hit. *)
Lemma first_available_split (now : Z) (idxs : list nat) (p : pool) :
  match (first_available now idxs p).1 with
  | Some i =>
    exists l1 l2, idxs = l1 ++ i :: l2 /\
      Forall (fun j => (is_api_available now j p).1 = false) l1 /\
      (is_api_available now i p).1 = true
  | None => Forall (fun j => (is_api_available now j p).1 = false) idxs
  end.
Proof.
  revert p. induction idxs as [|idx rest IH]; intros p; cbn [first_available].
  - constructor.
  - destruct (PoolSelector.is_api_available_post now idx p) as (_ & [_ Hsame] & _).
    destruct (is_api_available now idx p) as [ok p1] eqn:E. cbn [fst snd] in *.
    destruct ok; cbn [fst].
    + exists [], rest. by rewrite E.
    + specialize (IH p1). destruct ((first_available now rest p1).1) as [i|].
      * destruct IH as (l1 & l2 & -> & Hl1 & Hi).
        exists (idx :: l1), l2. split; [done|]. split.
        -- constructor; [by rewrite E|].
           eapply Forall_impl; [exact Hl1|]. intros j Hj. by rewrite <- Hsame.
        -- by rewrite <- Hsame.
      * constructor; [by rewrite E|].
        eapply Forall_impl; [exact IH|]. intros j Hj. by rewrite <- Hsame.
Qed.

(** [enumerate] yields the indices in increasing order. *)
Lemma indices_from_before (P : api_config -> bool) (k : nat) (cfgs : list api_config)
    (l1 l2 : list nat) (i j : nat) :
  indices_from P k cfgs = l1 ++ i :: l2 ->
  j ∈ indices_from P k cfgs -> (j < i)%nat -> j ∈ l1.
Proof.
  revert k l1. induction cfgs as [|c rest IH]; intros k l1 Heq Hj Hlt.
  - by destruct l1.
  - cbn [indices_from] in Heq, Hj. destruct (P c).
    + destruct l1 as [|x l1]; cbn in Heq; injection Heq as <- Heq.
      * apply elem_of_cons in Hj as [->|Hj]; [lia|].
        apply PoolSelector.indices_from_spec in Hj as [Hk _]. lia.
      * apply elem_of_cons in Hj as [->|Hj]; [by left|].
        right. by eapply IH.
    + by eapply IH.
Qed.

(** X2.  [get_first_available_primary_api_index] returns the available
    primary entry that comes first in the configuration: no primary before
    it is available; it returns nothing only when no primary is available. *)
Theorem first_available_primary_is_the_lowest (now : Z) (p : pool) :
  match (get_first_available_primary_api_index now p).1 with
  | Some i =>
    primary_at p i /\ available now p i /\
    forall j, (j < i)%nat -> primary_at p j -> ~ available now p j
  | None => forall j, primary_at p j -> ~ available now p j
  end.
Proof.
  unfold get_first_available_primary_api_index, available.
  pose proof (first_available_split now (get_primary_api_indices p) p) as H.
  destruct ((first_available now (get_primary_api_indices p) p).1) as [i|].
  - destruct H as (l1 & l2 & Heq & Hl1 & Hi).
    split; [|split; [done|]].
    + apply PoolSelector.primary_indices_spec. rewrite Heq.
      apply elem_of_app. right. by left.
    + intros j Hlt Hj. apply PoolSelector.primary_indices_spec in Hj.
      assert (Hin : j ∈ l1).
      { unfold get_primary_api_indices, _get_primary_indices in *.
        by eapply indices_from_before. }
      rewrite Forall_forall in Hl1. rewrite (Hl1 j Hin). done.
  - intros j Hj. apply PoolSelector.primary_indices_spec in Hj.
    rewrite Forall_forall in H. rewrite (H j Hj). done.
Qed.

End PoolAvailability.

(** ** Switching after errors *)

Module PoolSwitch.
Import Pool.

(** In a list [enumerate] yields, nothing before the first hit of the scan
    is available. *)
Lemma first_available_lowest (P : api_config -> bool) (k : nat)
    (cfgs : list api_config) (now : Z) (p : pool) :
  match (first_available now (indices_from P k cfgs) p).1 with
  | Some i =>
    forall j, (j < i)%nat -> j ∈ indices_from P k cfgs ->
              (is_api_available now j p).1 = false
  | None => True
  end.
Proof.
  pose proof (PoolAvailability.first_available_split now (indices_from P k cfgs) p) as H.
  destruct ((first_available now (indices_from P k cfgs) p).1) as [i|]; [|done].
  destruct H as (l1 & l2 & Heq & Hl1 & _). intros j Hlt Hj.
  rewrite Forall_forall in Hl1. apply Hl1.
  by eapply PoolAvailability.indices_from_before.
Qed.

(** The first step of [smart_switch_api] above the threshold: the look for
    a recovered primary, made only when the pool is on backup.  It finds the
    first available primary, and finds nothing only off backup or when no
    primary is available. *)
Lemma recovered_primary (now : Z) (p : pool) :
  let r := if is_using_backup p then
             let '(primary_index, p) := get_first_available_primary_api_index now p in
             match primary_index with
             | Some i =>
               let '(ok, p) := is_api_available now i p in
               (if ok then Some i else None, p)
             | None => (None, p)
             end
           else (None, p) in
  frame p r.2 /\ same_avail now p r.2 /\
  match r.1 with
  | Some i =>
    is_using_backup p = true /\ primary_at p i /\ available now p i /\
    (forall j, (j < i)%nat -> primary_at p j -> ~ available now p j) /\
    (i < length (configs p))%nat
  | None =>
    is_using_backup p = false \/ forall j, primary_at p j -> ~ available now p j
  end.
Proof.
  cbv zeta. destruct (is_using_backup p) eqn:Hb.
  2:{ cbn. split; [apply PoolSelector.frame_refl|].
      split; [apply PoolSelector.same_avail_refl|by left]. }
  unfold get_first_available_primary_api_index.
  destruct (PoolSelector.first_available_post now (get_primary_api_indices p) p)
    as (Hf & Hsame & _ & Hres).
  pose proof (first_available_lowest is_primary 0 (configs p) now p) as Hlow.
  fold (_get_primary_indices (configs p)) in Hlow.
  fold (get_primary_api_indices p) in Hlow.
  destruct (first_available now (get_primary_api_indices p) p) as [[i|] p0];
    cbn [fst snd] in *.
  2:{ split; [done|]. split; [done|]. right. intros j Hj.
      apply PoolSelector.primary_indices_spec in Hj.
      unfold available. by rewrite (Hres j Hj). }
  destruct Hres as [Hin Hav].
  destruct (PoolSelector.is_api_available_post now i p0) as (Hf' & Hsame' & _).
  assert (Hok : (is_api_available now i p0).1 = true).
  { destruct Hsame as [_ Hsame]. by rewrite Hsame. }
  destruct (is_api_available now i p0) as [ok p1]. cbn [fst snd] in *. subst ok.
  split; [by eapply PoolSelector.frame_trans|].
  split; [by eapply PoolSelector.same_avail_trans|].
  split; [done|]. split; [by apply PoolSelector.primary_indices_spec|].
  split; [done|]. split; [|by eapply PoolSelector.indices_from_lt].
  intros j Hlt Hj. apply PoolSelector.primary_indices_spec in Hj.
  unfold available. by rewrite (Hlow j Hlt Hj).
Qed.

(** X3.  [smart_switch_api], called for the current entry: below the error
    threshold it switches nothing and leaves the pool as it is.  At or above
    it the call always switches and returns a valid index, which becomes the
    current one.  When the pool was on backup and a primary is available,
    the index is the first available primary and the pool is off backup.
    In every other case the pool is put on backup with the backup clock
    started at [now] and the probe time cleared, and the index is the first
    available backup when a backup is available, else the first backup
    entry or, without any, the last entry of the list. *)
Theorem smart_switch_api_outcome (s : settings) (now : Z) (p : pool) (st : api_state) :
  api_status p !! current_config_index p = Some st ->
  0 <= current_config_index p < Z.of_nat (length (configs p)) ->
  let r := smart_switch_api s now (current_config_index p) p in
  (error_count st < get_api_error_threshold s ->
   r = (Ok (false, current_config_index p), p)) /\
  (get_api_error_threshold s <= error_count st ->
   exists new : nat,
     r.1 = Ok (true, Z.of_nat new) /\
     current_config_index r.2 = Z.of_nat new /\
     (new < length (configs p))%nat /\
     configs r.2 = configs p /\
     same_avail now p r.2 /\
     (is_using_backup p = true ->
      (exists j, primary_at p j /\ available now p j) ->
      primary_at p new /\ available now p new /\
      (forall j, (j < new)%nat -> primary_at p j -> ~ available now p j) /\
      is_using_backup r.2 = false /\ backup_start_time r.2 = None) /\
     (is_using_backup p = false \/
      (forall j, primary_at p j -> ~ available now p j) ->
      is_using_backup r.2 = true /\ backup_start_time r.2 = Some now /\
      last_primary_check_time r.2 = None /\
      ((exists b, b ∈ get_backup_api_indices p /\ available now p b) ->
       new ∈ get_backup_api_indices p /\ available now p new /\
       forall b, (b < new)%nat -> b ∈ get_backup_api_indices p ->
                 ~ available now p b) /\
      ((forall b, b ∈ get_backup_api_indices p -> ~ available now p b) ->
       new = default (length (configs p) - 1)%nat
               (head (get_backup_api_indices p))))).
Proof.
  intros Hst Hidx r. subst r. unfold smart_switch_api. rewrite Hst.
  split.
  - intros Hlt. by rewrite bool_decide_eq_true_2.
  - intros Hge. rewrite bool_decide_eq_false_2 by lia.
    destruct (py_index_in_range (configs p) _ Hidx) as (c0 & -> & _).
    pose proof (recovered_primary now p) as Hrec. cbv zeta in Hrec.
    destruct (if is_using_backup p then _ else _) as [[i|] p0] eqn:Erec;
      cbn [fst snd] in Hrec.
    + destruct Hrec as (Hf & Hsame & Hb & Hprim & Hav & Hlow & Hlt).
      exists i. cbn. destruct Hf as (Hc & _).
      split; [done|]. split; [done|]. split; [done|]. split; [done|].
      split; [|split].
      * split; [done|]. destruct Hsame as [_ Hsame]. intros j.
        rewrite <- Hsame. by apply PoolSelector.is_api_available_ext.
      * intros _ _. done.
      * intros [Hoff|Hnone]; [congruence|]. by destruct (Hnone i Hprim).
    + destruct Hrec as (Hf & Hsame & Hnone).
      assert (Hbk : get_backup_api_indices p0 = get_backup_api_indices p).
      { unfold get_backup_api_indices. by destruct Hf as (-> & _). }
      rewrite Hbk.
      assert (Hnot : is_using_backup p = true ->
                     (exists j, primary_at p j /\ available now p j) -> False).
      { intros Hb (j & Hj & Hjav). destruct Hnone as [Hoff|Hnone]; [congruence|].
        by apply (Hnone j). }
      assert (Hav0 : forall j, (is_api_available now j p0).1
                               = (is_api_available now j p).1).
      { by destruct Hsame as [_ Hs0]. }
      destruct (PoolSelector.first_available_post now (get_backup_api_indices p) p0)
        as (Hf1 & Hsame1 & _ & Hres).
      pose proof (first_available_lowest is_backup 0 (configs p) now p0) as Hlow.
      fold (_get_backup_indices (configs p)) in Hlow.
      fold (get_backup_api_indices p) in Hlow.
      destruct (first_available now (get_backup_api_indices p) p0) as [[b|] p1];
        cbn [fst snd] in *.
      * destruct Hres as [Hin Hav].
        assert (Hfp : frame p p1) by (by eapply PoolSelector.frame_trans).
        destruct Hfp as (Hc & Hi & _).
        assert (Hcur : exists c, current_entry p1 = Ok c).
        { unfold current_entry. rewrite Hc, Hi.
          destruct (py_index_in_range (configs p) _ Hidx) as (c & Hc' & _). eauto. }
        destruct Hcur as [c ->].
        exists b. cbn.
        split; [done|]. split; [done|].
        split; [eapply (PoolSelector.indices_from_lt is_backup); exact Hin|].
        split; [done|]. split; [|split].
        -- split; [done|]. destruct Hsame1 as [_ Hs1]. intros j.
           rewrite <- Hav0, <- Hs1. by apply PoolSelector.is_api_available_ext.
        -- intros Hb Hex. by destruct (Hnot Hb Hex).
        -- intros _. split; [done|]. split; [done|]. split; [done|]. split.
           ++ intros _. split; [done|]. unfold available.
              split; [by rewrite <- Hav0|].
              intros b' Hlt Hb'. by rewrite <- Hav0, (Hlow b' Hlt Hb').
           ++ intros Hall. destruct (Hall b Hin). unfold available.
              by rewrite <- Hav0.
      * assert (Hfp : frame p p1) by (by eapply PoolSelector.frame_trans).
        destruct Hfp as (Hc & Hi & _).
        set (new := default (length (configs p) - 1)%nat
                      (head (get_backup_api_indices p))).
        assert (Hnew : match get_backup_api_indices p with
                       | [] => Z.of_nat (length (configs (set_backup true (Some now) None p1))) - 1
                       | b :: _ => Z.of_nat b
                       end = Z.of_nat new).
        { subst new. cbn [configs set_backup]. rewrite Hc.
          destruct (get_backup_api_indices p); cbn; [lia|done]. }
        rewrite Hnew.
        assert (Hlt : (new < length (configs p))%nat).
        { subst new. destruct (get_backup_api_indices p) as [|b bs] eqn:Eb; cbn; [lia|].
          eapply (PoolSelector.indices_from_lt is_backup).
          fold (_get_backup_indices (configs p)). fold (get_backup_api_indices p).
          rewrite Eb. by left. }
        cbn [configs set_index set_backup]. rewrite Hc.
        destruct (py_index_in_range (configs p) (Z.of_nat new)) as (c & -> & _); [lia|].
        exists new. cbn.
        split; [done|]. split; [done|]. split; [done|]. split; [done|].
        split; [|split].
        -- split; [done|]. destruct Hsame1 as [_ Hs1]. intros j.
           rewrite <- Hav0, <- Hs1. by apply PoolSelector.is_api_available_ext.
        -- intros Hb Hex. by destruct (Hnot Hb Hex).
        -- intros _. split; [done|]. split; [done|]. split; [done|]. split; [|done].
           intros (b & Hb & Hbav). unfold available in Hbav.
           rewrite <- Hav0, (Hres b Hb) in Hbav. done.
Qed.

Lemma smart_switch_api_outcome_witness :
  exists new : nat,
    (smart_switch_api Scenarios.default_settings 1000 0 Scenarios.cooling_pool).1
    = Ok (true, Z.of_nat new).
Proof.
  destruct (proj2 (smart_switch_api_outcome Scenarios.default_settings 1000
                     Scenarios.cooling_pool Scenarios.cooling
                     ltac:(reflexivity) ltac:(by vm_compute)) ltac:(by vm_compute))
    as (new & H & _).
  exists new. exact H.
Defined.

(** The same for the backup list of the responses pool. *)
Lemma first_available_lowest_codex (now : Z) (p p0 : pool) :
  match (first_available now (get_codex_backup_api_indices p) p0).1 with
  | Some i =>
    forall j, (j < i)%nat -> j ∈ get_codex_backup_api_indices p ->
              (is_api_available now j p0).1 = false
  | None => True
  end.
Proof.
  unfold get_codex_backup_api_indices.
  destruct (_get_backup_indices (configs p)) as [|b bs] eqn:Eb.
  - pose proof (PoolSelector.first_available_post now
                  (if bool_decide (1 < length (configs p))%nat
                   then [(length (configs p) - 1)%nat] else []) p0) as (_ & _ & _ & H).
    destruct ((first_available now _ p0).1) as [i|]; [|done].
    destruct H as [Hin _]. intros j Hlt Hj.
    case_bool_decide.
    + apply list_elem_of_singleton in Hin, Hj. lia.
    + by apply elem_of_nil in Hin.
  - rewrite <- Eb. apply (first_available_lowest is_backup 0 (configs p) now p0).
Qed.

(** X4.  [smart_codex_switch_api] behaves on the responses pool as
    [smart_switch_api] does on the messages pool, with the responses
    threshold and with the backup list of that pool: below the threshold
    nothing changes; at or above it the first available primary is taken
    when the pool was on backup and has one, and in every other case the
    pool is put on backup and the first available entry of the backup list
    is taken, else the first entry of that list.  In a pool of two or more
    entries without a backup entry the last entry stands in as the backup,
    so that the forced choice is always an entry of the backup list
    whenever the pool has two entries or more. *)
Theorem smart_codex_switch_api_outcome
    (s : settings) (now : Z) (p : pool) (st : api_state) :
  api_status p !! current_config_index p = Some st ->
  0 <= current_config_index p < Z.of_nat (length (configs p)) ->
  let r := Runtime.smart_codex_switch_api s now (current_config_index p) p in
  (error_count st < get_codex_error_threshold s ->
   r = (Ok (false, current_config_index p), p)) /\
  (get_codex_error_threshold s <= error_count st ->
   exists new : nat,
     r.1 = Ok (true, Z.of_nat new) /\
     current_config_index r.2 = Z.of_nat new /\
     (new < length (configs p))%nat /\
     configs r.2 = configs p /\
     same_avail now p r.2 /\
     (is_using_backup p = true ->
      (exists j, primary_at p j /\ available now p j) ->
      primary_at p new /\ available now p new /\
      (forall j, (j < new)%nat -> primary_at p j -> ~ available now p j) /\
      is_using_backup r.2 = false /\ backup_start_time r.2 = None) /\
     (is_using_backup p = false \/
      (forall j, primary_at p j -> ~ available now p j) ->
      is_using_backup r.2 = true /\ backup_start_time r.2 = Some now /\
      last_primary_check_time r.2 = None /\
      ((exists b, b ∈ get_codex_backup_api_indices p /\ available now p b) ->
       new ∈ get_codex_backup_api_indices p /\ available now p new /\
       forall b, (b < new)%nat -> b ∈ get_codex_backup_api_indices p ->
                 ~ available now p b) /\
      ((forall b, b ∈ get_codex_backup_api_indices p -> ~ available now p b) ->
       new = default 0%nat (head (get_codex_backup_api_indices p)) /\
       ((2 <= length (configs p))%nat -> new ∈ get_codex_backup_api_indices p)))).
Proof.
  intros Hst Hidx r. subst r. unfold Runtime.smart_codex_switch_api. rewrite Hst.
  split.
  - intros Hlt. by rewrite bool_decide_eq_true_2.
  - intros Hge. rewrite bool_decide_eq_false_2 by lia.
    destruct (py_index_in_range (configs p) _ Hidx) as (c0 & -> & _).
    pose proof (recovered_primary now p) as Hrec. cbv zeta in Hrec.
    unfold get_first_available_primary_codex_index, is_codex_api_available.
    destruct (if is_using_backup p then _ else _) as [[i|] p0] eqn:Erec;
      cbn [fst snd] in Hrec.
    + destruct Hrec as (Hf & Hsame & Hb & Hprim & Hav & Hlow & Hlt).
      exists i. cbn. destruct Hf as (Hc & _).
      split; [done|]. split; [done|]. split; [done|]. split; [done|].
      split; [|split].
      * split; [done|]. destruct Hsame as [_ Hsame]. intros j.
        rewrite <- Hsame. by apply PoolSelector.is_api_available_ext.
      * intros _ _. done.
      * intros [Hoff|Hnone]; [congruence|]. by destruct (Hnone i Hprim).
    + destruct Hrec as (Hf & Hsame & Hnone).
      assert (Hbk : get_codex_backup_api_indices p0 = get_codex_backup_api_indices p).
      { unfold get_codex_backup_api_indices. by destruct Hf as (-> & _). }
      rewrite Hbk.
      assert (Hnot : is_using_backup p = true ->
                     (exists j, primary_at p j /\ available now p j) -> False).
      { intros Hb (j & Hj & Hjav). destruct Hnone as [Hoff|Hnone]; [congruence|].
        by apply (Hnone j). }
      assert (Hav0 : forall j, (is_api_available now j p0).1
                               = (is_api_available now j p).1).
      { by destruct Hsame as [_ Hs0]. }
      destruct (PoolSelector.first_available_post now (get_codex_backup_api_indices p) p0)
        as (Hf1 & Hsame1 & _ & Hres).
      pose proof (first_available_lowest_codex now p p0) as Hlow.
      destruct (first_available now (get_codex_backup_api_indices p) p0) as [[b|] p1];
        cbn [fst snd] in *.
      * destruct Hres as [Hin Hav].
        assert (Hfp : frame p p1) by (by eapply PoolSelector.frame_trans).
        destruct Hfp as (Hc & Hi & _).
        assert (Hcur : exists c, current_entry p1 = Ok c).
        { unfold current_entry. rewrite Hc, Hi.
          destruct (py_index_in_range (configs p) _ Hidx) as (c & Hc' & _). eauto. }
        destruct Hcur as [c ->].
        exists b. cbn.
        split; [done|]. split; [done|].
        split; [by apply PoolSelector.codex_backup_indices_lt|].
        split; [done|]. split; [|split].
        -- split; [done|]. destruct Hsame1 as [_ Hs1]. intros j.
           rewrite <- Hav0, <- Hs1. by apply PoolSelector.is_api_available_ext.
        -- intros Hb Hex. by destruct (Hnot Hb Hex).
        -- intros _. split; [done|]. split; [done|]. split; [done|]. split.
           ++ intros _. split; [done|]. unfold available.
              split; [by rewrite <- Hav0|].
              intros b' Hlt Hb'. by rewrite <- Hav0, (Hlow b' Hlt Hb').
           ++ intros Hall. destruct (Hall b Hin). unfold available.
              by rewrite <- Hav0.
      * assert (Hfp : frame p p1) by (by eapply PoolSelector.frame_trans).
        destruct Hfp as (Hc & Hi & _).
        set (new := default 0%nat (head (get_codex_backup_api_indices p))).
        assert (Hmem : (2 <= length (configs p))%nat ->
                       new ∈ get_codex_backup_api_indices p).
        { intros H2. subst new. unfold get_codex_backup_api_indices.
          destruct (_get_backup_indices (configs p)) as [|b bs]; cbn; [|by left].
          rewrite bool_decide_eq_true_2 by lia. cbn. by left. }
        assert (Hlt : (new < length (configs p))%nat).
        { destruct (decide (2 <= length (configs p))%nat) as [H2|H2].
          - by apply PoolSelector.codex_backup_indices_lt, Hmem.
          - subst new. unfold get_codex_backup_api_indices.
            destruct (_get_backup_indices (configs p)) as [|b bs] eqn:Eb; cbn.
            + rewrite bool_decide_eq_false_2 by lia. cbn. lia.
            + eapply (PoolSelector.indices_from_lt is_backup).
              fold (_get_backup_indices (configs p)). rewrite Eb. by left. }
        assert (Hnew : match get_codex_backup_api_indices p with
                       | [] => Z.of_nat (length (configs (set_backup true (Some now) None p1))) - 1
                       | b :: _ => Z.of_nat b
                       end = Z.of_nat new).
        { subst new. cbn [configs set_backup]. rewrite Hc.
          destruct (get_codex_backup_api_indices p) as [|b bs] eqn:Eb; cbn; [|done].
          unfold get_codex_backup_api_indices in Eb.
          destruct (_get_backup_indices (configs p)); [|done].
          case_bool_decide; [done|]. lia. }
        rewrite Hnew.
        cbn [configs set_index set_backup]. rewrite Hc.
        destruct (py_index_in_range (configs p) (Z.of_nat new)) as (c & -> & _); [lia|].
        exists new. cbn.
        split; [done|]. split; [done|]. split; [done|]. split; [done|].
        split; [|split].
        -- split; [done|]. destruct Hsame1 as [_ Hs1]. intros j.
           rewrite <- Hav0, <- Hs1. by apply PoolSelector.is_api_available_ext.
        -- intros Hb Hex. by destruct (Hnot Hb Hex).
        -- intros _. split; [done|]. split; [done|]. split; [done|]. split; [|done].
           intros (b & Hb & Hbav). unfold available in Hbav.
           rewrite <- Hav0, (Hres b Hb) in Hbav. done.
Qed.

Lemma smart_codex_switch_api_outcome_witness :
  exists new : nat,
    (Runtime.smart_codex_switch_api Scenarios.default_settings 1000 0
       Scenarios.cooling_pool).1
    = Ok (true, Z.of_nat new).
Proof.
  destruct (proj2 (smart_codex_switch_api_outcome Scenarios.default_settings 1000
                     Scenarios.cooling_pool Scenarios.cooling
                     ltac:(reflexivity) ltac:(by vm_compute)) ltac:(by vm_compute))
    as (new & H & _).
  exists new. exact H.
Defined.

End PoolSwitch.

(** ** Reloading and resetting the runtime state *)

Module RuntimeSpec.
Import Pool Runtime.

(** [_init_status_dict] holds a fresh record for the indices of the list
    and nothing else. *)
Lemma init_status_dict_from (n : nat) (cfgs : list api_config) (k : Z) :
  (list_to_map (imap (fun i _ => (Z.of_nat (n + i), fresh_state)) cfgs)
     : gmap Z api_state) !! k
  = if bool_decide (Z.of_nat n <= k < Z.of_nat (n + length cfgs))
    then Some fresh_state else None.
Proof.
  revert n. induction cfgs as [|c cfgs IH]; intros n.
  - cbn. rewrite lookup_empty. rewrite bool_decide_eq_false_2 by lia. done.
  - rewrite imap_cons, list_to_map_cons. cbn [length].
    destruct (decide (k = Z.of_nat (n + 0))) as [->|Hne].
    + rewrite lookup_insert_eq, bool_decide_eq_true_2 by lia. done.
    + rewrite lookup_insert_ne by done.
      erewrite imap_ext; [rewrite (IH (S n))|].
      * repeat case_bool_decide; try done; lia.
      * intros i x _. cbn. do 2 f_equal. lia.
Qed.

Lemma init_status_dict_lookup (cfgs : list api_config) (k : Z) :
  _init_status_dict cfgs !! k
  = if bool_decide (0 <= k < Z.of_nat (length cfgs)) then Some fresh_state else None.
Proof. apply (init_status_dict_from 0). Qed.

(** Without a cooldown on record the availability checks change nothing. *)
Lemma no_cooldowns_is_api_available (now : Z) (i : nat) (p : pool) :
  no_cooldowns p -> (is_api_available now i p).2 = p.
Proof.
  intros Hno.
  destruct (PoolAvailability.is_api_available_spec now i p) as (_ & Hf & Ht & _).
  destruct ((is_api_available now i p).1) eqn:E; [|by apply Hf].
  apply Ht; [done|]. unfold state_of.
  destruct (api_status p !! Z.of_nat i) as [st|] eqn:Est; [|done]. by eapply Hno.
Qed.

Lemma no_cooldowns_first_available (now : Z) (idxs : list nat) (p : pool) :
  no_cooldowns p -> (first_available now idxs p).2 = p.
Proof.
  intros Hno. induction idxs as [|i idxs IH]; [done|]. cbn [first_available].
  pose proof (no_cooldowns_is_api_available now i p Hno) as Hp.
  destruct (is_api_available now i p) as [ok p1]. cbn [snd] in Hp. subst p1.
  by destruct ok.
Qed.
Lemma refreshed_no_cooldowns (cfgs : list api_config) (p : pool) :
  no_cooldowns (set_status (_init_status_dict cfgs) p).
Proof.
  intros i st. cbn. rewrite init_status_dict_lookup.
  case_bool_decide; [|done]. by intros [= <-].
Qed.

(** X5.  [refresh_api_runtime_state] leaves the messages pool with exactly
    the enabled entries of the stored list, in their order, and with a fresh
    record for each of them and no other record: every error count and every
    cooldown is forgotten.  The pool is off backup whatever the flag says;
    the index is -1 for an empty pool and otherwise valid, on a primary entry
    whenever the pool has one. *)
Theorem refresh_forgets_cooldowns
    (stored : list api_config) (now : Z) (reset_backup_state : bool) (p : pool) :
  let p' := refresh_api_runtime_state stored now reset_backup_state p in
  configs p' = ConfigManager.get_enabled_api_configs stored /\
  Forall (fun cfg => default true (cfg_enabled cfg) = true) (configs p') /\
  api_status p' = _init_status_dict (configs p') /\
  (forall k, api_status p' !! k
             = if bool_decide (0 <= k < Z.of_nat (length (configs p')))
               then Some fresh_state else None) /\
  is_using_backup p' = false /\
  (configs p' = [] -> current_config_index p' = -1) /\
  (configs p' <> [] ->
   0 <= current_config_index p' < Z.of_nat (length (configs p')) /\
   ((exists i, primary_at p' i) ->
    primary_at p' (Z.to_nat (current_config_index p')))).
Proof.
  cbv zeta. unfold refresh_api_runtime_state.
  set (enabled := ConfigManager.get_enabled_api_configs stored).
  set (q := set_status (_init_status_dict enabled) (set_configs enabled p)).
  assert (Hno : no_cooldowns q) by apply refreshed_no_cooldowns.
  assert (Hen : Forall (fun cfg => default true (cfg_enabled cfg) = true) enabled).
  { apply Forall_forall. intros c Hc. apply list_elem_of_In in Hc.
    by apply List.filter_In in Hc as [_ Hc]. }
  assert (Hgoal :
    let p' := ensure_current_api_index now reset_backup_state q in
    configs p' = enabled /\ api_status p' = _init_status_dict enabled /\
    is_using_backup p' = false /\
    (enabled = [] -> current_config_index p' = -1) /\
    (enabled <> [] ->
     0 <= current_config_index p' < Z.of_nat (length enabled) /\
     ((exists i, primary_at q i) ->
      primary_at q (Z.to_nat (current_config_index p'))))).
  { cbv zeta. unfold ensure_current_api_index.
    change (configs q) with enabled.
    destruct enabled as [|c cs] eqn:Een; [by cbn|].
    unfold find_primary_api_for_time, get_first_available_primary_api_index.
    destruct (get_primary_api_indices q) as [|first rest] eqn:Ep.
    - cbn [default from_option id fst snd]. change (configs q) with (c :: cs).
      rewrite bool_decide_eq_true_2 by (cbn; lia).
      assert (Hb : is_using_backup
                     (if reset_backup_state || is_using_backup (set_index (Z.of_nat 0) q)
                      then set_backup false None None (set_index (Z.of_nat 0) q)
                      else set_index (Z.of_nat 0) q) = false).
      { destruct (reset_backup_state || _) eqn:E; [done|].
        apply orb_false_iff in E as [_ E]. done. }
      assert (Hnone : forall i, ~ primary_at q i).
      { intros i Hi. apply PoolSelector.primary_indices_spec in Hi.
        rewrite Ep in Hi. by apply elem_of_nil in Hi. }
      destruct (reset_backup_state || _); cbn;
        (repeat split; try done; try lia);
        intros [i Hi]; by destruct (Hnone i).
    - pose proof (no_cooldowns_first_available now (first :: rest) q Hno) as Hq.
      destruct (PoolSelector.first_available_post now (first :: rest) q)
        as (_ & _ & _ & Hres).
      destruct (first_available now (first :: rest) q) as [found q1].
      cbn [fst snd] in *. subst q1.
      set (preferred := default first found).
      assert (Hin : preferred ∈ first :: rest).
      { subst preferred. destruct found as [i|]; cbn; [by destruct Hres|by left]. }
      rewrite <- Ep in Hin.
      assert (Hlt : (preferred < length (c :: cs))%nat).
      { eapply (PoolSelector.indices_from_lt is_primary). exact Hin. }
      cbn [default from_option id]. change (configs q) with (c :: cs).
      rewrite bool_decide_eq_true_2 by done.
      assert (Hprim : primary_at q preferred)
        by (by apply PoolSelector.primary_indices_spec).
      destruct (reset_backup_state || _) eqn:E; cbn;
        rewrite ?Nat2Z.id; (repeat split; try done; try (cbn in Hlt; lia)).
      apply orb_false_iff in E as [_ E]. done. }
  cbv zeta in Hgoal. destruct Hgoal as (Hc & Hs & Hb & Hempty & Hne).
  rewrite Hc. split; [done|]. split; [done|]. split; [done|].
  split; [intros k; rewrite Hs; apply init_status_dict_lookup|].
  split; [done|]. split; [done|].
  intros Hn. destruct (Hne Hn) as [Hr Hp]. split; [done|].
  intros [i Hi]. unfold primary_at in *. rewrite Hc.
  change (configs q) with enabled in Hp. apply Hp. exists i.
  by rewrite Hc in Hi.
Qed.

Lemma is_cooling_insert_fresh (d : gmap Z api_state) (i k : Z) :
  is_cooling (<[i := fresh_state]> d) k
  = if bool_decide (k = i) then false else is_cooling d k.
Proof.
  unfold is_cooling. case_bool_decide as Hk.
  - subst k. by rewrite lookup_insert_eq.
  - by rewrite lookup_insert_ne.
Qed.

(** The loop of [reset_api_cooldown] over a list of indices. *)
Lemma reset_loop (l : list nat) (count : nat) (d : gmap Z api_state) :
  let r := foldl (fun '(count, d) i =>
                    if is_cooling d (Z.of_nat i)
                    then (S count, <[Z.of_nat i := fresh_state]> d)
                    else (count, d))
                 (count, d) l in
  (count <= r.1)%nat /\
  ((count < r.1)%nat <-> exists i, i ∈ l /\ is_cooling d (Z.of_nat i) = true) /\
  (forall i, i ∈ l -> is_cooling d (Z.of_nat i) = true ->
     r.2 !! Z.of_nat i = Some fresh_state) /\
  (forall k, is_cooling d k = false \/ (forall i, i ∈ l -> k <> Z.of_nat i) ->
     r.2 !! k = d !! k) /\
  (forall k, is_cooling r.2 k = true -> is_cooling d k = true).
Proof.
  revert count d. induction l as [|i l IH]; intros count d; cbn [foldl].
  - cbn. split; [lia|]. split.
    { split; [lia|]. intros (i & Hi & _). by apply elem_of_nil in Hi. }
    split; [intros i Hi; by apply elem_of_nil in Hi|]. done.
  - destruct (is_cooling d (Z.of_nat i)) eqn:Ei.
    + specialize (IH (S count) (<[Z.of_nat i := fresh_state]> d)).
      cbv zeta in IH. destruct IH as (Hle & Hiff & Hset & Hkeep & Hmono).
      split; [lia|]. split; [split; [intros _; exists i; split; [by left|done]|lia]|].
      split; [|split].
      * intros j Hj Hc. destruct (decide (j = i)) as [->|Hne].
        -- rewrite Hkeep; [by rewrite lookup_insert_eq|].
           left. rewrite is_cooling_insert_fresh. by rewrite bool_decide_eq_true_2.
        -- apply elem_of_cons in Hj as [->|Hj]; [done|].
           apply Hset; [done|]. rewrite is_cooling_insert_fresh.
           rewrite bool_decide_eq_false_2 by lia. done.
      * intros k Hk. rewrite Hkeep.
        -- apply lookup_insert_ne. intros Heq. subst k.
           destruct Hk as [Hk|Hk]; [congruence|]. eapply Hk; [by left|done].
        -- rewrite is_cooling_insert_fresh. case_bool_decide; [by left|].
           destruct Hk as [Hk|Hk]; [by left|]. right. intros j Hj. apply Hk. by right.
      * intros k Hk. apply Hmono in Hk. rewrite is_cooling_insert_fresh in Hk.
        by case_bool_decide.
    + specialize (IH count d). cbv zeta in IH.
      destruct IH as (Hle & Hiff & Hset & Hkeep & Hmono).
      split; [done|]. split; [|split; [|split; [|done]]].
      * rewrite Hiff. split.
        -- intros (j & Hj & Hc). exists j. split; [by right|done].
        -- intros (j & Hj & Hc). apply elem_of_cons in Hj as [->|Hj]; [congruence|].
           by exists j.
      * intros j Hj Hc. apply elem_of_cons in Hj as [->|Hj]; [congruence|].
        by apply Hset.
      * intros k Hk. apply Hkeep. destruct Hk as [Hk|Hk]; [by left|].
        right. intros j Hj. apply Hk. by right.
Qed.

(** X6.  [reset_api_cooldown] without an index clears the record of every
    entry of the pool that carries a cooldown and touches no other record:
    error counts below the threshold stay.  It reports success exactly when
    some entry was cooling.  With an index it clears that one record when the
    index is valid and the entry is cooling, and otherwise changes nothing.
    Afterwards no cleared entry is cooling. *)
Theorem reset_api_cooldown_clears (data : option Z) (p : pool) :
  let r := reset_api_cooldown data p in
  let targeted k :=
    match data with
    | Some index => k = index
    | None => True
    end in
  frame p r.2 /\
  (success r.1 = true <->
   exists k, targeted k /\ 0 <= k < Z.of_nat (length (configs p)) /\
             is_cooling (api_status p) k = true) /\
  (forall k, targeted k -> 0 <= k < Z.of_nat (length (configs p)) ->
     is_cooling (api_status p) k = true ->
     api_status r.2 !! k = Some fresh_state) /\
  (forall k, ~ (targeted k /\ 0 <= k < Z.of_nat (length (configs p))
                /\ is_cooling (api_status p) k = true) ->
     api_status r.2 !! k = api_status p !! k) /\
  (forall k, targeted k -> 0 <= k < Z.of_nat (length (configs p)) ->
     is_cooling (api_status r.2) k = false).
Proof.
  cbv zeta. unfold reset_api_cooldown. destruct data as [index|].
  - case_bool_decide as Hr.
    + destruct (is_cooling (api_status p) index) eqn:Ec; cbn.
      * split; [done|]. split; [split; [intros _; by exists index|done]|].
        split; [intros k ->; by rewrite lookup_insert_eq|].
        split.
        -- intros k Hk. apply lookup_insert_ne. intros <-. by apply Hk.
        -- intros k -> _. rewrite is_cooling_insert_fresh.
           by rewrite bool_decide_eq_true_2.
      * split; [done|]. split; [split; [done|intros (k & -> & _ & Hk); congruence]|].
        split; [intros k -> _ Hk; congruence|]. split; [done|]. by intros k -> _.
    + cbn. split; [done|].
      split; [split; [done|intros (k & -> & Hk & _); lia]|].
      split; [intros k -> Hk; lia|]. split; [done|]. intros k -> Hk; lia.
  - pose proof (reset_loop (seq 0 (length (configs p))) 0 (api_status p)) as H.
    cbv zeta in H.
    destruct (foldl _ _ _) as [count d]. cbn [fst snd] in *.
    destruct H as (_ & Hiff & Hset & Hkeep & Hmono).
    assert (Hseq : forall k, 0 <= k < Z.of_nat (length (configs p)) ->
                     Z.to_nat k ∈ seq 0 (length (configs p)) /\ Z.of_nat (Z.to_nat k) = k).
    { intros k Hk. split; [|lia]. apply elem_of_seq. lia. }
    split; [done|]. split; [|split; [|split]].
    + transitivity (0 < count)%nat.
      { case_bool_decide; cbn; split; done || lia. }
      rewrite Hiff. split.
      * intros (i & Hi & Hc). exists (Z.of_nat i). split; [done|].
        apply elem_of_seq in Hi. split; [lia|done].
      * intros (k & _ & Hk & Hc). destruct (Hseq k Hk) as [Hin Heq].
        exists (Z.to_nat k). by rewrite Heq.
    + intros k _ Hk Hc. destruct (Hseq k Hk) as [Hin Heq].
      rewrite <- Heq. apply Hset; [done|]. by rewrite Heq.
    + intros k Hk. apply Hkeep.
      destruct (is_cooling (api_status p) k) eqn:Ec; [|by left].
      right. intros i Hi ->. apply Hk. split; [done|].
      apply elem_of_seq in Hi. split; [lia|done].
    + intros k _ Hk. destruct (is_cooling d k) eqn:Ec; [|done].
      pose proof (Hmono k Ec) as Hc. destruct (Hseq k Hk) as [Hin Heq].
      assert (Hf : d !! k = Some fresh_state).
      { rewrite <- Heq. apply Hset; [done|]. by rewrite Heq. }
      unfold is_cooling in Ec. by rewrite Hf in Ec.
Qed.

(** X7.  [refresh_codex_runtime_state] reloads the responses pool in the
    same way - the enabled entries, a fresh record for each - but keeps the
    backup flag unless it is told to reset it, and puts the index on the
    first primary entry allowed today or else on entry 0, -1 for an empty
    pool. *)
Theorem refresh_codex_keeps_backup_flag
    (stored : list api_config) (now : Z) (reset_backup_state : bool) (p : pool) :
  let p' := refresh_codex_runtime_state stored now reset_backup_state p in
  configs p' = ConfigManager.get_enabled_api_configs stored /\
  api_status p' = _init_status_dict (configs p') /\
  is_using_backup p' = (if reset_backup_state then false else is_using_backup p) /\
  (configs p' = [] -> current_config_index p' = -1) /\
  (configs p' <> [] ->
   0 <= current_config_index p' < Z.of_nat (length (configs p')) /\
   match (get_first_available_primary_codex_index now p').1 with
   | Some i => current_config_index p' = Z.of_nat i
   | None => current_config_index p' = 0
   end).
Proof.
  cbv zeta. unfold refresh_codex_runtime_state.
  set (enabled := ConfigManager.get_enabled_api_configs stored).
  set (q := set_status (_init_status_dict enabled) (set_configs enabled p)).
  assert (Hno : no_cooldowns q) by apply refreshed_no_cooldowns.
  destruct enabled as [|c cs] eqn:Een.
  - destruct reset_backup_state; cbn; repeat split; done.
  - unfold get_first_available_primary_codex_index,
      get_first_available_primary_api_index.
    pose proof (no_cooldowns_first_available now (get_primary_api_indices q) q Hno) as Hq.
    destruct (PoolSelector.first_available_post now (get_primary_api_indices q) q)
      as (_ & _ & _ & Hres).
    destruct (first_available now (get_primary_api_indices q) q) as [found q1] eqn:Ef.
    cbn [fst snd] in *. subst q1.
    assert (Hsame : forall r, configs r = configs q -> api_status r = api_status q ->
              (first_available now (get_primary_api_indices r) r).1 = found).
    { intros r Hc Hs.
      assert (Hr : (first_available now (get_primary_api_indices q) r).1 = found).
      { clear Hres. revert Ef. generalize (get_primary_api_indices q). intros l.
        induction l as [|i l IH]; cbn [first_available]; [by intros [= <-]|].
        pose proof (no_cooldowns_is_api_available now i q Hno) as Hq.
        assert (Hnor : no_cooldowns r) by (intros k st; rewrite Hs; apply Hno).
        pose proof (no_cooldowns_is_api_available now i r Hnor) as Hr.
        pose proof (PoolSelector.is_api_available_ext now i q r Hc
                      ltac:(by rewrite Hs)) as Hext.
        destruct (is_api_available now i q) as [okq q1],
                 (is_api_available now i r) as [okr r1]. cbn [fst snd] in *.
        subst q1 r1 okr. destruct okq; [by intros [= <-]|]. apply IH. }
      unfold get_primary_api_indices in *. by rewrite Hc. }
    assert (Hidx : match found with
                   | Some i => (i < length (c :: cs))%nat
                   | None => True
                   end).
    { destruct found as [i|]; [|done]. destruct Hres as [Hin _].
      eapply (PoolSelector.indices_from_lt is_primary). exact Hin. }
    destruct found as [i|], reset_backup_state; cbn [configs api_status set_backup
      set_index is_using_backup current_config_index q set_status set_configs];
      (split; [done|]); (split; [done|]); (split; [done|]); (split; [done|]);
      intros _; (split; [cbn in *; lia|]); rewrite Hsame; done.
Qed.

End RuntimeSpec.

(** ** Editing the configuration lists *)

Module ConfigManagerSpec.
Import Pool ConfigManager.

Local Open Scope string_scope.
Local Open Scope list_scope.

Section Lists.

Context {A : Type}.
Implicit Types (configs : list A).

Lemma swap_adjacent (l1 l2 : list A) (a b : A) :
  swap (length l1) (S (length l1)) (l1 ++ a :: b :: l2) = l1 ++ b :: a :: l2 /\
  swap (S (length l1)) (length l1) (l1 ++ a :: b :: l2) = l1 ++ b :: a :: l2.
Proof.
  unfold swap.
  assert (Ha : (l1 ++ a :: b :: l2) !! length l1 = Some a)
    by apply list_lookup_middle, eq_refl.
  assert (Hb : (l1 ++ a :: b :: l2) !! S (length l1) = Some b).
  { rewrite lookup_app_r by lia. by replace (S (length l1) - length l1)%nat with 1%nat by lia. }
  rewrite Ha, Hb.
  rewrite !insert_app_r_alt by lia.
  replace (length l1 - length l1)%nat with 0%nat by lia.
  replace (S (length l1) - length l1)%nat with 1%nat by lia.
  done.
Qed.

Lemma split_adjacent configs (i : nat) :
  (S i < length configs)%nat ->
  exists l1 a b l2, configs = l1 ++ a :: b :: l2 /\ length l1 = i.
Proof.
  intros Hi.
  destruct (lookup_lt_is_Some_2 configs i) as [a Ha]; [lia|].
  destruct (lookup_lt_is_Some_2 configs (S i)) as [b Hb]; [lia|].
  exists (take i configs), a, b, (drop (S (S i)) configs). split.
  - rewrite <- (take_drop_middle configs i a Ha) at 1. f_equal. f_equal.
    rewrite <- (take_drop_middle configs (S i) b Hb) at 1.
    rewrite drop_app_length'; [done|]. rewrite length_take. lia.
  - rewrite length_take. lia.
Qed.

Lemma swap_adjacent_perm configs (i : nat) :
  (S i < length configs)%nat ->
  swap i (S i) configs ≡ₚ configs /\ swap (S i) i configs ≡ₚ configs.
Proof.
  intros Hi. destruct (split_adjacent configs i Hi) as (l1 & a & b & l2 & -> & <-).
  destruct (swap_adjacent l1 l2 a b) as [-> ->].
  split; apply Permutation_app_head, perm_swap.
Qed.

(** X8.  [move_*_config] only reorders: the list afterwards holds the same
    entries, and a refused move (index outside the list, first entry up or
    to the top, last entry down or to the bottom, unknown direction) leaves
    it as it is.  Moving an entry up and then moving it down from its new
    place gives back the list; an entry moved to the top is the first one, an
    entry moved to the bottom the last one. *)
Theorem move_config_reorders (index : Z) (direction : option string) configs :
  let r := move_config index direction configs in
  r.2 ≡ₚ configs /\
  (r.1 = false -> r.2 = configs) /\
  (0 < index < Z.of_nat (length configs) ->
   move_config (index - 1) (Some "down") (move_config index (Some "UP") configs).2
   = (true, configs) /\
   head (move_config index (Some "top") configs).2 = configs !! Z.to_nat index) /\
  (0 <= index < Z.of_nat (length configs) - 1 ->
   last (move_config index (Some "bottom") configs).2 = configs !! Z.to_nat index).
Proof.
  cbv zeta. split; [|split; [|split]].
  - unfold move_config, valid_index. case_bool_decide as Hv; cbn [negb]; [|done].
    set (d := Detect.lower _). set (i := Z.to_nat index).
    repeat (case_bool_decide; cbn [andb]); try done; try (exfalso; congruence).
    + assert (Hi : (S (i - 1) < length configs)%nat) by (subst i; lia).
      pose proof (proj2 (swap_adjacent_perm configs (i - 1) Hi)) as Hp.
      replace (S (i - 1)) with i in Hp by (subst i; lia). exact Hp.
    + assert (Hi : (S i < length configs)%nat) by (subst i; lia).
      pose proof (proj1 (swap_adjacent_perm configs i Hi)) as Hp.
      replace (S i) with (i + 1)%nat in Hp by lia. exact Hp.
    + destruct (configs !! i) as [item|] eqn:Ei; [|done]. cbn.
      symmetry. by apply delete_Permutation.
    + destruct (configs !! i) as [item|] eqn:Ei; [|done]. cbn.
      rewrite <- Permutation_cons_append. symmetry. by apply delete_Permutation.
  - unfold move_config, valid_index. case_bool_decide as Hv; cbn [negb]; [|done].
    repeat (case_bool_decide; cbn [andb]); try done;
      destruct (configs !! Z.to_nat index); done.
  - intros Hi.
    destruct (split_adjacent configs (Z.to_nat index - 1)) as (l1 & a & b & l2 & -> & Hl);
      [lia|].
    assert (Hidx : index = Z.of_nat (S (length l1))) by lia. subst index.
    split.
    + unfold move_config at 2. unfold valid_index.
      rewrite bool_decide_eq_true_2 by lia. cbn [negb].
      change (Detect.lower (default "" (Some "UP"))) with "up".
      rewrite (bool_decide_eq_true_2 ("up" = "up")) by done.
      rewrite bool_decide_eq_true_2 by lia. cbn [andb snd].
      rewrite Nat2Z.id. replace (S (length l1) - 1)%nat with (length l1) by lia.
      rewrite (proj2 (swap_adjacent l1 l2 a b)).
      unfold move_config, valid_index.
      rewrite bool_decide_eq_true_2 by (rewrite length_app in *; cbn in *; lia).
      cbn [negb].
      change (Detect.lower (default "" (Some "down"))) with "down".
      rewrite (bool_decide_eq_false_2 ("down" = "up")) by done. cbn [andb].
      rewrite (bool_decide_eq_true_2 ("down" = "down")) by done.
      rewrite bool_decide_eq_true_2 by (rewrite length_app in *; cbn in *; lia).
      cbn [andb].
      replace (Z.to_nat (Z.of_nat (S (length l1)) - 1)) with (length l1) by lia.
      replace (length l1 + 1)%nat with (S (length l1)) by lia.
      by rewrite (proj1 (swap_adjacent l1 l2 b a)).
    + unfold move_config, valid_index.
      rewrite bool_decide_eq_true_2 by lia. cbn [negb].
      change (Detect.lower (default "" (Some "top"))) with "top".
      rewrite (bool_decide_eq_false_2 ("top" = "up")) by done. cbn [andb].
      rewrite (bool_decide_eq_false_2 ("top" = "down")) by done. cbn [andb].
      rewrite (bool_decide_eq_true_2 ("top" = "top")) by done.
      rewrite bool_decide_eq_true_2 by lia. cbn [andb].
      destruct (_ !! _) eqn:E; [done|].
      apply lookup_ge_None in E. lia.
  - intros Hi. unfold move_config, valid_index.
    rewrite bool_decide_eq_true_2 by lia. cbn [negb].
    change (Detect.lower (default "" (Some "bottom"))) with "bottom".
    rewrite (bool_decide_eq_false_2 ("bottom" = "up")) by done. cbn [andb].
    rewrite (bool_decide_eq_false_2 ("bottom" = "down")) by done. cbn [andb].
    rewrite (bool_decide_eq_false_2 ("bottom" = "top")) by done. cbn [andb].
    rewrite (bool_decide_eq_true_2 ("bottom" = "bottom")) by done.
    rewrite bool_decide_eq_true_2 by lia. cbn [andb].
    destruct (_ !! _) eqn:E; cbn [snd]; [by rewrite last_snoc|].
    apply lookup_ge_None in E. lia.
Qed.

End Lists.

Lemma split_at (configs : list api_config) (i : nat) (c : api_config) :
  configs !! i = Some c ->
  exists l1 l2, configs = l1 ++ c :: l2 /\ length l1 = i.
Proof.
  intros Hc. exists (take i configs), (drop (S i) configs). split.
  - by rewrite take_drop_middle.
  - rewrite length_take. apply lookup_lt_Some in Hc. lia.
Qed.

(** X9.  [toggle_*_config] flips the truth value of [enabled] of one entry
    ([True] when the key is missing) and returns the new value; an index
    outside the list, negative ones included, is refused and changes
    nothing.  Switching an enabled entry off takes exactly that entry out of
    the enabled list that the pools are loaded from, and a second toggle
    puts back an entry that reads as the original one. *)
Theorem toggle_config_flips (index : Z) (configs : list api_config) :
  let r := toggle_config index configs in
  (~ 0 <= index < Z.of_nat (length configs) -> r = (None, configs)) /\
  forall c, 0 <= index -> configs !! Z.to_nat index = Some c ->
    let enabled := default true (cfg_enabled c) in
    r = (Some (negb enabled), <[Z.to_nat index := set_enabled (negb enabled) c]> configs) /\
    (enabled = true ->
     get_enabled_api_configs r.2
     = get_enabled_api_configs (delete (Z.to_nat index) configs)) /\
    toggle_config index r.2
    = (Some enabled, <[Z.to_nat index := set_enabled enabled c]> configs) /\
    (enabled = true ->
     get_enabled_api_configs (toggle_config index r.2).2
     = get_enabled_api_configs (<[Z.to_nat index := set_enabled true c]> configs)).
Proof.
  cbv zeta. split.
  - intros Hi. unfold toggle_config, valid_index. by rewrite bool_decide_eq_false_2.
  - intros c H0 Hc.
    assert (Hlt : 0 <= index < Z.of_nat (length configs)).
    { apply lookup_lt_Some in Hc. lia. }
    assert (Hfirst : toggle_config index configs
                     = (Some (negb (default true (cfg_enabled c))),
                        <[Z.to_nat index := set_enabled (negb (default true (cfg_enabled c))) c]>
                          configs)).
    { unfold toggle_config, valid_index. rewrite bool_decide_eq_true_2 by done.
      by rewrite Hc. }
    rewrite Hfirst. cbn [snd]. split; [done|].
    destruct (split_at configs _ c Hc) as (l1 & l2 & Heq & Hl).
    split; [|split].
    + intros Hen. rewrite Hen. cbn [negb]. rewrite Heq, <- Hl.
      rewrite insert_app_r_alt, delete_middle by lia.
      replace (length l1 - length l1)%nat with 0%nat by lia. cbn.
      unfold get_enabled_api_configs. rewrite !List.filter_app. by cbn.
    + unfold toggle_config, valid_index. rewrite length_insert.
      rewrite bool_decide_eq_true_2 by done.
      rewrite list_lookup_insert_eq by lia. cbn.
      rewrite negb_involutive, list_insert_insert_eq. done.
    + intros Hen. unfold toggle_config, valid_index. rewrite length_insert.
      rewrite bool_decide_eq_true_2 by done.
      rewrite list_lookup_insert_eq by lia. cbn.
      rewrite negb_involutive, list_insert_insert_eq, Hen. done.
Qed.

(** X10.  [duplicate_*_config] inserts the copy right after the original and
    leaves every other entry in place, so that deleting the entry after the
    original gives back the list; [delete_*_config] and
    [duplicate_*_config] refuse an index outside the list, negative ones
    included, without touching it. *)
Theorem delete_undoes_duplicate (index : Z) (configs : list api_config) :
  let d := duplicate_config index configs in
  (~ 0 <= index < Z.of_nat (length configs) ->
   d = (false, configs) /\ delete_config index configs = (false, configs)) /\
  forall c, 0 <= index -> configs !! Z.to_nat index = Some c ->
    d.1 = true /\
    length d.2 = S (length configs) /\
    d.2 !! Z.to_nat index = Some c /\
    d.2 !! S (Z.to_nat index) = Some (set_name (cfg_name c +:+ "(复制)") c) /\
    delete_config (index + 1) d.2 = (true, configs) /\
    c :: (delete_config index configs).2 ≡ₚ configs.
Proof.
  cbv zeta. split.
  - intros Hi. unfold duplicate_config, delete_config, valid_index.
    by rewrite bool_decide_eq_false_2.
  - intros c H0 Hc.
    assert (Hlt : 0 <= index < Z.of_nat (length configs)).
    { apply lookup_lt_Some in Hc. lia. }
    destruct (split_at configs _ c Hc) as (l1 & l2 & Heq & Hl).
    unfold duplicate_config, delete_config, valid_index.
    rewrite !bool_decide_eq_true_2 by done. rewrite Hc. cbn [fst snd].
    set (copy := set_name _ c).
    assert (Hsnoc : configs = (l1 ++ [c]) ++ l2) by (by rewrite <- app_assoc).
    assert (Hlen : S (Z.to_nat index) = length (l1 ++ [c])).
    { rewrite length_app. cbn. lia. }
    assert (Hdup : take (S (Z.to_nat index)) configs ++ copy :: drop (S (Z.to_nat index)) configs
                   = (l1 ++ [c]) ++ copy :: l2).
    { rewrite Hlen. rewrite Hsnoc at 1 2.
      by rewrite take_app_length, drop_app_length. }
    rewrite Hdup. split; [done|].
    split; [rewrite Heq, !length_app; cbn; lia|].
    split.
    { rewrite <- app_assoc, <- Hl. by apply list_lookup_middle. }
    split; [rewrite Hlen; by apply list_lookup_middle|].
    split.
    { rewrite bool_decide_eq_true_2 by (rewrite !length_app; cbn; lia).
      f_equal. replace (Z.to_nat (index + 1)) with (length (l1 ++ [c])) by lia.
      by rewrite delete_middle. }
    symmetry. by apply delete_Permutation.
Qed.

End ConfigManagerSpec.

(** ** The adaptive timeout over several requests *)

Module AdaptiveTimeoutRunsSpec.
Import AdaptiveTimeout AdaptiveTimeoutRuns.

(** X11.  A longer total timeout never changes the fate of a stream that
    did not run into the shorter one: it ends in the same way. *)
Theorem longer_timeout_keeps_outcome
    (total total' elapsed : Z) (events : list (Z * stream_event)) :
  total <= total' ->
  read_stream total elapsed events <> total_timeout ->
  read_stream total' elapsed events = read_stream total elapsed events.
Proof.
  intros Hle. revert elapsed.
  induction events as [|[arrival ev] rest IH]; intros elapsed; cbn [read_stream].
  - case_bool_decide; done.
  - case_bool_decide as H1; [done|].
    rewrite (bool_decide_eq_false_2 (total' - elapsed <= 0)) by lia.
    case_bool_decide as H2; [done|].
    rewrite (bool_decide_eq_false_2 (total' <= arrival)) by lia.
    destruct ev; try done. apply IH.
Qed.

Lemma longer_timeout_keeps_outcome_witness :
  read_stream 120 0 [(10, chunk); (50, end_of_stream)]
  = read_stream 60 0 [(10, chunk); (50, end_of_stream)].
Proof.
  apply (longer_timeout_keeps_outcome 60 120 0 [(10, chunk); (50, end_of_stream)]);
    by vm_compute.
Defined.

Lemma after_stream_invariant (codex_increment : Z) (e : stream_end)
    (st : timeout_state) (n : Z) :
  0 <= codex_increment ->
  0 <= codex_timeout_extra_seconds st <= n * codex_increment ->
  0 <= codex_success_count st <= 2 ->
  (codex_timeout_extra_seconds st = 0 -> codex_success_count st = 0) ->
  let st' := after_stream codex_increment e st in
  let n' := if is_timeout e then n + 1 else n in
  0 <= codex_timeout_extra_seconds st' <= n' * codex_increment /\
  0 <= codex_success_count st' <= 2 /\
  (codex_timeout_extra_seconds st' = 0 -> codex_success_count st' = 0).
Proof.
  intros Hinc He Hc H0. cbv zeta.
  destruct e; cbn [after_stream is_timeout];
    unfold on_success, on_timeout;
    repeat case_bool_decide;
    cbn [codex_timeout_extra_seconds codex_success_count]; nia.
Qed.

(** X12.  Whatever the sequence of streams since start-up, the extra
    timeout stays between 0 and the number of timeouts so far times the
    increment, the success counter stays between 0 and 2, and the counter is
    0 whenever there is no extra timeout. *)
Theorem adaptive_timeout_stays_bounded (codex_increment : Z) (ends : list stream_end) :
  0 <= codex_increment ->
  let st := run_streams codex_increment ends initial_timeout_state in
  0 <= codex_timeout_extra_seconds st
    <= Z.of_nat (length (List.filter is_timeout ends)) * codex_increment /\
  0 <= codex_success_count st <= 2 /\
  (codex_timeout_extra_seconds st = 0 -> codex_success_count st = 0).
Proof.
  intros Hinc. cbv zeta. unfold run_streams.
  assert (Hgen : forall st n,
    0 <= codex_timeout_extra_seconds st <= n * codex_increment ->
    0 <= codex_success_count st <= 2 ->
    (codex_timeout_extra_seconds st = 0 -> codex_success_count st = 0) ->
    let st' := foldl (fun st e => after_stream codex_increment e st) st ends in
    0 <= codex_timeout_extra_seconds st'
      <= (n + Z.of_nat (length (List.filter is_timeout ends))) * codex_increment /\
    0 <= codex_success_count st' <= 2 /\
    (codex_timeout_extra_seconds st' = 0 -> codex_success_count st' = 0)).
  { induction ends as [|e ends IH]; intros st n He Hc H0; cbn [foldl List.filter].
    - cbn. replace (n + Z.of_nat 0) with n by lia. done.
    - destruct (after_stream_invariant codex_increment e st n Hinc He Hc H0)
        as (He' & Hc' & H0').
      specialize (IH _ _ He' Hc' H0'). cbv zeta in IH.
      destruct (is_timeout e); cbn [length]; [|done].
      replace (n + Z.of_nat (S (length (List.filter is_timeout ends))))
        with (n + 1 + Z.of_nat (length (List.filter is_timeout ends))) by lia.
      done. }
  apply (Hgen initial_timeout_state 0); cbn; lia.
Qed.

Lemma adaptive_timeout_stays_bounded_witness :
  0 <= codex_success_count
         (run_streams 60 [total_timeout; completed; completed] initial_timeout_state)
    <= 2.
Proof.
  refine (proj1 (proj2 (adaptive_timeout_stays_bounded 60
                          [total_timeout; completed; completed] _))).
  by vm_compute.
Defined.

End AdaptiveTimeoutRunsSpec.

(** ** Updating the strategy table *)

Module StrategyUpdateSpec.
Import Classifier StrategyUpdate.

Local Open Scope string_scope.

Lemma default_tables_valid :
  map_Forall (fun _ strategy => strategy ∈ valid_strategies) default_http_status_codes /\
  map_Forall (fun _ strategy => strategy ∈ valid_strategies) default_network_errors.
Proof.
  split; apply (bool_decide_unpack _); by vm_compute.
Qed.

Lemma merged_table_valid (defaults : gmap string string)
    (table : option (gmap string string)) :
  map_Forall (fun _ strategy => strategy ∈ valid_strategies) defaults ->
  table_valid table = true ->
  map_Forall (fun _ strategy => strategy ∈ valid_strategies) (update defaults table).
Proof.
  intros Hd Ht k v. rewrite ClassifierSpec.update_lookup.
  destruct table as [t|]; cbn.
  - apply bool_decide_eq_true in Ht.
    destruct (t !! k) as [w|] eqn:E; [intros [= <-]; by eapply Ht|apply Hd].
  - apply Hd.
Qed.

(** X13.  [update_error_handling_strategies] stores the new section only
    when every strategy named in it is one of [strategy_retry],
    [switch_api] and [normal_retry]; a refused update leaves the stored
    section as it was.  After an accepted update - as before any update -
    the classifier answers every outcome, known or not, with one of these
    three strategies, and what was stored before the update no longer plays
    a part. *)
Theorem accepted_update_keeps_strategies_valid (strategies stored : stored_strategies) :
  let r := update_error_handling_strategies strategies stored in
  (r.1 = false -> r.2 = stored) /\
  (r.1 = true ->
   r.2 = strategies /\
   forall o, exists strategy,
     classify r.2 o = Some strategy /\ strategy ∈ valid_strategies) /\
  (forall o, exists strategy,
     classify {| stored_http_status_codes := None; stored_network_errors := None |} o
     = Some strategy /\ strategy ∈ valid_strategies).
Proof.
  assert (Hvalid : forall st,
            table_valid (stored_http_status_codes st) = true ->
            table_valid (stored_network_errors st) = true ->
            forall o, exists strategy,
              classify st o = Some strategy /\ strategy ∈ valid_strategies).
  { intros st Hh Hn o.
    destruct default_tables_valid as [Hdh Hdn].
    assert (Ht : map_Forall (fun _ strategy => strategy ∈ valid_strategies)
                   (matching_table st o)).
    { destruct o; cbn [matching_table get_error_handling_strategies
                         http_status_codes network_errors];
        by apply merged_table_valid. }
    rewrite ClassifierSpec.classify_unfold.
    destruct (matching_table st o !! key_of o) as [exact|] eqn:E.
    - exists exact. split; [done|]. by eapply Ht.
    - rewrite ClassifierSpec.matching_table_default. eexists. split; [done|].
      pose proof (ClassifierSpec.matching_table_default st o) as Hd.
      by eapply Ht. }
  cbv zeta. unfold update_error_handling_strategies.
  destruct (table_valid (stored_http_status_codes strategies)) eqn:Hh;
    destruct (table_valid (stored_network_errors strategies)) eqn:Hn;
    cbn [andb fst snd]; (split; [done|]); (split; [|by apply Hvalid]);
    try done.
  intros _. split; [done|]. by apply Hvalid.
Qed.

End StrategyUpdateSpec.

(** ** The statistics file over many calls *)

Module UsageTotalsSpec.
Import Usage UsageTotals.

Lemma add_counters_comm (a b : counters) : add_counters a b = add_counters b a.
Proof. unfold add_counters. f_equal; lia. Qed.

Lemma add_counters_assoc (a b c : counters) :
  add_counters a (add_counters b c) = add_counters (add_counters a b) c.
Proof. unfold add_counters; cbn. f_equal; lia. Qed.

Lemma add_counters_zero (a : counters) : add_counters zero_counters a = a.
Proof. destruct a. unfold add_counters; cbn. f_equal. Qed.

Lemma add_usage_add_counters (i o cc cr t : Z) (a b : counters) :
  add_counters (add_usage i o cc cr t a) b = add_usage i o cc cr t (add_counters a b).
Proof. unfold add_counters, add_usage; cbn. f_equal; lia. Qed.

Section Sums.
Context {A : Type} (f : A -> counters).

Lemma sum_counters_delete (m : gmap string A) (k : string) :
  sum_counters f m
  = add_counters (default zero_counters (f <$> m !! k)) (sum_counters f (delete k m)).
Proof.
  destruct (m !! k) as [x|] eqn:E; cbn.
  - unfold sum_counters.
    apply (map_fold_delete_L (fun _ a acc => add_counters (f a) acc)); [|done].
    intros. rewrite !add_counters_assoc. f_equal. apply add_counters_comm.
  - rewrite add_counters_zero. by rewrite delete_id.
Qed.

Lemma sum_counters_insert (m : gmap string A) (k : string) (v : A) :
  sum_counters f (<[k := v]> m) = add_counters (f v) (sum_counters f (delete k m)).
Proof.
  rewrite <- (insert_delete_eq m). unfold sum_counters.
  apply (map_fold_insert_L (fun _ a acc => add_counters (f a) acc));
    [|apply lookup_delete_eq].
  intros. rewrite !add_counters_assoc. f_equal. apply add_counters_comm.
Qed.

End Sums.

Lemma sum_counts_delete (m : gmap string Z) (k : string) :
  sum_counts m = default 0 (m !! k) + sum_counts (delete k m).
Proof.
  destruct (m !! k) as [x|] eqn:E; cbn.
  - unfold sum_counts.
    apply (map_fold_delete_L (fun _ n acc => n + acc)); [|done]. intros. lia.
  - by rewrite delete_id.
Qed.

Lemma sum_counts_insert (m : gmap string Z) (k : string) (v : Z) :
  sum_counts (<[k := v]> m) = v + sum_counts (delete k m).
Proof.
  rewrite <- (insert_delete_eq m). unfold sum_counts.
  apply (map_fold_insert_L (fun _ n acc => n + acc)); [|apply lookup_delete_eq].
  intros. lia.
Qed.

Lemma consistent_empty : consistent _get_empty_stats_structure.
Proof.
  repeat split; cbn; try done.
  - constructor.
  - by intros ?%elem_of_nil.
  - intros [? ?]. done.
Qed.

Lemma consistent_record_usage (model today : string) (usage : usage_data) (file : stats) :
  consistent file -> consistent (record_usage model today usage file).
Proof.
  intros (Hm & Hd & Hday & Hnd & Hu). unfold record_usage.
  repeat split; cbn [summary by_model daily unique_models].
  - rewrite sum_counters_insert, add_usage_add_counters, <- Hm.
    f_equal. rewrite (sum_counters_delete _ (by_model file) model).
    by destruct (by_model file !! model).
  - rewrite sum_counters_insert. cbn [day_counters].
    rewrite add_usage_add_counters, <- Hd. f_equal.
    rewrite (sum_counters_delete _ (daily file) today).
    by destruct (daily file !! today).
  - intros d r. destruct (decide (d = today)) as [->|Hne].
    + rewrite lookup_insert_eq. intros [= <-]. cbn [models day_counters add_usage total_requests].
      rewrite sum_counts_insert.
      destruct (daily file !! today) as [r|] eqn:E; cbn [from_option id Datatypes.id].
      * rewrite <- (Hday _ _ E), (sum_counts_delete (models r) model).
        cbn [from_option id Datatypes.id]. lia.
      * cbn. rewrite lookup_empty, delete_empty. cbn. reflexivity.
    + rewrite lookup_insert_ne by done. apply Hday.
  - case_bool_decide; [done|]. apply NoDup_app. repeat split; [done| |apply NoDup_singleton].
    intros x Hx ->%list_elem_of_singleton. done.
  - intros Hin. destruct (decide (m = model)) as [->|Hne].
    + rewrite lookup_insert_eq. by eexists.
    + rewrite lookup_insert_ne by done. apply Hu.
      case_bool_decide; [done|]. apply elem_of_app in Hin as [?|?%list_elem_of_singleton]; done.
  - intros Hs. destruct (decide (m = model)) as [->|Hne].
    + case_bool_decide; [done|]. apply elem_of_app. right. by apply list_elem_of_singleton.
    + rewrite lookup_insert_ne in Hs by done. apply Hu in Hs.
      case_bool_decide; [done|]. apply elem_of_app. by left.
Qed.

Lemma record_calls_consistent (calls : list call) (file : stats) :
  consistent file ->
  consistent (record_calls calls file) /\
  total_requests (summary (record_calls calls file))
  = total_requests (summary file) + Z.of_nat (length calls).
Proof.
  revert file. induction calls as [|c calls IH]; intros file Hc; cbn.
  - split; [done|lia].
  - destruct (IH _ (consistent_record_usage (call_model c) (call_day c) (call_usage c) _ Hc))
      as [H1 H2].
    split; [done|]. unfold record_calls in H2. rewrite H2. cbn. lia.
Qed.

(** X14. After any sequence of [record_usage] calls on a fresh statistics
    file the sections of the file agree: the summary counts one request per
    call, the counters of [by_model] and those of [daily] each add up,
    field by field, to the summary, the per-model counts of a day add up to
    the requests of that day, and [unique_models] lists the keys of
    [by_model] without repetition. *)
Theorem recorded_sections_add_up_to_summary (calls : list call) :
  let file := record_calls calls _get_empty_stats_structure in
  total_requests (summary file) = Z.of_nat (length calls) /\
  sum_counters (fun c => c) (by_model file) = summary file /\
  sum_counters day_counters (daily file) = summary file /\
  (forall d r, daily file !! d = Some r ->
     sum_counts (models r) = total_requests (day_counters r)) /\
  NoDup (unique_models file) /\
  (forall m, m ∈ unique_models file <-> is_Some (by_model file !! m)).
Proof.
  cbv zeta.
  destruct (record_calls_consistent calls _ consistent_empty) as [Hc Hn].
  split; [by rewrite Hn|]. exact Hc.
Qed.

End UsageTotalsSpec.

(** ** Upstream sends of one request *)

Module BudgetSpec.
Import Pool Orchestrator Budget.

Lemma get_current_config_configs (s : settings) (now : Z) (p : pool) :
  configs (get_current_config s now p).2 = configs p.
Proof.
  destruct (configs p) as [|c cs] eqn:Ec.
  - unfold get_current_config. by rewrite Ec.
  - rewrite <- Ec. apply PoolSelector.get_current_config_post. by rewrite Ec.
Qed.

Lemma record_api_error_configs (s : settings) (now i code : Z) (p : pool) :
  configs (record_api_error s now i code p).2 = configs p.
Proof. unfold record_api_error. by destruct (_record_error_core _ _ _ _ _ _ _). Qed.

Lemma reset_on_success_configs (b : bool) (p : pool) :
  configs (reset_on_success b p).2 = configs p.
Proof. unfold reset_on_success. repeat case_match; done. Qed.

Lemma smart_switch_api_configs (s : settings) (now i : Z) (p : pool) :
  configs (smart_switch_api s now i p).2 = configs p.
Proof.
  unfold smart_switch_api.
  destruct (api_status p !! i); [|done].
  case_bool_decide; [done|].
  destruct (py_index (configs p) i); [|done].
  pose proof (PoolSwitch.recovered_primary now p) as Hrec. cbv zeta in Hrec.
  destruct (if is_using_backup p then _ else _) as [rec p0]; cbn [fst snd] in Hrec.
  destruct Hrec as ((Hc & _) & _).
  destruct rec as [i0|]; [done|].
  destruct (PoolSelector.first_available_post now (get_backup_api_indices p0) p0)
    as ((Hc1 & _) & _).
  destruct (first_available now (get_backup_api_indices p0) p0) as [found p1];
    cbn [fst snd] in *.
  destruct found as [b|].
  - destruct (current_entry p1); cbn; congruence.
  - case_match; cbn; congruence.
Qed.

Section Rules.

Variable cfgs : list api_config.

Lemma sends_weaken {A} (Q Q' : result A -> nat -> Prop) (m : M A) :
  (forall r n, Q r n -> Q' r n) -> sends cfgs Q m -> sends cfgs Q' m.
Proof.
  intros HQ Hm st Hst. destruct (Hm st Hst) as (Hc & extra & E & H).
  split; [done|]. exists extra. eauto.
Qed.

Lemma sends_ret {A} (Q : result A -> nat -> Prop) (a : A) :
  Q (Ok a) 0%nat -> sends cfgs Q (mret a).
Proof. intros HQ st Hst. split; [done|]. exists []. by rewrite app_nil_r. Qed.

Lemma sends_throw {A} (Q : result A -> nat -> Prop) (e : exn) :
  Q (Raise e) 0%nat -> sends cfgs Q (throw e).
Proof. intros HQ st Hst. split; [done|]. exists []. by rewrite app_nil_r. Qed.

Lemma sends_get (Q : result loop_state -> nat -> Prop) :
  (forall st, Q (Ok st) 0%nat) -> sends cfgs Q get.
Proof.
  intros HQ st Hst. split; [done|]. exists []. rewrite app_nil_r.
  split; [done|apply HQ].
Qed.

Lemma sends_modify (Q : result unit -> nat -> Prop) (f : loop_state -> loop_state) :
  (forall st, ls_pool (f st) = ls_pool st /\ attempts (f st) = attempts st) ->
  Q (Ok tt) 0%nat -> sends cfgs Q (modify f).
Proof.
  intros Hf HQ st Hst. destruct (Hf st) as [Hp Ha]. cbn. rewrite Hp.
  split; [done|]. exists []. by rewrite app_nil_r.
Qed.

Lemma sends_on_pool {A} (Q : result A -> nat -> Prop) (f : pool -> result A * pool) :
  (forall p, configs (f p).2 = configs p) ->
  (forall r, Q r 0%nat) -> sends cfgs Q (on_pool f).
Proof.
  intros Hf HQ st Hst. unfold on_pool. specialize (Hf (ls_pool st)).
  destruct (f (ls_pool st)) as [r p]. cbn in *.
  split; [congruence|]. exists []. by rewrite app_nil_r.
Qed.

Lemma sends_send (Q : result outcome -> nat -> Prop) (world : nat -> outcome)
    (k : attempt_kind) (base_url key : string) (tk : timeout_kind) :
  (forall o, Q (Ok o) 1%nat) -> sends cfgs Q (send world k base_url key tk).
Proof. intros HQ st Hst. split; [done|]. eexists [_]. split; [reflexivity|apply HQ]. Qed.

Lemma sends_bind {A B} (Q1 : result A -> nat -> Prop) (Q2 : A -> result B -> nat -> Prop)
    (Q : result B -> nat -> Prop) (m : M A) (k : A -> M B) :
  sends cfgs Q1 m -> (forall a, sends cfgs (Q2 a) (k a)) ->
  (forall e n, Q1 (Raise e) n -> Q (Raise e) n) ->
  (forall a n1 r n2, Q1 (Ok a) n1 -> Q2 a r n2 -> Q r (n1 + n2)%nat) ->
  sends cfgs Q (m ≫= k).
Proof.
  intros Hm Hk He Ho st Hst. unfold mbind, M_bind.
  destruct (Hm st Hst) as (Hc & e1 & E1 & H1).
  destruct (m st) as [[a|e] st']; cbn [fst snd] in *.
  - destruct (Hk a st' Hc) as (Hc2 & e2 & E2 & H2).
    split; [done|]. exists (e1 ++ e2). rewrite E2, E1, app_assoc, length_app. eauto.
  - split; [done|]. exists e1. eauto.
Qed.

(** A step that sends nothing, followed by the rest. *)
Lemma sends_seq {A B} (Q : result B -> nat -> Prop) (m : M A) (k : A -> M B) :
  sends cfgs quiet m -> (forall a, sends cfgs Q (k a)) ->
  (forall e, Q (Raise e) 0%nat) ->
  sends cfgs Q (m ≫= k).
Proof.
  intros Hm Hk He. apply (sends_bind quiet (fun _ => Q)); [done|done|..].
  - intros e n ->. apply He.
  - by intros a n1 r n2 ->.
Qed.

Lemma sends_catch {A} (Q1 Q2 Q : result A -> nat -> Prop) (m h : M A) :
  sends cfgs Q1 m -> sends cfgs Q2 h ->
  (forall a n, Q1 (Ok a) n -> Q (Ok a) n) ->
  (forall e n1 r n2, Q1 (Raise e) n1 -> Q2 r n2 -> Q r (n1 + n2)%nat) ->
  sends cfgs Q (catch m h).
Proof.
  intros Hm Hh Ho He st Hst. unfold catch.
  destruct (Hm st Hst) as (Hc & e1 & E1 & H1).
  destruct (m st) as [[a|e] st']; cbn [fst snd] in *.
  - split; [done|]. exists e1. eauto.
  - destruct (Hh st' Hc) as (Hc2 & e2 & E2 & H2).
    split; [done|]. exists (e1 ++ e2). rewrite E2, E1, app_assoc, length_app. eauto.
Qed.

End Rules.

Ltac quiet_step :=
  first
    [ apply sends_ret; reflexivity
    | apply sends_throw; reflexivity
    | apply sends_get; intros ?; reflexivity
    | apply sends_modify; [intros ?; split; reflexivity|reflexivity]
    | apply sends_on_pool;
        [intros ?;
         first [ apply get_current_config_configs
               | apply record_api_error_configs
               | apply smart_switch_api_configs
               | apply reset_on_success_configs ]
        |intros ?; reflexivity]
    | apply sends_seq; [|intros ?|intros ?; reflexivity]
    | case_bool_decide
    | case_match ].

Ltac quiet0 := repeat quiet_step.

Section Counting.

Variable s : settings.
Variable now : Z.
Variable strategy_retry_status_codes switch_api_codes no_retry_codes : list Z.
Variable read_error_strategy connect_error_strategy read_timeout_strategy : string.
Variable ladder : list retry_config.
Variable world : nat -> outcome.
Variable cfgs : list api_config.

Lemma quiet_validate : sends cfgs quiet (validate_and_replace_user_key s now).
Proof. unfold validate_and_replace_user_key. quiet0. Qed.

Lemma quiet_build_upstream_url : sends cfgs quiet (build_upstream_url s now).
Proof. unfold build_upstream_url. quiet0. Qed.

Lemma quiet_get_current_api_info : sends cfgs quiet (get_current_api_info s now).
Proof. unfold get_current_api_info. quiet0. Qed.

Lemma quiet_record_current (c : Z) : sends cfgs quiet (record_current s now c).
Proof. unfold record_current. quiet0. Qed.

Lemma quiet_smart_switch (c : Z) : sends cfgs quiet (smart_switch s now c).
Proof. unfold smart_switch. quiet0. Qed.

Lemma quiet_record_after_retry : sends cfgs quiet (record_after_retry s now).
Proof.
  unfold record_after_retry.
  apply sends_seq; [quiet0|intros st|done].
  repeat case_match; try apply quiet_record_current; quiet0.
Qed.

Lemma sends_get_cfgs :
  sends cfgs (fun r n => n = 0%nat /\ exists st, r = Ok st /\ configs (ls_pool st) = cfgs)
    get.
Proof.
  intros st Hst. split; [done|]. exists []. rewrite app_nil_r.
  split; [done|]. split; [done|]. by exists st.
Qed.

(** One send, then a continuation that sends nothing more. *)
Lemma sends_after_send {B} (Q0 Q : result B -> nat -> Prop)
    (kind : attempt_kind) (base_url key : string) (tk : timeout_kind)
    (k : outcome -> M B) :
  (forall o, sends cfgs Q0 (k o)) ->
  (forall r n, Q0 r n -> Q r (1 + n)%nat) ->
  sends cfgs Q (send world kind base_url key tk ≫= k).
Proof.
  intros Hk HQ.
  apply (sends_bind cfgs (fun r n => n = 1%nat /\ exists o, r = Ok o) (fun _ => Q0)).
  - apply sends_send. intros o. split; [done|]. by exists o.
  - done.
  - intros e n [_ [o Ho]]. done.
  - intros a n1 r n2 [-> _] H. by apply HQ.
Qed.

Lemma sends_strategy_retry_attempt (i : nat) :
  sends cfgs (answer_below_400 1) (strategy_retry_attempt ladder world i).
Proof.
  unfold strategy_retry_attempt.
  destruct (ladder !! i) as [rung|]; [|apply sends_ret; split; [lia|done]].
  apply (sends_after_send (answer_below_400 0)).
  - intros o. destruct o as [code| | | |]; try (apply sends_ret; split; [lia|done]).
    case_bool_decide.
    + apply sends_seq; [quiet0|intros _|split; [lia|done]].
      apply sends_ret. split; [lia|]. by intros c [= <-].
    + apply sends_ret. split; [lia|done].
  - intros r n [H1 H2]. split; [lia|done].
Qed.

Lemma sends_on_network_error (i : nat) (error_strategy : string) :
  sends cfgs
    (answer_below_400
       (if bool_decide (error_strategy = "switch_api"%string) then 1 else 0))
    (on_network_error s now world i error_strategy).
Proof.
  unfold on_network_error.
  apply sends_seq; [quiet0|intros _|split; [lia|done]].
  case_bool_decide as Hsw; [|apply sends_ret; split; [lia|done]].
  apply sends_seq; [apply quiet_smart_switch|intros b|split; [lia|done]].
  destruct b; [|apply sends_ret; split; [lia|done]].
  apply sends_seq; [apply quiet_validate|intros _|split; [lia|done]].
  apply sends_seq; [apply quiet_build_upstream_url|intros url|split; [lia|done]].
  apply sends_seq; [quiet0|intros st|split; [lia|done]].
  apply (sends_catch cfgs (answer_below_400 1) (answer_below_400 0)).
  - apply (sends_after_send (answer_below_400 0)).
    + intros o. destruct o as [code| | | |]; try (apply sends_throw; split; [lia|done]).
      case_bool_decide.
      * apply sends_seq; [quiet0|intros _|split; [lia|done]].
        apply sends_ret. split; [lia|]. by intros c [= <-].
      * apply sends_ret. split; [lia|done].
    + intros r n [H1 H2]. split; [lia|done].
  - apply sends_ret. split; [lia|done].
  - done.
  - intros e n1 r n2 [H1 _] [H2 H3]. split; [lia|done].
Qed.

Lemma sends_extended_retry (fuel : nat) :
  sends cfgs (answer_below_400 fuel) (extended_retry s now world fuel).
Proof.
  induction fuel as [|fuel IH]; cbn [extended_retry].
  { apply sends_ret. split; [lia|done]. }
  apply sends_seq; [apply quiet_smart_switch|intros b|split; [lia|done]].
  destruct b; [|apply sends_ret; split; [lia|done]].
  apply (sends_bind cfgs (answer_below_400 1)
           (fun a => match a with
                     | Some code => fun r n => n = 0%nat /\ r = Ok (Some code)
                     | None => answer_below_400 fuel
                     end)).
  - apply (sends_catch cfgs (answer_below_400 1) (answer_below_400 0)).
    + apply sends_seq; [apply quiet_validate|intros _|split; [lia|done]].
      apply sends_seq; [apply quiet_build_upstream_url|intros url|split; [lia|done]].
      apply sends_seq; [quiet0|intros _|split; [lia|done]].
      apply sends_seq; [apply quiet_get_current_api_info|intros _|split; [lia|done]].
      apply sends_seq; [quiet0|intros st|split; [lia|done]].
      apply (sends_after_send (answer_below_400 0)).
      * intros o. destruct o as [code| | | |]; try (apply sends_throw; split; [lia|done]).
        case_bool_decide.
        -- apply sends_seq; [quiet0|intros _|split; [lia|done]].
           apply sends_ret. split; [lia|]. by intros c [= <-].
        -- apply sends_seq; [apply quiet_record_current|intros _|split; [lia|done]].
           apply sends_ret. split; [lia|done].
      * intros r n [H1 H2]. split; [lia|done].
    + apply sends_seq; [apply quiet_record_current|intros _|split; [lia|done]].
      apply sends_ret. split; [lia|done].
    + done.
    + intros e n1 r n2 [H1 _] [H2 H3]. split; [lia|done].
  - intros [code|]; [by apply sends_ret|apply IH].
  - intros e n [H _]. split; [lia|done].
  - intros [code|] n1 r n2 [H1 H2].
    + intros [-> ->]. split; [lia|]. intros c [= <-]. by apply H2.
    + intros [H3 H4]. split; [lia|done].
Qed.

Lemma sends_final_failure :
  sends cfgs (break_below_400 (3 * length cfgs))
    (final_failure s now switch_api_codes world).
Proof.
  unfold final_failure.
  apply sends_seq; [apply quiet_record_after_retry|intros _|split; [lia|done]].
  case_bool_decide; [|apply sends_ret; split; [lia|done]].
  apply (sends_bind cfgs _
           (fun st r n =>
              (n <= 3 * length (configs (ls_pool st)))%nat /\
              forall c, r = Ok (Break c) -> c < 400) _ _ _ sends_get_cfgs).
  - intros st.
    apply (sends_bind cfgs _
             (fun a => match a with
                       | Some code => fun r n => n = 0%nat /\ r = Ok (Break code)
                       | None => fun r n => n = 0%nat /\ r = Ok Return502
                       end) _ _ _ (sends_extended_retry _)).
    + intros [code|]; by apply sends_ret.
    + intros e n [Hn _]. split; [lia|done].
    + intros [code|] n1 r n2 [H1 H2] [-> ->].
      * split; [lia|]. intros c [= <-]. by apply H2.
      * split; [lia|done].
  - intros e n [_ (st & ? & _)]. done.
  - intros st n1 r n2 [-> (st' & [= <-] & Hc)] [H1 H2]. rewrite Hc in H1.
    split; [lia|done].
Qed.

(** A stage of the handler: a retry that may answer, else the rest. *)
Lemma sends_stage (b1 b2 : nat) (m : M (option Z)) (k : M flow) :
  sends cfgs (answer_below_400 b1) m ->
  sends cfgs (break_below_400 b2) k ->
  sends cfgs (break_below_400 (b1 + b2))
    (r ← m; match r with Some code => mret (Break code) | None => k end).
Proof.
  intros Hm Hk.
  apply (sends_bind cfgs _
           (fun a => match a with
                     | Some code => fun r n => n = 0%nat /\ r = Ok (Break code)
                     | None => break_below_400 b2
                     end) _ _ _ Hm).
  - intros [code|]; [by apply sends_ret|done].
  - intros e n [H _]. split; [lia|done].
  - intros [code|] n1 r n2 [H1 H2].
    + intros [-> ->]. split; [lia|]. intros c [= <-]. by apply H2.
    + intros [H3 H4]. split; [lia|done].
Qed.

(** An error takes one of the retries of the handler, not two. *)
Local Abbreviation read_budget := (read_budget read_error_strategy).
Local Abbreviation connect_budget := (connect_budget connect_error_strategy).
Local Abbreviation ladder_budget :=
  (ladder_budget read_error_strategy connect_error_strategy read_timeout_strategy).

Lemma one_retry_per_error (e : outcome) :
  (read_budget e + (connect_budget e + ladder_budget e) <= 1)%nat.
Proof.
  unfold Budget.read_budget, Budget.connect_budget, Budget.ladder_budget,
    is_strategy_error.
  destruct e; repeat case_bool_decide; try lia; congruence.
Qed.

Lemma sends_handler (i rest : nat) (e : outcome) :
  sends cfgs (break_below_400 (1 + extended_budget cfgs rest))
    (handler s now switch_api_codes read_error_strategy connect_error_strategy
       read_timeout_strategy ladder world i rest e).
Proof.
  unfold handler.
  apply sends_seq; [quiet0|intros _|split; [lia|done]].
  eapply sends_weaken;
    [|apply (sends_stage (read_budget e)
               (connect_budget e + (ladder_budget e + extended_budget cfgs rest)));
      [|apply (sends_stage (connect_budget e)
                 (ladder_budget e + extended_budget cfgs rest));
        [|apply (sends_stage (ladder_budget e) (extended_budget cfgs rest))]]].
  - intros r n [H1 H2]. pose proof (one_retry_per_error e). split; [lia|done].
  - unfold Budget.read_budget. destruct e; try (apply sends_ret; split; [lia|done]).
    apply sends_on_network_error.
  - unfold Budget.connect_budget. destruct e; try (apply sends_ret; split; [lia|done]).
    apply sends_on_network_error.
  - unfold Budget.ladder_budget.
    destruct (is_strategy_error _ _ _ e); [|apply sends_ret; split; [lia|done]].
    apply (sends_bind cfgs _
             (fun a => match a with
                       | Some code => fun r n => n = 0%nat /\ r = Ok (Some code)
                       | None => fun r n => n = 0%nat /\ r = Ok None
                       end) _ _ _ (sends_strategy_retry_attempt i)).
    + intros [code|]; [by apply sends_ret|].
      intros st Hst. split; [done|]. exists []. by rewrite app_nil_r.
    + intros e' n [H _]. split; [lia|done].
    + intros [code|] n1 r n2 [H1 H2] [-> ->].
      * split; [lia|]. intros c [= <-]. by apply H2.
      * split; [lia|done].
  - destruct rest; [apply sends_final_failure|].
    apply sends_ret. split; [cbn; lia|done].
Qed.

Lemma sends_iteration (i rest : nat) :
  sends cfgs (pass_budget (2 + extended_budget cfgs rest))
    (iteration s now strategy_retry_status_codes switch_api_codes no_retry_codes
       read_error_strategy connect_error_strategy read_timeout_strategy ladder
       world i rest).
Proof.
  unfold iteration.
  apply sends_seq; [quiet0|intros _|split; [lia|done]].
  apply sends_seq; [quiet0|intros st|split; [lia|done]].
  apply (sends_after_send
           (fun r n => (n <= 1 + extended_budget cfgs rest)%nat /\
                       forall c, r = Ok (Break c) -> 400 <= c -> n = 0%nat)).
  2:{ intros r n [H1 H2]. split; [lia|]. intros c Hr Hc. rewrite (H2 c Hr Hc). lia. }
  assert (Hh : forall e,
            sends cfgs
              (fun r n => (n <= 1 + extended_budget cfgs rest)%nat /\
                          forall c, r = Ok (Break c) -> 400 <= c -> n = 0%nat)
              (handler s now switch_api_codes read_error_strategy
                 connect_error_strategy read_timeout_strategy ladder world i rest e)).
  { intros e. eapply sends_weaken; [|apply sends_handler].
    intros r n [H1 H2]. split; [done|]. intros c Hr Hc. specialize (H2 c Hr). lia. }
  assert (Hq : forall m : M flow,
            sends cfgs quiet m ->
            sends cfgs
              (fun r n => (n <= 1 + extended_budget cfgs rest)%nat /\
                          forall c, r = Ok (Break c) -> 400 <= c -> n = 0%nat) m).
  { intros m. apply sends_weaken. intros r n ->. split; [lia|done]. }
  intros o. destruct o as [status_code| | | |]; try apply Hh.
  case_bool_decide; [apply Hh|].
  apply Hq.
  case_bool_decide; [apply sends_seq; [apply quiet_record_current|intros _|done]; quiet0|].
  case_bool_decide.
  { apply sends_seq; [quiet0|intros _|done].
    apply sends_seq; [apply quiet_smart_switch|intros b|done].
    apply sends_seq; [quiet0|intros _|done].
    apply sends_seq; [|intros _|done]; [|quiet0].
    destruct b; [|quiet0].
    apply sends_seq; [apply quiet_validate|intros _|done].
    apply sends_seq; [apply quiet_build_upstream_url|intros url|done].
    apply sends_seq; [quiet0|intros _|done].
    apply quiet_get_current_api_info. }
  quiet0.
Qed.

Lemma sends_attempt_loop (rest i : nat) :
  sends cfgs (loop_budget cfgs rest)
    (attempt_loop s now strategy_retry_status_codes switch_api_codes no_retry_codes
       read_error_strategy connect_error_strategy read_timeout_strategy ladder
       world rest i).
Proof.
  revert i. induction rest as [|rest IH]; intros i; cbn [attempt_loop].
  - apply (sends_bind cfgs _
             (fun f => match f with
                       | Break c => fun r n => n = 0%nat /\ r = Ok (Responded c)
                       | _ => fun r n => n = 0%nat /\ r = Ok Returned502
                       end) _ _ _ (sends_iteration i 0)).
    + intros [|c|]; by apply sends_ret.
    + intros e n [H1 _]. cbn in H1. split; [lia|done].
    + intros [|c|] n1 r n2 [H1 H2] [-> ->]; cbn in H1; (split; [lia|]); try done.
      intros c' [= <-] Hc. specialize (H2 c eq_refl Hc). lia.
  - apply (sends_bind cfgs _
             (fun f => match f with
                       | Break c => fun r n => n = 0%nat /\ r = Ok (Responded c)
                       | Return502 => fun r n => n = 0%nat /\ r = Ok Returned502
                       | Continue => loop_budget cfgs rest
                       end) _ _ _ (sends_iteration i (S rest))).
    + intros [|c|]; [apply IH|by apply sends_ret..].
    + intros e n [H1 _]. cbn in H1. split; [lia|done].
    + intros [|c|] n1 r n2 [H1 H2]; cbn in H1.
      * intros [H3 H4]. split; [lia|]. intros c Hr Hc. specialize (H4 c Hr Hc). lia.
      * intros [-> ->]. split; [lia|].
        intros c' [= <-] Hc. specialize (H2 c eq_refl Hc). lia.
      * intros [-> ->]. split; [lia|done].
Qed.

Lemma sends_extended_retry_after (c : Z) (fuel : nat) :
  sends cfgs (at_most fuel) (extended_retry_after s now switch_api_codes world c fuel).
Proof.
  unfold at_most.
  induction fuel as [|fuel IH]; cbn [extended_retry_after].
  { apply sends_ret. lia. }
  apply sends_seq; [apply quiet_smart_switch|intros b|lia].
  destruct b; [|apply sends_ret; lia].
  apply (sends_bind cfgs (fun _ n => (n <= 1)%nat)
           (fun a => match a with
                     | ExtNone => fun _ n => (n <= fuel)%nat
                     | _ => fun _ n => n = 0%nat
                     end)).
  - apply (sends_catch cfgs (fun _ n => (n <= 1)%nat) (fun _ n => n = 0%nat)).
    + apply sends_seq; [apply quiet_validate|intros _|lia].
      apply sends_seq; [apply quiet_build_upstream_url|intros url|lia].
      apply sends_seq; [quiet0|intros _|lia].
      apply sends_seq; [apply quiet_get_current_api_info|intros _|lia].
      apply sends_seq; [quiet0|intros st|lia].
      apply (sends_after_send (fun _ n => n = 0%nat)).
      * intros o. destruct o as [code| | | |]; try (by apply sends_throw).
        case_bool_decide; [quiet0|].
        case_bool_decide; [|quiet0].
        apply sends_seq; [apply quiet_record_current|intros _|done]. quiet0.
      * intros r n ->. lia.
    + apply sends_seq; [apply quiet_record_current|intros _|done]. quiet0.
    + done.
    + intros e n1 r n2 H1 ->. lia.
  - intros [code|code|]; [by apply sends_ret..|apply IH].
  - intros e n H. lia.
  - intros [code|code|] n1 r n2 H1 H2; lia.
Qed.

Lemma sends_final_switch_retry (c : Z) :
  sends cfgs (at_most 1) (final_switch_retry s now world c).
Proof.
  unfold at_most, final_switch_retry.
  apply sends_seq; [apply quiet_smart_switch|intros b|lia].
  destruct b; [|apply sends_ret; lia].
  apply sends_seq; [apply quiet_validate|intros _|lia].
  apply (sends_catch cfgs (fun _ n => (n <= 1)%nat) (fun _ n => n = 0%nat)).
  - apply sends_seq; [apply quiet_build_upstream_url|intros url|lia].
    apply sends_seq; [quiet0|intros _|lia].
    apply sends_seq; [quiet0|intros st|lia].
    destruct (retry_client_closed st); [apply sends_throw; lia|].
    apply (sends_after_send (fun _ n => n = 0%nat)).
    + intros o. destruct o; quiet0.
    + intros r n ->. lia.
  - by apply sends_ret.
  - done.
  - intros e n1 r n2 H1 ->. lia.
Qed.

Lemma sends_after_loop (c : Z) :
  sends cfgs (after_budget cfgs c) (after_loop s now switch_api_codes world c).
Proof.
  unfold after_loop.
  apply (sends_bind cfgs
           (fun r n => (n <= 3 * length cfgs)%nat /\
                       (c < 400 -> n = 0%nat /\ forall v, r = Ok v -> v = c))
           (fun v r n => (n <= 1)%nat /\ (v < 400 -> n = 0%nat))).
  - case_bool_decide as Hc.
    + apply sends_seq; [quiet0|intros _|].
      * apply sends_ret. split; [lia|]. intros _. split; [done|]. by intros v [= <-].
      * split; [lia|]. done.
    + eapply sends_weaken.
      { intros r n Hn. split; [exact Hn|]. intros; lia. }
      apply (sends_bind cfgs (fun _ n => (n <= 3 * length cfgs)%nat)
               (fun _ _ n => n = 0%nat)).
      * case_bool_decide; [|apply sends_ret; lia].
        apply (sends_bind cfgs _
                 (fun st _ n => (n <= 3 * length (configs (ls_pool st)))%nat)
                 _ _ _ sends_get_cfgs).
        -- intros st.
           apply (sends_bind cfgs _ (fun _ _ n => n = 0%nat) _ _ _
                    (sends_extended_retry_after c _)).
           ++ intros r. destruct r; by apply sends_ret.
           ++ intros e n Hn. exact Hn.
           ++ intros a n1 r n2 Hn ->. unfold at_most in Hn. lia.
        -- intros e n [_ (st & ? & _)]. done.
        -- intros st n1 r n2 [-> (st' & [= <-] & Hcf)] Hn. rewrite Hcf in Hn. lia.
      * intros v. apply sends_seq; [|intros _|done]; [|quiet0].
        case_bool_decide; [apply quiet_record_after_retry|quiet0].
      * intros e n Hn. exact Hn.
      * intros a n1 r n2 Hn ->. lia.
  - intros v. case_bool_decide as Hv.
    + case_bool_decide.
      * eapply sends_weaken; [|apply sends_final_switch_retry].
        intros r n Hn. unfold at_most in Hn. split; [done|]. lia.
      * apply sends_ret. split; [lia|done].
    + apply sends_ret. split; [lia|done].
  - intros e n [H1 H2]. split; [lia|]. intros Hc. by destruct (H2 Hc).
  - intros v n1 r n2 [H1 H2] [H3 H4]. split; [lia|].
    intros Hc. destruct (H2 Hc) as [-> Hv].
    rewrite (Hv v eq_refl) in H4. by rewrite (H4 Hc).
Qed.

Lemma sends_handle_request :
  sends cfgs (at_most (2 * Z.to_nat (get_max_retries s) + 3 * length cfgs))
    (handle_request s now strategy_retry_status_codes switch_api_codes
       no_retry_codes read_error_strategy connect_error_strategy
       read_timeout_strategy ladder world).
Proof.
  assert (Hmr : 0 < get_max_retries s).
  { unfold get_max_retries. case_bool_decide; lia. }
  unfold at_most, handle_request.
  apply sends_seq; [apply quiet_validate|intros _|lia].
  apply sends_seq; [apply quiet_get_current_api_info|intros _|lia].
  apply sends_seq; [apply quiet_build_upstream_url|intros url|lia].
  apply sends_seq; [quiet0|intros _|lia].
  apply (sends_bind cfgs _
           (fun exit => match exit with
                        | Responded c => after_budget cfgs c
                        | Returned502 => fun _ n => n = 0%nat
                        end) _ _ _
           (sends_attempt_loop (Z.to_nat (get_max_retries s) - 1) 0)).
  - intros [c|]; [|by apply sends_ret].
    apply (sends_bind cfgs _ (fun _ _ n => n = 0%nat) _ _ _ (sends_after_loop c)).
    + intros v. by apply sends_ret.
    + intros e n Hn. exact Hn.
    + intros v n1 r n2 [H1 H2] ->. split; [lia|]. intros Hc. rewrite (H2 Hc). done.
  - intros e n [H1 _]. lia.
  - intros [c|] n1 r n2 [H1 H2].
    + intros [H3 H4]. destruct (decide (c < 400)) as [Hc|Hc].
      * rewrite (H4 Hc). lia.
      * specialize (H2 c eq_refl). lia.
    + intros ->. lia.
Qed.

End Counting.

(** The bound is reached: one pass, a ladder of one rung, two entries that
    are cooling down, and upstreams that answer 500 to everything.  The pass
    sends twice, the last-resort loop six times. *)
Example eight_sends_with_one_pass :
  let r := Scenarios.default_request Scenarios.one_try [Scenarios.rung_1]
             (fun _ => Status 500) Scenarios.cooling_pool in
  r.1 = Ok BadGateway /\
  map att_kind (attempts r.2)
  = [main_attempt 0; ladder_attempt 0; extended_attempt; extended_attempt;
     extended_attempt; extended_attempt; extended_attempt; extended_attempt] /\
  (2 * Z.to_nat (get_max_retries Scenarios.one_try)
   + 3 * length (configs Scenarios.cooling_pool) = 8)%nat.
Proof. vm_compute. repeat split. Qed.

(** X15.  Whatever the upstreams do and whatever the strategy tables hold,
    one request makes at most [2 * max_retries + 3 * len(API_CONFIGS)]
    upstream sends (ladder and switch retries and the two last-resort loops
    included), it only appends to the log of sends, and it leaves the list
    of entries as it was. *)
Theorem request_sends_are_bounded
    (s : settings) (now : Z)
    (strategy_retry_status_codes switch_api_codes no_retry_codes : list Z)
    (read_error_strategy connect_error_strategy read_timeout_strategy : string)
    (ladder : list retry_config) (world : nat -> outcome) (st : loop_state) :
  let r := handle_request s now strategy_retry_status_codes switch_api_codes
             no_retry_codes read_error_strategy connect_error_strategy
             read_timeout_strategy ladder world st in
  configs (ls_pool r.2) = configs (ls_pool st) /\
  exists extra,
    attempts r.2 = attempts st ++ extra /\
    (length extra
     <= 2 * Z.to_nat (get_max_retries s) + 3 * length (configs (ls_pool st)))%nat.
Proof.
  cbv zeta.
  apply (sends_handle_request s now strategy_retry_status_codes switch_api_codes
           no_retry_codes read_error_strategy connect_error_strategy
           read_timeout_strategy ladder world (configs (ls_pool st)) st eq_refl).
Qed.

(** X16.  With no entry configured a request sends nothing: the lookup of
    the placeholder entry in the empty list raises [ValueError] before the
    loop is entered, and the pool is left as it was. *)
Theorem empty_pool_request_raises_before_sending
    (s : settings) (now : Z)
    (strategy_retry_status_codes switch_api_codes no_retry_codes : list Z)
    (read_error_strategy connect_error_strategy read_timeout_strategy : string)
    (ladder : list retry_config) (world : nat -> outcome) (st : loop_state) :
  configs (ls_pool st) = [] ->
  let r := handle_request s now strategy_retry_status_codes switch_api_codes
             no_retry_codes read_error_strategy connect_error_strategy
             read_timeout_strategy ladder world st in
  r.1 = Raise ValueError /\ attempts r.2 = attempts st /\ ls_pool r.2 = ls_pool st.
Proof.
  intros Hc.
  destruct st as [p url auth code strat rec closed atts].
  destruct p as [cfgs d idx bk started checked switched].
  cbn in Hc. subst cfgs. by cbn.
Qed.

Lemma empty_pool_request_raises_before_sending_witness :
  (Scenarios.default_request Scenarios.default_settings [] (fun _ => Status 200)
     (Scenarios.make_pool [] ∅ 0 false None)).1
  = Raise ValueError.
Proof.
  apply (empty_pool_request_raises_before_sending Scenarios.default_settings 1000
           Scenarios.default_strategy_retry_codes Scenarios.default_switch_api_codes
           [] "switch_api" "switch_api" "strategy_retry" [] (fun _ => Status 200)
           (initial_loop_state (Scenarios.make_pool [] ∅ 0 false None))).
  reflexivity.
Defined.

End BudgetSpec.

(** ** Limit on cache_control blocks *)

Module CacheControlSpec.
Import Detect CacheControl.

Local Open Scope string_scope.

Lemma has_key_del_key (k : string) (fields : list (string * json)) :
  has_key k (del_key k fields) = false.
Proof.
  induction fields as [|[k' v] fields IH]; [done|].
  unfold del_key in *. cbn. case_bool_decide as Hk; cbn; [done|].
  by rewrite bool_decide_eq_false_2.
Qed.

Lemma has_cache_control_remove (item : json) :
  has_cache_control (remove_cache_control item) = false.
Proof. destruct item; cbn; try done. apply has_key_del_key. Qed.

Lemma get_set_key_eq (k : string) (v : json) (fields : list (string * json)) :
  get k (set_key k v fields) = Some v.
Proof.
  induction fields as [|[k' x] fields IH]; cbn.
  - by rewrite bool_decide_eq_true_2.
  - case_bool_decide as Hk; cbn;
      [by rewrite bool_decide_eq_true_2|by rewrite bool_decide_eq_false_2].
Qed.

Lemma get_set_key_ne (k k' : string) (v : json) (fields : list (string * json)) :
  k <> k' -> get k (set_key k' v fields) = get k fields.
Proof.
  intros Hne. induction fields as [|[k0 x] fields IH]; cbn.
  - by rewrite bool_decide_eq_false_2.
  - case_bool_decide as Hk; cbn.
    + subst k0. by rewrite !bool_decide_eq_false_2.
    + by rewrite IH.
Qed.

Lemma set_key_get (k : string) (v : json) (fields : list (string * json)) :
  get k fields = Some v -> set_key k v fields = fields.
Proof.
  induction fields as [|[k0 x] fields IH]; cbn; [done|].
  case_bool_decide as Hk; [by intros [= ->]|]. intros H. by rewrite IH.
Qed.

Lemma set_key_set_key (k : string) (v v' : json) (fields : list (string * json)) :
  set_key k v (set_key k v' fields) = set_key k v fields.
Proof.
  induction fields as [|[k0 x] fields IH]; cbn.
  - by rewrite bool_decide_eq_true_2.
  - case_bool_decide as Hk; cbn.
    + by rewrite bool_decide_eq_true_2.
    + by rewrite bool_decide_eq_false_2, IH.
Qed.

Lemma count_items_cons (item : json) (items : list json) :
  count_items (item :: items)
  = (if has_cache_control item then 1 else 0) + count_items items.
Proof. unfold count_items. cbn. destruct (has_cache_control item); cbn; lia. Qed.

Lemma count_items_nonneg (items : list json) : 0 <= count_items items.
Proof. unfold count_items. lia. Qed.

Lemma count_messages_nonneg (messages : list json) : 0 <= count_messages messages.
Proof.
  induction messages as [|msg rest IH]; cbn; [lia|].
  assert (0 <= count_message msg); [|lia].
  destruct msg; cbn; try lia. case_match; try lia. apply count_items_nonneg.
Qed.

(** The loop over items: running it again on its output changes nothing;
    while the counter is within the limit the blocks left are the ones
    counted, up to the limit. *)
Lemma limit_items_spec (max_blocks : Z) (items : list json) (c : Z) :
  let r := limit_items max_blocks items c in
  limit_items max_blocks r.1 c = r /\
  length r.1 = length items /\
  (c <= max_blocks ->
   count_items r.1 = r.2 - c /\ r.2 = Z.min max_blocks (c + count_items items)).
Proof.
  revert c. induction items as [|item rest IH]; intros c; cbn [limit_items].
  { cbn. split; [done|]. split; [done|]. unfold count_items. cbn. lia. }
  pose proof (count_items_nonneg rest) as Hnn.
  rewrite (count_items_cons item rest).
  destruct (has_cache_control item) eqn:Hcc.
  - case_bool_decide as Hlt.
    + destruct (IH (c + 1)) as (H1 & H2 & H3).
      destruct (limit_items max_blocks rest (c + 1)) as [fixed count]. cbn in *.
      rewrite Hcc, bool_decide_eq_true_2, H1 by done.
      split; [done|]. split; [by rewrite H2|]. intros Hc.
      rewrite count_items_cons, Hcc. destruct H3 as [H3 H4]; lia.
    + destruct (IH c) as (H1 & H2 & H3).
      destruct (limit_items max_blocks rest c) as [fixed count]. cbn in *.
      rewrite has_cache_control_remove, H1.
      split; [done|]. split; [by rewrite H2|]. intros Hc.
      rewrite count_items_cons, has_cache_control_remove. destruct (H3 Hc) as [H4 H5]. lia.
  - destruct (IH c) as (H1 & H2 & H3).
    destruct (limit_items max_blocks rest c) as [fixed count]. cbn in *.
    rewrite Hcc, H1.
    split; [done|]. split; [by rewrite H2|]. intros Hc.
    rewrite count_items_cons, Hcc. destruct (H3 Hc) as [H4 H5]. lia.
Qed.


Lemma limit_messages_spec (max_blocks : Z) (messages : list json) (c : Z) :
  let r := limit_messages max_blocks messages c in
  limit_messages max_blocks r.1 c = r /\
  length r.1 = length messages /\
  (c <= max_blocks ->
   count_messages r.1 = r.2 - c /\ r.2 = Z.min max_blocks (c + count_messages messages)).
Proof.
  revert c. induction messages as [|msg rest IH]; intros c.
  { cbn. split; [done|]. split; [done|]. lia. }
  pose proof (count_messages_nonneg rest) as Hnn.
  assert (Hplain : forall m : json,
            count_message m = 0 ->
            (forall l c', limit_messages max_blocks (m :: l) c'
                          = let '(fixed, count) := limit_messages max_blocks l c' in
                            (m :: fixed, count)) ->
            let r := let '(fixed, count) := limit_messages max_blocks rest c in
                     (m :: fixed, count) in
            limit_messages max_blocks r.1 c = r /\
            length r.1 = length (m :: rest) /\
            (c <= max_blocks ->
             count_messages r.1 = r.2 - c /\
             r.2 = Z.min max_blocks (c + (count_message m + count_messages rest)))).
  { intros m Hm Hstep. destruct (IH c) as (H1 & H2 & H3).
    destruct (limit_messages max_blocks rest c) as [fixed count]. cbn [fst snd] in *.
    rewrite Hstep, H1. split; [done|]. split; [cbn; by rewrite H2|].
    intros Hc. cbn [count_messages]. rewrite Hm. destruct (H3 Hc). lia. }
  destruct msg as [|b|n|t|items|msg]; try (by apply Hplain).
  cbn [limit_messages].
  destruct (default (JArray []) (get "content" msg)) as [|b|n|t|content|o] eqn:Econtent;
    try (apply (Hplain (JObject msg)); [cbn; by rewrite Econtent|];
         intros l c'; cbn [limit_messages]; by rewrite Econtent).
  cbn [count_messages count_message]. rewrite Econtent.
  pose proof (count_items_nonneg content) as Hnc.
  destruct (limit_items_spec max_blocks content c) as (H1 & H2 & H3).
  destruct (limit_items max_blocks content c) as [fixed_content c1]. cbn [fst snd] in *.
  destruct (IH c1) as (H4 & H5 & H6).
  destruct (limit_messages max_blocks rest c1) as [fixed c2]. cbn [fst snd] in *.
  cbn [limit_messages]. rewrite get_set_key_eq. cbn [from_option id].
  rewrite H1, H4, set_key_set_key.
  split; [done|]. split; [cbn; by rewrite H5|].
  intros Hc. cbn [count_messages count_message]. rewrite get_set_key_eq.
  cbn [from_option id]. destruct (H3 Hc) as [H7 H8].
  assert (Hc1 : c1 <= max_blocks) by lia. destruct (H6 Hc1) as [H9 H10]. lia.
Qed.

Lemma py_iter_falsy (v : json) (items : list json) :
  truthy v = false -> py_iter v = Some items -> items = [].
Proof.
  destruct v as [|b|n|t|l|o]; cbn; try done; intros Ht [= <-].
  - apply bool_decide_eq_false in Ht. apply dec_stable in Ht. by subst t.
  - apply bool_decide_eq_false in Ht. by apply dec_stable in Ht.
  - apply bool_decide_eq_false in Ht. apply dec_stable in Ht. by subst o.
Qed.

Lemma chars_nonempty (s : string) : s <> "" -> chars s <> [].
Proof.
  unfold chars. destruct s as [|c [|d r]]; [done|done|]. intros _.
  change (code_points (String c (String d r)))
    with (if is_continuation d then
            match code_points (String d r) with
            | x :: xs => String c x :: xs
            | [] => [String c EmptyString]
            end
          else String c EmptyString :: code_points (String d r)).
  by destruct (is_continuation d), (code_points (String d r)).
Qed.

Lemma py_iter_truthy (v : json) (items : list json) :
  truthy v = true -> py_iter v = Some items -> items <> [].
Proof.
  destruct v as [|b|n|t|l|o]; cbn; try done; intros Ht [= <-].
  - apply bool_decide_eq_true in Ht. by apply chars_nonempty.
  - by apply bool_decide_eq_true in Ht.
  - apply bool_decide_eq_true in Ht. by destruct o.
Qed.

Lemma truthy_same_length (l l' : list json) :
  length l' = length l -> l <> [] -> truthy (JArray l') = true.
Proof.
  intros Hlen Hne. cbn. apply bool_decide_eq_true. intros ->. by destruct l.
Qed.

(** The system part of the body, and the messages part, as two steps. *)
Lemma limit_body_steps (request_data : list (string * json)) (max_blocks : Z) :
  limit_body request_data max_blocks
  = '(fixed_request, count) ←
      (if truthy (default (JArray []) (get "system" request_data)) then
         items ← py_iter (default (JArray []) (get "system" request_data));
         Some (set_key "system" (JArray (limit_items max_blocks items 0).1) request_data,
               (limit_items max_blocks items 0).2)
       else Some (request_data, 0));
    if truthy (default (JArray []) (get "messages" request_data)) then
      msgs ← py_iter (default (JArray []) (get "messages" request_data));
      Some (set_key "messages" (JArray (limit_messages max_blocks msgs count).1)
              fixed_request)
    else Some fixed_request.
Proof.
  unfold limit_body.
  assert (Hmsg : forall fixed_request count,
            (if truthy (default (JArray []) (get "messages" request_data)) then
               msgs ← py_iter (default (JArray []) (get "messages" request_data));
               let '(fixed_messages, _) := limit_messages max_blocks msgs count in
               Some (set_key "messages" (JArray fixed_messages) fixed_request)
             else Some fixed_request)
            = (if truthy (default (JArray []) (get "messages" request_data)) then
                 msgs ← py_iter (default (JArray []) (get "messages" request_data));
                 Some (set_key "messages"
                         (JArray (limit_messages max_blocks msgs count).1) fixed_request)
               else Some fixed_request)).
  { intros fixed_request count.
    destruct (truthy (default (JArray []) (get "messages" request_data))); [|done].
    destruct (py_iter (default (JArray []) (get "messages" request_data))) as [msgs|];
      cbn; [|done].
    by destruct (limit_messages max_blocks msgs count). }
  destruct (truthy (default (JArray []) (get "system" request_data))); cbn;
    [|apply Hmsg].
  destruct (py_iter (default (JArray []) (get "system" request_data))) as [items|];
    cbn; [|done].
  destruct (limit_items max_blocks items 0) as [fs c1]. cbn.
  rewrite get_set_key_ne by done. apply Hmsg.
Qed.

(** X17.  When the caller's count of the cache_control blocks of a request
    is [n] and the limit is not negative, the request returned by
    [limit_cache_control_blocks] counts [min n max_blocks] of them. *)
Theorem limit_leaves_at_most_max_blocks
    (request_data : list (string * json)) (max_blocks n : Z) :
  0 <= max_blocks ->
  cache_count request_data = Some n ->
  cache_count (limit_cache_control_blocks request_data max_blocks)
  = Some (Z.min n max_blocks).
Proof.
  intros Hmax Hn. unfold cache_count in Hn.
  unfold limit_cache_control_blocks. rewrite limit_body_steps.
  destruct (py_iter (default (JArray []) (get "system" request_data)))
    as [items|] eqn:Hs; [|done].
  destruct (py_iter (default (JArray []) (get "messages" request_data)))
    as [msgs|] eqn:Hm; [|done].
  cbn in Hn. injection Hn as <-.
  pose proof (count_items_nonneg items) as Hni.
  pose proof (count_messages_nonneg msgs) as Hnm.
  destruct (limit_items_spec max_blocks items 0) as (_ & _ & Hi).
  destruct (Hi Hmax) as [Hi1 Hi2]. clear Hi.
  destruct (truthy (default (JArray []) (get "system" request_data))) eqn:Hts;
    cbn [mbind option_bind].
  - destruct (limit_messages_spec max_blocks msgs (limit_items max_blocks items 0).2)
      as (_ & _ & Hc).
    destruct Hc as [Hc1 Hc2]; [lia|].
    destruct (truthy (default (JArray []) (get "messages" request_data))) eqn:Htm;
      cbn [mbind option_bind from_option id].
    + unfold cache_count.
      rewrite (get_set_key_ne "system" "messages"), !get_set_key_eq by done.
      cbn. f_equal. lia.
    + apply (py_iter_falsy _ _ Htm) in Hm as Hnil. subst msgs.
      unfold cache_count.
      rewrite get_set_key_eq, (get_set_key_ne "messages" "system"), Hm by done.
      cbn. f_equal. lia.
  - apply (py_iter_falsy _ _ Hts) in Hs as Hnil. subst items.
    destruct (limit_messages_spec max_blocks msgs 0) as (_ & _ & Hc).
    destruct (Hc Hmax) as [Hc1 Hc2]. clear Hc.
    destruct (truthy (default (JArray []) (get "messages" request_data))) eqn:Htm;
      cbn [mbind option_bind from_option id].
    + unfold cache_count.
      rewrite (get_set_key_ne "system" "messages"), Hs, get_set_key_eq by done.
      change (count_items []) with 0 in *. cbn in *. f_equal. lia.
    + apply (py_iter_falsy _ _ Htm) in Hm as Hnil. subst msgs.
      unfold cache_count. rewrite Hs, Hm. cbn.
      change (count_items []) with 0. f_equal. lia.
Qed.

Lemma limit_leaves_at_most_max_blocks_witness :
  cache_count
    (limit_cache_control_blocks
       [("system",
         JArray [JObject [("text", JString "a"); ("cache_control", JNull)];
                 JObject [("text", JString "b"); ("cache_control", JNull)]]);
        ("messages",
         JArray [JObject [("role", JString "user");
                          ("content",
                           JArray [JObject [("text", JString "c");
                                            ("cache_control", JNull)]])]])]
       2)
  = Some (Z.min 3 2).
Proof. apply limit_leaves_at_most_max_blocks; [lia|reflexivity]. Defined.

(** X18.  Limiting a request that has been limited changes nothing. *)
Theorem limit_is_idempotent (request_data : list (string * json)) (max_blocks : Z) :
  limit_cache_control_blocks (limit_cache_control_blocks request_data max_blocks)
    max_blocks
  = limit_cache_control_blocks request_data max_blocks.
Proof.
  unfold limit_cache_control_blocks.
  destruct (limit_body request_data max_blocks) as [r|] eqn:E; cbn [from_option id];
    [|by rewrite E].
  enough (limit_body r max_blocks = Some r) as -> by done.
  rewrite limit_body_steps in E. rewrite limit_body_steps.
  destruct (truthy (default (JArray []) (get "system" request_data))) eqn:Hts.
  - destruct (py_iter (default (JArray []) (get "system" request_data)))
      as [items|] eqn:Hs; [|done].
    cbn [mbind option_bind] in E.
    destruct (limit_items_spec max_blocks items 0) as (Hi1 & Hi2 & _).
    pose proof (truthy_same_length items _ Hi2 (py_iter_truthy _ _ Hts Hs)) as Htf.
    destruct (truthy (default (JArray []) (get "messages" request_data))) eqn:Htm.
    + destruct (py_iter (default (JArray []) (get "messages" request_data)))
        as [msgs|] eqn:Hm; [|done].
      cbn [mbind option_bind] in E. injection E as <-.
      destruct (limit_messages_spec max_blocks msgs (limit_items max_blocks items 0).2)
        as (Hm1 & Hm2 & _).
      pose proof (truthy_same_length msgs _ Hm2 (py_iter_truthy _ _ Htm Hm)) as Htg.
      rewrite (get_set_key_ne "system" "messages"), !get_set_key_eq by done.
      cbn [from_option id]. rewrite Htf, Htg. cbn [py_iter mbind option_bind].
      rewrite Hi1. cbn [fst snd]. rewrite Hm1.
      rewrite (set_key_get "system"); [by rewrite set_key_set_key|].
      by rewrite (get_set_key_ne "system" "messages"), get_set_key_eq.
    + cbn [mbind option_bind] in E. injection E as <-.
      rewrite get_set_key_eq, (get_set_key_ne "messages" "system") by done.
      cbn [from_option id].
      rewrite Htf, Htm. cbn [py_iter mbind option_bind].
      rewrite Hi1. cbn [fst]. by rewrite set_key_set_key.
  - cbn [mbind option_bind] in E.
    destruct (truthy (default (JArray []) (get "messages" request_data))) eqn:Htm.
    + destruct (py_iter (default (JArray []) (get "messages" request_data)))
        as [msgs|] eqn:Hm; [|done].
      cbn [mbind option_bind] in E. injection E as <-.
      destruct (limit_messages_spec max_blocks msgs 0) as (Hm1 & Hm2 & _).
      pose proof (truthy_same_length msgs _ Hm2 (py_iter_truthy _ _ Htm Hm)) as Htg.
      rewrite (get_set_key_ne "system" "messages"), get_set_key_eq by done.
      cbn [from_option id]. rewrite Hts, Htg. cbn [py_iter mbind option_bind].
      rewrite Hm1. by rewrite set_key_set_key.
    + injection E as <-. rewrite Hts, Htm. done.
Qed.


(** A prompt of two Chinese characters, six bytes in UTF-8, gives two
    items. *)
Example chars_of_a_two_character_prompt :
  chars "你好" = [JString "你"; JString "好"] /\ String.length "你好" = 6%nat.
Proof. by vm_compute. Qed.




End CacheControlSpec.

(** ** Errors found in a response body *)

Module ErrorSwitchSpec.
Import Detect ErrorSwitch.

Local Open Scope string_scope.

(** X20.  [should_trigger_api_switch], for whatever [str] and [str.lower]
    compute: a status among 401, 403, 429, 502, 503 and 500 is returned as
    it is, whatever the text says.  Otherwise the lower-cased text
    decides, the groups being tried in the order 401, 403, 429, 502,
    503: a text with "unauthorized", "invalid key" or "authentication" gives
    401, so that 403 is returned only for a text with "403", "forbidden" or
    "access denied" and no keyword of 401; 500 is never derived from the
    text (a text with "500" gives 502 at best); and the flag is set exactly
    when a code is returned. *)
Theorem status_first_then_keywords
    (py_str : json -> string) (py_lower : string -> string)
    (error_info : list (string * json)) :
  let r := should_trigger_api_switch py_str py_lower (Some error_info) in
  let text := error_text py_str py_lower error_info in
  (forall status, switch_status error_info = Some status ->
     error_info <> [] /\ r = (true, Some status)) /\
  (switch_status error_info = None ->
   (any_keyword ["401"; "unauthorized"; "invalid key"; "authentication";
                 "bearer token"; "not authorized"] text = true ->
    error_info <> [] -> r = (true, Some 401)) /\
   (r.2 = Some 403 ->
    any_keyword ["403"; "forbidden"; "access denied"] text = true /\
    any_keyword ["unauthorized"; "invalid key"; "authentication"] text = false) /\
   r.2 <> Some 500 /\
   (r.2 = Some 502 -> any_keyword ["502"; "bad gateway"; "500"; "internal server"] text = true)) /\
  (r.1 = true <-> r.2 <> None) /\
  (forall code, r.2 = Some code -> code ∈ switch_statuses).
Proof.
  cbv zeta. unfold should_trigger_api_switch, switch_status.
  destruct error_info as [|kv rest] eqn:Einfo.
  { cbn. repeat split; done. }
  rewrite <- Einfo.
  assert (Hne : error_info <> []) by (by rewrite Einfo).
  clear Einfo.
  set (text := error_text py_str py_lower error_info).
  assert (Htext :
    let by_text :=
      match List.find (fun entry => any_keyword entry.2 text) error_patterns with
      | Some (error_code, _) => (true, Some error_code)
      | None => (false, @None Z)
      end in
    (any_keyword ["401"; "unauthorized"; "invalid key"; "authentication";
                  "bearer token"; "not authorized"] text = true ->
     by_text = (true, Some 401)) /\
    (by_text.2 = Some 403 ->
     any_keyword ["403"; "forbidden"; "access denied"] text = true /\
     any_keyword ["unauthorized"; "invalid key"; "authentication"] text = false) /\
    by_text.2 <> Some 500 /\
    (by_text.2 = Some 502 ->
     any_keyword ["502"; "bad gateway"; "500"; "internal server"] text = true) /\
    (by_text.1 = true <-> by_text.2 <> None) /\
    (forall code, by_text.2 = Some code -> code ∈ switch_statuses)).
  { unfold error_patterns, any_keyword. cbn [List.find existsb fst snd].
    generalize dependent text. intros text.
    destruct (contains "401" text), (contains "unauthorized" text),
      (contains "invalid key" text), (contains "authentication" text),
      (contains "bearer token" text), (contains "not authorized" text);
      cbn [orb fst snd];
      try solve [repeat split; try done;
                 intros code [= <-]; by apply (bool_decide_unpack _)].
    destruct (contains "403" text), (contains "forbidden" text),
      (contains "access denied" text); cbn [orb fst snd];
      try solve [repeat split; try done;
                 intros code [= <-]; by apply (bool_decide_unpack _)].
    destruct (contains "429" text), (contains "rate limit" text),
      (contains "too many requests" text); cbn [orb fst snd];
      try solve [repeat split; try done;
                 intros code [= <-]; by apply (bool_decide_unpack _)].
    destruct (contains "502" text), (contains "bad gateway" text),
      (contains "500" text), (contains "internal server" text); cbn [orb fst snd];
      try solve [repeat split; try done;
                 intros code [= <-]; by apply (bool_decide_unpack _)].
    destruct (contains "503" text), (contains "service unavailable" text),
      (contains "unavailable" text), (contains "server unavailable" text),
      (contains "overloaded" text), (contains "temporarily unavailable" text);
      cbn [orb fst snd];
      repeat split; try done; intros code [= <-]; by apply (bool_decide_unpack _). }
  cbv zeta in Htext. destruct Htext as (T1 & T2 & T3 & T4 & T5 & T6).
  destruct (get "status" error_info) as [[| |status| | |]|];
    try (destruct error_info; [done|]; repeat split; try done; tauto).
  destruct error_info as [|kv' rest']; [done|].
  case_bool_decide as Hin.
  - repeat split; try done.
    + congruence.
    + intros code [= <-]. done.
  - repeat split; try done; tauto.
Qed.

(** With [Detect.lower] for [str.lower]: a text in capitals whose K is the
    Kelvin sign is matched by "invalid key". *)
Example kelvin_sign_text_gives_401 (py_str : json -> string) :
  should_trigger_api_switch py_str Detect.lower
    (Some [("error", JString "INVALID KEY")])
  = (true, Some 401).
Proof. by vm_compute. Qed.

End ErrorSwitchSpec.

(** ** Conversion of an OpenAI request *)

Module AdapterSpec.
Import Detect CacheControl Adapter.

Local Open Scope string_scope.

Lemma mapped_model_cases (original_model : string) :
  mapped_model original_model
    ∈ ["claude-sonnet-4-20250514"; "claude-sonnet-4-5-20250929";
       "claude-opus-4-1-20250805"].
Proof.
  unfold mapped_model, MODEL_MAPPING. cbn [List.find fst].
  repeat case_bool_decide; set_solver.
Qed.

Lemma is_system_role (msg : list (string * json)) :
  is_system msg = false -> default (JString "user") (get "role" msg) <> JString "system".
Proof.
  unfold is_system. destruct (get "role" msg) as [[| | |role| |]|]; cbn; try done.
  intros Hr%bool_decide_eq_false. congruence.
Qed.

Section Str.

Variable py_str : json -> string.

Lemma _convert_messages_shape (openai_messages claude_messages : list json) :
  _convert_messages py_str openai_messages = Some claude_messages ->
  Forall claude_message claude_messages.
Proof.
  revert claude_messages.
  induction openai_messages as [|msg rest IH]; intros out; cbn.
  { intros [= <-]. constructor. }
  destruct msg as [| | | | |msg]; try done.
  destruct (is_system msg) eqn:Hsys; [apply IH|].
  destruct (_convert_messages py_str rest) as [out'|]; cbn; [|done].
  intros [= <-]. constructor; [|by apply IH].
  eexists _, _. split; [reflexivity|]. by apply is_system_role.
Qed.

Lemma claude_messages_not_openai (messages : list json) :
  Forall claude_message messages -> _is_openai_messages_format (JArray messages) = false.
Proof.
  intros H.
  assert (Hloop : messages_loop messages = false).
  { induction H as [|msg rest (role & content & -> & _) _ IH]; [done|]. exact IH. }
  by destruct messages.
Qed.

(** The request that [convert_request] builds, from its parts. *)
Lemma built_request_not_openai
    (model : string) (max_tokens temperature : json) (messages system : list json)
    (thinking : list (string * json)) :
  model ∈ ["claude-sonnet-4-20250514"; "claude-sonnet-4-5-20250929";
           "claude-opus-4-1-20250805"] ->
  Forall claude_message messages ->
  thinking = [] \/ (exists v, thinking = [("thinking", v)]) ->
  is_openai_request
    (JObject
       ([ ("model", JString model); ("max_tokens", max_tokens);
          ("messages", JArray messages); ("system", JArray system);
          ("temperature", temperature); ("stream", JBool true);
          ("metadata", JObject [("user_id", JString "user_openai_adapter_session")]) ]
        ++ thinking)%list)
  = false.
Proof.
  intros Hmodel Hmsgs Hth.
  set (fields := ([ ("model", JString model); ("max_tokens", max_tokens);
          ("messages", JArray messages); ("system", JArray system);
          ("temperature", temperature); ("stream", JBool true);
          ("metadata", JObject [("user_id", JString "user_openai_adapter_session")]) ]
        ++ thinking)%list).
  assert (Hk1 : has_key "model" fields = true) by reflexivity.
  assert (Hk2 : has_key "messages" fields = true) by reflexivity.
  assert (Hk3 : has_key "temperature" fields = true) by reflexivity.
  assert (Hk4 : has_key "system" fields = true) by reflexivity.
  assert (Hg1 : get "messages" fields = Some (JArray messages)) by reflexivity.
  assert (Hg2 : get "model" fields = Some (JString model)) by reflexivity.
  assert (Hp : existsb (fun param => has_key param fields) openai_specific_params
               = false).
  { subst fields. destruct Hth as [->|[v ->]]; reflexivity. }
  assert (Hname : _is_openai_model_name (JString model) = false).
  { repeat (apply elem_of_cons in Hmodel as [->|Hmodel]; [by vm_compute|]).
    by apply elem_of_nil in Hmodel. }
  assert (Hclaude : existsb (fun pattern => contains pattern (lower model))
                      ["claude-"; "anthropic"] = true).
  { repeat (apply elem_of_cons in Hmodel as [->|Hmodel]; [by vm_compute|]).
    by apply elem_of_nil in Hmodel. }
  assert (Hfeat : _has_claude_format_features (JObject fields) = true).
  { unfold _has_claude_format_features. rewrite Hg1, Hg2. cbn [from_option id].
    destruct (existsb has_claude_block messages); [done|]. by rewrite Hclaude. }
  unfold is_openai_request. fold fields.
  rewrite Hk1, Hk2. cbn [negb orb]. rewrite Hp, Hg1, Hg2. cbn [from_option id].
  rewrite (claude_messages_not_openai _ Hmsgs), Hname, Hk3, Hfeat. reflexivity.
Qed.

Lemma starts_with_append (prefix rest : string) :
  starts_with prefix (prefix +:+ rest) = true.
Proof.
  induction prefix as [|c prefix IH]; [done|].
  change (String c prefix +:+ rest) with (String c (prefix +:+ rest)).
  cbn [starts_with]. by rewrite bool_decide_eq_true_2, IH.
Qed.

(** What [convert_request] returns, from its parts. *)
Lemma convert_request_parts (openai_request converted : list (string * json))
    (enable_thinking : bool) :
  convert_request py_str openai_request = Some (converted, enable_thinking) ->
  exists original_model max_tokens messages text temperature,
    converted
    = ([ ("model", JString (mapped_model original_model));
         ("max_tokens", max_tokens);
         ("messages", JArray messages);
         ("system",
          JArray [JObject [("type", JString "text");
                           ("text", JString text);
                           ("cache_control", JObject [("type", JString "ephemeral")])]]);
         ("temperature", temperature);
         ("stream", JBool true);
         ("metadata", JObject [("user_id", JString "user_openai_adapter_session")]) ]
       ++ (if enable_thinking
           then [("thinking", JObject [("type", JString "enabled");
                                       ("budget_tokens", JNumber 30000)])]
           else []))%list /\
    Forall claude_message messages /\
    starts_with claude_code_system text = true /\
    (enable_thinking = true -> temperature = JNumber 1).
Proof.
  unfold convert_request. intros H.
  destruct (default (JString "gpt-4") (get "model" openai_request))
    as [| | |original_model| |]; try done.
  cbn [mbind option_bind] in H.
  destruct (py_iter (default (JArray []) (get "messages" openai_request)))
    as [openai_messages|]; [|done].
  cbn [mbind option_bind] in H.
  destruct (_convert_messages py_str openai_messages) as [messages|] eqn:Hm; [|done].
  cbn [mbind option_bind] in H.
  destruct (_extract_system_message openai_messages) as [system_content|]; [|done].
  cbn [mbind option_bind] in H. injection H as <- <-.
  eexists original_model, _, messages, _, _. split; [reflexivity|].
  split; [by eapply _convert_messages_shape|]. split.
  - destruct system_content as [content|]; [|done].
    case_bool_decide; [|done]. apply starts_with_append.
  - by intros ->.
Qed.

(** X21.  Whatever [detect_and_convert_request] hands on is not an OpenAI
    request for the detector: a request that is converted comes out as one
    that [is_openai_request] rejects, so that a second pass leaves it
    alone. *)
Theorem converted_request_is_not_converted_again
    (request_data data : json) (is_openai : bool) :
  detect_and_convert_request py_str request_data = Some (is_openai, data) ->
  is_openai_request data = false /\
  detect_and_convert_request py_str data = Some (false, data).
Proof.
  intros H.
  enough (Hd : is_openai_request data = false).
  { split; [done|]. unfold detect_and_convert_request. by rewrite Hd. }
  unfold detect_and_convert_request in H.
  destruct (is_openai_request request_data) eqn:Hr; [|by injection H as <- <-].
  destruct request_data as [| | | | |openai_request]; try done.
  destruct (convert_request py_str openai_request) as [[converted th]|] eqn:Hc; [|done].
  cbn in H. injection H as <- <-.
  destruct (convert_request_parts _ _ _ Hc)
    as (original_model & max_tokens & messages & text & temperature & -> & Hm & _).
  apply built_request_not_openai; [apply mapped_model_cases|done|].
  destruct th; [right; by eexists|by left].
Qed.

(** X22.  Every request that [convert_request] returns streams, names one
    of the three Claude models, carries messages that have a list as
    content and none of which has the role [system], opens its one system
    block with the Claude Code sentence, and has none of the OpenAI-only
    parameters; with a model name that ends in [-thinking] it has a
    [thinking] field and temperature 1, and without it no [thinking]
    field. *)
Theorem converted_request_shape
    (openai_request converted : list (string * json)) (enable_thinking : bool) :
  convert_request py_str openai_request = Some (converted, enable_thinking) ->
  get "stream" converted = Some (JBool true) /\
  (exists model, get "model" converted = Some (JString model) /\
     model ∈ ["claude-sonnet-4-20250514"; "claude-sonnet-4-5-20250929";
              "claude-opus-4-1-20250805"]) /\
  (exists messages, get "messages" converted = Some (JArray messages) /\
     Forall claude_message messages) /\
  (exists text cache_control,
     get "system" converted
     = Some (JArray [JObject [("type", JString "text"); ("text", JString text);
                              ("cache_control", cache_control)]]) /\
     starts_with claude_code_system text = true) /\
  Forall (fun param => has_key param converted = false)
    ["frequency_penalty"; "presence_penalty"; "logit_bias"; "user"; "stop"; "n";
     "best_of"] /\
  (exists original_model,
     default (JString "gpt-4") (get "model" openai_request) = JString original_model /\
     enable_thinking = ends_with "-thinking" original_model) /\
  (if enable_thinking
   then get "temperature" converted = Some (JNumber 1) /\
        has_key "thinking" converted = true
   else has_key "thinking" converted = false).
Proof.
  intros Hc.
  destruct (convert_request_parts _ _ _ Hc)
    as (original_model & max_tokens & messages & text & temperature & -> & Hm & Ht & Hth).
  split; [done|].
  split; [eexists; split; [reflexivity|apply mapped_model_cases]|].
  split; [by eexists|].
  split; [by eexists _, _|].
  split; [destruct enable_thinking; by repeat constructor|].
  split.
  - unfold convert_request in Hc.
    destruct (default (JString "gpt-4") (get "model" openai_request))
      as [| | |original_model'| |]; try done.
    exists original_model'. split; [done|].
    cbn [mbind option_bind] in Hc.
    destruct (py_iter _); [|done]. cbn [mbind option_bind] in Hc.
    destruct (_convert_messages _ _); [|done]. cbn [mbind option_bind] in Hc.
    destruct (_extract_system_message _); [|done]. cbn [mbind option_bind] in Hc.
    by injection Hc as _ <-.
  - destruct enable_thinking; [|done]. split; [|done]. by rewrite Hth.
Qed.

End Str.

Lemma converted_request_is_not_converted_again_witness :
  exists data,
    detect_and_convert_request (fun _ => "") (JObject thinking_request)
    = Some (true, data) /\
    is_openai_request data = false.
Proof.
  eexists. split; [by vm_compute|].
  apply (proj1 (converted_request_is_not_converted_again (fun _ => "")
                  (JObject thinking_request) _ true eq_refl)).
Defined.

Lemma converted_request_shape_witness :
  exists converted,
    convert_request (fun _ => "") thinking_request = Some (converted, true) /\
    get "stream" converted = Some (JBool true).
Proof.
  eexists. split; [by vm_compute|].
  apply (proj1 (converted_request_shape (fun _ => "") thinking_request _ true eq_refl)).
Defined.

End AdapterSpec.

(** ** The entry the selector returns *)

Module SelectorChoice.
Import Pool.

(** The index [get_current_config] ends on: an available primary, or else
    an available backup, when the state of the pool lets the selector look
    for it. *)
Lemma get_current_config_choice (s : settings) (now : Z) (p : pool) :
  configs p <> [] ->
  let r := get_current_config s now p in
  ((exists b, b ∈ get_backup_api_indices p /\ available now p b) \/
   ((is_using_backup p = false \/
     should_check (primary_api_check_interval s) now p = true \/
     index_out_of_range p = true) /\
    exists i, primary_at p i /\ available now p i)) ->
  exists i, current_config_index r.2 = Z.of_nat i /\ available now p i /\
    ((primary_at p i /\ is_using_backup r.2 = false) \/
     (i ∈ get_backup_api_indices p /\ is_using_backup r.2 = true /\
      (is_using_backup p = true -> index_out_of_range p = false ->
       current_config_index p <> Z.of_nat i ->
       last_primary_check_time r.2 = None))) /\
    (is_using_backup p = true -> index_out_of_range p = false ->
     should_check (primary_api_check_interval s) now p = false ->
     is_using_backup r.2 = true).
Proof.
  intros Hne. unfold get_current_config.
  destruct (configs p) as [|c0 cs] eqn:Ec; [done|].
  set (p1 := if index_out_of_range p then _ else p).
  assert (H1 : configs p1 = configs p /\ same_avail now p p1 /\
               (index_out_of_range p = true -> is_using_backup p1 = false) /\
               (index_out_of_range p = false -> p1 = p)).
  { subst p1. destruct (index_out_of_range p) eqn:Eo.
    - destruct (PoolSelector.ensure_current_api_index_post now p)
        as (Hc & Ha & Hr & Hb & Hi); [by rewrite Ec|].
      rewrite (proj2 (PoolSelector.index_in_range _) Hr).
      split; [done|]. split; [done|]. by split.
    - split; [done|]. split; [apply PoolSelector.same_avail_refl|]. by split. }
  clearbody p1. destruct H1 as (Hc1 & Ha1 & Hb1 & Hp1).
  assert (Hbk : get_backup_api_indices p1 = get_backup_api_indices p).
  { unfold get_backup_api_indices. by rewrite Hc1. }
  rewrite Hbk.
  destruct (PoolSelector.available_indices_post now (get_primary_api_indices p1) p1)
    as (Hf2 & Ha2 & _ & Hl).
  destruct (available_indices now (get_primary_api_indices p1) p1) as [l p2] eqn:E2.
  cbn [fst snd] in *.
  destruct Hf2 as (Hc2 & Hx2 & Hb2 & Hs2 & Hk2 & Hw2).
  assert (Hprim : (exists i, primary_at p i /\ available now p i) -> l <> []).
  { intros (i & Hpi & Hav) ->. symmetry in Hl.
    assert (Hin : i ∈ List.filter (fun idx => (is_api_available now idx p1).1)
                      (get_primary_api_indices p1)).
    { apply list_elem_of_In, List.filter_In. split.
      - apply list_elem_of_In, PoolSelector.primary_indices_spec.
        unfold primary_at in *. by rewrite Hc1.
      - destruct Ha1 as [_ Ha1]. by rewrite Ha1. }
    rewrite Hl in Hin. by apply elem_of_nil in Hin. }
  assert (Hlav : forall i, i ∈ l -> available now p i /\ primary_at p i).
  { intros i Hi. rewrite Hl in Hi.
    apply list_elem_of_In, List.filter_In in Hi as [Hi1 Hi2]. split.
    - unfold available. destruct Ha1 as [_ Ha1]. by rewrite <- Ha1.
    - apply list_elem_of_In, PoolSelector.primary_indices_spec in Hi1.
      unfold primary_at in *. by rewrite <- Hc1. }
  assert (Ha12 : same_avail now p p2) by (by eapply PoolSelector.same_avail_trans).
  (* what a search among the backups gives, from a state as available as [p] *)
  assert (Hback : forall q, same_avail now p q ->
            (exists b, b ∈ get_backup_api_indices p /\ available now p b) ->
            exists b, (first_available now (get_backup_api_indices p) q).1 = Some b /\
                      b ∈ get_backup_api_indices p /\ available now p b /\
                      frame q (first_available now (get_backup_api_indices p) q).2).
  { intros q [_ Hq] (b & Hb & Hav).
    destruct (PoolSelector.first_available_post now (get_backup_api_indices p) q)
      as (Hfr & _ & _ & Hr).
    destruct (first_available now (get_backup_api_indices p) q).1 as [b'|].
    - destruct Hr as [Hin Hav']. exists b'. split; [done|]. split; [done|].
      split; [|done]. unfold available. by rewrite <- Hq.
    - specialize (Hr b Hb). unfold available in Hav. rewrite Hq in Hr. congruence. }
  assert (Hfound : forall q b, same_avail now p q ->
            (first_available now (get_backup_api_indices p) q).1 = Some b ->
            b ∈ get_backup_api_indices p /\ available now p b).
  { intros q b [_ Hq] Hb.
    destruct (PoolSelector.first_available_post now (get_backup_api_indices p) q)
      as (_ & _ & _ & Hr).
    rewrite Hb in Hr. destruct Hr as [Hin Hav]. split; [done|].
    unfold available. by rewrite <- Hq. }
  intros Hcond.
  destruct (is_using_backup p2) eqn:Eb2.
  - remember (should_check (primary_api_check_interval s) now p2) as check eqn:Echeck.
    assert (Hcheck : index_out_of_range p = false ->
                     check = should_check (primary_api_check_interval s) now p).
    { intros Ho. subst check. unfold should_check. rewrite Hk2. by rewrite (Hp1 Ho). }
    clear Echeck.
    destruct (if check then head l else None) as [target_idx|] eqn:Eh.
    + destruct check; [|done].
      assert (Hin : target_idx ∈ l).
      { destruct l; [done|]. injection Eh as <-. apply elem_of_cons. by left. }
      destruct (Hlav _ Hin) as [Hav Hpr].
      exists target_idx. cbn. split; [done|]. split; [done|]. split; [by left|].
      intros _ Ho Hno. specialize (Hcheck Ho). congruence.
    + set (p3 := if check then _ else p2).
      assert (Ha3 : same_avail now p p3 /\
                    current_config_index p3 = current_config_index p2).
      { split.
        - eapply PoolSelector.same_avail_trans; [exact Ha12|].
          subst p3. destruct check; by apply PoolSelector.same_avail_fields.
        - subst p3. by destruct check. }
      clearbody p3. destruct Ha3 as [Ha3 Hx3].
      assert (Hex : exists b, b ∈ get_backup_api_indices p /\ available now p b).
      { destruct Hcond as [Hcond|[Hor Hex]]; [done|]. exfalso.
        specialize (Hprim Hex).
        destruct (index_out_of_range p) eqn:Eo.
        - specialize (Hb1 eq_refl). congruence.
        - specialize (Hp1 eq_refl). subst p1.
          destruct Hor as [Hor|[Hor|Hor]]; [congruence| |done].
          rewrite (Hcheck eq_refl), Hor in Eh. by destruct l. }
      destruct (Hback p3 Ha3 Hex) as (b & Hb & Hin & Hav & Hfr).
      destruct (first_available now (get_backup_api_indices p) p3) as [found p4].
      cbn [fst snd] in Hb, Hfr. subst found.
      destruct Hfr as (_ & Hx4 & _).
      exists b. cbn. split; [done|]. split; [done|]. split; [|done]. right.
      split; [done|]. split; [done|].
      intros _ Ho Hne'. rewrite bool_decide_eq_true_2; [done|].
      rewrite Hx4, Hx3, Hx2. by rewrite (Hp1 Ho).
  - destruct l as [|selected_index rest].
    + assert (Hex : exists b, b ∈ get_backup_api_indices p /\ available now p b).
      { destruct Hcond as [Hcond|[_ Hex]]; [done|]. by specialize (Hprim Hex). }
      destruct (Hback p2 Ha12 Hex) as (b & Hb & Hin & Hav & _).
      destruct (first_available now (get_backup_api_indices p) p2) as [found p4].
      cbn [fst] in Hb. subst found. cbn.
      exists b. split; [done|]. split; [done|]. split; [right; done|done].
    + assert (Hin : selected_index ∈ selected_index :: rest)
        by (apply elem_of_cons; by left).
      destruct (Hlav _ Hin) as [Hav Hpr].
      exists selected_index. cbn. split; [done|]. split; [done|]. split; [by left|].
      intros Hb Ho _. rewrite (Hp1 Ho) in Hb2. congruence.
Qed.

Lemma get_current_config_available (s : settings) (now : Z) (p : pool) :
  configs p <> [] ->
  (exists b, b ∈ get_backup_api_indices p /\ available now p b) \/
  ((is_using_backup p = false \/
    should_check (primary_api_check_interval s) now p = true \/
    index_out_of_range p = true) /\
   exists i, primary_at p i /\ available now p i) ->
  let r := get_current_config s now p in
  exists i cfg,
    current_config_index r.2 = Z.of_nat i /\
    r.1 = Ok cfg /\ configs p !! i = Some cfg /\
    available now p i /\
    (primary_at p i \/ i ∈ get_backup_api_indices p).
Proof.
  intros Hne Hcond r.
  destruct (get_current_config_choice s now p Hne Hcond) as (i & Hi & Hav & Hkind & _).
  destruct (PoolSelector.get_current_config_post s now p Hne)
    as (Hc & _ & Hr & He & _).
  fold r in Hi, Hc, Hr, He.
  destruct (PoolSelector.current_entry_ok _ Hr) as (cfg & Hcfg & Hl).
  exists i, cfg. split; [done|]. split; [congruence|].
  split; [by rewrite Hc, Hi, Nat2Z.id in Hl|]. split; [done|].
  destruct Hkind as [[? _]|[? _]]; [by left|by right].
Qed.

(** X23.  On a pool that is not empty [get_current_config] returns an entry
    that is available now, a primary or a backup, whenever a backup is
    available, and also whenever a primary is available and the pool is off
    backup, is due to probe the primaries, or had its index out of range. *)
Theorem selector_returns_an_available_entry (s : settings) (now : Z) (p : pool) :
  configs p <> [] ->
  (exists b, b ∈ get_backup_api_indices p /\ available now p b) \/
  ((is_using_backup p = false \/
    should_check (primary_api_check_interval s) now p = true \/
    index_out_of_range p = true) /\
   exists i, primary_at p i /\ available now p i) ->
  let r := get_current_config s now p in
  exists i cfg,
    current_config_index r.2 = Z.of_nat i /\
    r.1 = Ok cfg /\ configs p !! i = Some cfg /\
    available now p i /\
    (primary_at p i \/ i ∈ get_backup_api_indices p).
Proof.
  intros Hne Hcond r.
  destruct (get_current_config_choice s now p Hne Hcond) as (i & Hi & Hav & Hkind & _).
  destruct (PoolSelector.get_current_config_post s now p Hne)
    as (Hc & _ & Hr & He & _).
  fold r in Hi, Hc, Hr, He.
  destruct (PoolSelector.current_entry_ok _ Hr) as (cfg & Hcfg & Hl).
  exists i, cfg. split; [done|]. split; [congruence|].
  split; [by rewrite Hc, Hi, Nat2Z.id in Hl|]. split; [done|].
  destruct Hkind as [[? _]|[? _]]; [by left|by right].
Qed.

Lemma selector_returns_an_available_entry_witness :
  exists i cfg,
    current_config_index
      (get_current_config Scenarios.default_settings 1000 Scenarios.healthy_pool).2
    = Z.of_nat i /\
    (get_current_config Scenarios.default_settings 1000 Scenarios.healthy_pool).1
    = Ok cfg /\
    configs Scenarios.healthy_pool !! i = Some cfg /\
    available 1000 Scenarios.healthy_pool i /\
    (primary_at Scenarios.healthy_pool i \/
     i ∈ get_backup_api_indices Scenarios.healthy_pool).
Proof.
  apply (selector_returns_an_available_entry Scenarios.default_settings 1000
           Scenarios.healthy_pool).
  - discriminate.
  - right. split; [by left|]. exists 0%nat. split; [|by vm_compute].
    eexists. split; [reflexivity|by vm_compute].
Defined.

(** Outside these conditions the selector may stay where it is: on a backup
    that is cooling down, five seconds after the last probe, it returns the
    backup although the primary is available. *)
Example selector_waits_on_a_cooling_backup :
  let p := SelectorScenarios.waiting_on_backup_pool in
  let r := get_current_config Scenarios.default_settings 1000 p in
  r.1 = Ok Scenarios.entry_B /\
  current_config_index r.2 = 1 /\
  (is_api_available 1000 1 p).1 = false /\
  (is_api_available 1000 0 p).1 = true.
Proof. vm_compute. repeat split. Qed.

(** Errors recorded against one entry leave the records of the others. *)
Lemma record_api_error_iter_other (s : settings) (now idx code : Z) (p : pool)
    (k : nat) (j : Z) :
  j <> idx ->
  api_status (Nat.iter k (fun q => (record_api_error s now idx code q).2) p) !! j
  = api_status p !! j.
Proof.
  intros Hj. induction k as [|k IH]; [done|].
  rewrite Nat.iter_succ.
  set (q := Nat.iter k (fun q => (record_api_error s now idx code q).2) p) in *.
  rewrite <- IH. unfold record_api_error.
  pose proof (PoolRecorder.record_error_core_other idx code now
                (get_api_error_threshold s) (api_cooldown_seconds s)
                (api_status q) (configs q) j Hj) as Ho.
  destruct (_record_error_core _ _ _ _ _ _ _) as [res d']. exact Ho.
Qed.

(** X24.  Failover.  Once the threshold of errors has been recorded at
    [now] against an entry with a fresh record, a selection made before the
    cooldown ends, while some backup other than that entry is available,
    returns an available entry that is not the failed one. *)
Theorem selection_leaves_the_failed_entry
    (s : settings) (now code later : Z) (i b : nat) (p : pool) (k : nat) :
  state_of (api_status p) (Z.of_nat i) = fresh_state ->
  get_api_error_threshold s <= Z.of_nat k ->
  later < now + api_cooldown_seconds s ->
  b ∈ get_backup_api_indices p -> available later p b -> b <> i ->
  let p' := Nat.iter k (fun q => (record_api_error s now (Z.of_nat i) code q).2) p in
  let r := get_current_config s later p' in
  exists j cfg,
    current_config_index r.2 = Z.of_nat j /\
    r.1 = Ok cfg /\ configs p !! j = Some cfg /\
    j <> i /\ available later p j.
Proof.
  intros Hfresh Hk Hlater Hb Hav Hbi p' r.
  destruct (PoolAvailability.record_api_error_iter s now (Z.of_nat i) code p k Hfresh)
    as [Hcf Hst].
  fold p' in Hcf, Hst.
  assert (Hother : forall j, j <> i ->
            (is_api_available later j p').1 = (is_api_available later j p).1).
  { intros j Hj. apply PoolSelector.is_api_available_ext; [done|].
    apply record_api_error_iter_other. lia. }
  assert (Hfailed : (is_api_available later i p').1 = false).
  { destruct (PoolAvailability.is_api_available_spec later i p') as (Hiff & _).
    destruct ((is_api_available later i p').1) eqn:E; [|done].
    apply proj1 in Hiff. destruct (Hiff eq_refl) as (_ & _ & _ & _ & Ht).
    rewrite Hst in Ht.
    pose proof (PoolAvailability.get_api_error_threshold_pos s).
    rewrite bool_decide_eq_false_2, bool_decide_eq_true_2 in Ht by lia.
    specialize (Ht _ eq_refl). lia. }
  assert (Hne : configs p' <> []).
  { rewrite Hcf. intros Hnil. unfold available, is_api_available in Hav.
    rewrite Hnil in Hav. by rewrite lookup_nil in Hav. }
  assert (Hbk : get_backup_api_indices p' = get_backup_api_indices p).
  { unfold get_backup_api_indices. by rewrite Hcf. }
  destruct (get_current_config_available s later p' Hne) as (j & cfg & Hj & Hr & Hl & Havj & _).
  { left. exists b. rewrite Hbk. split; [done|]. unfold available. by rewrite Hother. }
  fold r in Hj, Hr.
  assert (Hji : j <> i).
  { intros ->. unfold available in Havj. congruence. }
  exists j, cfg. split; [done|]. split; [done|]. split; [by rewrite <- Hcf|].
  split; [done|]. unfold available in *. by rewrite <- Hother.
Qed.

Lemma selection_leaves_the_failed_entry_witness :
  let p' := Nat.iter 3
              (fun q => (record_api_error Scenarios.default_settings 1000 0 429 q).2)
              (Scenarios.make_pool [Scenarios.entry_A; Scenarios.entry_B]
                 (_init_status_dict [Scenarios.entry_A; Scenarios.entry_B])
                 0 false None) in
  exists j cfg,
    current_config_index (get_current_config Scenarios.default_settings 1200 p').2
    = Z.of_nat j /\
    (get_current_config Scenarios.default_settings 1200 p').1 = Ok cfg /\
    [Scenarios.entry_A; Scenarios.entry_B] !! j = Some cfg /\
    j <> 0%nat /\
    available 1200
      (Scenarios.make_pool [Scenarios.entry_A; Scenarios.entry_B]
         (_init_status_dict [Scenarios.entry_A; Scenarios.entry_B]) 0 false None) j.
Proof.
  apply (selection_leaves_the_failed_entry Scenarios.default_settings 1000 429 1200
           0 1
           (Scenarios.make_pool [Scenarios.entry_A; Scenarios.entry_B]
              (_init_status_dict [Scenarios.entry_A; Scenarios.entry_B]) 0 false None)
           3);
    try (by vm_compute).
  apply (bool_decide_unpack _). by vm_compute.
Defined.

(** X25.  Two selections in a row need not agree.  On a pool that sits on
    a backup which is no longer available, not yet due to probe the
    primaries, with another backup and a primary both available, the first
    [get_current_config] moves to the available backup and clears the probe
    time; the second one, at the same instant, probes and returns a
    primary. *)
Theorem consecutive_selections_differ (s : settings) (now : Z) (p : pool) :
  configs p <> [] ->
  index_out_of_range p = false ->
  is_using_backup p = true ->
  should_check (primary_api_check_interval s) now p = false ->
  (exists i, primary_at p i /\ available now p i) ->
  (exists b, b ∈ get_backup_api_indices p /\ available now p b) ->
  (forall b, current_config_index p = Z.of_nat b -> ~ available now p b) ->
  let r1 := get_current_config s now p in
  let r2 := get_current_config s now r1.2 in
  exists cfg1 cfg2,
    r1.1 = Ok cfg1 /\ is_backup cfg1 = true /\
    r2.1 = Ok cfg2 /\ is_primary cfg2 = true /\
    cfg1 <> cfg2.
Proof.
  intros Hne Ho Hb Hno Hprim Hback Hcur r1 r2.
  (* the first selection *)
  destruct (get_current_config_choice s now p Hne (or_introl Hback))
    as (i & Hi & Hav & Hkind & Hstay).
  destruct (PoolSelector.get_current_config_post s now p Hne)
    as (Hc & Hsame & Hr & He & _).
  fold r1 in Hi, Hkind, Hstay, Hc, Hsame, Hr, He.
  specialize (Hstay Hb Ho Hno).
  destruct Hkind as [[_ Hoff]|(Hin & _ & Hnone)]; [congruence|].
  assert (Hchk : last_primary_check_time r1.2 = None).
  { apply Hnone; [done|done|]. intros Heq. by apply (Hcur i). }
  destruct (PoolSelector.current_entry_ok _ Hr) as (cfg1 & Hcfg1 & Hl1).
  rewrite Hc, Hi, Nat2Z.id in Hl1.
  assert (Hbk1 : is_backup cfg1 = true).
  { apply PoolSelector.indices_from_spec in Hin as (_ & cfg & Hl & Hp).
    rewrite Nat.sub_0_r, Hl1 in Hl. by injection Hl as <-. }
  (* the second selection *)
  assert (Hne2 : configs r1.2 <> []) by (by rewrite Hc).
  assert (Hprim2 : exists j, primary_at r1.2 j /\ available now r1.2 j).
  { destruct Hprim as (j & Hj & Hjav). exists j. split.
    - unfold primary_at in *. by rewrite Hc.
    - unfold available in *. destruct Hsame as [_ Hsame]. by rewrite Hsame. }
  assert (Hdue : should_check (primary_api_check_interval s) now r1.2 = true).
  { unfold should_check. by rewrite Hchk. }
  destruct (get_current_config_choice s now r1.2 Hne2
              (or_intror (conj (or_intror (or_introl Hdue)) Hprim2)))
    as (j & Hj & Hjav & Hkind2 & _).
  destruct (PoolSelector.get_current_config_post s now r1.2 Hne2)
    as (Hc2 & _ & Hr2 & He2 & _ & Hoff2 & _).
  fold r2 in Hj, Hkind2, Hc2, Hr2, He2, Hoff2.
  specialize (Hoff2 (or_intror (or_introl Hdue)) Hprim2).
  destruct Hkind2 as [[Hpj _]|(_ & Hon & _)]; [|congruence].
  destruct (PoolSelector.current_entry_ok _ Hr2) as (cfg2 & Hcfg2 & Hl2).
  rewrite Hc2, Hj, Nat2Z.id in Hl2.
  assert (Hp2 : is_primary cfg2 = true).
  { destruct Hpj as (cfg & Hl & Hp). rewrite Hl2 in Hl. by injection Hl as <-. }
  exists cfg1, cfg2. split; [congruence|]. split; [done|].
  split; [congruence|]. split; [done|].
  intros ->. unfold is_backup, is_primary in *.
  apply bool_decide_eq_true in Hbk1, Hp2. rewrite Hbk1 in Hp2. done.
Qed.

Lemma consecutive_selections_differ_witness :
  exists cfg1 cfg2,
    (get_current_config Scenarios.default_settings 1000
       SelectorScenarios.backup_gone_pool).1 = Ok cfg1 /\
    is_backup cfg1 = true /\
    (get_current_config Scenarios.default_settings 1000
       (get_current_config Scenarios.default_settings 1000
          SelectorScenarios.backup_gone_pool).2).1 = Ok cfg2 /\
    is_primary cfg2 = true /\
    cfg1 <> cfg2.
Proof.
  apply (consecutive_selections_differ Scenarios.default_settings 1000
           SelectorScenarios.backup_gone_pool); try (by vm_compute).
  - exists 0%nat. split; [|by vm_compute]. eexists. split; [reflexivity|by vm_compute].
  - exists 2%nat. split; [|by vm_compute]. apply (bool_decide_unpack _). by vm_compute.
  - intros b Hb. assert (b = 1%nat) as -> by (cbn in Hb; lia). by vm_compute.
Defined.

(** For a request this means a credential sent to another entry's address:
    the key is read by the first selection, the address by a later one.  On
    the pool above the first upstream send goes to the address of the
    primary with the key of the second backup. *)
Example request_pairs_key_and_address_of_different_entries :
  let r := Scenarios.default_request Scenarios.default_settings []
             (fun _ => Orchestrator.Status 200) SelectorScenarios.backup_gone_pool in
  r.1 = Ok (Orchestrator.Upstream 200) /\
  Orchestrator.attempts r.2
  = [ {| Orchestrator.att_kind := Orchestrator.main_attempt 0;
         Orchestrator.att_base_url := cfg_base_url Scenarios.entry_A;
         Orchestrator.att_key := cfg_key SelectorScenarios.entry_C;
         Orchestrator.att_timeout := Orchestrator.standard_timeout |} ].
Proof. vm_compute. repeat split. Qed.

(** The same for the selector of the responses pool, on a pool of two or
    more entries. *)
Lemma get_current_codex_config_choice (s : settings) (now : Z) (p : pool) :
  (2 <= length (configs p))%nat ->
  let r := get_current_codex_config s now p in
  ((exists b, b ∈ get_codex_backup_api_indices p /\ available now p b) \/
   ((is_using_backup p = false \/
     should_check (primary_api_check_interval s) now p = true) /\
    exists i, primary_at p i /\ available now p i)) ->
  exists i, current_config_index r.2 = Z.of_nat i /\ available now p i /\
            (primary_at p i \/ i ∈ get_codex_backup_api_indices p).
Proof.
  intros Hlen. unfold get_current_codex_config.
  destruct (configs p) as [|c0 [|c1 cs]] eqn:Ec; [cbn in Hlen; lia..|].
  set (p1 := if index_out_of_range p then _ else p).
  assert (H1 : configs p1 = configs p /\ same_avail now p p1 /\
               is_using_backup p1 = is_using_backup p /\
               last_primary_check_time p1 = last_primary_check_time p).
  { subst p1. destruct (index_out_of_range p) eqn:Eo.
    - unfold get_first_available_primary_codex_index,
        get_first_available_primary_api_index.
      destruct (PoolSelector.first_available_post now (get_primary_api_indices p) p)
        as (Hf & Ha & _).
      destruct (first_available now (get_primary_api_indices p) p) as [found p0].
      cbn [fst snd] in *. destruct Hf as (Hc & Hx & Hb & Hs & Hk & Hw).
      assert (Hany : forall k, configs (set_index k p0) = configs p /\
                               same_avail now p (set_index k p0) /\
                               is_using_backup (set_index k p0) = is_using_backup p /\
                               last_primary_check_time (set_index k p0)
                               = last_primary_check_time p).
      { intros k. split; [done|]. split; [|done].
        eapply PoolSelector.same_avail_trans; [exact Ha|].
        by apply PoolSelector.same_avail_fields. }
      destruct found as [i|]; [apply Hany|].
      destruct (get_primary_api_indices p); apply Hany.
    - split; [done|]. split; [apply PoolSelector.same_avail_refl|]. done. }
  clearbody p1. destruct H1 as (Hc1 & Ha1 & Hb1 & Hk1).
  destruct (PoolSelector.available_indices_post now (get_primary_api_indices p) p1)
    as (Hf2 & Ha2 & _ & Hl).
  destruct (available_indices now (get_primary_api_indices p) p1) as [l p2] eqn:E2.
  cbn [fst snd] in *.
  destruct Hf2 as (Hc2 & Hx2 & Hb2 & Hs2 & Hk2 & Hw2).
  assert (Hprim : (exists i, primary_at p i /\ available now p i) -> l <> []).
  { intros (i & Hpi & Hav) ->. symmetry in Hl.
    assert (Hin : i ∈ List.filter (fun idx => (is_api_available now idx p1).1)
                      (get_primary_api_indices p)).
    { apply list_elem_of_In, List.filter_In. split.
      - by apply list_elem_of_In, PoolSelector.primary_indices_spec.
      - destruct Ha1 as [_ Ha1]. by rewrite Ha1. }
    rewrite Hl in Hin. by apply elem_of_nil in Hin. }
  assert (Hlav : forall i, i ∈ l -> available now p i /\ primary_at p i).
  { intros i Hi. rewrite Hl in Hi.
    apply list_elem_of_In, List.filter_In in Hi as [Hi1 Hi2]. split.
    - unfold available. destruct Ha1 as [_ Ha1]. by rewrite <- Ha1.
    - by apply list_elem_of_In, PoolSelector.primary_indices_spec in Hi1. }
  assert (Ha12 : same_avail now p p2) by (by eapply PoolSelector.same_avail_trans).
  assert (Hback : forall q, same_avail now p q ->
            (exists b, b ∈ get_codex_backup_api_indices p /\ available now p b) ->
            exists b,
              (first_available now (get_codex_backup_api_indices p) q).1 = Some b /\
              b ∈ get_codex_backup_api_indices p /\ available now p b).
  { intros q [_ Hq] (b & Hb & Hav).
    destruct (PoolSelector.first_available_post now (get_codex_backup_api_indices p) q)
      as (_ & _ & _ & Hr).
    destruct (first_available now (get_codex_backup_api_indices p) q).1 as [b'|].
    - destruct Hr as [Hin Hav']. exists b'. split; [done|]. split; [done|].
      unfold available. by rewrite <- Hq.
    - specialize (Hr b Hb). unfold available in Hav. rewrite Hq in Hr. congruence. }
  intros Hcond.
  destruct (is_using_backup p2) eqn:Eb2.
  - remember (should_check (primary_api_check_interval s) now p2) as check eqn:Echeck.
    assert (Hcheck : check = should_check (primary_api_check_interval s) now p).
    { subst check. unfold should_check. by rewrite Hk2, Hk1. }
    clear Echeck.
    destruct (if check then head l else None) as [target_idx|] eqn:Eh.
    + destruct check; [|done].
      assert (Hin : target_idx ∈ l).
      { destruct l; [done|]. injection Eh as <-. apply elem_of_cons. by left. }
      destruct (Hlav _ Hin) as [Hav Hpr].
      exists target_idx. cbn. split; [done|]. split; [done|]. by left.
    + set (p3 := if check then _ else p2).
      assert (Ha3 : same_avail now p p3).
      { eapply PoolSelector.same_avail_trans; [exact Ha12|].
        subst p3. destruct check; by apply PoolSelector.same_avail_fields. }
      clearbody p3.
      assert (Hex : exists b, b ∈ get_codex_backup_api_indices p /\ available now p b).
      { destruct Hcond as [Hcond|[Hor Hex]]; [done|]. exfalso.
        specialize (Hprim Hex).
        destruct Hor as [Hor|Hor]; [congruence|].
        rewrite Hcheck, Hor in Eh. by destruct l. }
      destruct (Hback p3 Ha3 Hex) as (b & Hb & Hin & Hav).
      destruct (first_available now (get_codex_backup_api_indices p) p3) as [found p4].
      cbn [fst] in Hb. subst found. cbn.
      exists b. split; [done|]. split; [done|]. by right.
  - destruct l as [|selected_index rest].
    + assert (Hex : exists b, b ∈ get_codex_backup_api_indices p /\ available now p b).
      { destruct Hcond as [Hcond|[_ Hex]]; [done|]. by specialize (Hprim Hex). }
      destruct (Hback p2 Ha12 Hex) as (b & Hb & Hin & Hav).
      destruct (first_available now (get_codex_backup_api_indices p) p2) as [found p4].
      cbn [fst] in Hb. subst found. cbn.
      exists b. split; [done|]. split; [done|]. by right.
    + assert (Hin : selected_index ∈ selected_index :: rest)
        by (apply elem_of_cons; by left).
      destruct (Hlav _ Hin) as [Hav Hpr].
      exists selected_index. cbn. split; [done|]. split; [done|]. by left.
Qed.

(** X26.  On a responses pool of two or more entries
    [get_current_codex_config] returns an entry that is available now
    whenever one of its backups is available (the last entry counts as the
    backup when no entry is marked as one), and also whenever a primary is
    available and the pool is off backup or due to probe the primaries.  A
    pool of one entry returns that entry whatever its state, and leaves the
    pool as it is. *)
Theorem codex_selector_returns_an_available_entry
    (s : settings) (now : Z) (p : pool) :
  ((2 <= length (configs p))%nat ->
   (exists b, b ∈ get_codex_backup_api_indices p /\ available now p b) \/
   ((is_using_backup p = false \/
     should_check (primary_api_check_interval s) now p = true) /\
    exists i, primary_at p i /\ available now p i) ->
   let r := get_current_codex_config s now p in
   exists i cfg,
     current_config_index r.2 = Z.of_nat i /\
     r.1 = Ok cfg /\ configs p !! i = Some cfg /\
     available now p i /\
     (primary_at p i \/ i ∈ get_codex_backup_api_indices p)) /\
  (forall only, configs p = [only] ->
     get_current_codex_config s now p = (Ok only, p)).
Proof.
  split.
  - intros Hlen Hcond r.
    destruct (get_current_codex_config_choice s now p Hlen Hcond) as (i & Hi & Hav & Hkind).
    destruct (PoolSelector.get_current_codex_config_post s now p Hlen)
      as (Hc & _ & Hr & He & _).
    fold r in Hi, Hc, Hr, He.
    destruct (PoolSelector.current_entry_ok _ Hr) as (cfg & Hcfg & Hl).
    exists i, cfg. split; [done|]. split; [congruence|].
    split; [by rewrite Hc, Hi, Nat2Z.id in Hl|]. done.
  - intros only Hc. unfold get_current_codex_config. by rewrite Hc.
Qed.

(** The same pairing arises inside the loop: the switch made after a
    connection error updates the credential and not the address, so that
    the next pass sends the key of the new entry to the address of the old
    one.  Both entries are cooling down, the first send cannot connect and
    every later one is answered 500. *)
Example pass_after_switch_keeps_the_old_address :
  let r := Scenarios.default_request Scenarios.default_settings []
             (fun n => if bool_decide (n = 0)%nat then Orchestrator.ConnectError
                       else Orchestrator.Status 500)
             Scenarios.cooling_pool in
  take 3 (Orchestrator.attempts r.2)
  = [ {| Orchestrator.att_kind := Orchestrator.main_attempt 0;
         Orchestrator.att_base_url := cfg_base_url Scenarios.entry_A;
         Orchestrator.att_key := cfg_key Scenarios.entry_A;
         Orchestrator.att_timeout := Orchestrator.standard_timeout |};
      {| Orchestrator.att_kind := Orchestrator.switch_attempt 0;
         Orchestrator.att_base_url := cfg_base_url Scenarios.entry_B;
         Orchestrator.att_key := cfg_key Scenarios.entry_B;
         Orchestrator.att_timeout := Orchestrator.standard_timeout |};
      {| Orchestrator.att_kind := Orchestrator.main_attempt 1;
         Orchestrator.att_base_url := cfg_base_url Scenarios.entry_A;
         Orchestrator.att_key := cfg_key Scenarios.entry_B;
         Orchestrator.att_timeout := Orchestrator.standard_timeout |} ].
Proof. vm_compute. reflexivity. Qed.

End SelectorChoice.

(** ** The credential and the address of the first send *)

Module KeyAddress.
Import Pool Orchestrator Budget.

(** A selection that may look at the primaries returns one when one is
    available, and leaves the pool off backup. *)
Lemma probing_selection_returns_primary (s : settings) (now : Z) (p : pool) :
  configs p <> [] ->
  is_using_backup p = false \/
  should_check (primary_api_check_interval s) now p = true \/
  index_out_of_range p = true ->
  (exists i, primary_at p i /\ available now p i) ->
  let r := get_current_config s now p in
  exists cfg,
    r.1 = Ok cfg /\ is_primary cfg = true /\ cfg ∈ configs p /\
    configs r.2 = configs p /\ same_avail now p r.2 /\ is_using_backup r.2 = false.
Proof.
  intros Hne Hor Hprim r.
  destruct (SelectorChoice.get_current_config_choice s now p Hne
              (or_intror (conj Hor Hprim))) as (j & Hj & Hjav & Hkind & _).
  destruct (PoolSelector.get_current_config_post s now p Hne)
    as (Hc & Hsame & Hr & He & _ & Hoff & _).
  fold r in Hj, Hkind, Hc, Hsame, Hr, He, Hoff.
  specialize (Hoff Hor Hprim).
  destruct Hkind as [[Hpj _]|(_ & Hon & _)]; [|congruence].
  destruct (PoolSelector.current_entry_ok _ Hr) as (cfg & Hcfg & Hl).
  rewrite Hc, Hj, Nat2Z.id in Hl.
  exists cfg. split; [congruence|]. split.
  { destruct Hpj as (cfg' & Hl' & Hp). rewrite Hl in Hl'. by injection Hl' as <-. }
  split; [by eapply list_elem_of_lookup_2|]. done.
Qed.

(** A selection that has to leave an unavailable backup, without being due
    to probe, returns another backup and clears the probe time. *)
Lemma waiting_selection_changes_backup (s : settings) (now : Z) (p : pool) :
  configs p <> [] ->
  index_out_of_range p = false ->
  is_using_backup p = true ->
  should_check (primary_api_check_interval s) now p = false ->
  (exists b, b ∈ get_backup_api_indices p /\ available now p b) ->
  (forall b, current_config_index p = Z.of_nat b -> ~ available now p b) ->
  let r := get_current_config s now p in
  exists cfg,
    r.1 = Ok cfg /\ is_backup cfg = true /\ cfg ∈ configs p /\
    configs r.2 = configs p /\ same_avail now p r.2 /\
    last_primary_check_time r.2 = None.
Proof.
  intros Hne Ho Hb Hno Hback Hcur r.
  destruct (SelectorChoice.get_current_config_choice s now p Hne (or_introl Hback))
    as (i & Hi & Hav & Hkind & Hstay).
  destruct (PoolSelector.get_current_config_post s now p Hne)
    as (Hc & Hsame & Hr & He & _).
  fold r in Hi, Hkind, Hstay, Hc, Hsame, Hr, He.
  specialize (Hstay Hb Ho Hno).
  destruct Hkind as [[_ Hoff]|(Hin & _ & Hnone)]; [congruence|].
  destruct (PoolSelector.current_entry_ok _ Hr) as (cfg & Hcfg & Hl).
  rewrite Hc, Hi, Nat2Z.id in Hl.
  exists cfg. split; [congruence|]. split.
  { apply PoolSelector.indices_from_spec in Hin as (_ & cfg' & Hl' & Hp).
    rewrite Nat.sub_0_r, Hl in Hl'. by injection Hl' as <-. }
  split; [by eapply list_elem_of_lookup_2|]. split; [done|]. split; [done|].
  apply Hnone; [done|done|]. intros Heq. by apply (Hcur i).
Qed.

Lemma primary_available_transfer (now : Z) (p p' : pool) :
  configs p' = configs p -> same_avail now p p' ->
  (exists i, primary_at p i /\ available now p i) ->
  exists i, primary_at p' i /\ available now p' i.
Proof.
  intros Hc [_ Hsame] (i & Hi & Hav). exists i. split.
  - unfold primary_at in *. by rewrite Hc.
  - unfold available in *. by rewrite Hsame.
Qed.

Section Request.

Variable s : settings.
Variable now : Z.
Variable strategy_retry_status_codes switch_api_codes no_retry_codes : list Z.
Variable read_error_strategy connect_error_strategy read_timeout_strategy : string.
Variable ladder : list retry_config.
Variable world : nat -> outcome.
Variable cfgs : list api_config.

Local Abbreviation pass_after_send :=
  (pass_after_send s now strategy_retry_status_codes switch_api_codes no_retry_codes
     read_error_strategy connect_error_strategy read_timeout_strategy ladder world).
Local Abbreviation iteration :=
  (iteration s now strategy_retry_status_codes switch_api_codes no_retry_codes
     read_error_strategy connect_error_strategy read_timeout_strategy ladder world).
Local Abbreviation attempt_loop :=
  (attempt_loop s now strategy_retry_status_codes switch_api_codes no_retry_codes
     read_error_strategy connect_error_strategy read_timeout_strategy ladder world).
Local Abbreviation handle_request :=
  (handle_request s now strategy_retry_status_codes switch_api_codes no_retry_codes
     read_error_strategy connect_error_strategy read_timeout_strategy ladder world).

Lemma bind_ok {A B} (m : M A) (k : A -> M B) (st st' : loop_state) (a : A) :
  m st = (Ok a, st') -> (m ≫= k) st = k a st'.
Proof. intros E. unfold mbind, M_bind. by rewrite E. Qed.

Lemma on_pool_ok {A} (f : pool -> result A * pool) (st : loop_state) (a : A) :
  (f (ls_pool st)).1 = Ok a ->
  on_pool f st = (Ok a, set_pool (f (ls_pool st)).2 st).
Proof. unfold on_pool. destruct (f (ls_pool st)) as [r p']. cbn. by intros ->. Qed.

(** A computation whose first send is [a]. *)
Lemma first_send_bind {A B} (Q : A -> result B -> nat -> Prop)
    (m : M A) (k : A -> M B) (st : loop_state) (a : attempt) :
  configs (ls_pool (m st).2) = cfgs ->
  (exists extra, attempts (m st).2 = attempts st ++ a :: extra) ->
  (forall x, sends cfgs (Q x) (k x)) ->
  configs (ls_pool ((m ≫= k) st).2) = cfgs /\
  exists extra, attempts ((m ≫= k) st).2 = attempts st ++ a :: extra.
Proof.
  intros Hc (e1 & E1) Hk. unfold mbind, M_bind.
  destruct (m st) as [[x|e] st']; cbn [fst snd] in *.
  - destruct (Hk x st' Hc) as (Hc2 & e2 & E2 & _). split; [done|].
    exists (e1 ++ e2). by rewrite E2, E1, <- app_assoc.
  - split; [done|]. by exists e1.
Qed.

Lemma sends_pass_after_send (i rest : nat) (o : outcome) :
  sends cfgs (fun _ _ => True) (pass_after_send i rest o).
Proof.
  unfold Budget.pass_after_send.
  assert (Hh : forall e,
            sends cfgs (fun _ _ => True)
              (handler s now switch_api_codes read_error_strategy
                 connect_error_strategy read_timeout_strategy ladder world i rest e)).
  { intros e. eapply BudgetSpec.sends_weaken; [|apply BudgetSpec.sends_handler]. done. }
  assert (Hq : forall m : M flow,
            sends cfgs quiet m -> sends cfgs (fun _ _ => True) m).
  { intros m. by apply BudgetSpec.sends_weaken. }
  destruct o as [status_code| | | |]; try apply Hh.
  case_bool_decide; [apply Hh|].
  apply Hq.
  case_bool_decide;
    [apply BudgetSpec.sends_seq;
       [apply BudgetSpec.quiet_record_current|intros _|done]; BudgetSpec.quiet0|].
  case_bool_decide.
  { apply BudgetSpec.sends_seq; [BudgetSpec.quiet0|intros _|done].
    apply BudgetSpec.sends_seq; [apply BudgetSpec.quiet_smart_switch|intros b|done].
    apply BudgetSpec.sends_seq; [BudgetSpec.quiet0|intros _|done].
    apply BudgetSpec.sends_seq; [|intros _|done]; [|BudgetSpec.quiet0].
    destruct b; [|BudgetSpec.quiet0].
    apply BudgetSpec.sends_seq; [apply BudgetSpec.quiet_validate|intros _|done].
    apply BudgetSpec.sends_seq;
      [apply BudgetSpec.quiet_build_upstream_url|intros url|done].
    apply BudgetSpec.sends_seq; [BudgetSpec.quiet0|intros _|done].
    apply BudgetSpec.quiet_get_current_api_info. }
  BudgetSpec.quiet0.
Qed.

(** A pass whose selection returns an entry sends first to the address and
    with the credential the request holds at that moment. *)
Lemma iteration_first (i rest : nat) (st : loop_state) (cfg : api_config) :
  configs (ls_pool st) = cfgs ->
  (get_current_config s now (ls_pool st)).1 = Ok cfg ->
  configs (ls_pool (iteration i rest st).2) = cfgs /\
  exists extra,
    attempts (iteration i rest st).2
    = attempts st ++
      {| att_kind := main_attempt i; att_base_url := upstream_url st;
         att_key := authorization st; att_timeout := standard_timeout |} :: extra.
Proof.
  intros Hst E.
  assert (Hc : configs (get_current_config s now (ls_pool st)).2 = cfgs).
  { by rewrite BudgetSpec.get_current_config_configs. }
  set (st2 := add_attempt
                {| att_kind := main_attempt i; att_base_url := upstream_url st;
                   att_key := authorization st; att_timeout := standard_timeout |}
                (set_pool (get_current_config s now (ls_pool st)).2 st)).
  assert (Eq : iteration i rest st
               = pass_after_send i rest (world (length (attempts st))) st2).
  { unfold Orchestrator.iteration.
    rewrite (bind_ok _ _ _ _ _ (on_pool_ok _ _ _ E)). reflexivity. }
  rewrite Eq.
  destruct (sends_pass_after_send i rest (world (length (attempts st))) st2 Hc)
    as (Hc2 & extra & E2 & _).
  split; [done|]. exists extra. rewrite E2. subst st2. cbn.
  by rewrite <- app_assoc.
Qed.

Lemma attempt_loop_first (rest i : nat) (st : loop_state) (cfg : api_config) :
  configs (ls_pool st) = cfgs ->
  (get_current_config s now (ls_pool st)).1 = Ok cfg ->
  configs (ls_pool (attempt_loop rest i st).2) = cfgs /\
  exists extra,
    attempts (attempt_loop rest i st).2
    = attempts st ++
      {| att_kind := main_attempt i; att_base_url := upstream_url st;
         att_key := authorization st; att_timeout := standard_timeout |} :: extra.
Proof.
  intros Hst E. destruct (iteration_first i rest st cfg Hst E) as [Hc Hx].
  destruct rest as [|rest]; cbn [Orchestrator.attempt_loop].
  - apply (first_send_bind (fun _ _ _ => True)); [done|done|].
    intros [|c|]; by apply BudgetSpec.sends_ret.
  - apply (first_send_bind (fun _ _ _ => True)); [done|done|].
    intros [|c|]; try (by apply BudgetSpec.sends_ret).
    eapply BudgetSpec.sends_weaken; [|apply BudgetSpec.sends_attempt_loop]. done.
Qed.

End Request.

(** X27.  A request can send the credential of one entry to the address of
    another.  On a pool that sits on a backup which is no longer available,
    not yet due to probe the primaries, with another backup and a primary
    both available, the credential is the one of a backup (read by the
    first selection, which also clears the probe time) and the address is
    the one of a primary (read by a later selection, which probes): the
    first upstream send of the request carries that pair. *)
Theorem request_sends_backup_key_to_primary_address
    (s : settings) (now : Z)
    (strategy_retry_status_codes switch_api_codes no_retry_codes : list Z)
    (read_error_strategy connect_error_strategy read_timeout_strategy : string)
    (ladder : list retry_config) (world : nat -> outcome) (st : loop_state) :
  configs (ls_pool st) <> [] ->
  index_out_of_range (ls_pool st) = false ->
  is_using_backup (ls_pool st) = true ->
  should_check (primary_api_check_interval s) now (ls_pool st) = false ->
  (exists i, primary_at (ls_pool st) i /\ available now (ls_pool st) i) ->
  (exists b, b ∈ get_backup_api_indices (ls_pool st) /\ available now (ls_pool st) b) ->
  (forall b, current_config_index (ls_pool st) = Z.of_nat b ->
             ~ available now (ls_pool st) b) ->
  let r := handle_request s now strategy_retry_status_codes switch_api_codes
             no_retry_codes read_error_strategy connect_error_strategy
             read_timeout_strategy ladder world st in
  exists cfg1 cfg2 rest,
    cfg1 ∈ configs (ls_pool st) /\ is_backup cfg1 = true /\
    cfg2 ∈ configs (ls_pool st) /\ is_primary cfg2 = true /\
    attempts r.2
    = attempts st ++
      {| att_kind := main_attempt 0; att_base_url := cfg_base_url cfg2;
         att_key := cfg_key cfg1; att_timeout := standard_timeout |} :: rest.
Proof.
  intros Hne Ho Hb Hno Hprim Hback Hcur r.
  (* the selection that reads the credential *)
  destruct (waiting_selection_changes_backup s now (ls_pool st)
              Hne Ho Hb Hno Hback Hcur)
    as (cfg1 & E1 & Hbk1 & Hin1 & Hc1 & Hs1 & Hnone).
  set (r1 := get_current_config s now (ls_pool st)) in *.
  (* the selection of [get_current_api_info] *)
  assert (Hne1 : configs r1.2 <> []) by (by rewrite Hc1).
  assert (Hprim1 := primary_available_transfer now _ _ Hc1 Hs1 Hprim).
  assert (Hdue : should_check (primary_api_check_interval s) now r1.2 = true).
  { unfold should_check. by rewrite Hnone. }
  destruct (probing_selection_returns_primary s now r1.2 Hne1
              (or_intror (or_introl Hdue)) Hprim1)
    as (cfgA & E2 & _ & Hin2 & Hc2 & Hs2 & Hoff2).
  set (r2 := get_current_config s now r1.2) in *.
  (* the selection that reads the address *)
  assert (Hne2 : configs r2.2 <> []) by (by rewrite Hc2).
  assert (Hprim2 := primary_available_transfer now _ _ Hc2 Hs2 Hprim1).
  destruct (probing_selection_returns_primary s now r2.2 Hne2
              (or_introl Hoff2) Hprim2)
    as (cfg2 & E3 & Hp2 & Hin3 & Hc3 & Hs3 & Hoff3).
  set (r3 := get_current_config s now r2.2) in *.
  (* the selection of the first pass *)
  assert (Hne3 : configs r3.2 <> []) by (by rewrite Hc3).
  assert (Hprim3 := primary_available_transfer now _ _ Hc3 Hs3 Hprim2).
  destruct (probing_selection_returns_primary s now r3.2 Hne3
              (or_introl Hoff3) Hprim3)
    as (cfg4 & E4 & _).
  (* the steps before the loop *)
  set (stA := set_authorization (cfg_key cfg1) (set_pool r1.2 st)).
  set (stB := set_pool r2.2 stA).
  set (stD := set_upstream_url (cfg_base_url cfg2) (set_pool r3.2 stB)).
  assert (EA : validate_and_replace_user_key s now st = (Ok tt, stA)).
  { unfold validate_and_replace_user_key.
    by rewrite (bind_ok _ _ _ _ _ (on_pool_ok _ _ _ E1)). }
  assert (EB : get_current_api_info s now stA = (Ok tt, stB)).
  { unfold get_current_api_info.
    rewrite (bind_ok _ _ _ _ _ (on_pool_ok (get_current_config s now) stA cfgA E2)).
    fold r2. fold stB.
    transitivity (((if bool_decide (cfgA ∈ configs r2.2) then mret tt
                    else throw ValueError) : M unit) stB); [reflexivity|].
    rewrite bool_decide_eq_true_2; [done|]. by rewrite Hc2. }
  exists cfg1, cfg2.
  assert (Hfirst :
    configs (ls_pool r.2) = configs (ls_pool st) /\
    exists rest,
      attempts r.2
      = attempts stD ++
        {| att_kind := main_attempt 0; att_base_url := upstream_url stD;
           att_key := authorization stD; att_timeout := standard_timeout |} :: rest).
  { assert (Er : exists K : loop_exit -> M served,
              r = (attempt_loop s now strategy_retry_status_codes switch_api_codes
                     no_retry_codes read_error_strategy connect_error_strategy
                     read_timeout_strategy ladder world
                     (Z.to_nat (get_max_retries s) - 1) 0 ≫= K) stD /\
              forall x, sends (configs (ls_pool st)) (fun _ _ => True) (K x)).
    { eexists. split.
      - subst r. unfold handle_request.
        rewrite (bind_ok _ _ _ _ _ EA), (bind_ok _ _ _ _ _ EB).
        unfold build_upstream_url at 1.
        rewrite (bind_ok _ _ stB (set_pool r3.2 stB) (cfg_base_url cfg2)).
        2:{ by rewrite (bind_ok _ _ _ _ _
                          (on_pool_ok (get_current_config s now) stB cfg2 E3)). }
        rewrite (bind_ok (modify (set_upstream_url (cfg_base_url cfg2))) _
                   (set_pool r3.2 stB) stD tt eq_refl).
        reflexivity.
      - intros [c|]; [|by apply BudgetSpec.sends_ret].
        apply (BudgetSpec.sends_bind _ (fun _ _ => True) (fun _ _ _ => True));
          [|intros v; by apply BudgetSpec.sends_ret|done|done].
        eapply BudgetSpec.sends_weaken; [|apply BudgetSpec.sends_after_loop]. done. }
    destruct Er as (K & -> & HK).
    assert (HcD : configs (ls_pool stD) = configs (ls_pool st)).
    { change (configs r3.2 = configs (ls_pool st)). congruence. }
    destruct (attempt_loop_first s now strategy_retry_status_codes switch_api_codes
                no_retry_codes read_error_strategy connect_error_strategy
                read_timeout_strategy ladder world (configs (ls_pool st))
                (Z.to_nat (get_max_retries s) - 1) 0 stD cfg4 HcD E4) as [Hl1 Hl2].
    by apply (first_send_bind (configs (ls_pool st)) (fun _ _ _ => True)). }
  destruct Hfirst as [_ (rest & Hrest)]. exists rest.
  split; [done|]. split; [done|].
  split; [rewrite <- Hc1, <- Hc2; done|]. split; [done|]. exact Hrest.
Qed.

Lemma request_sends_backup_key_to_primary_address_witness :
  exists cfg1 cfg2 rest,
    cfg1 ∈ configs SelectorScenarios.backup_gone_pool /\ is_backup cfg1 = true /\
    cfg2 ∈ configs SelectorScenarios.backup_gone_pool /\ is_primary cfg2 = true /\
    attempts
      (Scenarios.default_request Scenarios.default_settings []
         (fun _ => Status 200) SelectorScenarios.backup_gone_pool).2
    = [] ++
      {| att_kind := main_attempt 0; att_base_url := cfg_base_url cfg2;
         att_key := cfg_key cfg1; att_timeout := standard_timeout |} :: rest.
Proof.
  apply (request_sends_backup_key_to_primary_address Scenarios.default_settings 1000
           Scenarios.default_strategy_retry_codes Scenarios.default_switch_api_codes
           [] "switch_api" "switch_api" "strategy_retry" [] (fun _ => Status 200)
           (initial_loop_state SelectorScenarios.backup_gone_pool));
    try (by vm_compute).
  - exists 0%nat. split; [|by vm_compute]. eexists. split; [reflexivity|by vm_compute].
  - exists 2%nat. split; [|by vm_compute]. apply (bool_decide_unpack _). by vm_compute.
  - intros b Hb. assert (b = 1%nat) as -> by (cbn in Hb; lia). by vm_compute.
Defined.

End KeyAddress.

(** ** The strategy-retry path of a request *)

Module LadderSpec.
Import Pool Orchestrator.

Lemma get_current_config_ok (s : settings) (now : Z) (p : pool) :
  exists cfg, (get_current_config s now p).1 = Ok cfg.
Proof.
  destruct (decide (configs p = [])) as [He|Hne].
  - unfold get_current_config. rewrite He. eauto.
  - destruct (PoolSelector.get_current_config_post s now p Hne)
      as (_ & _ & Hr & He & _).
    destruct (PoolSelector.current_entry_ok _ Hr) as (cfg & Hcfg & _).
    exists cfg. congruence.
Qed.

Lemma record_api_error_ok (s : settings) (now i c : Z) (p : pool) :
  0 <= i < Z.of_nat (length (configs p)) ->
  record_api_error s now i c p = (Ok tt, recorded s false now i c p).
Proof.
  intros Hi. unfold recorded, record_api_error, _record_error_core.
  destruct (py_index_in_range (configs p) i Hi) as (cfg & -> & _). done.
Qed.

Section Request.

Variable s : settings.
Variable now : Z.
Variable strategy_retry_status_codes switch_api_codes no_retry_codes : list Z.
Variable read_error_strategy connect_error_strategy read_timeout_strategy : string.
Variable ladder : list retry_config.
Variable world : nat -> outcome.

Local Abbreviation handler :=
  (handler s now switch_api_codes read_error_strategy connect_error_strategy
     read_timeout_strategy ladder world).
Local Abbreviation is_strategy_error :=
  (is_strategy_error read_error_strategy connect_error_strategy
     read_timeout_strategy).
Local Abbreviation iteration :=
  (iteration s now strategy_retry_status_codes switch_api_codes no_retry_codes
     read_error_strategy connect_error_strategy read_timeout_strategy ladder world).
Local Abbreviation attempt_loop :=
  (attempt_loop s now strategy_retry_status_codes switch_api_codes no_retry_codes
     read_error_strategy connect_error_strategy read_timeout_strategy ladder world).

(** Every pass starts with a send to the address and with the credential
    the request holds at that moment. *)
Lemma pass_sends_main_first (i rest : nat) (st : loop_state) :
  exists extra,
    attempts (iteration i rest st).2
    = attempts st ++
      {| att_kind := main_attempt i; att_base_url := upstream_url st;
         att_key := authorization st; att_timeout := standard_timeout |} :: extra.
Proof.
  destruct (get_current_config_ok s now (ls_pool st)) as [cfg Hcfg].
  by destruct (KeyAddress.iteration_first s now strategy_retry_status_codes
                 switch_api_codes no_retry_codes read_error_strategy
                 connect_error_strategy read_timeout_strategy ladder world
                 (configs (ls_pool st)) i rest st cfg eq_refl Hcfg).
Qed.

(** A pass that ends with a response ends the loop with it. *)
Lemma attempt_loop_break (rest i : nat) (st st' : loop_state) (code : Z) :
  iteration i rest st = (Ok (Break code), st') ->
  attempt_loop rest i st = (Ok (Responded code), st').
Proof.
  intros E. destruct rest; cbn [Orchestrator.attempt_loop];
    rewrite OrchestratorSpec.bind_eq, E; reflexivity.
Qed.

(** A rung that answers below 400 ends the pass, whichever it is, with that
    response and with the pool as it was. *)
Lemma handler_rung_success (i rest : nat) (e : outcome) (st : loop_state) (code : Z) :
  is_strategy_error e = true ->
  (strategy_retry_attempt ladder world i (set_client_closed true st)).1
  = Ok (Some code) ->
  code < 400 /\
  (handler i rest e st).1 = Ok (Break code) /\
  ls_pool (handler i rest e st).2 = ls_pool st.
Proof.
  intros He Hr. rewrite OrchestratorSpec.handler_strategy_error by done.
  do 2 rewrite OrchestratorSpec.bind_eq.
  pose proof (OrchestratorSpec.strategy_retry_attempt_pool ladder world i
                (set_client_closed true st)) as Hp.
  destruct (OrchestratorSpec.strategy_retry_attempt_result ladder world i
              (set_client_closed true st)) as [(Hr' & _)|(code' & Hr' & Hc)];
    [congruence|].
  assert (code' = code) as -> by congruence.
  destruct (strategy_retry_attempt ladder world i (set_client_closed true st))
    as [r st1]; cbn [fst snd] in *; subst r. cbn. done.
Qed.

(** The last pass, with the rung failing too or no rung left: the error is
    recorded against the current entry, and the last-resort loop runs from
    the pool with that record when a status is configured as [switch_api]. *)
Lemma handler_exhausted (i : nat) (e : outcome) (st : loop_state) :
  is_strategy_error e = true ->
  (strategy_retry_attempt ladder world i (set_client_closed true st)).1 = Ok None ->
  0 <= current_config_index (ls_pool st)
    < Z.of_nat (length (configs (ls_pool st))) ->
  let st1 := (strategy_retry_attempt ladder world i (set_client_closed true st)).2 in
  let p1 := recorded s false now (current_config_index (ls_pool st)) 503
              (ls_pool st) in
  handler i 0 e st
  = (if bool_decide (switch_api_codes <> []) then
       r ← extended_retry s now world (3 * length (configs p1));
       match r with
       | Some code => mret (Break code)
       | None => mret Return502
       end
     else mret Return502)
      (set_pool p1
         (set_last_error (last_error_status_code st1) (Some strategy_retry) st1)).
Proof.
  intros He Hr Hidx st1 p1. rewrite OrchestratorSpec.handler_strategy_error by done.
  do 2 rewrite OrchestratorSpec.bind_eq.
  pose proof (OrchestratorSpec.strategy_retry_attempt_pool ladder world i
                (set_client_closed true st)) as Hp.
  subst st1.
  destruct (strategy_retry_attempt ladder world i (set_client_closed true st))
    as [r st1]; cbn [fst snd] in *; subst r.
  cbv beta iota. rewrite OrchestratorSpec.note_strategy_retry. cbv beta iota.
  unfold final_failure. rewrite OrchestratorSpec.bind_eq.
  set (stN := set_last_error (last_error_status_code st1) (Some strategy_retry) st1).
  assert (Hrec : record_after_retry s now stN = (Ok tt, set_pool p1 stN)).
  { unfold record_after_retry. rewrite OrchestratorSpec.bind_eq.
    unfold get. cbv beta iota.
    change (should_record_error_after_retry stN) with true.
    change (last_error_strategy stN) with (Some strategy_retry). cbv beta iota.
    unfold record_current, on_pool.
    change (ls_pool stN) with (ls_pool st1). rewrite Hp.
    change (ls_pool (set_client_closed true st)) with (ls_pool st).
    by rewrite (record_api_error_ok s now _ 503 (ls_pool st) Hidx). }
  rewrite Hrec. cbv beta iota.
  case_bool_decide; [|done].
  rewrite OrchestratorSpec.bind_eq. reflexivity.
Qed.

(** Below the threshold the last-resort loop has nothing to switch. *)
Lemma extended_retry_below_threshold (fuel : nat) (st : loop_state) (a : api_state) :
  api_status (ls_pool st) !! current_config_index (ls_pool st) = Some a ->
  error_count a < get_api_error_threshold s ->
  (extended_retry s now world fuel st).1 = Ok None /\
  ls_pool (extended_retry s now world fuel st).2 = ls_pool st.
Proof.
  intros Ha Hlt. destruct fuel as [|fuel]; [done|].
  cbn [extended_retry]. rewrite OrchestratorSpec.bind_eq.
  unfold smart_switch. rewrite OrchestratorSpec.bind_eq.
  unfold on_pool, smart_switch_api. rewrite Ha.
  rewrite bool_decide_eq_true_2 by done. cbn. by destruct (ls_pool st).
Qed.

End Request.

(** C4, amended.  The ladder: a request makes at most [min k max_retries]
    ladder attempts, [k] the length of the ladder; every one of them goes to
    the rung of its pass, with that rung's URL and credential and under the
    strategy-retry timeout; and every pass starts with a send to the main
    entry.  The pool: a ladder attempt leaves it as it is, and so does the
    handling of a strategy-retry error on a pass that is not the last, which
    ends with the rung's response below 400 or notes the error and goes on.
    A rung that answers below 400 ends its pass and the loop with that
    response, and the code after the loop then clears the record of the
    current entry.  On the last pass, when the rung fails too or none is
    left, one error is recorded against the current entry (its count grows
    by one, with the cooldown set at the threshold).  With no [switch_api]
    status configured, or with the entry still below the threshold, that is
    all the last pass does to the pool and the request ends in the proxy's
    502; otherwise the last-resort loop runs from the pool with that
    record. *)
Theorem strategy_retry_ladder
    (s : settings) (now : Z)
    (strategy_retry_status_codes switch_api_codes no_retry_codes : list Z)
    (read_error_strategy connect_error_strategy read_timeout_strategy : string)
    (ladder : list retry_config) (world : nat -> outcome) :
  let handler :=
    handler s now switch_api_codes read_error_strategy connect_error_strategy
      read_timeout_strategy ladder world in
  let iteration :=
    iteration s now strategy_retry_status_codes switch_api_codes no_retry_codes
      read_error_strategy connect_error_strategy read_timeout_strategy ladder
      world in
  let attempt_loop :=
    attempt_loop s now strategy_retry_status_codes switch_api_codes no_retry_codes
      read_error_strategy connect_error_strategy read_timeout_strategy ladder
      world in
  let is_strategy_error :=
    is_strategy_error read_error_strategy connect_error_strategy
      read_timeout_strategy in
  (* the ladder attempts of a request *)
  adds ladder (Nat.min (length ladder) (Z.to_nat (get_max_retries s)))
    (handle_request s now strategy_retry_status_codes switch_api_codes
       no_retry_codes read_error_strategy connect_error_strategy
       read_timeout_strategy ladder world) /\
  (* every pass sends to the main entry first *)
  (forall i rest st,
     exists extra,
       attempts (iteration i rest st).2
       = attempts st ++
         {| att_kind := main_attempt i; att_base_url := upstream_url st;
            att_key := authorization st; att_timeout := standard_timeout |}
         :: extra) /\
  (* a ladder attempt and the pool *)
  (forall i st, ls_pool (strategy_retry_attempt ladder world i st).2 = ls_pool st) /\
  (* a pass that is not the last *)
  (forall i rest e st,
     is_strategy_error e = true ->
     let r := handler i (S rest) e st in
     ls_pool r.2 = ls_pool st /\
     ((r.1 = Ok Continue /\
       last_error_strategy r.2 = Some strategy_retry /\
       should_record_error_after_retry r.2 = true) \/
      (exists code, r.1 = Ok (Break code) /\ code < 400))) /\
  (* a rung that answers below 400 *)
  (forall i rest e st code,
     is_strategy_error e = true ->
     (strategy_retry_attempt ladder world i (set_client_closed true st)).1
     = Ok (Some code) ->
     code < 400 /\
     (handler i rest e st).1 = Ok (Break code) /\
     ls_pool (handler i rest e st).2 = ls_pool st) /\
  (forall rest i st st' code,
     iteration i rest st = (Ok (Break code), st') ->
     attempt_loop rest i st = (Ok (Responded code), st')) /\
  (forall code st,
     code < 400 ->
     status_inv (api_status (ls_pool st)) ->
     let p := ls_pool st in
     let p' := ls_pool (after_loop s now switch_api_codes world code st).2 in
     frame p p' /\
     state_of (api_status p') (current_config_index p') = fresh_state /\
     (forall j, j <> current_config_index p ->
                api_status p' !! j = api_status p !! j)) /\
  (* the last pass, the rung failing too *)
  (forall i e st,
     is_strategy_error e = true ->
     (strategy_retry_attempt ladder world i (set_client_closed true st)).1
     = Ok None ->
     0 <= current_config_index (ls_pool st)
       < Z.of_nat (length (configs (ls_pool st))) ->
     let idx := current_config_index (ls_pool st) in
     let st1 := (strategy_retry_attempt ladder world i
                   (set_client_closed true st)).2 in
     let p1 := recorded s false now idx 503 (ls_pool st) in
     let after := state_of (api_status p1) idx in
     let r := handler i 0%nat e st in
     error_count after = error_count (state_of (api_status (ls_pool st)) idx) + 1 /\
     (get_api_error_threshold s <= error_count after ->
      cooldown_until after = Some (now + api_cooldown_seconds s) /\
      status after = warning) /\
     (forall j, j <> idx -> api_status p1 !! j = api_status (ls_pool st) !! j) /\
     frame (ls_pool st) p1 /\
     (switch_api_codes = [] \/ error_count after < get_api_error_threshold s ->
      r.1 = Ok Return502 /\ ls_pool r.2 = p1) /\
     (switch_api_codes <> [] ->
      r = (x ← extended_retry s now world (3 * length (configs p1));
           match x with
           | Some code => mret (Break code)
           | None => mret Return502
           end)
            (set_pool p1
               (set_last_error (last_error_status_code st1)
                  (Some strategy_retry) st1)))).
Proof.
  cbv zeta.
  split; [apply OrchestratorSpec.adds_handle_request|].
  split; [apply pass_sends_main_first|].
  split; [apply OrchestratorSpec.strategy_retry_attempt_pool|].
  split; [intros i rest e st He; by apply OrchestratorSpec.handler_strategy_error_pool|].
  split; [intros i rest e st code He Hr; by apply handler_rung_success|].
  split; [intros rest i st st' code E; by apply attempt_loop_break|].
  split.
  { intros code st Hlt Hinv. rewrite OrchestratorSpec.after_loop_success by done.
    destruct (OrchestratorSpec.reset_on_success_clears false (ls_pool st) Hinv)
      as (Hf & Hs & Ho & _); [done|].
    split; [done|]. split; [|done]. destruct Hf as (_ & -> & _). done. }
  intros i e st He Hr Hidx.
  pose proof (handler_exhausted s now switch_api_codes read_error_strategy
                connect_error_strategy read_timeout_strategy ladder world
                i e st He Hr Hidx) as Hex. cbv zeta in Hex.
  set (idx := current_config_index (ls_pool st)) in *.
  set (p1 := recorded s false now idx 503 (ls_pool st)) in *.
  assert (Hcount : error_count (state_of (api_status p1) idx)
                   = error_count (state_of (api_status (ls_pool st)) idx) + 1).
  { subst p1. rewrite PoolRecorder.recorded_status.
    apply PoolRecorder.record_error_core_count. }
  split; [done|]. split.
  { intros Hthr. subst p1. rewrite PoolRecorder.recorded_status in Hthr |- *.
    by apply (PoolRecorder.record_error_core_cooldown _ 503 now _ _ _ _ Hthr). }
  split.
  { intros j Hj. subst p1. rewrite PoolRecorder.recorded_status.
    by apply PoolRecorder.record_error_core_other. }
  assert (Hframe : frame (ls_pool st) p1).
  { subst p1. unfold recorded, record_api_error.
    destruct (_record_error_core _ _ _ _ _ _ _). done. }
  split; [done|]. split; [|intros Hs; by rewrite Hex, bool_decide_eq_true_2].
  intros Hor. rewrite Hex.
  case_bool_decide as Hs; [|done].
  destruct Hor as [Hnil|Hlt]; [done|].
  rewrite OrchestratorSpec.bind_eq.
  set (stR := set_pool p1 _).
  assert (Ha : exists a, api_status (ls_pool stR) !! current_config_index (ls_pool stR)
                         = Some a /\ error_count a < get_api_error_threshold s).
  { change (ls_pool stR) with p1.
    assert (Hi : current_config_index p1 = idx) by (by destruct Hframe as (_ & -> & _)).
    rewrite Hi. unfold state_of in Hlt.
    assert (Hsome : is_Some (api_status p1 !! idx)).
    { subst p1. rewrite PoolRecorder.recorded_status.
      rewrite PoolRecorder.record_error_core_lookup. eauto. }
    destruct Hsome as [a Ha]. rewrite Ha in Hlt. eauto. }
  destruct Ha as (a & Ha & Hlt').
  destruct (extended_retry_below_threshold s now world
              (3 * length (configs p1)) stR a Ha Hlt') as [H1 H2].
  destruct (extended_retry s now world (3 * length (configs p1)) stR) as [x st2].
  cbn [fst snd] in *. subst x. cbn. done.
Qed.

(** The last pass on one healthy entry under the built-in table: the main
    upstream answers 429, the rung 500, and the entry, at one error after the
    record, stays below the threshold of three. *)
Lemma strategy_retry_ladder_witness :
  let st := add_attempt
              {| att_kind := main_attempt 0; att_base_url := "";
                 att_key := ""; att_timeout := standard_timeout |}
              (initial_loop_state Scenarios.healthy_pool) in
  let r := handler Scenarios.one_try 1000 Scenarios.default_switch_api_codes
             "switch_api" "switch_api" "strategy_retry" [Scenarios.rung_1]
             Scenarios.overloaded 0%nat 0%nat (Status 429) st in
  r.1 = Ok Return502 /\
  ls_pool r.2 = recorded Scenarios.one_try false 1000 0 503 Scenarios.healthy_pool.
Proof.
  cbv zeta.
  refine (proj1 (proj2 (proj2 (proj2 (proj2
            (proj2 (proj2 (proj2 (proj2 (proj2 (proj2 (proj2
               (strategy_retry_ladder Scenarios.one_try 1000
                  Scenarios.default_strategy_retry_codes
                  Scenarios.default_switch_api_codes []
                  "switch_api" "switch_api" "strategy_retry" [Scenarios.rung_1]
                  Scenarios.overloaded))))))) 0%nat (Status 429) _ _ _ _))))) _).
  - reflexivity.
  - by vm_compute.
  - by vm_compute.
  - right. by vm_compute.
Defined.

(** With the entry at the threshold after the record the last-resort loop
    takes over.  A primary with two errors and a healthy backup, one pass, a
    ladder of one rung, 429 from every upstream: the record brings the primary
    to three errors and into cooldown, the loop switches to the backup, sends
    to it, records its 429 and stops there, with the pool on the backup. *)
Example exhaustion_at_threshold_switches_entry :
  let r := Scenarios.default_request Scenarios.one_try [Scenarios.rung_1]
             Scenarios.always_429 Scenarios.shaky_pair_pool in
  r.1 = Ok BadGateway /\
  map att_kind (attempts r.2) = [main_attempt 0; ladder_attempt 0; extended_attempt] /\
  current_config_index (ls_pool r.2) = 1 /\
  is_using_backup (ls_pool r.2) = true /\
  state_of (api_status (ls_pool r.2)) 0
  = {| status := warning; error_count := 3; cooldown_until := Some 1600 |} /\
  error_count (state_of (api_status (ls_pool r.2)) 1) = 1.
Proof. vm_compute. repeat split. Qed.

End LadderSpec.
